(** * A model of the gateway WebSocket client

    Shallow embedding of [extensions/dingtalk/src/gateway-ws.ts]: the class
    [GatewayWsClient] (connection life cycle, request correlation, event
    routing, reconnect back-off, progress cache) and its streaming operation
    [chatStream].

    The code is asynchronous JavaScript.  It is modelled as a transition
    system: every callback the runtime can enter (a socket event, a timer,
    a call of a public method, a resumption of the generator) is one
    [Task], and [step] runs the corresponding handler to completion, as the
    single-threaded runtime does.  The generator of [chatStream] is a state
    machine whose [Phase] names the suspension point it is parked at; the
    listener it registers shares its local variables, which therefore live
    in a frame store of the world.

    Conventions
    - the sequence number of a frame and the cursor, with which the code
      computes, are doubles ([Number]: IEEE 754 binary64 as the Standard
      Library specifies it, rounding to nearest even); milliseconds and
      timestamps, integers far below 2^53, and the sequence number inside a
      payload, which is only stored, are [Z]; string lengths are [nat]
      ([String.length]);
    - a [Map] is an association list in insertion order ([JsMap]);
    - [randomUUID()] and [Date.now()] are inputs carried by the event;
    - the value a request resolves with is never read by the code and is not
      represented;
    - a continuation that only waits for a promise of the handshake or of
      [connect] runs right after the settlement, before any other callback.

    The registry of clients ([getGatewayWsClient], [closeGatewayWsClient])
    is modelled over the clients, each with a world of its own.

    Left out: the payload of the frames that are sent, the wording of the
    log lines, a consumer that abandons the generator with
    [return()], and a [WebSocket] constructor that throws.

    The file has two parts: the model and the vocabulary of the
    properties first, then the properties. *)
From Stdlib Require Import List Ascii String ZArith Bool Arith Lia SpecFloat.
Import ListNotations.

Local Open Scope string_scope.

Local Open Scope list_scope.
Set Implicit Arguments.

(** ** JavaScript [Map] with string keys *)
Module JsMap.
Section Ops.
Variable V : Type.

Definition t := list (string * V).

Definition empty : t := [].

Fixpoint get (k : string) (m : t) : option V :=
  match m with
  | [] => None
  | (k', v) :: r => if String.eqb k k' then Some v else get k r
  end.

(** [set] on a present key keeps its position, on a new key appends. *)
Fixpoint set (k : string) (v : V) (m : t) : t :=
  match m with
  | [] => [(k, v)]
  | (k', v') :: r =>
      if String.eqb k k' then (k, v) :: r else (k', v') :: set k v r
  end.

Definition delete (k : string) (m : t) : t :=
  filter (fun e => negb (String.eqb k (fst e))) m.

Definition keys (m : t) : list string := map fst m.

Definition wf (m : t) : Prop := NoDup (keys m).
End Ops.
Arguments empty {V}.
End JsMap.

(** ** Data model *)

(** [ChatEvent.state] *)
Inductive ChatState := delta | final | aborted | error_state.

Definition ChatState_eqb (a b : ChatState) : bool :=
  match a, b with
  | delta, delta | final, final | aborted, aborted | error_state, error_state => true
  | _, _ => false
  end.

(** One element of [message.content]: [{ type: string; text?: string }]. *)
Record ContentPart := mkPart { part_type : string; part_text : option string }.

(** [message?: { role; content }]; [content] is optional because the code
    reads it with [?.]. *)
Record Message := mkMessage { role : string; content : option (list ContentPart) }.

Module ChatEvent.

  (** [interface ChatEvent].  [seq] is [None] when the payload carries no
      number there (the listener tests [typeof evt.seq === "number"]). *)
Record t := mk {
    runId : string;
    sessionKey : string;
    seq : option Z;
    state : ChatState;
    message : option Message;
    errorMessage : option string
  }.
End ChatEvent.

Module SessionProgress.

  (** [interface SessionProgress] *)
Record t := mk {
    runId : string;
    sessionKey : string;
    accumulated : string;
    lastSeq : Z;
    updatedAt : Z
  }.
End SessionProgress.

(** How a promise was settled. *)
Inductive Outcome := Resolved | Rejected (msg : string).

(** Who awaits the promise returned by [request].  The two closures of a
    [Pending] entry capture the promise of that caller. *)
Inductive Waiter :=
| AwaitHandshake (s : nat)        (* [onOpen] of socket [s], at [await this.sendConnect()] *)
| AwaitChatSend (run : string)    (* the generator of [chatStream], at [await this.request("chat.send")] *)
| AwaitAbort                      (* a caller of [abortChat] *).

(** [interface Pending]: [resolve] and [reject] both clear the timer
    [timeoutId] and then settle the promise of [waiter]. *)
Record Pending := mkPending { timeoutId : nat; waiter : Waiter }.

(** The callback given to [setTimeout]. *)
Inductive Callback :=
| RequestTimeout (id method : string) (wt : Waiter)  (* in [request] *)
| Reconnect                                          (* in [scheduleReconnect] *).

Record Timer := mkTimer { timer_id : nat; delay : Z; callback : Callback }.

(** [WebSocket.readyState] *)
Inductive ReadyState := CONNECTING | OPEN | CLOSING | CLOSED.

(** A socket made by [doConnect], with the promise that [doConnect]
    returned for it ([None] while it is pending). *)
Record Socket := mkSocket { readyState : ReadyState; promise : option Outcome }.

(** ** Numbers

    A JavaScript number is a double.  [SFadd], [SFsub] and [SFltb] at
    precision 53 and exponent bound 1024 are the operations [+], [-] and
    [<] of binary64; a comparison with [NaN] is false. *)
Definition Number : Type := spec_float.

Definition js_add (x y : Number) : Number := SFadd 53 1024 x y.

Definition js_sub (x y : Number) : Number := SFsub 53 1024 x y.

(** [x > y] *)
Definition js_gt (x y : Number) : bool := SFltb y x.

(** The double nearest to the integer [z], which is what a numeric literal
    or a JSON number with that value denotes. *)
Definition number (z : Z) : Number := binary_normalize 53 1024 z 0 false.

(** The integer a double stands for, if it is one. *)
Definition integer (x : Number) : option Z :=
  match x with
  | S754_zero _ => Some 0%Z
  | S754_finite s m e =>
      if (0 <=? e)%Z then Some (cond_Zopp s (Zpos m * 2 ^ e))
      else if (Zpos m mod 2 ^ (- e) =? 0)%Z then Some (cond_Zopp s (Zpos m / 2 ^ (- e)))
      else None
  | _ => None
  end.

(** A parsed inbound frame, as [handleMessage] inspects it.  [seq] is
    [frame.seq] when [typeof frame.seq === "number"]. *)
Inductive Frame :=
| ResFrame (id : string) (ok : bool) (error_message : option string)
| EventFrame (event : string) (seq : option Number) (payload : option ChatEvent.t)
| OtherFrame     (* any other JSON value *)
| Unparseable    (* [JSON.parse] throws *).

(** One constructor for each call of the logger. *)
Inductive LogEntry :=
| LogConnecting
| LogConnected
| LogSocketError (msg : string)
| LogGap (expected received missed : Number)
| LogParseError
| LogNotifyListener (run : string)
| LogClosedReconnect
| LogReconnectFailed (msg : string)
| LogCleanup (key : string)
| LogSaved (key : string) (chars : nat) (seq : Z)
| LogFoundProgress (key : string) (chars : nat) (seq : Z)
| LogGraceful (chars : nat) (seq : Z)
| LogInterrupted (chars : nat).

(** *** The generator frame of one [chatStream] call *)

(** The suspension points of the generator. *)
Inductive Phase :=
| AwaitRequest (settlement : option Outcome)  (* at [await this.request("chat.send", ...)] *)
| AwaitData (resolved : bool)                 (* at [await new Promise(...)] in the loop *)
| AtYield                                     (* at [yield delta] in the loop *)
| AtFinalYield                                (* at [yield delta] after the loop *)
| Returned
| Threw (msg : string).

(** The local variables of [chatStream] that the listener closure shares
    with the generator body, the point the body is suspended at, and the
    increments handed to the consumer so far. *)
Record Stream := mkStream {
  sessionKeyParam : string;        (* [params.sessionKey] *)
  accumulated : string;
  lastYieldedLength : nat;
  done : bool;
  error : option string;           (* message of the [Error], [None] for [null] *)
  disconnectedWithData : bool;
  resolvers : list unit;
  lastEventSeq : Z;
  hasNewData : bool;
  phase : Phase;
  yielded : list string
}.

Definition set_sessionKeyParam v (g : Stream) : Stream :=
  mkStream v (accumulated g) (lastYieldedLength g) (done g) (error g) (disconnectedWithData g) (resolvers g) (lastEventSeq g) (hasNewData g) (phase g) (yielded g).

Definition set_accumulated v (g : Stream) : Stream :=
  mkStream (sessionKeyParam g) v (lastYieldedLength g) (done g) (error g) (disconnectedWithData g) (resolvers g) (lastEventSeq g) (hasNewData g) (phase g) (yielded g).

Definition set_lastYieldedLength v (g : Stream) : Stream :=
  mkStream (sessionKeyParam g) (accumulated g) v (done g) (error g) (disconnectedWithData g) (resolvers g) (lastEventSeq g) (hasNewData g) (phase g) (yielded g).

Definition set_done v (g : Stream) : Stream :=
  mkStream (sessionKeyParam g) (accumulated g) (lastYieldedLength g) v (error g) (disconnectedWithData g) (resolvers g) (lastEventSeq g) (hasNewData g) (phase g) (yielded g).

Definition set_error v (g : Stream) : Stream :=
  mkStream (sessionKeyParam g) (accumulated g) (lastYieldedLength g) (done g) v (disconnectedWithData g) (resolvers g) (lastEventSeq g) (hasNewData g) (phase g) (yielded g).

Definition set_disconnectedWithData v (g : Stream) : Stream :=
  mkStream (sessionKeyParam g) (accumulated g) (lastYieldedLength g) (done g) (error g) v (resolvers g) (lastEventSeq g) (hasNewData g) (phase g) (yielded g).

Definition set_resolvers v (g : Stream) : Stream :=
  mkStream (sessionKeyParam g) (accumulated g) (lastYieldedLength g) (done g) (error g) (disconnectedWithData g) v (lastEventSeq g) (hasNewData g) (phase g) (yielded g).

Definition set_lastEventSeq v (g : Stream) : Stream :=
  mkStream (sessionKeyParam g) (accumulated g) (lastYieldedLength g) (done g) (error g) (disconnectedWithData g) (resolvers g) v (hasNewData g) (phase g) (yielded g).

Definition set_hasNewData v (g : Stream) : Stream :=
  mkStream (sessionKeyParam g) (accumulated g) (lastYieldedLength g) (done g) (error g) (disconnectedWithData g) (resolvers g) (lastEventSeq g) v (phase g) (yielded g).

Definition set_phase v (g : Stream) : Stream :=
  mkStream (sessionKeyParam g) (accumulated g) (lastYieldedLength g) (done g) (error g) (disconnectedWithData g) (resolvers g) (lastEventSeq g) (hasNewData g) v (yielded g).

Definition set_yielded v (g : Stream) : Stream :=
  mkStream (sessionKeyParam g) (accumulated g) (lastYieldedLength g) (done g) (error g) (disconnectedWithData g) (resolvers g) (lastEventSeq g) (hasNewData g) (phase g) v.

(** *** The client object *)
Record GatewayWsClient := mkClient {
  ws : option nat;                         (* the socket, named by its index in [sockets] *)
  pending : JsMap.t Pending;
  chatListeners : JsMap.t string;          (* run id |-> the listener closed over that run's frame *)
  connected : bool;
  closed : bool;
  disconnected : bool;
  reconnectTimer : option nat;
  backoffMs : Z;
  connectPromise : option nat;             (* the promise of the [doConnect] that made this socket *)
  lastSeq : option Number;
  sessionProgress : JsMap.t SessionProgress.t
}.

Definition set_ws v (c : GatewayWsClient) : GatewayWsClient :=
  mkClient v (pending c) (chatListeners c) (connected c) (closed c) (disconnected c) (reconnectTimer c) (backoffMs c) (connectPromise c) (lastSeq c) (sessionProgress c).

Definition set_pending v (c : GatewayWsClient) : GatewayWsClient :=
  mkClient (ws c) v (chatListeners c) (connected c) (closed c) (disconnected c) (reconnectTimer c) (backoffMs c) (connectPromise c) (lastSeq c) (sessionProgress c).

Definition set_chatListeners v (c : GatewayWsClient) : GatewayWsClient :=
  mkClient (ws c) (pending c) v (connected c) (closed c) (disconnected c) (reconnectTimer c) (backoffMs c) (connectPromise c) (lastSeq c) (sessionProgress c).

Definition set_connected v (c : GatewayWsClient) : GatewayWsClient :=
  mkClient (ws c) (pending c) (chatListeners c) v (closed c) (disconnected c) (reconnectTimer c) (backoffMs c) (connectPromise c) (lastSeq c) (sessionProgress c).

Definition set_closed v (c : GatewayWsClient) : GatewayWsClient :=
  mkClient (ws c) (pending c) (chatListeners c) (connected c) v (disconnected c) (reconnectTimer c) (backoffMs c) (connectPromise c) (lastSeq c) (sessionProgress c).

Definition set_disconnected v (c : GatewayWsClient) : GatewayWsClient :=
  mkClient (ws c) (pending c) (chatListeners c) (connected c) (closed c) v (reconnectTimer c) (backoffMs c) (connectPromise c) (lastSeq c) (sessionProgress c).

Definition set_reconnectTimer v (c : GatewayWsClient) : GatewayWsClient :=
  mkClient (ws c) (pending c) (chatListeners c) (connected c) (closed c) (disconnected c) v (backoffMs c) (connectPromise c) (lastSeq c) (sessionProgress c).

Definition set_backoffMs v (c : GatewayWsClient) : GatewayWsClient :=
  mkClient (ws c) (pending c) (chatListeners c) (connected c) (closed c) (disconnected c) (reconnectTimer c) v (connectPromise c) (lastSeq c) (sessionProgress c).

Definition set_connectPromise v (c : GatewayWsClient) : GatewayWsClient :=
  mkClient (ws c) (pending c) (chatListeners c) (connected c) (closed c) (disconnected c) (reconnectTimer c) (backoffMs c) v (lastSeq c) (sessionProgress c).

Definition set_lastSeq v (c : GatewayWsClient) : GatewayWsClient :=
  mkClient (ws c) (pending c) (chatListeners c) (connected c) (closed c) (disconnected c) (reconnectTimer c) (backoffMs c) (connectPromise c) v (sessionProgress c).

Definition set_sessionProgress v (c : GatewayWsClient) : GatewayWsClient :=
  mkClient (ws c) (pending c) (chatListeners c) (connected c) (closed c) (disconnected c) (reconnectTimer c) (backoffMs c) (connectPromise c) (lastSeq c) v.

Definition PROGRESS_TTL_MS : Z := 5 * 60 * 1000.

(** *** The runtime around it *)
Record World := mkWorld {
  this : GatewayWsClient;
  sockets : list Socket;                   (* every [new WebSocket], in creation order *)
  timers : list Timer;                     (* timers set and neither fired nor cleared *)
  nextTimer : nat;
  reconnectAwaits : list nat;              (* attempts a reconnect callback waits for *)
  frames : JsMap.t Stream;                 (* generator frames by run id *)
  (* traces of what the client did *)
  log : list LogEntry;
  sent : list (string * string);           (* request frames written: id, method *)
  settled : list (string * Outcome);       (* request promises settled: id, outcome *)
  delivered : list ChatEvent.t             (* events handed to a listener *)
}.

Definition set_this v (w : World) : World :=
  mkWorld v (sockets w) (timers w) (nextTimer w) (reconnectAwaits w) (frames w) (log w) (sent w) (settled w) (delivered w).

Definition set_sockets v (w : World) : World :=
  mkWorld (this w) v (timers w) (nextTimer w) (reconnectAwaits w) (frames w) (log w) (sent w) (settled w) (delivered w).

Definition set_timers v (w : World) : World :=
  mkWorld (this w) (sockets w) v (nextTimer w) (reconnectAwaits w) (frames w) (log w) (sent w) (settled w) (delivered w).

Definition set_nextTimer v (w : World) : World :=
  mkWorld (this w) (sockets w) (timers w) v (reconnectAwaits w) (frames w) (log w) (sent w) (settled w) (delivered w).

Definition set_reconnectAwaits v (w : World) : World :=
  mkWorld (this w) (sockets w) (timers w) (nextTimer w) v (frames w) (log w) (sent w) (settled w) (delivered w).

Definition set_frames v (w : World) : World :=
  mkWorld (this w) (sockets w) (timers w) (nextTimer w) (reconnectAwaits w) v (log w) (sent w) (settled w) (delivered w).

Definition set_log v (w : World) : World :=
  mkWorld (this w) (sockets w) (timers w) (nextTimer w) (reconnectAwaits w) (frames w) v (sent w) (settled w) (delivered w).

Definition set_sent v (w : World) : World :=
  mkWorld (this w) (sockets w) (timers w) (nextTimer w) (reconnectAwaits w) (frames w) (log w) v (settled w) (delivered w).

Definition set_settled v (w : World) : World :=
  mkWorld (this w) (sockets w) (timers w) (nextTimer w) (reconnectAwaits w) (frames w) (log w) (sent w) v (delivered w).

Definition set_delivered v (w : World) : World :=
  mkWorld (this w) (sockets w) (timers w) (nextTimer w) (reconnectAwaits w) (frames w) (log w) (sent w) (settled w) v.

Definition on_this (f : GatewayWsClient -> GatewayWsClient) (w : World) : World :=
  set_this (f (this w)) w.

Definition logger (e : LogEntry) (w : World) : World := set_log (log w ++ [e]) w.

(** [new GatewayWsClient(config, logger)] in a fresh runtime. *)
Definition new_client : GatewayWsClient :=
  mkClient None JsMap.empty JsMap.empty false false false None 1000 None None JsMap.empty.

Definition init : World :=
  mkWorld new_client [] [] 0 [] JsMap.empty [] [] [] [].

(** ** Timers and promises *)
Definition setTimeout (cb : Callback) (ms : Z) (w : World) : nat * World :=
  let t := nextTimer w in
  (t, set_nextTimer (S t) (set_timers (timers w ++ [mkTimer t ms cb]) w)).

Definition clearTimeout (t : nat) (w : World) : World :=
  set_timers (filter (fun x => negb (Nat.eqb (timer_id x) t)) (timers w)) w.

Fixpoint update_nth (A : Type) (n : nat) (f : A -> A) (l : list A) : list A :=
  match l, n with
  | [], _ => []
  | x :: r, O => f x :: r
  | x :: r, S n => x :: update_nth n f r
  end.

(** Settling the promise [doConnect] returned for socket [a].  A promise
    settles once.  The first caller of [connect] then leaves its [try]:
    [finally] resets [connectPromise] (lines 89-93); a reconnect callback
    waiting for this promise logs the failure (lines 229-231). *)
Definition settleAttempt (a : nat) (o : Outcome) (w : World) : World :=
  match nth_error (sockets w) a with
  | Some (mkSocket _ None) =>
      let w := set_sockets (update_nth a (fun s => mkSocket (readyState s) (Some o)) (sockets w)) w in
      let w := on_this (set_connectPromise None) w in
      match o with
      | Rejected e =>
          fold_left (fun w _ => logger (LogReconnectFailed e) w)
                    (filter (Nat.eqb a) (reconnectAwaits w)) w
      | Resolved => w
      end
  | _ => w
  end.

(** The code that runs once the promise of a [request] is settled. *)
Definition resume_waiter (wt : Waiter) (o : Outcome) (w : World) : World :=
  match wt with
  | AwaitHandshake a =>
      (* [onOpen], lines 104-114 *)
      match o with
      | Resolved =>
          let w := on_this (set_connected true) w in
          let w := on_this (set_backoffMs 1000%Z) w in
          let w := logger LogConnected w in
          settleAttempt a Resolved w
      | Rejected e => settleAttempt a (Rejected e) w
      end
  | AwaitChatSend r =>
      match JsMap.get r (frames w) with
      | Some g =>
          match phase g with
          | AwaitRequest None =>
              set_frames (JsMap.set r (set_phase (AwaitRequest (Some o)) g) (frames w)) w
          | _ => w
          end
      | None => w
      end
  | AwaitAbort => w
  end.

Definition settle (id : string) (wt : Waiter) (o : Outcome) (w : World) : World :=
  resume_waiter wt o (set_settled (settled w ++ [(id, o)]) w).

(** [pending.resolve] and [pending.reject] of the entry registered under
    [id] (lines 260-267). *)
Definition pending_resolve (id : string) (p : Pending) (w : World) : World :=
  settle id (waiter p) Resolved (clearTimeout (timeoutId p) w).

Definition pending_reject (id : string) (p : Pending) (err : string) (w : World) : World :=
  settle id (waiter p) (Rejected err) (clearTimeout (timeoutId p) w).

(** ** The correlator *)
Inductive Completion (A : Type) := Normal (a : A) | Throws (msg : string).
Arguments Normal {A} a.
Arguments Throws {A} msg.

Definition ws_open (w : World) : bool :=
  match ws (this w) with
  | Some s =>
      match nth_error (sockets w) s with
      | Some (mkSocket OPEN _) => true
      | _ => false
      end
  | None => false
  end.

(** [request] (lines 245-272), up to the point where the promise is
    returned.  [id] is the value of [randomUUID()]. *)
Definition request (method id : string) (wt : Waiter) (w : World) : Completion World :=
  if negb (ws_open w) then Throws "not connected"
  else
    let (t, w) := setTimeout (RequestTimeout id method wt) 30000%Z w in
    let w := on_this (fun c => set_pending (JsMap.set id (mkPending t wt) (pending c)) c) w in
    Normal (set_sent (sent w ++ [(id, method)]) w).

(** The callback of the timer of a request (lines 254-257). *)
Definition request_timeout (id method : string) (wt : Waiter) (w : World) : World :=
  let w := on_this (fun c => set_pending (JsMap.delete id (pending c)) c) w in
  settle id wt (Rejected ("request timeout: " ++ method)) w.

(** [flushPending] (lines 238-243) *)
Definition flushPending (err : string) (w : World) : World :=
  let w := fold_left (fun w e => pending_reject (fst e) (snd e) err w) (pending (this w)) w in
  on_this (set_pending JsMap.empty) w.

(** ** The progress cache *)
Definition expired (now : Z) (p : SessionProgress.t) : bool :=
  (now - SessionProgress.updatedAt p >? PROGRESS_TTL_MS)%Z.

(** [cleanupExpiredProgress] (lines 277-285).  Deleting the entry being
    visited does not disturb the iteration over the others. *)
Definition cleanupExpiredProgress (now : Z) (w : World) : World :=
  fold_left
    (fun w e =>
       if expired now (snd e) then
         let w := logger (LogCleanup (fst e)) w in
         on_this (fun c => set_sessionProgress (JsMap.delete (fst e) (sessionProgress c)) c) w
       else w)
    (sessionProgress (this w)) w.

(** [saveProgress] (lines 290-301) *)
Definition saveProgress (key run acc : string) (seq now : Z) (w : World) : World :=
  let w := on_this (fun c => set_sessionProgress
                     (JsMap.set key (SessionProgress.mk run key acc seq now) (sessionProgress c)) c) w in
  logger (LogSaved key (String.length acc) seq) w.

(** [getProgress] (lines 306-309) *)
Definition getProgress (key : string) (now : Z) (w : World) : option SessionProgress.t * World :=
  let w := cleanupExpiredProgress now w in
  (JsMap.get key (sessionProgress (this w)), w).

(** [clearProgress] (lines 314-316) *)
Definition clearProgress (key : string) (w : World) : World :=
  on_this (fun c => set_sessionProgress (JsMap.delete key (sessionProgress c)) c) w.

(** ** The listener of a stream *)

(** [evt.message?.content?.filter(c => c.type === "text").map(c => c.text ?? "").join("") ?? ""] *)
Definition extractText (evt : ChatEvent.t) : string :=
  match ChatEvent.message evt with
  | None => ""
  | Some m =>
      match content m with
      | None => ""
      | Some parts =>
          String.concat ""
            (map (fun c => match part_text c with Some s => s | None => "" end)
                 (filter (fun c => String.eqb (part_type c) "text") parts))
      end
  end.

(** [s.slice(n)] for [0 <= n] *)
Definition slice (n : nat) (s : string) : string :=
  String.substring n (String.length s - n) s.

(** Calling a resolver settles the promise the generator waits for. *)
Definition wake (g : Stream) : Stream :=
  match phase g with
  | AwaitData false => set_phase (AwaitData true) g
  | _ => g
  end.

(** The closure registered at lines 353-399 works on the local variables
    of the generator and on the client; it is written here block by block
    on the pair of the frame and the world. *)

(** Lines 355-357 *)
Definition listen_seq (evt : ChatEvent.t) (gw : Stream * World) : Stream * World :=
  let (g, w) := gw in
  match ChatEvent.seq evt with
  | Some s => (set_lastEventSeq s g, w)
  | None => (g, w)
  end.

(** Lines 359-374; [now] is what [Date.now()] returns inside [saveProgress]. *)
Definition listen_text (r : string) (evt : ChatEvent.t) (now : Z) (gw : Stream * World)
  : Stream * World :=
  let (g, w) := gw in
  let st := ChatEvent.state evt in
  if ChatState_eqb st delta || ChatState_eqb st final then
    let text := extractText evt in
    if (String.length (accumulated g) <? String.length text)%nat then
      let g := set_accumulated text g in
      let g := set_hasNewData true g in
      (g, saveProgress (sessionKeyParam g) r (accumulated g) (lastEventSeq g) now w)
    else (g, w)
  else (g, w).

(** Lines 376-380 *)
Definition listen_terminal (evt : ChatEvent.t) (gw : Stream * World) : Stream * World :=
  let (g, w) := gw in
  let st := ChatEvent.state evt in
  if ChatState_eqb st final || ChatState_eqb st aborted then
    (set_done true g, clearProgress (sessionKeyParam g) w)
  else (g, w).

(** Lines 382-395 *)
Definition listen_error (evt : ChatEvent.t) (gw : Stream * World) : Stream * World :=
  let (g, w) := gw in
  if ChatState_eqb (ChatEvent.state evt) error_state then
    if (0 <? String.length (accumulated g))%nat then
      let w := logger (LogGraceful (String.length (accumulated g)) (lastEventSeq g)) w in
      let g := set_disconnectedWithData true g in
      (set_done true g, w)
    else
      let msg := match ChatEvent.errorMessage evt with
                 | Some m => m
                 | None => "chat error"
                 end in
      (set_done true (set_error (Some msg) g), w)
  else (g, w).

(** Line 398: [resolvers.shift()?.()] *)
Definition listen_wake (gw : Stream * World) : Stream * World :=
  let (g, w) := gw in
  match resolvers g with
  | [] => (g, w)
  | _ :: rest => (wake (set_resolvers rest g), w)
  end.

(** The listener of run [r], applied to an event. *)
Definition listener (r : string) (evt : ChatEvent.t) (now : Z) (w : World) : World :=
  match JsMap.get r (frames w) with
  | None => w
  | Some g =>
      let (g, w) :=
        listen_wake (listen_error evt (listen_terminal evt
          (listen_text r evt now (listen_seq evt (g, w))))) in
      set_frames (JsMap.set r g (frames w)) w
  end.

(** ** The event router *)

(** [this.chatListeners.get(payload.runId)] and [listener?.(payload)] *)
Definition dispatch (evt : ChatEvent.t) (now : Z) (w : World) : World :=
  match JsMap.get (ChatEvent.runId evt) (chatListeners (this w)) with
  | Some r => listener r evt now (set_delivered (delivered w ++ [evt]) w)
  | None => w
  end.

(** Lines 176-185: gap detection and the cursor. *)
Definition trackSeq (seq : option Number) (w : World) : World :=
  match seq with
  | Some s =>
      let w := match lastSeq (this w) with
               | Some c =>
                   if js_gt s (js_add c (number 1))
                   then logger (LogGap (js_add c (number 1)) s
                                       (js_sub (js_sub s c) (number 1))) w
                   else w
               | None => w
               end in
      on_this (set_lastSeq (Some s)) w
  | None => w
  end.

(** [handleMessage] (lines 154-197) on the parsed frame. *)
Definition handleMessage (f : Frame) (now : Z) (w : World) : World :=
  match f with
  | Unparseable => logger LogParseError w
  | OtherFrame => w
  | ResFrame id ok err =>
      match JsMap.get id (pending (this w)) with
      | Some p =>
          let w := on_this (fun c => set_pending (JsMap.delete id (pending c)) c) w in
          if ok then pending_resolve id p w
          else pending_reject id p (match err with Some m => m | None => "unknown error" end) w
      | None => w
      end
  | EventFrame ev seq payload =>
      let w := trackSeq seq w in
      if String.eqb ev "chat" then
        match payload with
        | Some evt => dispatch evt now w
        | None => logger LogParseError w   (* [payload.runId] throws, caught at line 194 *)
        end
      else w
  end.

(** ** The connection manager *)

(** [scheduleReconnect] (lines 224-236) *)
Definition scheduleReconnect (w : World) : World :=
  match reconnectTimer (this w) with
  | Some _ => w
  | None =>
      let (t, w) := setTimeout Reconnect (backoffMs (this w)) w in
      let w := on_this (set_reconnectTimer (Some t)) w in
      on_this (fun c => set_backoffMs (Z.min (backoffMs c * 2) 30000) c) w
  end.

(** The event [handleClose] hands to every listener (lines 209-215). *)
Definition closeEvent (r : string) : ChatEvent.t :=
  ChatEvent.mk r "" (Some (-1)%Z) error_state None
               (Some "WebSocket connection closed unexpectedly").

(** [handleClose] (lines 199-222) *)
Definition handleClose (now : Z) (w : World) : World :=
  let w := on_this (set_connected false) w in
  let w := on_this (set_disconnected true) w in
  let w := on_this (set_ws None) w in
  let w := flushPending "connection closed" w in
  let w := fold_left
             (fun w e =>
                let w := logger (LogNotifyListener (fst e)) w in
                listener (snd e) (closeEvent (fst e)) now
                         (set_delivered (delivered w ++ [closeEvent (fst e)]) w))
             (chatListeners (this w)) w in
  if negb (closed (this w)) then
    scheduleReconnect (logger LogClosedReconnect w)
  else w.

(** [doConnect] (lines 96-126): the socket is created and the handlers are
    attached; the promise is named by the index of the socket. *)
Definition doConnect (w : World) : nat * World :=
  let w := logger LogConnecting w in
  let s := List.length (sockets w) in
  let w := set_sockets (sockets w ++ [mkSocket CONNECTING None]) w in
  let w := on_this (set_ws (Some s)) w in
  (s, on_this (set_disconnected false) w).

(** What a caller of [connect] gets. *)
Inductive ConnectResult :=
| ConnectNoop                     (* returned at once *)
| ConnectThrows (msg : string)
| ConnectAwaits (s : nat)         (* settles as the promise [doConnect] returned for socket [s] *).

(** [connect] (lines 81-94) up to its first suspension. *)
Definition connect (w : World) : ConnectResult * World :=
  if connected (this w) then (ConnectNoop, w)
  else if closed (this w) then (ConnectThrows "client is closed", w)
  else
    match connectPromise (this w) with
    | Some a => (ConnectAwaits a, w)
    | None =>
        let (a, w) := doConnect w in
        (ConnectAwaits a, on_this (set_connectPromise (Some a)) w)
    end.

(** [isConnected] (lines 457-459) *)
Definition isConnected (w : World) : bool := connected (this w).

Definition socketState (s : nat) (w : World) : option ReadyState :=
  option_map readyState (nth_error (sockets w) s).

Definition set_readyState (s : nat) (st : ReadyState) (w : World) : World :=
  set_sockets (update_nth s (fun x => mkSocket st (promise x)) (sockets w)) w.

(** [WebSocket.close()]: an open or connecting socket starts closing. *)
Definition socket_close (s : nat) (w : World) : World :=
  match socketState s w with
  | Some CONNECTING | Some OPEN => set_readyState s CLOSING w
  | _ => w
  end.

(** [close] (lines 464-473) *)
Definition close (w : World) : World :=
  let w := on_this (set_closed true) w in
  let w := match reconnectTimer (this w) with
           | Some t => on_this (set_reconnectTimer None) (clearTimeout t w)
           | None => w
           end in
  let w := match ws (this w) with
           | Some s => socket_close s w
           | None => w
           end in
  let w := on_this (set_ws None) w in
  flushPending "client closed" w.

(** [onOpen] (lines 104-114) up to [await this.sendConnect()]; [id] is the
    correlation id drawn by the [request] inside [sendConnect]. *)
Definition onOpen (a : nat) (id : string) (w : World) : World :=
  match request "connect" id (AwaitHandshake a) w with
  | Normal w => w
  | Throws e => settleAttempt a (Rejected e) w
  end.

(** [onError] (lines 116-119) *)
Definition onError (a : nat) (err : string) (w : World) : World :=
  let w := logger (LogSocketError err) w in
  if negb (connected (this w)) then settleAttempt a (Rejected err) w else w.

(** The callback of the reconnect timer (lines 227-232). *)
Definition reconnect_callback (w : World) : World :=
  let w := on_this (set_reconnectTimer None) w in
  match connect w with
  | (ConnectNoop, w) => w
  | (ConnectThrows e, w) => logger (LogReconnectFailed e) w
  | (ConnectAwaits a, w) =>
      match option_map promise (nth_error (sockets w) a) with
      | Some (Some (Rejected e)) => logger (LogReconnectFailed e) w
      | Some (Some Resolved) => w
      | _ => set_reconnectAwaits (reconnectAwaits w ++ [a]) w
      end
  end.

(** [abortChat] (lines 450-452) up to its suspension. *)
Definition abortChat (id : string) (w : World) : Completion World :=
  request "chat.abort" id AwaitAbort w.

(** ** The stream orchestrator *)
Definition store (r : string) (g : Stream) (w : World) : World :=
  set_frames (JsMap.set r g (frames w)) w.

(** The [finally] block (lines 442-444). *)
Definition stream_finally (r : string) (w : World) : World :=
  on_this (fun c => set_chatListeners (JsMap.delete r (chatListeners c)) c) w.

Definition stream_throw (r : string) (g : Stream) (e : string) (w : World) : World :=
  stream_finally r (store r (set_phase (Threw e) g) w).

(** Lines 439-444: the end of the body. *)
Definition stream_return (r : string) (g : Stream) (w : World) : World :=
  let w := if disconnectedWithData g
           then logger (LogInterrupted (String.length (accumulated g))) w
           else w in
  stream_finally r (store r (set_phase Returned g) w).

(** Lines 433-437: the flush after the loop. *)
Definition after_loop (r : string) (g : Stream) (w : World) : World :=
  if (lastYieldedLength g <? String.length (accumulated g))%nat then
    let delta := slice (lastYieldedLength g) (accumulated g) in
    store r (set_phase AtFinalYield (set_yielded (yielded g ++ [delta]) g)) w
  else stream_return r g w.

(** Lines 411-419: the loop test and the executor of the promise. *)
Definition loop_head (r : string) (g : Stream) (w : World) : World :=
  if negb (done g) then
    if done g || hasNewData g then store r (set_phase (AwaitData true) g) w
    else store r (set_phase (AwaitData false) (set_resolvers (resolvers g ++ [tt]) g)) w
  else after_loop r g w.

(** Lines 421-430, from the resumption after the [await] to the [yield]. *)
Definition loop_body (r : string) (g : Stream) (w : World) : World :=
  match error g with
  | Some e =>
      if (String.length (accumulated g) =? 0)%nat then stream_throw r g e w
      else
        if hasNewData g && (lastYieldedLength g <? String.length (accumulated g))%nat then
          let delta := slice (lastYieldedLength g) (accumulated g) in
          store r (set_phase AtYield (set_yielded (yielded g ++ [delta]) g)) w
        else loop_head r g w
  | None =>
      if hasNewData g && (lastYieldedLength g <? String.length (accumulated g))%nat then
        let delta := slice (lastYieldedLength g) (accumulated g) in
        store r (set_phase AtYield (set_yielded (yielded g ++ [delta]) g)) w
      else loop_head r g w
  end.

(** Lines 428-429, run when the consumer asks for the next increment. *)
Definition after_yield (r : string) (g : Stream) (w : World) : World :=
  let g := set_lastYieldedLength (String.length (accumulated g)) g in
  let g := set_hasNewData false g in
  loop_head r g w.

(** The first [next()] of the generator: lines 332-409, up to the [await]
    of the request.  [r] and [id] are the two values of [randomUUID()]. *)
Definition chatStream_start (r id key : string) (now : Z) (w : World) : World :=
  match JsMap.get r (frames w) with
  | Some _ => w
  | None =>
      let g := mkStream key "" 0 false None false [] 0%Z false (AwaitRequest None) [] in
      let (savedProgress, w) := getProgress key now w in
      let w := match savedProgress with
               | Some p => logger (LogFoundProgress key
                                     (String.length (SessionProgress.accumulated p))
                                     (SessionProgress.lastSeq p)) w
               | None => w
               end in
      let w := store r g w in
      let w := on_this (fun c => set_chatListeners (JsMap.set r r (chatListeners c)) c) w in
      match request "chat.send" id (AwaitChatSend r) w with
      | Normal w => w
      | Throws e => stream_throw r g e w
      end
  end.

(** The generator continues after an [await] whose promise is settled. *)
Definition chatStream_resume (r : string) (w : World) : World :=
  match JsMap.get r (frames w) with
  | Some g =>
      match phase g with
      | AwaitRequest (Some Resolved) => loop_head r g w
      | AwaitRequest (Some (Rejected e)) => stream_throw r g e w
      | AwaitData true => loop_body r g w
      | _ => w
      end
  | None => w
  end.

(** A later [next()] of the consumer, the generator being parked at a
    [yield]. *)
Definition chatStream_next (r : string) (w : World) : World :=
  match JsMap.get r (frames w) with
  | Some g =>
      match phase g with
      | AtYield => after_yield r g w
      | AtFinalYield => stream_return r g w
      | _ => w
      end
  | None => w
  end.

(** ** The transition system *)
Inductive Task :=
| CallConnect                                         (* [connect()] *)
| CallClose                                           (* [close()] *)
| CallAbortChat (id : string)                         (* [abortChat(...)] *)
| StreamStart (run id key : string) (now : Z)         (* first [next()] of a [chatStream(...)] *)
| StreamResume (run : string)
| StreamNext (run : string)
| SocketOpen (s : nat) (id : string)                  (* ["open"] *)
| SocketError (s : nat) (err : string)                (* ["error"] *)
| SocketMessage (s : nat) (f : Frame) (now : Z)       (* ["message"] *)
| SocketClose (s : nat) (now : Z)                     (* ["close"] *)
| TimerFires (t : nat).

Definition step (w : World) (e : Task) : World :=
  match e with
  | CallConnect => snd (connect w)
  | CallClose => close w
  | CallAbortChat id =>
      match abortChat id w with Normal w => w | Throws _ => w end
  | StreamStart r id key now => chatStream_start r id key now w
  | StreamResume r => chatStream_resume r w
  | StreamNext r => chatStream_next r w
  | SocketOpen s id =>
      match socketState s w with
      | Some CONNECTING => onOpen s id (set_readyState s OPEN w)
      | _ => w
      end
  | SocketError s err =>
      match socketState s w with
      | Some CLOSED | None => w
      | Some _ => onError s err (set_readyState s CLOSING w)
      end
  | SocketMessage s f now =>
      match socketState s w with
      | Some OPEN | Some CLOSING => handleMessage f now w
      | _ => w
      end
  | SocketClose s now =>
      match socketState s w with
      | Some CLOSED | None => w
      | Some _ => handleClose now (set_readyState s CLOSED w)
      end
  | TimerFires t =>
      match find (fun x => Nat.eqb (timer_id x) t) (timers w) with
      | Some tm =>
          let w := clearTimeout t w in
          match callback tm with
          | RequestTimeout id method wt => request_timeout id method wt w
          | Reconnect => reconnect_callback w
          end
      | None => w
      end
  end.

Definition run (w : World) (es : list Task) : World := fold_left step es w.

Inductive reachable : World -> Prop :=
| reach_init : reachable init
| reach_step w e : reachable w -> reachable (step w e).

(** ** The frame of a stream on its own

    The listener and the generator read and write the frame of their run;
    of the client they only write the progress cache, the log and, at the
    end, the listener table.  The functions below give their effect on the
    frame; the lemmas [listener_frame], [resume_frame] and [next_frame]
    show that this is what the code of the model does to it. *)
Definition seq_frame (evt : ChatEvent.t) (g : Stream) : Stream :=
  match ChatEvent.seq evt with
  | Some s => set_lastEventSeq s g
  | None => g
  end.

(** The event carries text that the listener takes over. *)
Definition accepts (evt : ChatEvent.t) (g : Stream) : bool :=
  (ChatState_eqb (ChatEvent.state evt) delta || ChatState_eqb (ChatEvent.state evt) final)
  && (String.length (accumulated g) <? String.length (extractText evt))%nat.

Definition text_frame (evt : ChatEvent.t) (g : Stream) : Stream :=
  if accepts evt g then set_hasNewData true (set_accumulated (extractText evt) g) else g.

Definition terminal_frame (evt : ChatEvent.t) (g : Stream) : Stream :=
  if ChatState_eqb (ChatEvent.state evt) final || ChatState_eqb (ChatEvent.state evt) aborted
  then set_done true g else g.

Definition error_frame (evt : ChatEvent.t) (g : Stream) : Stream :=
  if ChatState_eqb (ChatEvent.state evt) error_state then
    if (0 <? String.length (accumulated g))%nat then
      set_done true (set_disconnectedWithData true g)
    else
      set_done true
        (set_error (Some match ChatEvent.errorMessage evt with
                         | Some m => m
                         | None => "chat error"
                         end) g)
  else g.

Definition wake_frame (g : Stream) : Stream :=
  match resolvers g with
  | [] => g
  | _ :: rest => wake (set_resolvers rest g)
  end.

Definition on_event (evt : ChatEvent.t) (g : Stream) : Stream :=
  wake_frame (error_frame evt (terminal_frame evt (text_frame evt (seq_frame evt g)))).

Definition yield_frame (ph : Phase) (g : Stream) : Stream :=
  set_phase ph
    (set_yielded (yielded g ++ [slice (lastYieldedLength g) (accumulated g)]) g).

Definition after_loop_frame (g : Stream) : Stream :=
  if (lastYieldedLength g <? String.length (accumulated g))%nat
  then yield_frame AtFinalYield g
  else set_phase Returned g.

Definition loop_head_frame (g : Stream) : Stream :=
  if negb (done g) then
    if done g || hasNewData g then set_phase (AwaitData true) g
    else set_phase (AwaitData false) (set_resolvers (resolvers g ++ [tt]) g)
  else after_loop_frame g.

Definition loop_body_frame (g : Stream) : Stream :=
  match error g with
  | Some e =>
      if (String.length (accumulated g) =? 0)%nat then set_phase (Threw e) g
      else if hasNewData g && (lastYieldedLength g <? String.length (accumulated g))%nat
           then yield_frame AtYield g
           else loop_head_frame g
  | None =>
      if hasNewData g && (lastYieldedLength g <? String.length (accumulated g))%nat
      then yield_frame AtYield g
      else loop_head_frame g
  end.

Definition on_resume (g : Stream) : Stream :=
  match phase g with
  | AwaitRequest (Some Resolved) => loop_head_frame g
  | AwaitRequest (Some (Rejected e)) => set_phase (Threw e) g
  | AwaitData true => loop_body_frame g
  | _ => g
  end.

Definition on_next (g : Stream) : Stream :=
  match phase g with
  | AtYield =>
      loop_head_frame
        (set_hasNewData false (set_lastYieldedLength (String.length (accumulated g)) g))
  | AtFinalYield => set_phase Returned g
  | _ => g
  end.

(** What can happen to one stream. *)
Inductive Action :=
| Deliver (evt : ChatEvent.t)   (* the listener is called *)
| Settle (o : Outcome)          (* the request is answered or rejected *)
| Resume                        (* the generator continues after an [await] *)
| Next                          (* the consumer asks for the next increment *).

Definition act (g : Stream) (a : Action) : Stream :=
  match a with
  | Deliver evt => on_event evt g
  | Settle o =>
      match phase g with
      | AwaitRequest None => set_phase (AwaitRequest (Some o)) g
      | _ => g
      end
  | Resume => on_resume g
  | Next => on_next g
  end.

(** The frame at the first suspension of the generator. *)
Definition fresh_frame (key : string) : Stream :=
  mkStream key "" 0 false None false [] 0%Z false (AwaitRequest None) [].

(** The generator is suspended at an [await], not at a [yield]. *)
Definition at_await (g : Stream) : bool :=
  match phase g with
  | AwaitRequest _ | AwaitData _ => true
  | _ => false
  end.

(** Along the actions: every event reaches the stream while the generator
    is at an [await] (the consumer has taken the last increment and asked
    for the next one), and every text that is taken over extends the text
    accumulated so far. *)
Fixpoint prompt_and_cumulative (g : Stream) (acts : list Action) : Prop :=
  match acts with
  | [] => True
  | a :: acts =>
      match a with
      | Deliver evt =>
          at_await g = true /\
          (accepts evt (seq_frame evt g) = true ->
           String.prefix (accumulated g) (extractText evt) = true)
      | _ => True
      end /\
      prompt_and_cumulative (act g a) acts
  end.

(** A generator that waits for data has left a resolver for the listener. *)
Definition parked (g : Stream) : Prop :=
  phase g = AwaitData false -> resolvers g <> [].

(** The increments yielded so far make up the first [lastYieldedLength]
    characters of the accumulated text; at a [yield] and after the
    generator returned they make up all of it. *)
Definition consistent (g : Stream) : Prop :=
  lastYieldedLength g <= String.length (accumulated g) /\
  match phase g with
  | AtYield | AtFinalYield | Returned => String.concat "" (yielded g) = accumulated g
  | Threw _ => True
  | AwaitRequest _ | AwaitData _ =>
      String.concat "" (yielded g) = String.substring 0 (lastYieldedLength g) (accumulated g)
  end.

(** A consumer that keeps up with a peer sending ["He"], ["Hello"] and
    ["Hello!"]. *)
Definition keeping_up : list Action :=
  [Settle Resolved; Resume;
   Deliver (ChatEvent.mk "r-1" "s1" (Some 1%Z) delta
              (Some (mkMessage "assistant" (Some [mkPart "text" (Some "He")]))) None);
   Resume; Next;
   Deliver (ChatEvent.mk "r-1" "s1" (Some 2%Z) delta (Some (mkMessage "assistant" (Some [mkPart "text" (Some "Hello")]))) None);
   Resume; Next;
   Deliver (ChatEvent.mk "r-1" "s1" (Some 3%Z) final (Some (mkMessage "assistant" (Some [mkPart "text" (Some "Hello!")]))) None);
   Resume; Next].

(** The consumer has taken ["Hello"] and waits. *)
Definition waiting_with_text : list Action :=
  [Settle Resolved; Resume;
   Deliver (ChatEvent.mk "r-1" "s1" (Some 1%Z) delta (Some (mkMessage "assistant" (Some [mkPart "text" (Some "Hello")]))) None);
   Resume; Next].

(** The request is acknowledged and nothing has arrived. *)
Definition waiting_without_text : list Action := [Settle Resolved; Resume].

Definition failure (msg : string) : ChatEvent.t :=
  ChatEvent.mk "r-1" "s1" None error_state None (Some msg).

(** * Vocabulary of the properties *)

(** ** What a handler leaves alone

    [frame w w'] says that going from [w] to [w'] no timer was set, none of
    the fields that steer the connection manager changed, and the only
    thing that happened to [connectPromise] is that it may have been reset;
    and the keys of the progress cache are still distinct. *)
Record frame (w w' : World) : Prop := mkFrame {
  fr_next : nextTimer w' = nextTimer w;
  fr_timer : reconnectTimer (this w') = reconnectTimer (this w);
  fr_closed : closed (this w') = closed (this w);
  fr_connected : connected (this w') = connected (this w);
  fr_backoff : backoffMs (this w') = backoffMs (this w);
  fr_promise : connectPromise (this w) = None -> connectPromise (this w') = None;
  fr_timers : exists f, timers w' = filter f (timers w);
  fr_progress : JsMap.wf (sessionProgress (this w)) -> JsMap.wf (sessionProgress (this w'))
}.

(** ** The invariant of the connection manager *)
Definition is_reconnect (tm : Timer) : bool :=
  match callback tm with Reconnect => true | RequestTimeout _ _ _ => false end.

(** The reconnect timers that are scheduled. *)
Definition reconnect_timers (w : World) : list Timer := filter is_reconnect (timers w).

Record invariant (w : World) : Prop := mkInvariant {
  inv_fresh : forall tm, In tm (timers w) -> timer_id tm < nextTimer w;
  inv_nodup : NoDup (map timer_id (timers w));
  inv_reconnect : forall tm, In tm (timers w) -> is_reconnect tm = true ->
                  reconnectTimer (this w) = Some (timer_id tm);
  inv_closed : closed (this w) = true -> reconnectTimer (this w) = None;
  inv_backoff : connected (this w) = true -> backoffMs (this w) = 1000%Z;
  inv_progress : JsMap.wf (sessionProgress (this w))
}.

(** The part of [handleClose] before [scheduleReconnect]. *)
Definition notify_listeners (now : Z) (w : World) : World :=
  fold_left
    (fun w e =>
       let w := logger (LogNotifyListener (fst e)) w in
       listener (snd e) (closeEvent (fst e)) now
                (set_delivered (delivered w ++ [closeEvent (fst e)]) w))
    (chatListeners (this w)) w.

(** The first half of [close]: the flag and the timer. *)
Definition close_timer (w : World) : World :=
  let w := on_this (set_closed true) w in
  match reconnectTimer (this w) with
  | Some t => on_this (set_reconnectTimer None) (clearTimeout t w)
  | None => w
  end.

(** The fields of the client other than the three flags of the connection
    that [resume_waiter] may write. *)
Record untouched (w w' : World) : Prop := mkUntouched {
  un_pending : pending (this w') = pending (this w);
  un_listeners : chatListeners (this w') = chatListeners (this w);
  un_progress : sessionProgress (this w') = sessionProgress (this w);
  un_lastSeq : lastSeq (this w') = lastSeq (this w);
  un_ws : ws (this w') = ws (this w);
  un_settled : settled w' = settled w;
  un_delivered : delivered w' = delivered w;
  un_sent : sent w' = sent w;
  un_timers : timers w' = timers w;
  un_states : map readyState (sockets w') = map readyState (sockets w)
}.

(** ** The two flags under every handler *)

(** Apart from [close] and [handleClose], a handler never sets [closed] and
    never clears [connected]. *)
Definition mild (w w' : World) : Prop :=
  closed (this w') = closed (this w) /\
  (connected (this w) = true -> connected (this w') = true).

(** A client that went through [connect()], the socket's ["open"] and the
    answer to the handshake. *)
Definition connected_world : World :=
  run init [CallConnect; SocketOpen 0 "c-1"; SocketMessage 0 (ResFrame "c-1" true None) 0].

(** ** Gaps and deliveries *)
Definition is_gap (e : LogEntry) : bool :=
  match e with LogGap _ _ _ => true | _ => false end.

(** The gaps that were logged. *)
Definition gaps (w : World) : list LogEntry := filter is_gap (log w).

(** What the listener of a stream never writes. *)
Record routed (w w' : World) : Prop := mkRouted {
  ro_lastSeq : lastSeq (this w') = lastSeq (this w);
  ro_delivered : delivered w' = delivered w;
  ro_listeners : chatListeners (this w') = chatListeners (this w);
  ro_gaps : gaps w' = gaps w
}.

(** The events the router hands to a listener for one event frame: the
    payload of a ["chat"] frame whose run has a listener, nothing
    otherwise.  Neither the sequence number nor the cursor enters. *)
Definition deliveries (ev : string) (payload : option ChatEvent.t) (w : World)
  : list ChatEvent.t :=
  if String.eqb ev "chat" then
    match payload with
    | Some evt =>
        match JsMap.get (ChatEvent.runId evt) (chatListeners (this w)) with
        | Some _ => [evt]
        | None => []
        end
    | None => []
    end
  else [].

Definition textEvent (r key : string) (n : Z) (st : ChatState) (text : string) : ChatEvent.t :=
  ChatEvent.mk r key (Some n) st
    (Some (mkMessage "assistant" (Some [mkPart "text" (Some text)]))) None.

(** A connected client on which a stream for session ["s1"] was started
    (run ["r-1"], request ["q-1"]). *)
Definition streaming_world : World :=
  step connected_world (StreamStart "r-1" "q-1" "s1" 10).

(** ** The sweep of the progress cache *)

(** The sweep on the map alone. *)
Definition sweep (now : Z) (m : JsMap.t SessionProgress.t) : JsMap.t SessionProgress.t :=
  fold_left (fun m e => if expired now (snd e) then JsMap.delete (fst e) m else m) m m.

(** The tasks in which only the generator of some stream runs. *)
Definition generator_task (e : Task) : Prop :=
  match e with StreamResume _ | StreamNext _ => True | _ => False end.

(** Two streams, for the sessions ["s1"] and ["s2"], five minutes apart,
    each having received some text. *)
Definition two_sessions : World :=
  run streaming_world
    [SocketMessage 0 (ResFrame "q-1" true None) 11; StreamResume "r-1";
     SocketMessage 0 (EventFrame "chat" (Some (number 1)) (Some (textEvent "r-1" "s1" 1 delta "He"))) 12;
     StreamStart "r-2" "q-2" "s2" 300000;
     SocketMessage 0 (ResFrame "q-2" true None) 300001; StreamResume "r-2";
     SocketMessage 0 (EventFrame "chat" (Some (number 2)) (Some (textEvent "r-2" "s2" 2 delta "Hi"))) 300005].

(** ** The back-off schedule *)
Definition next_backoff (b : Z) : Z := Z.min (b * 2) 30000.

(** The delay before the attempt that follows [n] failed ones. *)
Definition backoff_delay (n : nat) : Z := Z.min (1000 * 2 ^ Z.of_nat n) 30000.

(** The delay of the reconnect timer that is scheduled, if there is one. *)
Definition scheduled_delay (w : World) : option Z :=
  match reconnect_timers w with
  | [tm] => Some (delay tm)
  | _ => None
  end.

(** A reconnect attempt that fails: the timer fires, [connect] makes a new
    socket, the socket reports an error and then closes. *)
Definition failed_attempt (err : string) (now : Z) (w : World) : World :=
  match reconnectTimer (this w) with
  | Some t =>
      let s := List.length (sockets w) in
      run w [TimerFires t; SocketError s err; SocketClose s now]
  | None => w
  end.

Definition failed_attempts (fs : list (string * Z)) (w : World) : World :=
  fold_left (fun w f => failed_attempt (fst f) (snd f) w) fs w.

(** A reconnect attempt that succeeds: the timer fires, the new socket
    opens, the handshake request [id] is answered. *)
Definition successful_attempt (id : string) (now : Z) (w : World) : World :=
  match reconnectTimer (this w) with
  | Some t =>
      let s := List.length (sockets w) in
      run w [TimerFires t; SocketOpen s id; SocketMessage s (ResFrame id true None) now]
  | None => w
  end.

(** The client waits for its reconnect timer, set with delay [d]. *)
Record awaiting (d : Z) (w : World) : Prop := mkAwaiting {
  aw_inv : invariant w;
  aw_closed : closed (this w) = false;
  aw_connected : connected (this w) = false;
  aw_promise : connectPromise (this w) = None;
  aw_timer : exists t, reconnectTimer (this w) = Some t /\ In (mkTimer t d Reconnect) (timers w);
  aw_backoff : backoffMs (this w) = next_backoff d
}.

(** *** Every run, whatever makes the attempts fail *)

(** The reconnect timers a task set: those of [w'] whose number [w] had not
    given out yet. *)
Definition scheduled_by (w w' : World) : list Timer :=
  filter (fun tm => is_reconnect tm && (nextTimer w <=? timer_id tm)%nat) (timers w').

(** The delays of the reconnect timers set along a run, in order. *)
Fixpoint scheduled_delays (w : World) (es : list Task) : list Z :=
  match es with
  | [] => []
  | e :: es => map delay (scheduled_by w (step w e)) ++ scheduled_delays (step w e) es
  end.

(** The task completes a connect: the flag goes from clear to set. *)
Definition connects (w : World) (e : Task) : Prop :=
  connected (this w) = false /\ connected (this (step w e)) = true.

(** No task of the run completes a connect. *)
Fixpoint no_connect (w : World) (es : list Task) : Prop :=
  match es with
  | [] => True
  | e :: es => ~ connects w e /\ no_connect (step w e) es
  end.

(** [ds] starts at [b] and doubles, capped. *)
Fixpoint doubling (b : Z) (ds : list Z) : Prop :=
  match ds with
  | [] => True
  | d :: ds => d = b /\ doubling (next_backoff b) ds
  end.

(** A disconnect followed by two attempts, the first refused by the peer at
    the socket, the second failing in the handshake. *)
Definition two_failures : list Task :=
  [SocketClose 0 1;
   TimerFires 1; SocketError 1 "ECONNREFUSED"; SocketClose 1 2;
   TimerFires 2; SocketOpen 2 "c-2"; SocketMessage 2 (ResFrame "c-2" false (Some "unauthorized")) 3;
   SocketClose 2 4].

(** ** Scenarios of the stream orchestrator *)
Definition chat (n : Z) (evt : ChatEvent.t) (now : Z) : Task :=
  SocketMessage 0 (EventFrame "chat" (Some (number n)) (Some evt)) now.

(** The answer to the ["chat.send"] request of [streaming_world]. *)
Definition ack (now : Z) : Task := SocketMessage 0 (ResFrame "q-1" true None) now.

Definition stream_of (w : World) : option Stream := JsMap.get "r-1" (frames w).

(** The scenario of the specification, with a consumer that asks for the
    next increment before the next event arrives. *)
Definition prompt_consumer : list Task :=
  [ack 11; StreamResume "r-1";
   chat 1 (textEvent "r-1" "s1" 1 delta "He") 12; StreamResume "r-1"; StreamNext "r-1";
   chat 2 (textEvent "r-1" "s1" 2 delta "Hello") 13; StreamResume "r-1"; StreamNext "r-1";
   chat 3 (textEvent "r-1" "s1" 3 final "Hello!") 14; StreamResume "r-1"; StreamNext "r-1"].

(** The same three events, the second one arriving while the generator is
    parked at [yield "He"], that is while the consumer still works on the
    first increment. *)
Definition busy_consumer : list Task :=
  [ack 11; StreamResume "r-1";
   chat 1 (textEvent "r-1" "s1" 1 delta "He") 12; StreamResume "r-1";
   chat 2 (textEvent "r-1" "s1" 2 delta "Hello") 13;
   StreamNext "r-1";
   chat 3 (textEvent "r-1" "s1" 3 final "Hello!") 14; StreamResume "r-1"; StreamNext "r-1"].

(** The connection is lost after ["Hello wor"] was accumulated, of which
    ["Hello"] was yielded to a consumer that is still working on it. *)
Definition interrupted_busy_consumer : list Task :=
  [ack 11; StreamResume "r-1";
   chat 1 (textEvent "r-1" "s1" 1 delta "Hello") 12; StreamResume "r-1";
   chat 2 (textEvent "r-1" "s1" 2 delta "Hello wor") 13;
   SocketClose 0 14;
   StreamNext "r-1"].

(** The same, the consumer having asked for the next increment in time. *)
Definition interrupted_prompt_consumer : list Task :=
  [ack 11; StreamResume "r-1";
   chat 1 (textEvent "r-1" "s1" 1 delta "Hello") 12; StreamResume "r-1"; StreamNext "r-1";
   chat 2 (textEvent "r-1" "s1" 2 delta "Hello wor") 13;
   SocketClose 0 14;
   StreamResume "r-1"; StreamNext "r-1"].

Definition errorEvent (r key : string) (n : Z) (msg : string) : ChatEvent.t :=
  ChatEvent.mk r key (Some n) error_state None (Some msg).

(** An error event that arrives before any text and before the answer to
    ["chat.send"]. *)
Definition error_before_ack : list Task :=
  [chat 1 (errorEvent "r-1" "s1" 1 "boom") 11; ack 12; StreamResume "r-1"].

(** The same event, arriving after the answer. *)
Definition error_after_ack : list Task :=
  [ack 11; StreamResume "r-1"; chat 1 (errorEvent "r-1" "s1" 1 "boom") 12; StreamResume "r-1"].

(** * More vocabulary: the streams of a client *)

(** The generator has returned or thrown. *)
Definition ended (g : Stream) : bool :=
  match phase g with Returned | Threw _ => true | _ => false end.

(** [resolvers] holds the resolver of the promise the generator waits for,
    and nothing else.  (This is what allows the list to be one of units:
    the resolver that [shift()] takes is always the current one.) *)
Definition one_resolver (g : Stream) : Prop :=
  resolvers g = match phase g with AwaitData false => [tt] | _ => [] end.

(** The number of characters handed to the consumer so far. *)
Definition yielded_length (g : Stream) : nat :=
  String.length (String.concat "" (yielded g)).

(** What holds of the frame of every stream: the resolver, the bounds of
    what was yielded, and that the generator sleeps only when it has
    nothing to do. *)
Record sound (g : Stream) : Prop := mkSound {
  so_resolver : one_resolver g;
  so_bound : lastYieldedLength g <= String.length (accumulated g);
  so_total : yielded_length g <= String.length (accumulated g);
  so_await : at_await g = true -> yielded_length g <= lastYieldedLength g;
  so_nonempty : Forall (fun s => s <> "") (yielded g);
  so_start : match phase g with
             | AwaitRequest _ | Threw _ => yielded g = []
             | _ => True
             end;
  so_asleep : phase g = AwaitData false -> done g = false /\ hasNewData g = false
}.

(** The frame is what the listener, the request and the generator made of
    the frame the generator started with. *)
Definition evolved (g : Stream) : Prop :=
  exists acts, g = fold_left act acts (fresh_frame (sessionKeyParam g)).

(** The listener of a run is registered under the run's id exactly while
    the generator of the run has neither returned nor thrown. *)
Definition listening (w : World) : Prop :=
  forall r, JsMap.get r (chatListeners (this w)) =
            match JsMap.get r (frames w) with
            | Some g => if ended g then None else Some r
            | None => None
            end.

Record streams_ok (w : World) : Prop := mkStreamsOk {
  st_evolved : forall r g, JsMap.get r (frames w) = Some g -> evolved g;
  st_listening : listening w
}.

(** Neither the frames nor the listener table differ. *)
Definition still (w w' : World) : Prop :=
  frames w' = frames w /\ chatListeners (this w') = chatListeners (this w).

(** [w] with other frames, another progress cache and another log: what
    the listener of a stream can make of a state. *)
Definition patch (fr : JsMap.t Stream) (m : JsMap.t SessionProgress.t) (l : list LogEntry)
  (w : World) : World :=
  set_frames fr (set_log l (on_this (set_sessionProgress m) w)).

(** A handshake that the gateway refuses, a second [connect()] that
    succeeds on a new socket: the first socket was never closed. *)
Definition two_sockets : World :=
  run init [CallConnect; SocketOpen 0 "c-1";
            SocketMessage 0 (ResFrame "c-1" false (Some "unauthorized")) 1;
            CallConnect; SocketOpen 1 "c-2";
            SocketMessage 1 (ResFrame "c-2" true None) 2].

(** ** Requests, their timers and the streams that wait for them *)

(** The correlation id the task draws, if it issues a request. *)
Definition drawn_id (e : Task) : option string :=
  match e with
  | CallAbortChat id | StreamStart _ id _ _ | SocketOpen _ id => Some id
  | _ => None
  end.

(** [randomUUID()] never returns the id of a request that is pending. *)
Definition fresh_id (w : World) (e : Task) : Prop :=
  match drawn_id e with
  | Some id => JsMap.get id (pending (this w)) = None
  | None => True
  end.

(** The states reached when the ids are fresh. *)
Inductive reachable_fresh : World -> Prop :=
| fresh_init : reachable_fresh init
| fresh_step w e : reachable_fresh w -> fresh_id w e -> reachable_fresh (step w e).

(** Every pending request has its timer and every request timer its
    pending request; a stream that waits for the answer to ["chat.send"]
    has its request pending; the reconnect timer the client remembers is a
    reconnect timer. *)
Record requests_ok (w : World) : Prop := mkRequestsOk {
  rq_timer : forall id p, JsMap.get id (pending (this w)) = Some p ->
             exists m, In (mkTimer (timeoutId p) 30000 (RequestTimeout id m (waiter p)))
                          (timers w);
  rq_entry : forall tm id m wt, In tm (timers w) -> callback tm = RequestTimeout id m wt ->
             JsMap.get id (pending (this w)) = Some (mkPending (timer_id tm) wt);
  rq_stream : forall r g, JsMap.get r (frames w) = Some g -> phase g = AwaitRequest None ->
              exists id t, JsMap.get id (pending (this w)) = Some (mkPending t (AwaitChatSend r));
  rq_wf : JsMap.wf (pending (this w));
  rq_reconnect : forall t, reconnectTimer (this w) = Some t ->
                 t < nextTimer w /\
                 forall tm, In tm (timers w) -> timer_id tm = t -> is_reconnect tm = true;
  rq_fresh : forall tm, In tm (timers w) -> timer_id tm < nextTimer w;
  rq_nodup : NoDup (map timer_id (timers w))
}.

(** No frame of [w'] waits for the answer to its request unless it did so
    in [w]. *)
Definition no_new_request (w w' : World) : Prop :=
  forall r g', JsMap.get r (frames w') = Some g' -> phase g' = AwaitRequest None ->
               exists g, JsMap.get r (frames w) = Some g /\ phase g = AwaitRequest None.

(** The handler leaves the requests and the timers alone. *)
Record calm (w w' : World) : Prop := mkCalm {
  ca_pending : pending (this w') = pending (this w);
  ca_timers : timers w' = timers w;
  ca_next : nextTimer w' = nextTimer w;
  ca_timer : reconnectTimer (this w') = reconnectTimer (this w);
  ca_frames : no_new_request w w'
}.

(** The stream has been told that it is over and its generator can run or
    waits for its consumer. *)
Record winding_up (g : Stream) : Prop := mkWindingUp {
  wu_done : done g = true;
  wu_awake : phase g <> AwaitData false
}.

(** A connected client with one stream waiting for data and a second one
    still waiting for the answer to its request. *)
Definition two_streams : World :=
  run streaming_world
    [ack 11; StreamResume "r-1"; StreamStart "r-2" "q-2" "s2" 12].

(** What the four blocks of the listener before [shift()] keep. *)
Record kept (g g' : Stream) : Prop := mkKept {
  ke_phase : phase g' = phase g;
  ke_resolvers : resolvers g' = resolvers g;
  ke_lyl : lastYieldedLength g' = lastYieldedLength g;
  ke_yielded : yielded g' = yielded g;
  ke_key : sessionKeyParam g' = sessionKeyParam g;
  ke_length : String.length (accumulated g) <= String.length (accumulated g');
  ke_done : done g = true -> done g' = true
}.

(** A frame that is about to yield or to finish, seen from an [await]. *)
Record ready (g : Stream) : Prop := mkReady {
  re_resolver : resolvers g = [];
  re_bound : lastYieldedLength g <= String.length (accumulated g);
  re_total : yielded_length g <= lastYieldedLength g;
  re_nonempty : Forall (fun s => s <> "") (yielded g)
}.

(** The handler opens no socket, writes no request frame and leaves the
    socket reference of the client alone. *)
Record quiet (w w' : World) : Prop := mkQuiet {
  qu_sockets : List.length (sockets w') = List.length (sockets w);
  qu_sent : sent w' = sent w;
  qu_ws : ws (this w') = ws (this w)
}.

(** A client that was closed and has let go of its socket. *)
Definition dead (w : World) : Prop := closed (this w) = true /\ ws (this w) = None.

(** The states of the sockets, in creation order. *)
Definition states (w : World) : list ReadyState := map readyState (sockets w).

(** The handler neither touches the state of a socket nor the socket
    reference of the client. *)
Record steady (w w' : World) : Prop := mkSteady {
  sd_states : states w' = states w;
  sd_ws : ws (this w') = ws (this w)
}.

(** A socket that exists and is not, or no longer, the socket of the
    client. *)
Definition orphan (s : nat) (w : World) : Prop :=
  s < List.length (sockets w) /\ ws (this w) <> Some s.

(** The events by which the runtime reports a change of state of socket
    [s]. *)
Definition state_event (s : nat) (e : Task) : bool :=
  match e with
  | SocketOpen s' _ | SocketError s' _ | SocketClose s' _ => Nat.eqb s s'
  | _ => false
  end.

(** * The registry of clients

    [getGatewayWsClient] and [closeGatewayWsClient] (lines 476-514) keep one
    client in two module variables.  The key of a configuration is
    [JSON.stringify({ url, token, password })]: the members whose value is
    [undefined] are left out, the others are written in this order, the
    strings quoted as [QuoteJSONString] does for code units below 256. *)

(** [interface GatewayWsConfig] *)
Record GatewayWsConfig := mkConfig {
  url : option string;
  token : option string;
  password : option string
}.

Definition dquote : Ascii.ascii := Ascii.ascii_of_nat 34.

Definition backslash : Ascii.ascii := Ascii.ascii_of_nat 92.

Definition hex_digit (n : nat) : Ascii.ascii :=
  match n with
  | 0 => "0" | 1 => "1" | 2 => "2" | 3 => "3" | 4 => "4" | 5 => "5" | 6 => "6" | 7 => "7"
  | 8 => "8" | 9 => "9" | 10 => "a" | 11 => "b" | 12 => "c" | 13 => "d" | 14 => "e"
  | _ => "f"
  end%char.

(** One code unit of a string, as [QuoteJSONString] writes it. *)
Definition quote_char (c : Ascii.ascii) : string :=
  let n := Ascii.nat_of_ascii c in
  if (n =? 8)%nat then String backslash "b"
  else if (n =? 9)%nat then String backslash "t"
  else if (n =? 10)%nat then String backslash "n"
  else if (n =? 12)%nat then String backslash "f"
  else if (n =? 13)%nat then String backslash "r"
  else if (n =? 34)%nat then String backslash (String dquote "")
  else if (n =? 92)%nat then String backslash (String backslash "")
  else if (n <? 32)%nat then
    String backslash
      ("u00" ++ String (hex_digit (n / 16)) (String (hex_digit (n mod 16)) ""))%string
  else String c "".

Fixpoint quote_body (s : string) : string :=
  match s with
  | EmptyString => ""
  | String c r => (quote_char c ++ quote_body r)%string
  end.

Definition quoteJSONString (s : string) : string :=
  String dquote (quote_body s ++ String dquote "")%string.

(** A member of the object: left out when its value is [undefined]. *)
Definition member (k : string) (v : option string) : list string :=
  match v with
  | Some s => [(quoteJSONString k ++ ":" ++ quoteJSONString s)%string]
  | None => []
  end.

(** [JSON.stringify({ url: config.url, token: config.token, password:
    config.password })] (lines 488-492) *)
Definition configKey (c : GatewayWsConfig) : string :=
  ("{" ++ String.concat ","
            (member "url" (url c) ++ member "token" (token c) ++ member "password" (password c))%list
       ++ "}")%string.

(** ** Reading a key back

    The registry never parses a key; the reader below is there to show
    that a key determines the configuration it was made from. *)
Definition hex_value (c : Ascii.ascii) : option nat :=
  let n := Ascii.nat_of_ascii c in
  if (48 <=? n)%nat && (n <=? 57)%nat then Some (n - 48)
  else if (97 <=? n)%nat && (n <=? 102)%nat then Some (n - 87)
  else None.

Definition cons_char (c : Ascii.ascii) (r : option (string * string)) : option (string * string) :=
  match r with
  | Some (s, rest) => Some (String c s, rest)
  | None => None
  end.

(** Reads a quoted string from after its opening quote; gives the string
    and what follows its closing quote. *)
Fixpoint unquote_body (s : string) : option (string * string) :=
  match s with
  | EmptyString => None
  | String c r =>
      if Ascii.eqb c dquote then Some ("", r)
      else if Ascii.eqb c backslash then
        match r with
        | EmptyString => None
        | String e r1 =>
            if Ascii.eqb e "b" then cons_char (Ascii.ascii_of_nat 8) (unquote_body r1)
            else if Ascii.eqb e "t" then cons_char (Ascii.ascii_of_nat 9) (unquote_body r1)
            else if Ascii.eqb e "n" then cons_char (Ascii.ascii_of_nat 10) (unquote_body r1)
            else if Ascii.eqb e "f" then cons_char (Ascii.ascii_of_nat 12) (unquote_body r1)
            else if Ascii.eqb e "r" then cons_char (Ascii.ascii_of_nat 13) (unquote_body r1)
            else if Ascii.eqb e dquote then cons_char dquote (unquote_body r1)
            else if Ascii.eqb e backslash then cons_char backslash (unquote_body r1)
            else if Ascii.eqb e "u" then
              match r1 with
              | String _ (String _ (String h1 (String h2 r2))) =>
                  match hex_value h1, hex_value h2 with
                  | Some x, Some y =>
                      cons_char (Ascii.ascii_of_nat (16 * x + y)) (unquote_body r2)
                  | _, _ => None
                  end
              | _ => None
              end
            else None
        end
      else cons_char c (unquote_body r)
  end.

Fixpoint strip_prefix (p s : string) : option string :=
  match p with
  | EmptyString => Some s
  | String a p' =>
      match s with
      | EmptyString => None
      | String b s' => if Ascii.eqb a b then strip_prefix p' s' else None
      end
  end.

(** Reads the member [k] if it is the next one. *)
Definition read_member (first : bool) (k s : string) : option (option string * string) :=
  match strip_prefix ((if first then "" else ",") ++ quoteJSONString k ++ ":")%string s with
  | Some (String q r) =>
      if Ascii.eqb q dquote then
        match unquote_body r with
        | Some (v, rest) => Some (Some v, rest)
        | None => None
        end
      else None
  | Some EmptyString => None
  | None => Some (None, s)
  end.

Definition is_none (A : Type) (o : option A) : bool :=
  match o with Some _ => false | None => true end.

Definition parse_key (s : string) : option GatewayWsConfig :=
  match strip_prefix "{" s with
  | Some s0 =>
      match read_member true "url" s0 with
      | Some (u, s1) =>
          match read_member (is_none u) "token" s1 with
          | Some (t, s2) =>
              match read_member (is_none u && is_none t) "password" s2 with
              | Some (p, s3) => if String.eqb s3 "}" then Some (mkConfig u t p) else None
              | None => None
              end
          | None => None
          end
      | None => None
      end
  | None => None
  end.

(** The text of member [k] in front of [rest], with the comma a member
    that is not the first one has before it. *)
Definition field (first : bool) (k : string) (v : option string) (rest : string) : string :=
  match v with
  | Some s =>
      (((if first then "" else ",") ++ quoteJSONString k ++ ":") ++ quoteJSONString s ++ rest)%string
  | None => rest
  end.

(** ** The two module variables and the clients they have named *)

(** A client with the configuration it was constructed with; each client
    has its sockets and timers. *)
Record Instance := mkInstance { config : GatewayWsConfig; world : World }.

Record Registry := mkRegistry {
  clients : list Instance;               (* the clients made so far, by number *)
  globalClient : option nat;
  globalClientConfig : option string;
  recreations : nat                      (* lines "config changed, recreating client" *)
}.

Definition no_registry : Registry := mkRegistry [] None None 0.

Definition on_client (c : nat) (f : World -> World) (R : Registry) : Registry :=
  mkRegistry (update_nth c (fun i => mkInstance (config i) (f (world i))) (clients R))
             (globalClient R) (globalClientConfig R) (recreations R).

(** [globalClientConfig !== configKey] *)
Definition differs (k : option string) (key : string) : bool :=
  match k with
  | Some k => negb (String.eqb k key)
  | None => true
  end.

(** [getGatewayWsClient] (lines 484-506); the result is the number of the
    client that is returned. *)
Definition getGatewayWsClient (cfg : GatewayWsConfig) (R : Registry) : nat * Registry :=
  let key := configKey cfg in
  let R :=
    match globalClient R with
    | Some c =>
        if differs (globalClientConfig R) key then
          let R := on_client c close R in
          mkRegistry (clients R) None (globalClientConfig R) (S (recreations R))
        else R
    | None => R
    end in
  match globalClient R with
  | None =>
      let c := List.length (clients R) in
      (c, mkRegistry (clients R ++ [mkInstance cfg init]) (Some c) (Some key) (recreations R))
  | Some c => (c, R)
  end.

(** [closeGatewayWsClient] (lines 511-514) *)
Definition closeGatewayWsClient (R : Registry) : Registry :=
  let R := match globalClient R with
           | Some c => on_client c close R
           | None => R
           end in
  mkRegistry (clients R) None (globalClientConfig R) (recreations R).

(** What happens to the registry and to the clients it made. *)
Inductive RegistryOp :=
| GetClient (cfg : GatewayWsConfig)      (* [getGatewayWsClient(cfg, logger)] *)
| CloseClient                            (* [closeGatewayWsClient()] *)
| ClientTask (c : nat) (e : Task)        (* a task of client [c] *).

Definition registry_step (R : Registry) (op : RegistryOp) : Registry :=
  match op with
  | GetClient cfg => snd (getGatewayWsClient cfg R)
  | CloseClient => closeGatewayWsClient R
  | ClientTask c e => on_client c (fun w => step w e) R
  end.

Definition registry_run (R : Registry) (ops : list RegistryOp) : Registry :=
  fold_left registry_step ops R.

Inductive registry_reachable : Registry -> Prop :=
| registry_init : registry_reachable no_registry
| registry_next R op : registry_reachable R -> registry_reachable (registry_step R op).

(** The state of client [c]. *)
Definition client (c : nat) (R : Registry) : option World :=
  option_map world (nth_error (clients R) c).

Definition client_config (c : nat) (R : Registry) : option GatewayWsConfig :=
  option_map config (nth_error (clients R) c).

Record registry_ok (R : Registry) : Prop := mkRegistryOk {
  rg_global : forall c, globalClient R = Some c ->
              exists cfg, client_config c R = Some cfg /\
                          globalClientConfig R = Some (configKey cfg);
  rg_others : forall c w, client c R = Some w -> globalClient R <> Some c -> dead w;
  rg_reachable : forall c w, client c R = Some w -> reachable w
}.

Definition gateway_a : GatewayWsConfig :=
  mkConfig (Some "ws://10.0.0.1:18789") (Some "secret") None.

Definition gateway_b : GatewayWsConfig :=
  mkConfig (Some "ws://10.0.0.1:18789") None (Some "secret").

(** The first client, connected, and then replaced by one for another
    configuration. *)
Definition connect_tasks : list RegistryOp :=
  [GetClient gateway_a; ClientTask 0 CallConnect; ClientTask 0 (SocketOpen 0 "c-1");
   ClientTask 0 (SocketMessage 0 (ResFrame "c-1" true None) 0)].

Definition one_client : Registry := registry_run no_registry connect_tasks.

Definition replaced_client : Registry := registry_step one_client (GetClient gateway_b).

(** * Naturals as doubles *)

(** [p] with [n] zero bits appended. *)
Definition shiftn (n : nat) (p : positive) : positive := Nat.iter n xO p.

(** The double whose value is [p], for [p] below [2^53]: the mantissa is
    [p] shifted to 53 bits. *)
Definition canon (p : positive) : Number :=
  S754_finite false (shiftn (53 - Pos.to_nat (digits2_pos p)) p)
              (Zpos (digits2_pos p) - 53).

(** * The timers of the requests and the reconnect timer *)

(** The timer of a pending request is not the reconnect timer: both
    numbers were given out by [setTimeout], at different calls. *)
Record timers_apart (w : World) : Prop := mkTimersApart {
  ta_pending : forall id p, In (id, p) (pending (this w)) ->
               timeoutId p < nextTimer w /\ reconnectTimer (this w) <> Some (timeoutId p);
  ta_timer : forall t, reconnectTimer (this w) = Some t -> t < nextTimer w
}.

(** The handler registers no request and sets no timer. *)
Record tame (w w' : World) : Prop := mkTame {
  tm_pending : forall x, In x (pending (this w')) -> In x (pending (this w));
  tm_timer : reconnectTimer (this w') = reconnectTimer (this w);
  tm_next : nextTimer w' = nextTimer w
}.

(** Five reconnect attempts fail, so that the client waits for a timer of
    30000 ms; then a caller of [connect()] gets a connection, and that
    connection is lost. *)
Definition five_failures : World :=
  failed_attempts [("ECONNREFUSED", 2); ("ECONNREFUSED", 3); ("ECONNREFUSED", 4);
                   ("ECONNREFUSED", 5); ("ECONNREFUSED", 6)]%Z
                  (step connected_world (SocketClose 0 1)).

Definition connected_while_waiting : World :=
  run five_failures
      [CallConnect; SocketOpen 6 "c-9"; SocketMessage 6 (ResFrame "c-9" true None) 7].

(** * Properties *)

(** ** Facts about [JsMap] *)
Module JsMapFacts.
Import JsMap.
Section Facts.
Variable V : Type.
Implicit Types (m : t V) (k : string) (v : V).

Lemma get_set_same k v m : get k (set k v m) = Some v.
Proof.
  induction m as [|[k' v'] r IH]; simpl.
  - now rewrite String.eqb_refl.
  - destruct (String.eqb k k') eqn:E; simpl.
    + now rewrite String.eqb_refl.
    + now rewrite E.
Qed.

Lemma get_set_other k k' v m : k <> k' -> get k' (set k v m) = get k' m.
Proof.
  intros Hne. induction m as [|[k0 v0] r IH]; simpl.
  - destruct (String.eqb k' k) eqn:E; [|reflexivity].
    apply String.eqb_eq in E. congruence.
  - destruct (String.eqb k k0) eqn:E; simpl.
    + apply String.eqb_eq in E. subst k0.
      destruct (String.eqb k' k) eqn:E'; [|reflexivity].
      apply String.eqb_eq in E'. congruence.
    + now rewrite IH.
Qed.

Lemma get_delete_same k m : get k (delete k m) = None.
Proof.
  induction m as [|[k' v'] r IH]; simpl; [reflexivity|].
  destruct (String.eqb k k') eqn:E; simpl; [exact IH|].
  now rewrite E.
Qed.

Lemma get_delete_other k k' m : k <> k' -> get k' (delete k m) = get k' m.
Proof.
  intros Hne. induction m as [|[k0 v0] r IH]; simpl; [reflexivity|].
  destruct (String.eqb k k0) eqn:E; simpl.
  - apply String.eqb_eq in E. subst k0.
    destruct (String.eqb k' k) eqn:E'; [|exact IH].
    apply String.eqb_eq in E'. congruence.
  - now rewrite IH.
Qed.

Lemma get_None_keys k m : get k m = None <-> ~ In k (keys m).
Proof.
  induction m as [|[k' v'] r IH]; simpl.
  - tauto.
  - destruct (String.eqb k k') eqn:E.
    + apply String.eqb_eq in E. subst. split; [discriminate|tauto].
    + apply String.eqb_neq in E. rewrite IH. split.
      * intros H [H'|H']; [congruence|tauto].
      * tauto.
Qed.

Lemma keys_delete k m : keys (delete k m) = filter (fun x => negb (String.eqb k x)) (keys m).
Proof.
  unfold keys, delete. induction m as [|[k' v'] r IH]; simpl; [reflexivity|].
  destruct (String.eqb k k'); simpl; now rewrite IH.
Qed.

Lemma wf_delete k m : wf m -> wf (delete k m).
Proof.
  unfold wf. rewrite keys_delete. apply NoDup_filter.
Qed.

Lemma keys_set k v m :
  keys (set k v m) = match get k m with Some _ => keys m | None => keys m ++ [k] end.
Proof.
  unfold keys. induction m as [|[k' v'] r IH]; simpl; [reflexivity|].
  destruct (String.eqb k k') eqn:E; simpl.
  - apply String.eqb_eq in E. now subst.
  - rewrite IH. now destruct (get k r).
Qed.

Lemma wf_set k v m : wf m -> wf (set k v m).
Proof.
  unfold wf. rewrite keys_set. intros H.
  destruct (get k m) eqn:E; [exact H|].
  apply get_None_keys in E.
  apply NoDup_rev in H. rewrite <- (rev_involutive (keys m ++ [k])).
  apply NoDup_rev. rewrite rev_app_distr. simpl. constructor; [|exact H].
  now rewrite <- in_rev.
Qed.
End Facts.
End JsMapFacts.

(** ** Lists *)
Lemma filter_all (A : Type) (l : list A) : filter (fun _ => true) l = l.
Proof. induction l; simpl; congruence. Qed.

Lemma filter_filter (A : Type) (p q : A -> bool) (l : list A) :
  filter p (filter q l) = filter (fun x => q x && p x) l.
Proof.
  induction l as [|x l IH]; simpl; [reflexivity|].
  destruct (q x); simpl; [destruct (p x)|]; now rewrite IH.
Qed.

Lemma nth_error_update_nth (A : Type) (n m : nat) (f : A -> A) (l : list A) :
  nth_error (update_nth n f l) m =
  if Nat.eqb n m then option_map f (nth_error l m) else nth_error l m.
Proof.
  revert n m. induction l as [|x l IH]; intros n m.
  - destruct n as [|n], m as [|m]; simpl; try reflexivity.
    now destruct (Nat.eqb n m).
  - destruct n as [|n], m as [|m]; simpl; auto.
Qed.

Lemma nth_error_snoc (A : Type) (l : list A) (x : A) :
  nth_error (l ++ [x]) (List.length l) = Some x.
Proof.
  rewrite nth_error_app2 by lia. now rewrite Nat.sub_diag.
Qed.

Lemma fold_left_invariant (A B : Type) (P : A -> Prop) (f : A -> B -> A) (l : list B) :
  (forall a b, P a -> P (f a b)) -> forall a, P a -> P (fold_left f l a).
Proof.
  intros Hf. induction l as [|b l IH]; simpl; auto.
Qed.

(** ** What a handler leaves alone *)

Lemma frame_refl w : frame w w.
Proof.
  constructor; auto. exists (fun _ => true). now rewrite filter_all.
Qed.

Lemma frame_trans w1 w2 w3 : frame w1 w2 -> frame w2 w3 -> frame w1 w3.
Proof.
  intros [a1 b1 c1 d1 e1 f1 [p Hp] g1] [a2 b2 c2 d2 e2 f2 [q Hq] g2].
  constructor; try congruence; auto.
  exists (fun x => p x && q x). rewrite Hq, Hp. apply filter_filter.
Qed.

(** A change that touches none of the watched fields. *)
Lemma frame_eq w0 w w' :
  nextTimer w' = nextTimer w ->
  reconnectTimer (this w') = reconnectTimer (this w) ->
  closed (this w') = closed (this w) ->
  connected (this w') = connected (this w) ->
  backoffMs (this w') = backoffMs (this w) ->
  (connectPromise (this w) = None -> connectPromise (this w') = None) ->
  timers w' = timers w ->
  sessionProgress (this w') = sessionProgress (this w) ->
  frame w0 w -> frame w0 w'.
Proof.
  intros a b c d e f g h H. apply (frame_trans H).
  constructor; auto; [|now rewrite h]. exists (fun _ => true). now rewrite g, filter_all.
Qed.

Ltac frame_eq := intros; eapply frame_eq; [ .. | eassumption ]; auto.

Ltac split_match :=
  repeat match goal with
         | |- context [match ?x with _ => _ end] => destruct x eqn:?
         | |- context [if ?x then _ else _] => destruct x eqn:?
         end.

Create HintDb frames.

Lemma frame_on_this w0 f w :
  (forall c, reconnectTimer (f c) = reconnectTimer c /\ closed (f c) = closed c /\
             connected (f c) = connected c /\ backoffMs (f c) = backoffMs c /\
             (connectPromise c = None -> connectPromise (f c) = None) /\
             (JsMap.wf (sessionProgress c) -> JsMap.wf (sessionProgress (f c)))) ->
  frame w0 w -> frame w0 (on_this f w).
Proof.
  intros Hf H. destruct (Hf (this w)) as (a & b & c & d & e & g).
  apply (frame_trans H). constructor; auto.
  exists (fun _ => true). now rewrite filter_all.
Qed.

Lemma frame_logger w0 e w : frame w0 w -> frame w0 (logger e w).
Proof. frame_eq. Qed.

Lemma frame_set_sockets w0 x w : frame w0 w -> frame w0 (set_sockets x w).
Proof. frame_eq. Qed.

Lemma frame_set_frames w0 x w : frame w0 w -> frame w0 (set_frames x w).
Proof. frame_eq. Qed.

Lemma frame_set_sent w0 x w : frame w0 w -> frame w0 (set_sent x w).
Proof. frame_eq. Qed.

Lemma frame_set_settled w0 x w : frame w0 w -> frame w0 (set_settled x w).
Proof. frame_eq. Qed.

Lemma frame_set_delivered w0 x w : frame w0 w -> frame w0 (set_delivered x w).
Proof. frame_eq. Qed.

Lemma frame_set_reconnectAwaits w0 x w : frame w0 w -> frame w0 (set_reconnectAwaits x w).
Proof. frame_eq. Qed.

Lemma frame_clearTimeout w0 t w : frame w0 w -> frame w0 (clearTimeout t w).
Proof.
  intros H. apply (frame_trans H). constructor; auto.
  now exists (fun x => negb (Nat.eqb (timer_id x) t)).
Qed.

Lemma frame_fold (B : Type) (f : World -> B -> World) (l : list B) w0 :
  (forall w b, frame w0 w -> frame w0 (f w b)) ->
  forall w, frame w0 w -> frame w0 (fold_left f l w).
Proof. intros Hf. apply fold_left_invariant. exact Hf. Qed.

#[export] Hint Resolve frame_refl frame_logger frame_set_sockets frame_set_frames
  frame_set_sent frame_set_settled frame_set_delivered frame_set_reconnectAwaits
  frame_clearTimeout : frames.

#[export] Hint Extern 2 (frame _ (on_this _ _)) =>
  apply frame_on_this;
    [intro; cbn; repeat split; solve [auto using JsMapFacts.wf_set, JsMapFacts.wf_delete] | ] : frames.

#[export] Hint Extern 2 (frame _ (fold_left _ _ _)) =>
  apply frame_fold; [intros | ] : frames.

Ltac frames :=
  intros; cbn [fst snd] in *; split_match; cbn [fst snd]; auto 12 with frames.

Lemma frame_settleAttempt w0 a o w : frame w0 w -> frame w0 (settleAttempt a o w).
Proof. unfold settleAttempt. frames. Qed.

#[export] Hint Resolve frame_settleAttempt : frames.

Lemma frame_resume_rejected w0 wt e w :
  frame w0 w -> frame w0 (resume_waiter wt (Rejected e) w).
Proof. unfold resume_waiter. frames. Qed.

#[export] Hint Resolve frame_resume_rejected : frames.

Lemma frame_pending_reject w0 id p e w :
  frame w0 w -> frame w0 (pending_reject id p e w).
Proof. unfold pending_reject, settle. frames. Qed.

#[export] Hint Resolve frame_pending_reject : frames.

Lemma frame_flushPending w0 e w : frame w0 w -> frame w0 (flushPending e w).
Proof. unfold flushPending. frames. Qed.

Lemma frame_request_timeout w0 id m wt w :
  frame w0 w -> frame w0 (request_timeout id m wt w).
Proof. unfold request_timeout, settle. frames. Qed.

#[export] Hint Resolve frame_flushPending frame_request_timeout : frames.

Lemma frame_cleanupExpiredProgress w0 now w :
  frame w0 w -> frame w0 (cleanupExpiredProgress now w).
Proof.
  unfold cleanupExpiredProgress. intros H. apply frame_fold; auto.
  clear. frames.
Qed.

Lemma frame_saveProgress w0 k r a s now w :
  frame w0 w -> frame w0 (saveProgress k r a s now w).
Proof. unfold saveProgress. frames. Qed.

Lemma frame_clearProgress w0 k w : frame w0 w -> frame w0 (clearProgress k w).
Proof. unfold clearProgress. frames. Qed.

#[export] Hint Resolve frame_cleanupExpiredProgress frame_saveProgress frame_clearProgress : frames.

Lemma frame_listen_seq w0 evt gw :
  frame w0 (snd gw) -> frame w0 (snd (listen_seq evt gw)).
Proof. destruct gw. unfold listen_seq. frames. Qed.

Lemma frame_listen_text w0 r evt now gw :
  frame w0 (snd gw) -> frame w0 (snd (listen_text r evt now gw)).
Proof. destruct gw. unfold listen_text. frames. Qed.

Lemma frame_listen_terminal w0 evt gw :
  frame w0 (snd gw) -> frame w0 (snd (listen_terminal evt gw)).
Proof. destruct gw. unfold listen_terminal. frames. Qed.

Lemma frame_listen_error w0 evt gw :
  frame w0 (snd gw) -> frame w0 (snd (listen_error evt gw)).
Proof. destruct gw. unfold listen_error. frames. Qed.

Lemma frame_listen_wake w0 gw :
  frame w0 (snd gw) -> frame w0 (snd (listen_wake gw)).
Proof. destruct gw. unfold listen_wake. frames. Qed.

Lemma frame_listener w0 r evt now w : frame w0 w -> frame w0 (listener r evt now w).
Proof.
  intros H. unfold listener.
  destruct (JsMap.get r (frames w)) as [g|]; auto.
  assert (F : frame w0 (snd (listen_wake (listen_error evt (listen_terminal evt
                 (listen_text r evt now (listen_seq evt (g, w)))))))).
  { now apply frame_listen_wake, frame_listen_error, frame_listen_terminal,
      frame_listen_text, frame_listen_seq. }
  destruct (listen_wake _) as [g' w']. cbn in F. auto with frames.
Qed.

#[export] Hint Resolve frame_listener : frames.

Lemma frame_dispatch w0 evt now w : frame w0 w -> frame w0 (dispatch evt now w).
Proof. unfold dispatch. frames. Qed.

Lemma frame_trackSeq w0 s w : frame w0 w -> frame w0 (trackSeq s w).
Proof. unfold trackSeq. frames. Qed.

#[export] Hint Resolve frame_dispatch frame_trackSeq : frames.

Lemma frame_store w0 r g w : frame w0 w -> frame w0 (store r g w).
Proof. unfold store. frames. Qed.

Lemma frame_stream_finally w0 r w : frame w0 w -> frame w0 (stream_finally r w).
Proof. unfold stream_finally. frames. Qed.

#[export] Hint Resolve frame_store frame_stream_finally : frames.

Lemma frame_stream_throw w0 r g e w : frame w0 w -> frame w0 (stream_throw r g e w).
Proof. unfold stream_throw. frames. Qed.

Lemma frame_stream_return w0 r g w : frame w0 w -> frame w0 (stream_return r g w).
Proof. unfold stream_return. frames. Qed.

#[export] Hint Resolve frame_stream_throw frame_stream_return : frames.

Lemma frame_after_loop w0 r g w : frame w0 w -> frame w0 (after_loop r g w).
Proof. unfold after_loop. frames. Qed.

#[export] Hint Resolve frame_after_loop : frames.

Lemma frame_loop_head w0 r g w : frame w0 w -> frame w0 (loop_head r g w).
Proof. unfold loop_head. frames. Qed.

#[export] Hint Resolve frame_loop_head : frames.

Lemma frame_loop_body w0 r g w : frame w0 w -> frame w0 (loop_body r g w).
Proof. unfold loop_body. frames. Qed.

Lemma frame_after_yield w0 r g w : frame w0 w -> frame w0 (after_yield r g w).
Proof. unfold after_yield. frames. Qed.

#[export] Hint Resolve frame_loop_body frame_after_yield : frames.

Lemma frame_chatStream_resume w0 r w : frame w0 w -> frame w0 (chatStream_resume r w).
Proof. unfold chatStream_resume. frames. Qed.

Lemma frame_chatStream_next w0 r w : frame w0 w -> frame w0 (chatStream_next r w).
Proof. unfold chatStream_next. frames. Qed.

Lemma frame_set_readyState w0 s st w : frame w0 w -> frame w0 (set_readyState s st w).
Proof. unfold set_readyState. frames. Qed.

#[export] Hint Resolve frame_chatStream_resume frame_chatStream_next frame_set_readyState : frames.

Lemma frame_socket_close w0 s w : frame w0 w -> frame w0 (socket_close s w).
Proof. unfold socket_close. frames. Qed.

Lemma frame_onError w0 a e w : frame w0 w -> frame w0 (onError a e w).
Proof. unfold onError. frames. Qed.

#[export] Hint Resolve frame_socket_close frame_onError : frames.

(** ** The invariant of the connection manager *)

(** Removing timers keeps their ids distinct. *)
Lemma NoDup_ids_filter (keep : Timer -> bool) (ts : list Timer) :
  NoDup (map timer_id ts) -> NoDup (map timer_id (filter keep ts)).
Proof.
  induction ts as [|tm ts IH]; cbn; [constructor|].
  intros Hnd. apply NoDup_cons_iff in Hnd as [Hfresh Hrest].
  destruct (keep tm); cbn; [|now apply IH].
  apply NoDup_cons; [|now apply IH].
  rewrite in_map_iff. intros (tm' & Hid & Hin).
  apply filter_In in Hin as [Hin _].
  apply Hfresh. rewrite <- Hid. now apply in_map.
Qed.

Lemma invariant_init : invariant init.
Proof.
  constructor; cbn; try tauto; try constructor; auto.
Qed.

Lemma invariant_frame w w' : frame w w' -> invariant w -> invariant w'.
Proof.
  intros [a b c d e _ [f Hf] g] [i1 i2 i3 i4 i5 i6].
  constructor.
  - intros tm Hin. rewrite Hf in Hin. apply filter_In in Hin as [Hin _].
    rewrite a. auto.
  - rewrite Hf. now apply NoDup_ids_filter.
  - intros tm Hin Hr. rewrite Hf in Hin. apply filter_In in Hin as [Hin _].
    rewrite b. auto.
  - rewrite b, c. auto.
  - rewrite d, e. auto.
  - auto.
Qed.

(** A change of fields the invariant does not read. *)
Lemma invariant_same w w' :
  nextTimer w' = nextTimer w ->
  timers w' = timers w ->
  reconnectTimer (this w') = reconnectTimer (this w) ->
  closed (this w') = closed (this w) ->
  connected (this w') = connected (this w) ->
  backoffMs (this w') = backoffMs (this w) ->
  sessionProgress (this w') = sessionProgress (this w) ->
  invariant w -> invariant w'.
Proof.
  intros a b c d e f g [i1 i2 i3 i4 i5 i6].
  constructor; rewrite ?a, ?b, ?c, ?d, ?e, ?f, ?g; auto.
Qed.

Lemma NoDup_fresh_timer (l : list Timer) (tm : Timer) :
  (forall x, In x l -> timer_id x < timer_id tm) ->
  NoDup (map timer_id l) -> NoDup (map timer_id (l ++ [tm])).
Proof.
  induction l as [|a l IH]; cbn; intros Hlt Hnd.
  - constructor; [tauto|constructor].
  - inversion Hnd as [|? ? Hni Hnd']; subst. constructor.
    + rewrite map_app, in_app_iff. cbn. intros [Hin|[Heq|[]]]; [tauto|].
      specialize (Hlt a (or_introl eq_refl)). lia.
    + apply IH; auto.
Qed.

Lemma invariant_setTimeout cb ms w :
  invariant w -> is_reconnect (mkTimer (nextTimer w) ms cb) = false ->
  invariant (snd (setTimeout cb ms w)).
Proof.
  intros [i1 i2 i3 i4 i5 i6] Hcb. unfold setTimeout. constructor; cbn.
  - intros tm Hin. apply in_app_or in Hin as [Hin|[<-|[]]]; cbn; [apply i1 in Hin|]; lia.
  - apply NoDup_fresh_timer; auto.
  - intros tm Hin Hr. apply in_app_or in Hin as [Hin|[<-|[]]]; auto. congruence.
  - auto.
  - auto.
  - exact i6.
Qed.

Lemma invariant_request method id wt w w' :
  request method id wt w = Normal w' -> invariant w -> invariant w'.
Proof.
  unfold request. destruct (negb (ws_open w)); [discriminate|].
  intros [= <-] Hinv.
  eapply invariant_same; [ .. | apply (invariant_setTimeout (RequestTimeout id method wt) 30000 Hinv) ];
    reflexivity.
Qed.

Lemma invariant_scheduleReconnect w :
  closed (this w) = false -> connected (this w) = false ->
  invariant w -> invariant (scheduleReconnect w).
Proof.
  intros Hc Hn [i1 i2 i3 i4 i5 i6]. unfold scheduleReconnect.
  destruct (reconnectTimer (this w)) eqn:Hrt.
  - constructor; rewrite ?Hrt; auto.
  - constructor; cbn.
    + intros tm Hin. apply in_app_or in Hin as [Hin|[<-|[]]]; cbn; [apply i1 in Hin|]; lia.
    + apply NoDup_fresh_timer; auto.
    + intros tm Hin Hr. apply in_app_or in Hin as [Hin|[<-|[]]]; auto.
      specialize (i3 tm Hin Hr). congruence.
    + congruence.
    + congruence.
    + exact i6.
Qed.

Lemma invariant_resume_waiter wt o w : invariant w -> invariant (resume_waiter wt o w).
Proof.
  intros Hinv. destruct o as [|e].
  - destruct wt as [a|r|]; cbn.
    + eapply invariant_frame; [apply frame_settleAttempt, frame_refl|].
      destruct Hinv as [i1 i2 i3 i4 i5 i6]. constructor; auto.
    + eapply invariant_frame; [|exact Hinv]. frames.
    + exact Hinv.
  - eapply invariant_frame; [|exact Hinv]. auto with frames.
Qed.

Lemma invariant_handleMessage f now w : invariant w -> invariant (handleMessage f now w).
Proof.
  intros Hinv. unfold handleMessage.
  destruct f as [id ok err|ev seq payload| |].
  - destruct (JsMap.get id (pending (this w))) as [p|]; auto.
    destruct ok.
    + unfold pending_resolve, settle. apply invariant_resume_waiter.
      eapply invariant_frame; [|exact Hinv]. frames.
    + eapply invariant_frame; [|exact Hinv]. frames.
  - eapply invariant_frame; [|exact Hinv]. frames.
  - exact Hinv.
  - eapply invariant_frame; [|exact Hinv]. frames.
Qed.

Lemma frame_notify_listeners w0 now w : frame w0 w -> frame w0 (notify_listeners now w).
Proof. unfold notify_listeners. frames. Qed.

#[export] Hint Resolve frame_notify_listeners : frames.

Lemma handleClose_eq now w :
  handleClose now w =
  let w1 := notify_listeners now
              (flushPending "connection closed"
                 (on_this (set_ws None) (on_this (set_disconnected true)
                    (on_this (set_connected false) w)))) in
  if negb (closed (this w1)) then scheduleReconnect (logger LogClosedReconnect w1) else w1.
Proof. reflexivity. Qed.

Lemma invariant_drop_connected w :
  invariant w -> invariant (on_this (set_connected false) w).
Proof.
  intros [i1 i2 i3 i4 i5 i6]. constructor; auto. cbn. discriminate.
Qed.

Lemma invariant_handleClose now w : invariant w -> invariant (handleClose now w).
Proof.
  intros Hinv. rewrite handleClose_eq. cbv zeta.
  remember (on_this (set_connected false) w) as w0 eqn:E0.
  remember (notify_listeners now _) as w1 eqn:E1.
  assert (F : frame w0 w1) by (subst w1; frames).
  assert (H1 : invariant w1).
  { eapply invariant_frame; [exact F|]. subst w0. now apply invariant_drop_connected. }
  destruct (closed (this w1)) eqn:Hc; cbn [negb]; auto.
  apply invariant_scheduleReconnect.
  - exact Hc.
  - change (connected (this w1) = false). rewrite (fr_connected F). now subst w0.
  - eapply invariant_frame; [|exact H1]. frames.
Qed.

Lemma close_eq w :
  close w =
  let w1 := close_timer w in
  flushPending "client closed"
    (on_this (set_ws None)
       match ws (this w1) with Some s => socket_close s w1 | None => w1 end).
Proof. reflexivity. Qed.

Lemma invariant_close_timer w : invariant w -> invariant (close_timer w).
Proof.
  intros [i1 i2 i3 i4 i5 i6]. unfold close_timer. cbn.
  destruct (reconnectTimer (this w)) as [t|] eqn:Hrt.
  - constructor; cbn; auto.
    + intros tm Hin. apply filter_In in Hin as [Hin _]. auto.
    + now apply NoDup_ids_filter.
    + intros tm Hin Hr. apply filter_In in Hin as [Hin Hne].
      specialize (i3 tm Hin Hr). injection i3 as ->.
      now rewrite Nat.eqb_refl in Hne.
  - constructor; cbn; rewrite ?Hrt; auto.
Qed.

Lemma invariant_close w : invariant w -> invariant (close w).
Proof.
  intros Hinv. rewrite close_eq. cbv zeta.
  eapply invariant_frame; [|apply (invariant_close_timer Hinv)]. frames.
Qed.

Lemma connect_same w :
  let w' := snd (connect w) in
  nextTimer w' = nextTimer w /\ timers w' = timers w /\
  reconnectTimer (this w') = reconnectTimer (this w) /\
  closed (this w') = closed (this w) /\
  connected (this w') = connected (this w) /\
  backoffMs (this w') = backoffMs (this w) /\
  sessionProgress (this w') = sessionProgress (this w).
Proof.
  unfold connect, doConnect.
  destruct (connected (this w)) eqn:E1; [cbn; auto 8|].
  destruct (closed (this w)) eqn:E2; [cbn; auto 8|].
  destruct (connectPromise (this w)) eqn:E3; cbn; auto 8.
Qed.

Lemma invariant_connect w : invariant w -> invariant (snd (connect w)).
Proof.
  destruct (connect_same w) as (a & b & c & d & e & f & g).
  now apply invariant_same.
Qed.

Lemma invariant_reconnect_callback t w :
  invariant w -> reconnectTimer (this w) = Some t ->
  invariant (reconnect_callback (clearTimeout t w)).
Proof.
  intros [i1 i2 i3 i4 i5 i6] Hrt.
  assert (H0 : invariant (on_this (set_reconnectTimer None) (clearTimeout t w))).
  { constructor; cbn; auto.
    - intros tm Hin. apply filter_In in Hin as [Hin _]. auto.
    - now apply NoDup_ids_filter.
    - intros tm Hin Hr. apply filter_In in Hin as [Hin Hne].
      specialize (i3 tm Hin Hr). rewrite Hrt in i3. injection i3 as ->.
      now rewrite Nat.eqb_refl in Hne. }
  unfold reconnect_callback.
  set (w0 := on_this (set_reconnectTimer None) (clearTimeout t w)) in *.
  pose proof (invariant_connect H0) as H1.
  destruct (connect w0) as [[|e|a] w1]; cbn [snd] in H1.
  - exact H1.
  - eapply invariant_frame; [|exact H1]. frames.
  - eapply invariant_frame; [|exact H1]. frames.
Qed.

Lemma find_timer t tm l :
  find (fun x => Nat.eqb (timer_id x) t) l = Some tm -> In tm l /\ timer_id tm = t.
Proof.
  intros H. apply find_some in H as [Hin Heq]. apply Nat.eqb_eq in Heq. auto.
Qed.

Theorem invariant_step w e : invariant w -> invariant (step w e).
Proof.
  intros Hinv. destruct e as [| |id|r id key now|r|r|s id|s err|s f now|s now|t]; cbn [step].
  - now apply invariant_connect.
  - now apply invariant_close.
  - unfold abortChat. destruct (request _ _ _ w) eqn:E; auto.
    eapply invariant_request; eauto.
  - unfold chatStream_start.
    destruct (JsMap.get r (frames w)); auto.
    unfold getProgress.
    set (w1 := on_this _ (store r _ _)).
    assert (H1 : invariant w1).
    { eapply invariant_frame; [|exact Hinv]. subst w1. frames. }
    destruct (request _ _ _ w1) eqn:E.
    + eapply invariant_request; eauto.
    + eapply invariant_frame; [|exact H1]. frames.
  - eapply invariant_frame; [|exact Hinv]. frames.
  - eapply invariant_frame; [|exact Hinv]. frames.
  - destruct (socketState s w) as [[| | |]|]; auto.
    unfold onOpen.
    assert (H1 : invariant (set_readyState s OPEN w)).
    { eapply invariant_frame; [|exact Hinv]. frames. }
    destruct (request _ _ _ _) eqn:E.
    + eapply invariant_request; eauto.
    + eapply invariant_frame; [|exact H1]. frames.
  - destruct (socketState s w) as [[| | |]|]; auto;
      (eapply invariant_frame; [|exact Hinv]; frames).
  - destruct (socketState s w) as [[| | |]|]; auto; now apply invariant_handleMessage.
  - destruct (socketState s w) as [[| | |]|]; auto;
      (apply invariant_handleClose; eapply invariant_frame; [|exact Hinv]; frames).
  - destruct (find _ (timers w)) as [tm|] eqn:Hf; auto.
    apply find_timer in Hf as [Hin Hid].
    destruct (callback tm) eqn:Hcb.
    + eapply invariant_frame; [|exact Hinv]. frames.
    + apply invariant_reconnect_callback; auto.
      rewrite <- Hid. apply (inv_reconnect Hinv); auto.
      unfold is_reconnect. now rewrite Hcb.
Qed.

Theorem reachable_invariant w : reachable w -> invariant w.
Proof.
  induction 1; [apply invariant_init | now apply invariant_step].
Qed.

Lemma reachable_run w es : reachable w -> reachable (run w es).
Proof.
  revert w. induction es as [|e es IH]; intros w H; cbn; auto.
  apply IH. now constructor.
Qed.

Lemma invariant_run w es : invariant w -> invariant (run w es).
Proof.
  revert w. induction es as [|e es IH]; intros w H; cbn; auto.
  apply IH. now apply invariant_step.
Qed.

(** At most one reconnect timer is scheduled, and it is the one the client
    remembers. *)
Lemma invariant_one_timer w :
  invariant w -> (List.length (reconnect_timers w) <= 1)%nat.
Proof.
  intros [i1 i2 i3 i4 i5 i6]. unfold reconnect_timers.
  assert (H : forall tm, In tm (filter is_reconnect (timers w)) ->
                         reconnectTimer (this w) = Some (timer_id tm)).
  { intros tm Hin. apply filter_In in Hin as [Hin Hr]. auto. }
  pose proof (NoDup_ids_filter is_reconnect _ i2) as Hnd.
  destruct (filter is_reconnect (timers w)) as [|a [|b l]]; cbn; try lia.
  exfalso. pose proof (H a (or_introl eq_refl)) as Ha.
  pose proof (H b (or_intror (or_introl eq_refl))) as Hb.
  cbn in Hnd. inversion Hnd as [|? ? Hni _]; subst.
  apply Hni. left. congruence.
Qed.

(** ** What settling a request touches *)
Lemma readyState_update_promise a o (l : list Socket) :
  map readyState (update_nth a (fun s => mkSocket (readyState s) (Some o)) l) =
  map readyState l.
Proof.
  revert a. induction l as [|x l IH]; intros [|a]; cbn; auto. now rewrite IH.
Qed.

Lemma untouched_refl w : untouched w w.
Proof. constructor; reflexivity. Qed.

Lemma untouched_trans w1 w2 w3 : untouched w1 w2 -> untouched w2 w3 -> untouched w1 w3.
Proof. intros [] []. constructor; congruence. Qed.

Lemma untouched_logs (B : Type) (l : list B) e w :
  untouched w (fold_left (fun w _ => logger (LogReconnectFailed e) w) l w).
Proof.
  revert w. induction l as [|x l IH]; intros w; cbn; [apply untouched_refl|].
  eapply untouched_trans; [|apply IH]. constructor; reflexivity.
Qed.

Lemma untouched_settleAttempt a o w : untouched w (settleAttempt a o w).
Proof.
  unfold settleAttempt.
  destruct (nth_error (sockets w) a) as [[st [o'|]]|]; try apply untouched_refl.
  assert (H : untouched w (on_this (set_connectPromise None)
              (set_sockets (update_nth a (fun s => mkSocket (readyState s) (Some o)) (sockets w)) w))).
  { constructor; try reflexivity. cbn. apply readyState_update_promise. }
  destruct o as [|e]; [exact H|].
  eapply untouched_trans; [exact H|]. apply untouched_logs.
Qed.

Lemma untouched_resume_waiter wt o w : untouched w (resume_waiter wt o w).
Proof.
  unfold resume_waiter. destruct wt as [a|r|].
  - destruct o as [|e]; [|apply untouched_settleAttempt].
    eapply untouched_trans; [|apply untouched_settleAttempt].
    constructor; reflexivity.
  - split_match; try apply untouched_refl. constructor; reflexivity.
  - apply untouched_refl.
Qed.

Lemma closed_resume_waiter wt o w :
  closed (this (resume_waiter wt o w)) = closed (this w).
Proof.
  destruct o as [|e]; [|apply (fr_closed (frame_resume_rejected wt e (frame_refl w)))].
  destruct wt as [a|r|]; cbn.
  - now rewrite (fr_closed (frame_settleAttempt a Resolved (frame_refl _))).
  - split_match; reflexivity.
  - reflexivity.
Qed.

Lemma connected_resume_waiter wt o w :
  connected (this w) = true -> connected (this (resume_waiter wt o w)) = true.
Proof.
  intros H.
  destruct o as [|e];
    [|now rewrite (fr_connected (frame_resume_rejected wt e (frame_refl w)))].
  destruct wt as [a|r|]; cbn.
  - now rewrite (fr_connected (frame_settleAttempt a Resolved (frame_refl _))).
  - split_match; exact H.
  - exact H.
Qed.

(** ** The two flags under every handler *)

Lemma mild_frame w w' : frame w w' -> mild w w'.
Proof. intros F. split; [apply F|]. rewrite (fr_connected F). auto. Qed.

Lemma mild_trans w1 w2 w3 : mild w1 w2 -> mild w2 w3 -> mild w1 w3.
Proof. intros [a b] [c d]. split; [congruence|auto]. Qed.

Lemma request_this method id wt w w' :
  request method id wt w = Normal w' ->
  this w' = set_pending (JsMap.set id (mkPending (nextTimer w) wt) (pending (this w))) (this w) /\
  timers w' = timers w ++ [mkTimer (nextTimer w) 30000 (RequestTimeout id method wt)] /\
  nextTimer w' = S (nextTimer w) /\
  sent w' = sent w ++ [(id, method)] /\
  settled w' = settled w /\ sockets w' = sockets w /\ frames w' = frames w /\
  log w' = log w /\ delivered w' = delivered w.
Proof.
  unfold request. destruct (negb (ws_open w)); [discriminate|].
  intros [= <-]. cbn. repeat split.
Qed.

Lemma mild_request method id wt w w' : request method id wt w = Normal w' -> mild w w'.
Proof.
  intros H. apply request_this in H as [H _]. unfold mild. now rewrite H.
Qed.

Lemma mild_connect w : mild w (snd (connect w)).
Proof.
  destruct (connect_same w) as (_ & _ & _ & a & b & _ & _). split; [exact a|].
  rewrite b. auto.
Qed.

Lemma mild_handleMessage f now w : mild w (handleMessage f now w).
Proof.
  unfold handleMessage. destruct f as [id ok err|ev seq payload| |];
    try solve [apply mild_frame; frames].
  destruct (JsMap.get id (pending (this w))) as [p|]; [|apply mild_frame; frames].
  destruct ok; [|apply mild_frame; frames].
  unfold pending_resolve, settle. split.
  - now rewrite closed_resume_waiter.
  - intros H. now apply connected_resume_waiter.
Qed.

Lemma mild_reconnect_callback w : mild w (reconnect_callback w).
Proof.
  unfold reconnect_callback.
  pose proof (mild_connect (on_this (set_reconnectTimer None) w)) as M.
  destruct (connect _) as [[|e|a] w1]; cbn [snd] in M.
  - exact M.
  - eapply mild_trans; [exact M|]. apply mild_frame. frames.
  - eapply mild_trans; [exact M|]. apply mild_frame. frames.
Qed.

Lemma mild_step w e :
  e <> CallClose -> (forall s now, e <> SocketClose s now) -> mild w (step w e).
Proof.
  intros H1 H2.
  destruct e as [| |id|r id key now|r|r|s id|s err|s f now|s now|t]; cbn [step].
  - apply mild_connect.
  - congruence.
  - unfold abortChat. destruct (request _ _ _ w) eqn:E.
    + eapply mild_request; eauto.
    + apply mild_frame; frames.
  - unfold chatStream_start.
    destruct (JsMap.get r (frames w)); [apply mild_frame; frames|].
    unfold getProgress.
    remember (on_this _ (store r _ _)) as w1 eqn:E1.
    assert (M1 : mild w w1) by (subst w1; apply mild_frame; frames).
    destruct (request _ _ _ w1) eqn:E.
    + eapply mild_trans; [exact M1|]. eapply mild_request; eauto.
    + eapply mild_trans; [exact M1|]. apply mild_frame; frames.
  - apply mild_frame; frames.
  - apply mild_frame; frames.
  - destruct (socketState s w) as [[| | |]|]; try solve [apply mild_frame; frames].
    unfold onOpen.
    destruct (request _ _ _ _) eqn:E.
    + eapply mild_trans; [|eapply mild_request; eauto]. apply mild_frame; frames.
    + apply mild_frame; frames.
  - destruct (socketState s w) as [[| | |]|]; apply mild_frame; frames.
  - destruct (socketState s w) as [[| | |]|]; try solve [apply mild_frame; frames];
      apply mild_handleMessage.
  - exfalso. eapply H2; reflexivity.
  - destruct (find _ (timers w)) as [tm|]; [|apply mild_frame; frames].
    destruct (callback tm).
    + apply mild_frame; frames.
    + eapply mild_trans; [|apply mild_reconnect_callback]. apply mild_frame; frames.
Qed.

Lemma connected_close w : connected (this (close w)) = connected (this w).
Proof.
  rewrite close_eq. cbv zeta.
  match goal with |- connected (this (flushPending ?e ?x)) = _ =>
    rewrite (fr_connected (frame_flushPending e (frame_refl x))) end.
  cbn.
  assert (H : connected (this (close_timer w)) = connected (this w)).
  { unfold close_timer. cbn. now destruct (reconnectTimer (this w)). }
  destruct (ws (this (close_timer w))) as [s|]; [|exact H].
  now rewrite (fr_connected (frame_socket_close s (frame_refl _))).
Qed.

Lemma closed_close w : closed (this (close w)) = true.
Proof.
  rewrite close_eq. cbv zeta.
  match goal with |- closed (this (flushPending ?e ?x)) = _ =>
    rewrite (fr_closed (frame_flushPending e (frame_refl x))) end.
  cbn.
  assert (H : closed (this (close_timer w)) = true).
  { unfold close_timer. cbn. now destruct (reconnectTimer (this w)). }
  destruct (ws (this (close_timer w))) as [s|]; [|exact H].
  now rewrite (fr_closed (frame_socket_close s (frame_refl _))).
Qed.

Lemma closed_handleClose now w : closed (this (handleClose now w)) = closed (this w).
Proof.
  rewrite handleClose_eq. cbv zeta.
  remember (notify_listeners now _) as w1 eqn:E1.
  assert (F : frame (on_this (set_connected false) w) w1) by (subst w1; frames).
  pose proof (fr_closed F) as Hc. cbn in Hc.
  destruct (closed (this w1)) eqn:E; cbn [negb]; [congruence|].
  rewrite <- Hc. unfold scheduleReconnect. cbn.
  destruct (reconnectTimer (this w1)); cbn; exact E.
Qed.

Lemma connected_handleClose now w : connected (this (handleClose now w)) = false.
Proof.
  rewrite handleClose_eq. cbv zeta.
  remember (notify_listeners now _) as w1 eqn:E1.
  assert (F : frame (on_this (set_connected false) w) w1) by (subst w1; frames).
  pose proof (fr_connected F) as Hc. cbn in Hc.
  destruct (closed (this w1)) eqn:E; cbn [negb]; [congruence|].
  unfold scheduleReconnect. cbn.
  destruct (reconnectTimer (this w1)); cbn; exact Hc.
Qed.

Lemma task_cases (e : Task) :
  e = CallClose \/ (exists s now, e = SocketClose s now) \/
  (e <> CallClose /\ forall s now, e <> SocketClose s now).
Proof.
  destruct e; try (right; right; split; [discriminate|intros; discriminate]).
  - now left.
  - right; left; eauto.
Qed.

Lemma closed_step w e : closed (this w) = true -> closed (this (step w e)) = true.
Proof.
  intros H. destruct (task_cases e) as [->|[(s & now & ->)|[H1 H2]]].
  - apply closed_close.
  - cbn [step]. destruct (socketState s w) as [[| | |]|]; auto;
      rewrite closed_handleClose; exact H.
  - destruct (mild_step w H1 H2) as [M _]. congruence.
Qed.

Lemma closed_run w es : closed (this w) = true -> closed (this (run w es)) = true.
Proof.
  revert w. induction es as [|e es IH]; intros w H; cbn; auto.
  apply IH. now apply closed_step.
Qed.

Lemma invariant_closed_no_timer w :
  invariant w -> closed (this w) = true -> reconnect_timers w = [].
Proof.
  intros Hinv Hc. unfold reconnect_timers.
  destruct (filter is_reconnect (timers w)) as [|tm l] eqn:E; [reflexivity|].
  assert (Hin : In tm (filter is_reconnect (timers w))) by (rewrite E; now left).
  apply filter_In in Hin as [Hin Hr].
  pose proof (inv_reconnect Hinv tm Hin Hr) as H1.
  pose proof (inv_closed Hinv Hc) as H2. congruence.
Qed.

(** ** [flushPending] *)
Lemma flushPending_pending e w : pending (this (flushPending e w)) = [].
Proof. reflexivity. Qed.

Lemma pending_reject_effect id p e w :
  let w' := pending_reject id p e w in
  settled w' = settled w ++ [(id, Rejected e)] /\
  map readyState (sockets w') = map readyState (sockets w) /\
  ws (this w') = ws (this w).
Proof.
  unfold pending_reject, settle. cbv zeta.
  match goal with |- context [resume_waiter ?wt ?o ?x] =>
    destruct (untouched_resume_waiter wt o x) as [_ _ _ _ a b _ _ _ c] end.
  cbn in *. auto.
Qed.

Lemma flushPending_effect e w :
  let w' := flushPending e w in
  settled w' = settled w ++ map (fun x => (fst x, Rejected e)) (pending (this w)) /\
  map readyState (sockets w') = map readyState (sockets w) /\
  ws (this w') = ws (this w).
Proof.
  unfold flushPending. cbn.
  generalize (pending (this w)) as l. intros l. revert w.
  induction l as [|[id p] l IH]; intros w; cbn.
  - now rewrite app_nil_r.
  - destruct (IH (pending_reject id p e w)) as (a & b & c).
    destruct (pending_reject_effect id p e w) as (a' & b' & c').
    rewrite a, b, c, a', b', c'. now rewrite <- app_assoc.
Qed.

Lemma socketState_states s w w' :
  map readyState (sockets w') = map readyState (sockets w) ->
  socketState s w' = socketState s w.
Proof.
  unfold socketState. intros H.
  rewrite <- !nth_error_map. now rewrite H.
Qed.

Lemma socketState_set s st w :
  socketState s w <> None -> socketState s (set_readyState s st w) = Some st.
Proof.
  unfold socketState, set_readyState. cbn.
  rewrite nth_error_update_nth, Nat.eqb_refl.
  destruct (nth_error (sockets w) s); cbn; congruence.
Qed.

Lemma close_timer_fields w :
  pending (this (close_timer w)) = pending (this w) /\
  settled (close_timer w) = settled w /\
  ws (this (close_timer w)) = ws (this w) /\
  sockets (close_timer w) = sockets w.
Proof.
  unfold close_timer. cbn. destruct (reconnectTimer (this w)); cbn; auto.
Qed.

Lemma socket_close_fields s w :
  pending (this (socket_close s w)) = pending (this w) /\
  settled (socket_close s w) = settled w /\
  socketState s (socket_close s w) <> Some OPEN /\
  socketState s (socket_close s w) <> Some CONNECTING.
Proof.
  unfold socket_close.
  destruct (socketState s w) as [[| | |]|] eqn:E; cbn [pending this settled set_readyState];
    repeat split; auto; try congruence;
    rewrite socketState_set; congruence.
Qed.

Lemma close_fields w :
  ws (this (close w)) = None /\
  pending (this (close w)) = [] /\
  settled (close w) =
    settled w ++ map (fun x => (fst x, Rejected "client closed")) (pending (this w)) /\
  (forall s, ws (this w) = Some s ->
             socketState s (close w) <> Some OPEN /\
             socketState s (close w) <> Some CONNECTING).
Proof.
  rewrite close_eq. cbv zeta.
  destruct (close_timer_fields w) as (Hp & Hs & Hw & Hk).
  remember (close_timer w) as w1 eqn:E1.
  remember (match ws (this w1) with Some s => socket_close s w1 | None => w1 end) as w2 eqn:E2.
  destruct (flushPending_effect "client closed" (on_this (set_ws None) w2)) as (a & b & c).
  cbv zeta in a, b, c.
  change (settled (on_this (set_ws None) w2)) with (settled w2) in a.
  change (pending (this (on_this (set_ws None) w2))) with (pending (this w2)) in a.
  change (sockets (on_this (set_ws None) w2)) with (sockets w2) in b.
  change (ws (this (on_this (set_ws None) w2))) with (@None nat) in c.
  assert (H2 : pending (this w2) = pending (this w) /\ settled w2 = settled w).
  { subst w2. destruct (ws (this w1)) as [s|]; [|auto].
    destruct (socket_close_fields s w1) as (x & y & _). split; congruence. }
  destruct H2 as [H2p H2s].
  split; [exact c|]. split; [apply flushPending_pending|]. split.
  - rewrite a. congruence.
  - intros s Hs'. rewrite !(socketState_states s _ _ b).
    subst w2. rewrite Hw, Hs'.
    destruct (socket_close_fields s w1) as (_ & _ & x & y). auto.
Qed.

(** ** C10: [close] and the [connected] flag *)

(** C10.  [close()] leaves the [connected] flag as it was, so
    [isConnected()] still answers [true] after it returned for a client
    that was connected; handling the ["close"] event of a socket clears the
    flag; and no other task of the client ever clears it. *)
Theorem close_keeps_connected_flag :
  (forall w, isConnected (close w) = isConnected w) /\
  (forall w s now st, socketState s w = Some st -> st <> CLOSED ->
                      isConnected (step w (SocketClose s now)) = false) /\
  (forall w e, isConnected w = true -> isConnected (step w e) = false ->
               exists s now, e = SocketClose s now).
Proof.
  unfold isConnected. split; [|split].
  - apply connected_close.
  - intros w s now st Hs Hne. cbn [step]. rewrite Hs.
    destruct st; try congruence; apply connected_handleClose.
  - intros w e H1 H2. destruct (task_cases e) as [->|[(s & now & ->)|[Ha Hb]]].
    + cbn [step] in H2. rewrite connected_close in H2. congruence.
    + eauto.
    + destruct (mild_step w Ha Hb) as [_ M]. rewrite (M H1) in H2. discriminate.
Qed.

Lemma close_keeps_connected_flag_witness :
  isConnected connected_world = true /\
  isConnected (step connected_world CallClose) = true /\
  isConnected (step (step connected_world CallClose) (SocketClose 0 1)) = false.
Proof.
  destruct close_keeps_connected_flag as (A & B & C).
  split; [reflexivity|]. split.
  - cbn [step]. rewrite A. reflexivity.
  - apply (B _ 0%nat 1%Z CLOSING); [reflexivity|discriminate].
Defined.

(** ** C7: [close] *)

(** C7.  Whatever requests are outstanding, [close()] marks the client
    closed, cancels the reconnect timer, closes the socket and forgets it,
    rejects every outstanding request, in order, with ["client closed"],
    and from then on no reconnect timer is ever scheduled. *)
Theorem close_flushes_and_stops w :
  reachable w ->
  let w' := close w in
  closed (this w') = true /\
  reconnectTimer (this w') = None /\
  reconnect_timers w' = [] /\
  ws (this w') = None /\
  (forall s, ws (this w) = Some s ->
             socketState s w' <> Some OPEN /\ socketState s w' <> Some CONNECTING) /\
  pending (this w') = [] /\
  settled w' = settled w ++ map (fun x => (fst x, Rejected "client closed")) (pending (this w)) /\
  (forall es, closed (this (run w' es)) = true /\
              reconnectTimer (this (run w' es)) = None /\
              reconnect_timers (run w' es) = []).
Proof.
  intros Hr w'. subst w'.
  pose proof (reachable_invariant Hr) as Hinv.
  pose proof (invariant_close Hinv) as Hinv'.
  pose proof (closed_close w) as Hc.
  assert (Hlater : forall es, closed (this (run (close w) es)) = true /\
                              reconnectTimer (this (run (close w) es)) = None /\
                              reconnect_timers (run (close w) es) = []).
  { intros es. pose proof (closed_run _ es Hc) as Hc'.
    pose proof (@invariant_run _ es Hinv') as Hi.
    repeat split; auto.
    - apply (inv_closed Hi Hc').
    - now apply invariant_closed_no_timer. }
  destruct (Hlater []) as (_ & Hrt & Hts).
  destruct (close_fields w) as (a & b & c & d).
  split; [exact Hc|]. split; [exact Hrt|]. split; [exact Hts|].
  split; [exact a|]. split; [exact d|]. split; [exact b|]. split; [exact c|].
  exact Hlater.
Qed.

Lemma close_flushes_and_stops_witness :
  let w := step (step connected_world (CallAbortChat "a-1")) (CallAbortChat "a-2") in
  reachable w /\
  List.length (pending (this w)) = 2%nat /\
  settled (close w) =
    [("c-1", Resolved); ("a-1", Rejected "client closed"); ("a-2", Rejected "client closed")] /\
  reconnect_timers (run (close w) [SocketClose 0 7]) = [].
Proof.
  intros w.
  assert (Hr : reachable w) by (repeat constructor).
  destruct (close_flushes_and_stops Hr) as (_ & _ & _ & _ & _ & _ & Hs & Hl).
  split; [exact Hr|]. split; [reflexivity|]. split.
  - rewrite Hs. reflexivity.
  - apply (Hl [SocketClose 0 7]).
Defined.

(** ** C5: the correlator *)
Lemma find_timer_In (l : list Timer) (tm : Timer) :
  NoDup (map timer_id l) -> In tm l ->
  find (fun x => Nat.eqb (timer_id x) (timer_id tm)) l = Some tm.
Proof.
  induction l as [|a l IH]; cbn; intros Hnd Hin; [tauto|].
  inversion Hnd as [|? ? Hni Hnd']; subst.
  destruct (Nat.eqb (timer_id a) (timer_id tm)) eqn:E.
  - apply Nat.eqb_eq in E. destruct Hin as [->|Hin]; [reflexivity|].
    exfalso. apply Hni. rewrite E. now apply in_map.
  - destruct Hin as [->|Hin]; [now rewrite Nat.eqb_refl in E|]. auto.
Qed.

Lemma unmatched_response_dropped w id ok err now :
  JsMap.get id (pending (this w)) = None ->
  handleMessage (ResFrame id ok err) now w = w.
Proof. intros H. unfold handleMessage. now rewrite H. Qed.

Lemma request_timeout_effect id method wt w :
  let w' := request_timeout id method wt w in
  pending (this w') = JsMap.delete id (pending (this w)) /\
  settled w' = settled w ++ [(id, Rejected ("request timeout: " ++ method))].
Proof.
  unfold request_timeout, settle. cbv zeta.
  match goal with |- context [resume_waiter ?a ?o ?x] =>
    destruct (untouched_resume_waiter a o x) as [p _ _ _ _ q _ _ _ _] end.
  rewrite p, q. split; reflexivity.
Qed.

(** C5.  A request issued on an open socket under an id that is not in use
    registers a pending entry under that id together with a timer of 30000
    ms, and leaves the other entries alone.  When the timer of a request
    fires, the request is rejected with ["request timeout: <method>"] and its
    entry is gone, the other entries being untouched; a response that
    arrives for it afterwards changes nothing.  In general a response whose
    id matches no pending entry changes nothing at all. *)
Theorem request_registers_times_out_and_drops :
  (forall w method id wt,
      ws_open w = true -> JsMap.get id (pending (this w)) = None ->
      exists w',
        request method id wt w = Normal w' /\
        JsMap.get id (pending (this w')) = Some (mkPending (nextTimer w) wt) /\
        In (mkTimer (nextTimer w) 30000 (RequestTimeout id method wt)) (timers w') /\
        (forall id', id' <> id ->
                     JsMap.get id' (pending (this w')) = JsMap.get id' (pending (this w)))) /\
  (forall w t ms id method wt,
      reachable w -> In (mkTimer t ms (RequestTimeout id method wt)) (timers w) ->
      let w' := step w (TimerFires t) in
      JsMap.get id (pending (this w')) = None /\
      settled w' = settled w ++ [(id, Rejected ("request timeout: " ++ method))] /\
      (forall id', id' <> id ->
                   JsMap.get id' (pending (this w')) = JsMap.get id' (pending (this w))) /\
      (forall ok err now, handleMessage (ResFrame id ok err) now w' = w')) /\
  (forall w id ok err now,
      JsMap.get id (pending (this w)) = None ->
      handleMessage (ResFrame id ok err) now w = w).
Proof.
  split; [|split].
  - intros w method id wt Hopen Hfresh.
    destruct (request method id wt w) as [w'|e] eqn:E.
    + exists w'. destruct (request_this _ _ _ _ E) as (Ht & Htm & _).
      split; [reflexivity|]. rewrite Ht, Htm. cbn. split; [|split].
      * apply JsMapFacts.get_set_same.
      * apply in_or_app. right. now left.
      * intros id' Hne. apply JsMapFacts.get_set_other. congruence.
    + unfold request in E. rewrite Hopen in E. discriminate.
  - intros w t ms id method wt Hr Hin w'.
    pose proof (reachable_invariant Hr) as Hinv.
    pose proof (find_timer_In _ _ (inv_nodup Hinv) Hin) as Hf. cbn in Hf.
    assert (Hp : pending (this w') = JsMap.delete id (pending (this w)) /\
                 settled w' = settled w ++ [(id, Rejected ("request timeout: " ++ method))]).
    { subst w'. cbn [step]. rewrite Hf. cbn [callback].
      apply (request_timeout_effect id method wt (clearTimeout t w)). }
    destruct Hp as [Hp Hs].
    assert (Hnone : JsMap.get id (pending (this w')) = None)
      by (rewrite Hp; apply JsMapFacts.get_delete_same).
    split; [exact Hnone|]. split; [exact Hs|]. split.
    + intros id' Hne. rewrite Hp. apply JsMapFacts.get_delete_other. congruence.
    + intros ok err now. now apply unmatched_response_dropped.
  - intros. now apply unmatched_response_dropped.
Qed.

Lemma request_registers_times_out_and_drops_witness :
  let w := step connected_world (CallAbortChat "a-1") in
  reachable w /\
  In (mkTimer 1 30000 (RequestTimeout "a-1" "chat.abort" AwaitAbort)) (timers w) /\
  settled (step w (TimerFires 1)) =
    [("c-1", Resolved); ("a-1", Rejected "request timeout: chat.abort")] /\
  handleMessage (ResFrame "a-1" true None) 9 (step w (TimerFires 1)) = step w (TimerFires 1) /\
  (exists w', request "chat.send" "q-1" (AwaitChatSend "r-1") connected_world = Normal w' /\
              JsMap.get "q-1" (pending (this w')) = Some (mkPending 1 (AwaitChatSend "r-1"))) /\
  handleMessage (ResFrame "zz" true None) 9 w = w.
Proof.
  intros w.
  destruct request_registers_times_out_and_drops as (A & B & C).
  assert (Hr : reachable w) by (repeat constructor).
  assert (Hin : In (mkTimer 1 30000 (RequestTimeout "a-1" "chat.abort" AwaitAbort)) (timers w))
    by (left; reflexivity).
  destruct (B w 1%nat 30000%Z "a-1" "chat.abort" AwaitAbort Hr Hin) as (_ & Hs & _ & Hl).
  split; [exact Hr|]. split; [exact Hin|]. split; [exact Hs|]. split; [apply Hl|]. split.
  - destruct (A connected_world "chat.send" "q-1" (AwaitChatSend "r-1") eq_refl eq_refl)
      as (w' & E & G & _).
    exists w'. split; [exact E|exact G].
  - apply C. reflexivity.
Defined.

(** ** The event router *)

Lemma routed_refl w : routed w w.
Proof. constructor; reflexivity. Qed.

Lemma routed_trans w1 w2 w3 : routed w1 w2 -> routed w2 w3 -> routed w1 w3.
Proof. intros [] []. constructor; congruence. Qed.

Lemma gaps_logger e w : is_gap e = false -> gaps (logger e w) = gaps w.
Proof.
  intros H. unfold gaps, logger. cbn. rewrite filter_app. cbn. rewrite H.
  apply app_nil_r.
Qed.

Lemma routed_step w0 w w' :
  lastSeq (this w') = lastSeq (this w) -> delivered w' = delivered w ->
  chatListeners (this w') = chatListeners (this w) -> gaps w' = gaps w ->
  routed w0 w -> routed w0 w'.
Proof. intros a b c d H. apply (routed_trans H). now constructor. Qed.

Lemma routed_saveProgress w0 k r a s now w :
  routed w0 w -> routed w0 (saveProgress k r a s now w).
Proof.
  apply routed_step; try reflexivity.
  unfold saveProgress. now rewrite gaps_logger.
Qed.

Lemma routed_clearProgress w0 k w : routed w0 w -> routed w0 (clearProgress k w).
Proof. apply routed_step; reflexivity. Qed.

Lemma routed_listen_seq w0 evt gw :
  routed w0 (snd gw) -> routed w0 (snd (listen_seq evt gw)).
Proof. destruct gw. unfold listen_seq. now destruct (ChatEvent.seq evt). Qed.

Lemma routed_listen_text w0 r evt now gw :
  routed w0 (snd gw) -> routed w0 (snd (listen_text r evt now gw)).
Proof.
  destruct gw. unfold listen_text. cbn [snd]. intros H.
  split_match; cbn [snd]; auto using routed_saveProgress.
Qed.

Lemma routed_listen_terminal w0 evt gw :
  routed w0 (snd gw) -> routed w0 (snd (listen_terminal evt gw)).
Proof.
  destruct gw. unfold listen_terminal. cbn [snd]. intros H.
  split_match; cbn [snd]; auto using routed_clearProgress.
Qed.

Lemma routed_listen_error w0 evt gw :
  routed w0 (snd gw) -> routed w0 (snd (listen_error evt gw)).
Proof.
  destruct gw. unfold listen_error. cbn [snd]. intros H.
  split_match; cbn [snd]; auto.
  revert H. apply routed_step; try reflexivity. apply gaps_logger. reflexivity.
Qed.

Lemma routed_listen_wake w0 gw :
  routed w0 (snd gw) -> routed w0 (snd (listen_wake gw)).
Proof. destruct gw. unfold listen_wake. now destruct (resolvers s). Qed.

Lemma routed_listener r evt now w : routed w (listener r evt now w).
Proof.
  unfold listener. destruct (JsMap.get r (frames w)) as [g|]; [|apply routed_refl].
  assert (H : routed w (snd (listen_wake (listen_error evt (listen_terminal evt
                 (listen_text r evt now (listen_seq evt (g, w)))))))).
  { apply routed_listen_wake, routed_listen_error, routed_listen_terminal,
      routed_listen_text, routed_listen_seq, routed_refl. }
  destruct (listen_wake _) as [g' w']. cbn [snd] in H.
  revert H. apply routed_step; reflexivity.
Qed.

Lemma trackSeq_effect s w :
  let w' := trackSeq (Some s) w in
  lastSeq (this w') = Some s /\
  delivered w' = delivered w /\
  chatListeners (this w') = chatListeners (this w) /\
  gaps w' = gaps w ++
            match lastSeq (this w) with
            | Some c =>
                if js_gt s (js_add c (number 1))
                then [LogGap (js_add c (number 1)) s (js_sub (js_sub s c) (number 1))]
                else []
            | None => []
            end.
Proof.
  unfold trackSeq. cbv zeta.
  destruct (lastSeq (this w)) as [c|]; [destruct (js_gt s (js_add c (number 1)))|]; cbn;
    repeat split; unfold gaps; cbn; rewrite ?filter_app; cbn;
    now rewrite ?app_nil_r.
Qed.

Lemma handleMessage_event ev s payload now w :
  let w' := handleMessage (EventFrame ev (Some s) payload) now w in
  lastSeq (this w') = Some s /\
  chatListeners (this w') = chatListeners (this w) /\
  gaps w' = gaps w ++
            match lastSeq (this w) with
            | Some c =>
                if js_gt s (js_add c (number 1))
                then [LogGap (js_add c (number 1)) s (js_sub (js_sub s c) (number 1))]
                else []
            | None => []
            end /\
  delivered w' = delivered w ++ deliveries ev payload w.
Proof.
  cbv zeta. unfold handleMessage, deliveries.
  destruct (trackSeq_effect s w) as (a & b & c & d).
  remember (trackSeq (Some s) w) as w1 eqn:E1.
  destruct (String.eqb ev "chat").
  - destruct payload as [evt|].
    + unfold dispatch. rewrite c.
      destruct (JsMap.get (ChatEvent.runId evt) (chatListeners (this w))) as [r|].
      * match goal with |- context [listener ?r ?e ?n ?x] =>
          destruct (routed_listener r e n x) as [p q u v] end.
        rewrite p, q, u, v. cbn. unfold gaps in *. cbn. rewrite b. auto.
      * rewrite app_nil_r. auto.
    + rewrite gaps_logger by reflexivity. rewrite app_nil_r.
      repeat split; assumption.
  - rewrite app_nil_r. auto.
Qed.

(** ** C9: the progress cache *)

Lemma cleanup_fold now l w :
  sessionProgress (this
    (fold_left
       (fun w e =>
          if expired now (snd e) then
            let w := logger (LogCleanup (fst e)) w in
            on_this (fun c => set_sessionProgress (JsMap.delete (fst e) (sessionProgress c)) c) w
          else w) l w)) =
  fold_left (fun m e => if expired now (snd e) then JsMap.delete (fst e) m else m)
            l (sessionProgress (this w)).
Proof.
  revert w. induction l as [|e l IH]; intros w; cbn; [reflexivity|].
  rewrite IH. now destruct (expired now (snd e)).
Qed.

Lemma cleanup_sweep now w :
  sessionProgress (this (cleanupExpiredProgress now w)) = sweep now (sessionProgress (this w)).
Proof. apply cleanup_fold. Qed.

Lemma sweep_fold now (l m : JsMap.t SessionProgress.t) :
  fold_left (fun m e => if expired now (snd e) then JsMap.delete (fst e) m else m) l m =
  filter (fun e => negb (existsb (fun e' => String.eqb (fst e') (fst e) && expired now (snd e')) l)) m.
Proof.
  revert m. induction l as [|e0 l IH]; intros m; cbn.
  - now rewrite filter_all.
  - rewrite IH. destruct (expired now (snd e0)) eqn:E.
    + unfold JsMap.delete. rewrite filter_filter. apply filter_ext.
      intros e. rewrite andb_true_r. now rewrite negb_orb.
    + apply filter_ext. intros e. now rewrite andb_false_r.
Qed.

Lemma wf_same_key (V : Type) (m : JsMap.t V) e e' :
  JsMap.wf m -> In e m -> In e' m -> fst e = fst e' -> e = e'.
Proof.
  unfold JsMap.wf, JsMap.keys. induction m as [|a m IH]; cbn; [tauto|].
  intros Hnd Hin Hin' Hk. inversion Hnd as [|? ? Hni Hnd']; subst.
  destruct Hin as [->|Hin], Hin' as [->|Hin']; auto.
  - exfalso. apply Hni. rewrite Hk. now apply in_map.
  - exfalso. apply Hni. rewrite <- Hk. now apply in_map.
Qed.

(** On a map, whose keys are distinct, the sweep keeps exactly the entries
    that have not expired, in their order. *)
Lemma sweep_filter now m :
  JsMap.wf m -> sweep now m = filter (fun e => negb (expired now (snd e))) m.
Proof.
  intros Hwf. unfold sweep. rewrite sweep_fold. apply filter_ext_in.
  intros e Hin. f_equal.
  destruct (expired now (snd e)) eqn:E.
  - apply existsb_exists. exists e. split; [exact Hin|].
    now rewrite String.eqb_refl, E.
  - destruct (existsb _ m) eqn:X; [|reflexivity].
    apply existsb_exists in X as (e' & Hin' & H).
    apply andb_prop in H as [Hk He]. apply String.eqb_eq in Hk.
    rewrite (@wf_same_key _ m e' e Hwf Hin' Hin Hk) in He. congruence.
Qed.

Lemma progress_generator w e :
  generator_task e -> sessionProgress (this (step w e)) = sessionProgress (this w).
Proof.
  destruct e; cbn [generator_task step]; try tauto; intros _.
  - unfold chatStream_resume, loop_body, loop_head, after_loop, stream_throw, stream_return.
    split_match; reflexivity.
  - unfold chatStream_next, after_yield, loop_head, after_loop, stream_return.
    split_match; reflexivity.
Qed.

Lemma progress_generator_run w es :
  Forall generator_task es ->
  sessionProgress (this (run w es)) = sessionProgress (this w).
Proof.
  revert w. induction es as [|e es IH]; intros w H; [reflexivity|].
  inversion H; subst. change (run w (e :: es)) with (run (step w e) es).
  rewrite IH by assumption. now apply progress_generator.
Qed.

Lemma key_listen_seq evt gw :
  sessionKeyParam (fst (listen_seq evt gw)) = sessionKeyParam (fst gw).
Proof. destruct gw. unfold listen_seq. now destruct (ChatEvent.seq evt). Qed.

Lemma key_listen_text r evt now gw :
  sessionKeyParam (fst (listen_text r evt now gw)) = sessionKeyParam (fst gw).
Proof. destruct gw. unfold listen_text. split_match; reflexivity. Qed.

Lemma cleared_listen_terminal evt gw :
  ChatEvent.state evt = final \/ ChatEvent.state evt = aborted ->
  JsMap.get (sessionKeyParam (fst gw))
            (sessionProgress (this (snd (listen_terminal evt gw)))) = None.
Proof.
  destruct gw. unfold listen_terminal.
  intros [-> | ->]; cbn; apply JsMapFacts.get_delete_same.
Qed.

Lemma progress_listen_error evt gw :
  sessionProgress (this (snd (listen_error evt gw))) = sessionProgress (this (snd gw)).
Proof. destruct gw. unfold listen_error. split_match; reflexivity. Qed.

Lemma progress_listen_wake gw :
  sessionProgress (this (snd (listen_wake gw))) = sessionProgress (this (snd gw)).
Proof. destruct gw. unfold listen_wake. split_match; reflexivity. Qed.

Lemma listener_terminal_clears r evt now w g :
  JsMap.get r (frames w) = Some g ->
  ChatEvent.state evt = final \/ ChatEvent.state evt = aborted ->
  JsMap.get (sessionKeyParam g) (sessionProgress (this (listener r evt now w))) = None.
Proof.
  intros Hg Hst. unfold listener. rewrite Hg.
  pose proof (@cleared_listen_terminal evt (listen_text r evt now (listen_seq evt (g, w))) Hst) as H.
  rewrite key_listen_text, key_listen_seq in H. cbn [fst] in H.
  rewrite <- (progress_listen_error evt), <- progress_listen_wake in H.
  destruct (listen_wake _) as [g' w']. exact H.
Qed.

(** C9.  The time-to-live is 300000 ms.  In every reachable state, a lookup
    first drops every entry, of whatever session, that is older than that,
    keeps the others, and answers with what is then stored under the key.  The listener of a
    stream that receives a [final] or [aborted] event removes the entry of
    the stream's session, and the entry stays absent while the generator
    runs to its end. *)
Theorem lookup_sweeps_and_completion_clears :
  PROGRESS_TTL_MS = 300000%Z /\
  (forall w key now,
      reachable w ->
      let r := getProgress key now w in
      sessionProgress (this (snd r)) =
        filter (fun e => negb (now - SessionProgress.updatedAt (snd e) >? 300000)%Z)
               (sessionProgress (this w)) /\
      fst r = JsMap.get key (sessionProgress (this (snd r)))) /\
  (forall w r g evt now,
      JsMap.get r (frames w) = Some g ->
      ChatEvent.state evt = final \/ ChatEvent.state evt = aborted ->
      let w' := listener r evt now w in
      JsMap.get (sessionKeyParam g) (sessionProgress (this w')) = None /\
      forall es, Forall generator_task es ->
                 JsMap.get (sessionKeyParam g) (sessionProgress (this (run w' es))) = None).
Proof.
  split; [reflexivity|]. split.
  - intros w key now Hr r. subst r. unfold getProgress. cbn [fst snd].
    split; [|reflexivity].
    rewrite cleanup_sweep. apply sweep_filter.
    apply inv_progress. now apply reachable_invariant.
  - intros w r g evt now Hg Hst w'.
    assert (H : JsMap.get (sessionKeyParam g) (sessionProgress (this w')) = None)
      by (now apply listener_terminal_clears).
    split; [exact H|]. intros es Hes. now rewrite progress_generator_run.
Qed.

Lemma lookup_sweeps_and_completion_clears_witness :
  reachable two_sessions /\
  JsMap.keys (sessionProgress (this two_sessions)) = ["s1"; "s2"] /\
  fst (getProgress "s1" 300020 two_sessions) = None /\
  sessionProgress (this (snd (getProgress "s1" 300020 two_sessions))) =
    [("s2", SessionProgress.mk "r-2" "s2" "Hi" 2 300005)] /\
  JsMap.get "s2" (sessionProgress (this
     (run (listener "r-2" (textEvent "r-2" "s2" 3 final "Hi!") 300030 two_sessions)
          [StreamResume "r-2"; StreamNext "r-2"]))) = None.
Proof.
  destruct lookup_sweeps_and_completion_clears as (_ & B & C).
  assert (Hr : reachable two_sessions) by (apply reachable_run; repeat constructor).
  destruct (B two_sessions "s1" 300020%Z Hr) as [H1 H2].
  split; [exact Hr|]. split; [vm_compute; reflexivity|]. split; [|split].
  - rewrite H2, H1. vm_compute. reflexivity.
  - rewrite H1. vm_compute. reflexivity.
  - assert (Hg : JsMap.get "r-2" (frames two_sessions) =
                 Some (mkStream "s2" "Hi" 0 false None false [] 2%Z true (AwaitData true) []))
      by (vm_compute; reflexivity).
    destruct (C two_sessions "r-2" _ (textEvent "r-2" "s2" 3 final "Hi!") 300030%Z Hg
                (or_introl eq_refl)) as [_ H].
    apply (H [StreamResume "r-2"; StreamNext "r-2"]). repeat constructor.
Defined.

(** ** The reconnect back-off *)

Lemma iter_next_backoff n : Nat.iter n next_backoff 1000%Z = backoff_delay n.
Proof.
  induction n as [|n IH]; [reflexivity|].
  change (Nat.iter (S n) next_backoff 1000%Z)
    with (next_backoff (Nat.iter n next_backoff 1000%Z)).
  rewrite IH. unfold next_backoff, backoff_delay.
  rewrite Nat2Z.inj_succ, Z.pow_succ_r by lia.
  assert (0 < 2 ^ Z.of_nat n)%Z by (apply Z.pow_pos_nonneg; lia).
  lia.
Qed.

Lemma awaiting_delay d w : awaiting d w -> scheduled_delay w = Some d.
Proof.
  intros [Hinv _ _ _ (t & Ht & Hin) _].
  pose proof (invariant_one_timer Hinv) as Hone.
  assert (Hf : In (mkTimer t d Reconnect) (reconnect_timers w))
    by (apply filter_In; split; [exact Hin|reflexivity]).
  unfold scheduled_delay.
  destruct (reconnect_timers w) as [|a [|b l]]; cbn in *; try tauto; try lia.
  destruct Hf as [->|[]]. reflexivity.
Qed.

Lemma handleClose_awaiting now w :
  invariant w -> closed (this w) = false -> reconnectTimer (this w) = None ->
  connectPromise (this w) = None ->
  awaiting (backoffMs (this w)) (handleClose now w).
Proof.
  intros Hinv Hc Hrt Hcp.
  pose proof (invariant_handleClose now Hinv) as Hinv'.
  rewrite handleClose_eq in *. cbv zeta in *.
  remember (notify_listeners now _) as w1 eqn:E1.
  assert (F : frame (on_this (set_connected false) w) w1) by (subst w1; frames).
  destruct F as [f1 f2 f3 f4 f5 f6 f7 _]. cbn in f1, f2, f3, f4, f5, f6.
  rewrite f3, Hc in *. cbn [negb] in *.
  unfold scheduleReconnect in *.
  change (reconnectTimer (this (logger LogClosedReconnect w1)))
    with (reconnectTimer (this w1)) in *.
  rewrite f2, Hrt in *. cbn in Hinv'. cbn.
  constructor; cbn.
  - exact Hinv'.
  - exact f3.
  - exact f4.
  - auto.
  - exists (nextTimer w1). split; [reflexivity|].
    apply in_or_app. right. left. now rewrite f5.
  - unfold next_backoff. now rewrite f5.
Qed.

Lemma reconnect_callback_connects w :
  connected (this w) = false -> closed (this w) = false -> connectPromise (this w) = None ->
  let w' := reconnect_callback w in
  sockets w' = sockets w ++ [mkSocket CONNECTING None] /\
  ws (this w') = Some (List.length (sockets w)) /\
  connectPromise (this w') = Some (List.length (sockets w)) /\
  reconnectTimer (this w') = None /\
  closed (this w') = false /\ connected (this w') = false /\
  backoffMs (this w') = backoffMs (this w) /\
  pending (this w') = pending (this w) /\
  timers w' = timers w /\ nextTimer w' = nextTimer w.
Proof.
  intros Hn Hc Hp. unfold reconnect_callback, connect, doConnect. cbn.
  rewrite Hn, Hc, Hp. cbn. rewrite nth_error_snoc. cbn.
  repeat split; assumption.
Qed.

Lemma settleAttempt_pending_promise a o st w :
  nth_error (sockets w) a = Some (mkSocket st None) ->
  let w' := settleAttempt a o w in
  connectPromise (this w') = None /\
  nth_error (sockets w') a = Some (mkSocket st (Some o)).
Proof.
  intros H. unfold settleAttempt. rewrite H. cbv zeta.
  assert (X : forall w0, connectPromise (this w0) = None /\
                         nth_error (sockets w0) a = Some (mkSocket st (Some o)) ->
                         forall (B : Type) (l : list B) e,
                           let w' := fold_left (fun w _ => logger (LogReconnectFailed e) w) l w0 in
                           connectPromise (this w') = None /\
                           nth_error (sockets w') a = Some (mkSocket st (Some o))).
  { intros w0 H0 B l e. revert w0 H0. induction l as [|x l IH]; intros w0 H0; cbn; auto. }
  assert (H0 : connectPromise (this (on_this (set_connectPromise None)
                 (set_sockets (update_nth a (fun s => mkSocket (readyState s) (Some o)) (sockets w)) w))) = None /\
               nth_error (sockets (on_this (set_connectPromise None)
                 (set_sockets (update_nth a (fun s => mkSocket (readyState s) (Some o)) (sockets w)) w))) a =
               Some (mkSocket st (Some o))).
  { cbn. split; [reflexivity|]. rewrite nth_error_update_nth, Nat.eqb_refl, H. reflexivity. }
  destruct o as [|e]; [exact H0|]. now apply X.
Qed.

Lemma socketState_nth s st p w :
  nth_error (sockets w) s = Some (mkSocket st p) -> socketState s w = Some st.
Proof. unfold socketState. now intros ->. Qed.

Lemma nth_set_readyState s st st' p w :
  nth_error (sockets w) s = Some (mkSocket st p) ->
  nth_error (sockets (set_readyState s st' w)) s = Some (mkSocket st' p).
Proof.
  intros H. unfold set_readyState. cbn.
  now rewrite nth_error_update_nth, Nat.eqb_refl, H.
Qed.

Lemma failed_attempt_awaiting d err now w :
  awaiting d w -> awaiting (next_backoff d) (failed_attempt err now w).
Proof.
  intros [Hinv Hc Hn Hp (t & Ht & Hin) Hb].
  unfold failed_attempt. rewrite Ht. cbv zeta.
  set (s := List.length (sockets w)).
  change (run w [TimerFires t; SocketError s err; SocketClose s now])
    with (step (step (step w (TimerFires t)) (SocketError s err)) (SocketClose s now)).
  (* the timer fires *)
  pose proof (invariant_step (TimerFires t) Hinv) as Hinv1.
  assert (H1 : step w (TimerFires t) = reconnect_callback (clearTimeout t w)).
  { cbn [step]. pose proof (find_timer_In _ _ (inv_nodup Hinv) Hin) as Hf.
    cbn [timer_id] in Hf. now rewrite Hf. }
  rewrite H1 in *.
  destruct (@reconnect_callback_connects (clearTimeout t w) Hn Hc Hp)
    as (a1 & a2 & a3 & a4 & a5 & a6 & a7 & a8 & a9 & a10).
  remember (reconnect_callback (clearTimeout t w)) as w1 eqn:E1.
  change (sockets (clearTimeout t w)) with (sockets w) in *.
  change (backoffMs (this (clearTimeout t w))) with (backoffMs (this w)) in *.
  fold s in a2, a3.
  assert (N1 : nth_error (sockets w1) s = Some (mkSocket CONNECTING None))
    by (rewrite a1; apply nth_error_snoc).
  (* the socket reports an error *)
  pose proof (invariant_step (SocketError s err) Hinv1) as Hinv2.
  assert (H2 : step w1 (SocketError s err) = onError s err (set_readyState s CLOSING w1)).
  { cbn [step]. now rewrite (@socketState_nth s CONNECTING None w1 N1). }
  rewrite H2 in *.
  assert (F2 : frame w1 (onError s err (set_readyState s CLOSING w1))) by frames.
  pose proof (@nth_set_readyState s CONNECTING CLOSING None w1 N1) as N2.
  assert (P2 : connectPromise (this (onError s err (set_readyState s CLOSING w1))) = None /\
               nth_error (sockets (onError s err (set_readyState s CLOSING w1))) s =
               Some (mkSocket CLOSING (Some (Rejected err)))).
  { unfold onError.
    change (connected (this (logger (LogSocketError err) (set_readyState s CLOSING w1))))
      with (connected (this w1)).
    rewrite a6. cbn [negb].
    apply settleAttempt_pending_promise. exact N2. }
  destruct P2 as [P2 N3].
  remember (onError s err (set_readyState s CLOSING w1)) as w2 eqn:E2.
  destruct F2 as [f1 f2 f3 f4 f5 _ _ _].
  (* the socket closes *)
  assert (H3 : step w2 (SocketClose s now) = handleClose now (set_readyState s CLOSED w2)).
  { cbn [step]. now rewrite (@socketState_nth s CLOSING (Some (Rejected err)) w2 N3). }
  rewrite H3.
  assert (Hinv3 : invariant (set_readyState s CLOSED w2))
    by (eapply invariant_frame; [|exact Hinv2]; frames).
  assert (A : awaiting (backoffMs (this (set_readyState s CLOSED w2)))
                       (handleClose now (set_readyState s CLOSED w2))).
  { apply handleClose_awaiting; auto; cbn; congruence. }
  replace (backoffMs (this (set_readyState s CLOSED w2))) with (next_backoff d) in A; [exact A|].
  cbn. congruence.
Qed.

Lemma failed_attempts_awaiting fs d w :
  awaiting d w ->
  awaiting (Nat.iter (List.length fs) next_backoff d) (failed_attempts fs w).
Proof.
  revert d w. induction fs as [|f fs IH]; intros d w H; [exact H|].
  cbn [List.length]. unfold failed_attempts. cbn [fold_left].
  change (Nat.iter (S (List.length fs)) next_backoff d)
    with (next_backoff (Nat.iter (List.length fs) next_backoff d)).
  rewrite <- Nat.iter_swap. apply IH. now apply failed_attempt_awaiting.
Qed.

Lemma disconnect_awaiting s now w :
  invariant w -> connected (this w) = true -> closed (this w) = false ->
  reconnectTimer (this w) = None -> connectPromise (this w) = None ->
  socketState s w = Some OPEN ->
  awaiting 1000 (step w (SocketClose s now)).
Proof.
  intros Hinv Hn Hc Ht Hp Hs. cbn [step]. rewrite Hs.
  assert (Hinv' : invariant (set_readyState s CLOSED w))
    by (eapply invariant_frame; [|exact Hinv]; frames).
  pose proof (handleClose_awaiting now Hinv' Hc Ht Hp) as A.
  cbn [set_readyState backoffMs this set_sockets] in A.
  now rewrite (inv_backoff Hinv Hn) in A.
Qed.

Lemma handshake_resolved id tmr s st err now w :
  JsMap.get id (pending (this w)) = Some (mkPending tmr (AwaitHandshake s)) ->
  nth_error (sockets w) s = Some (mkSocket st None) ->
  let w' := handleMessage (ResFrame id true err) now w in
  connected (this w') = true /\ backoffMs (this w') = 1000%Z /\
  connectPromise (this w') = None /\ closed (this w') = closed (this w) /\
  reconnectTimer (this w') = reconnectTimer (this w) /\
  nth_error (sockets w') s = Some (mkSocket st (Some Resolved)).
Proof.
  intros Hp Hs. cbv zeta. unfold handleMessage. rewrite Hp.
  unfold pending_resolve, settle. cbn [waiter timeoutId resume_waiter].
  match goal with |- context [settleAttempt s Resolved ?x] => remember x as w0 eqn:E0 end.
  assert (N : nth_error (sockets w0) s = Some (mkSocket st None)) by (subst w0; exact Hs).
  destruct (@settleAttempt_pending_promise s Resolved st w0 N) as [a b].
  pose proof (@frame_settleAttempt w0 s Resolved w0 (frame_refl w0)) as [f1 f2 f3 f4 f5 _ _ _].
  rewrite f2, f3, f4, f5. subst w0. cbn. auto 7.
Qed.

Lemma successful_attempt_connects d id now w :
  awaiting d w ->
  let w' := successful_attempt id now w in
  invariant w' /\ connected (this w') = true /\ closed (this w') = false /\
  reconnectTimer (this w') = None /\ connectPromise (this w') = None /\
  backoffMs (this w') = 1000%Z /\
  socketState (List.length (sockets w)) w' = Some OPEN.
Proof.
  intros [Hinv Hc Hn Hp (t & Ht & Hin) Hb].
  unfold successful_attempt. rewrite Ht. cbv zeta.
  set (s := List.length (sockets w)).
  change (run w [TimerFires t; SocketOpen s id; SocketMessage s (ResFrame id true None) now])
    with (step (step (step w (TimerFires t)) (SocketOpen s id))
               (SocketMessage s (ResFrame id true None) now)).
  (* the timer fires *)
  pose proof (invariant_step (TimerFires t) Hinv) as Hinv1.
  assert (H1 : step w (TimerFires t) = reconnect_callback (clearTimeout t w)).
  { cbn [step]. pose proof (find_timer_In _ _ (inv_nodup Hinv) Hin) as Hf.
    cbn [timer_id] in Hf. now rewrite Hf. }
  rewrite H1 in *.
  destruct (@reconnect_callback_connects (clearTimeout t w) Hn Hc Hp)
    as (a1 & a2 & a3 & a4 & a5 & a6 & a7 & a8 & a9 & a10).
  remember (reconnect_callback (clearTimeout t w)) as w1 eqn:E1.
  change (sockets (clearTimeout t w)) with (sockets w) in *.
  fold s in a2, a3.
  assert (N1 : nth_error (sockets w1) s = Some (mkSocket CONNECTING None))
    by (rewrite a1; apply nth_error_snoc).
  (* the socket opens *)
  pose proof (invariant_step (SocketOpen s id) Hinv1) as Hinv2.
  pose proof (@nth_set_readyState s CONNECTING OPEN None w1 N1) as N2.
  assert (Hopen : ws_open (set_readyState s OPEN w1) = true).
  { unfold ws_open. change (ws (this (set_readyState s OPEN w1))) with (ws (this w1)).
    now rewrite a2, N2. }
  assert (H2 : exists w2, step w1 (SocketOpen s id) = w2 /\
               request "connect" id (AwaitHandshake s) (set_readyState s OPEN w1) = Normal w2).
  { cbn [step]. rewrite (@socketState_nth s CONNECTING None w1 N1). unfold onOpen.
    destruct (request "connect" id (AwaitHandshake s) (set_readyState s OPEN w1)) as [w2|e] eqn:E.
    - now exists w2.
    - unfold request in E. rewrite Hopen in E. discriminate. }
  destruct H2 as (w2 & H2 & R2). rewrite H2 in *.
  destruct (@request_this _ _ _ _ _ R2) as (r1 & _ & _ & _ & _ & r6 & _).
  assert (N3 : nth_error (sockets w2) s = Some (mkSocket OPEN None)) by (now rewrite r6).
  assert (P3 : JsMap.get id (pending (this w2)) =
               Some (mkPending (nextTimer (set_readyState s OPEN w1)) (AwaitHandshake s))).
  { rewrite r1. cbn [pending set_pending]. apply JsMapFacts.get_set_same. }
  (* the handshake is answered *)
  pose proof (invariant_step (SocketMessage s (ResFrame id true None) now) Hinv2) as Hinv3.
  assert (H3 : step w2 (SocketMessage s (ResFrame id true None) now) =
               handleMessage (ResFrame id true None) now w2).
  { cbn [step]. now rewrite (@socketState_nth s OPEN None w2 N3). }
  rewrite H3 in *.
  destruct (@handshake_resolved id _ s OPEN None now w2 P3 N3) as (b1 & b2 & b3 & b4 & b5 & b6).
  split; [exact Hinv3|]. split; [exact b1|].
  split; [rewrite b4, r1; cbn; exact a5|].
  split; [rewrite b5, r1; cbn; exact a4|].
  split; [exact b3|]. split; [exact b2|].
  exact (@socketState_nth s OPEN (Some Resolved) _ b6).
Qed.

(** *** Every run, whatever makes the attempts fail *)

Lemma old_timers_not_scheduled w (f : Timer -> bool) :
  invariant w ->
  filter (fun tm => is_reconnect tm && (nextTimer w <=? timer_id tm)%nat)
         (filter f (timers w)) = [].
Proof.
  intros Hinv. rewrite filter_filter.
  induction (timers w) as [|tm l IH] eqn:E in Hinv |- *; [reflexivity|].
  cbn.
  assert (Hlt : timer_id tm < nextTimer w).
  { apply (inv_fresh Hinv). rewrite E. now left. }
  destruct (Nat.leb_spec (nextTimer w) (timer_id tm)) as [Hle|_]; [lia|].
  rewrite !andb_false_r. cbn.
  clear IH.
  assert (H : forall l', (forall x, In x l' -> timer_id x < nextTimer w) ->
            filter (fun x => f x && (is_reconnect x && (nextTimer w <=? timer_id x)%nat)) l' = []).
  { induction l' as [|x l' IH']; cbn; intros Hx; [reflexivity|].
    destruct (Nat.leb_spec (nextTimer w) (timer_id x)) as [Hle|_].
    - specialize (Hx x (or_introl eq_refl)). lia.
    - rewrite !andb_false_r. apply IH'. intros y Hy. apply Hx. now right. }
  apply H. intros x Hx. apply (inv_fresh Hinv). rewrite E. now right.
Qed.

Lemma frame_schedules_nothing w w' :
  invariant w -> frame w w' ->
  scheduled_by w w' = [] /\ backoffMs (this w') = backoffMs (this w).
Proof.
  intros Hinv [_ _ _ _ b _ [f Hf] _]. split; [|exact b].
  unfold scheduled_by. rewrite Hf. now apply old_timers_not_scheduled.
Qed.

Lemma frame_after_schedules_nothing w w1 w' (f : Timer -> bool) :
  invariant w -> timers w1 = filter f (timers w) ->
  backoffMs (this w1) = backoffMs (this w) -> frame w1 w' ->
  scheduled_by w w' = [] /\ backoffMs (this w') = backoffMs (this w).
Proof.
  intros Hinv Ht Hb [_ _ _ _ b _ [g Hg] _]. split; [|congruence].
  unfold scheduled_by. rewrite Hg, Ht, (filter_filter g f).
  now apply old_timers_not_scheduled.
Qed.

Lemma request_schedules_nothing method id wt w w1 w' :
  invariant w -> frame w w1 -> request method id wt w1 = Normal w' ->
  scheduled_by w w' = [] /\ backoffMs (this w') = backoffMs (this w).
Proof.
  intros Hinv F R.
  destruct (@request_this _ _ _ _ _ R) as (r1 & r2 & _).
  destruct F as [_ _ _ _ b _ [f Hf] _].
  split.
  - unfold scheduled_by. rewrite r2, Hf, filter_app.
    rewrite old_timers_not_scheduled by assumption. reflexivity.
  - rewrite r1. cbn. exact b.
Qed.

Lemma resume_schedules_nothing wt o w w1 :
  invariant w -> frame w w1 ->
  let w' := resume_waiter wt o w1 in
  scheduled_by w w' = [] /\
  (backoffMs (this w') = backoffMs (this w) \/ connected (this w') = true).
Proof.
  intros Hinv F. cbv zeta.
  destruct o as [|e].
  - destruct wt as [a|r|].
    + cbn [resume_waiter].
      match goal with |- context [settleAttempt a Resolved ?x] => remember x as w2 eqn:E2 end.
      pose proof (@frame_settleAttempt w2 a Resolved w2 (frame_refl w2)) as [_ _ _ c _ _ [g Hg] _].
      split.
      * unfold scheduled_by. rewrite Hg. subst w2. cbn [timers logger on_this set_this set_log].
        destruct F as [_ _ _ _ _ _ [f Hf] _]. rewrite Hf, (filter_filter g f).
        now apply old_timers_not_scheduled.
      * right. rewrite c. now subst w2.
    + assert (F' : frame w (resume_waiter (AwaitChatSend r) Resolved w1))
        by (unfold resume_waiter; frames).
      destruct (frame_schedules_nothing Hinv F'). auto.
    + destruct (frame_schedules_nothing Hinv F). auto.
  - assert (F' : frame w (resume_waiter wt (Rejected e) w1)) by frames.
    destruct (frame_schedules_nothing Hinv F'). auto.
Qed.

Lemma handleClose_schedules now w w0 :
  invariant w -> frame w w0 ->
  let w' := handleClose now w0 in
  (scheduled_by w w' = [] /\ backoffMs (this w') = backoffMs (this w)) \/
  (exists tm, scheduled_by w w' = [tm] /\ delay tm = backoffMs (this w) /\
              backoffMs (this w') = next_backoff (backoffMs (this w))).
Proof.
  intros Hinv F0. cbv zeta. rewrite handleClose_eq. cbv zeta.
  remember (notify_listeners now _) as w1 eqn:E1.
  assert (F1 : frame (on_this (set_connected false) w0) w1) by (subst w1; frames).
  destruct F0 as [n0 _ _ _ b0 _ [f0 Hf0] _].
  destruct F1 as [n1 _ _ _ b1 _ [f1 Hf1] _].
  cbn in n1, b1, Hf1.
  assert (Hold : filter (fun tm => is_reconnect tm && (nextTimer w <=? timer_id tm)%nat)
                        (timers w1) = []).
  { rewrite Hf1, Hf0, (filter_filter f1 f0). now apply old_timers_not_scheduled. }
  destruct (closed (this w1)); cbn [negb].
  - left. split; [exact Hold|congruence].
  - unfold scheduleReconnect.
    change (reconnectTimer (this (logger LogClosedReconnect w1)))
      with (reconnectTimer (this w1)).
    destruct (reconnectTimer (this w1)).
    + left. split; [exact Hold|]. cbn. congruence.
    + right. exists (mkTimer (nextTimer w1) (backoffMs (this w1)) Reconnect).
      cbn. unfold scheduled_by. cbn. rewrite filter_app, Hold. cbn.
      replace (nextTimer w <=? nextTimer w1)%nat with true
        by (symmetry; apply Nat.leb_le; lia).
      unfold next_backoff. repeat split; congruence.
Qed.

Lemma step_schedules w e :
  invariant w ->
  let w' := step w e in
  (scheduled_by w w' = [] /\
   (backoffMs (this w') = backoffMs (this w) \/ connected (this w') = true)) \/
  (exists tm, scheduled_by w w' = [tm] /\ delay tm = backoffMs (this w) /\
              backoffMs (this w') = next_backoff (backoffMs (this w))).
Proof.
  intros Hinv. cbv zeta.
  assert (Fr : forall w', frame w w' ->
            (scheduled_by w w' = [] /\
             (backoffMs (this w') = backoffMs (this w) \/ connected (this w') = true)) \/
            (exists tm, scheduled_by w w' = [tm] /\ delay tm = backoffMs (this w) /\
                        backoffMs (this w') = next_backoff (backoffMs (this w)))).
  { intros w' F. left. destruct (frame_schedules_nothing Hinv F). auto. }
  assert (Rq : forall method id wt w1 w', frame w w1 ->
            request method id wt w1 = Normal w' ->
            (scheduled_by w w' = [] /\
             (backoffMs (this w') = backoffMs (this w) \/ connected (this w') = true)) \/
            (exists tm, scheduled_by w w' = [tm] /\ delay tm = backoffMs (this w) /\
                        backoffMs (this w') = next_backoff (backoffMs (this w)))).
  { intros method id wt w1 w' F R. left.
    destruct (@request_schedules_nothing method id wt w w1 w' Hinv F R). auto. }
  destruct e as [| |id|r id key now|r|r|s id|s err|s f now|s now|t]; cbn [step].
  - left. destruct (connect_same w) as (a & b & _ & _ & _ & c & _).
    split; [|now left]. unfold scheduled_by. rewrite b, <- (filter_all (timers w)).
    now apply old_timers_not_scheduled.
  - left. rewrite close_eq. cbv zeta.
    assert (T : exists f, timers (close_timer w) = filter f (timers w)).
    { unfold close_timer. cbn. destruct (reconnectTimer (this w)) as [t|].
      - exists (fun x => negb (Nat.eqb (timer_id x) t)). reflexivity.
      - exists (fun _ => true). cbn. now rewrite filter_all. }
    destruct T as [f Hf].
    assert (B : backoffMs (this (close_timer w)) = backoffMs (this w)).
    { unfold close_timer. cbn. now destruct (reconnectTimer (this w)). }
    revert Hf B. generalize (close_timer w). intros w1 Hf B.
    match goal with |- scheduled_by w ?x = [] /\ _ =>
      assert (F : frame w1 x) by frames;
      destruct (frame_after_schedules_nothing f Hinv Hf B F) end.
    auto.
  - unfold abortChat. destruct (request _ _ _ w) eqn:E.
    + eapply Rq; [apply frame_refl|exact E].
    + apply Fr. frames.
  - unfold chatStream_start.
    destruct (JsMap.get r (frames w)); [apply Fr; frames|].
    unfold getProgress.
    remember (on_this _ (store r _ _)) as w1 eqn:E1.
    assert (F1 : frame w w1) by (subst w1; frames).
    destruct (request _ _ _ w1) eqn:E.
    + eapply Rq; [exact F1|exact E].
    + apply Fr. frames.
  - apply Fr. frames.
  - apply Fr. frames.
  - destruct (socketState s w) as [[| | |]|]; try solve [apply Fr; frames].
    unfold onOpen. destruct (request _ _ _ _) eqn:E.
    + eapply Rq; [|exact E]. frames.
    + apply Fr. frames.
  - destruct (socketState s w) as [[| | |]|]; apply Fr; frames.
  - assert (Hm : (scheduled_by w (handleMessage f now w) = [] /\
             (backoffMs (this (handleMessage f now w)) = backoffMs (this w) \/
              connected (this (handleMessage f now w)) = true))).
    { unfold handleMessage. destruct f as [id ok err|ev seq payload| |].
      - destruct (JsMap.get id (pending (this w))) as [p|].
        + destruct ok.
          * unfold pending_resolve, settle. apply resume_schedules_nothing; [exact Hinv|].
            frames.
          * assert (F : frame w (pending_reject id p
                       match err with Some m => m | None => "unknown error" end
                       (on_this (fun c => set_pending (JsMap.delete id (pending c)) c) w)))
              by frames.
            destruct (frame_schedules_nothing Hinv F). auto.
        + destruct (frame_schedules_nothing Hinv (frame_refl w)). auto.
      - assert (F : frame w (handleMessage (EventFrame ev seq payload) now w))
          by (unfold handleMessage; frames).
        destruct (frame_schedules_nothing Hinv F). unfold handleMessage in *. auto.
      - destruct (frame_schedules_nothing Hinv (frame_refl w)). auto.
      - assert (F : frame w (logger LogParseError w)) by frames.
        destruct (frame_schedules_nothing Hinv F). auto. }
    destruct (socketState s w) as [[| | |]|]; try solve [apply Fr; frames]; now left.
  - destruct (socketState s w) as [[| | |]|]; try solve [apply Fr; frames];
      (destruct (@handleClose_schedules now w (set_readyState s CLOSED w) Hinv) as [H|H];
       [frames|now left; destruct H; auto|now right]).
  - destruct (find _ (timers w)) as [tm|]; [|apply Fr; frames].
    destruct (callback tm).
    + apply Fr. frames.
    + left. unfold reconnect_callback.
      remember (on_this (set_reconnectTimer None) (clearTimeout t w)) as w1 eqn:E1.
      destruct (connect_same w1) as (a & b & _ & _ & _ & c & _).
      assert (X : scheduled_by w (snd (connect w1)) = [] /\
                  backoffMs (this (snd (connect w1))) = backoffMs (this w)).
      { split.
        - unfold scheduled_by. rewrite b. subst w1. cbn.
          now apply old_timers_not_scheduled.
        - rewrite c. now subst w1. }
      destruct (connect w1) as [[|e|a0] w2]; cbn [snd] in X;
        destruct X as [X1 X2]; split; try (left; exact X2); try exact X1.
      * split_match; exact X1.
      * split_match; left; exact X2.
Qed.

Lemma doubling_run w es :
  invariant w -> no_connect w es ->
  doubling (backoffMs (this w)) (scheduled_delays w es).
Proof.
  revert w. induction es as [|e es IH]; intros w Hinv Hno; cbn; [exact I|].
  destruct Hno as [Hnc Hno].
  pose proof (invariant_step e Hinv) as Hinv'.
  specialize (IH _ Hinv' Hno).
  destruct (step_schedules e Hinv) as [[Hs Hb]|(tm & Hs & Hd & Hb)]; rewrite Hs; cbn.
  - destruct Hb as [Hb|Hc]; [now rewrite <- Hb|].
    destruct (connected (this w)) eqn:Hc0.
    + now rewrite (inv_backoff Hinv Hc0), <- (inv_backoff Hinv' Hc).
    + exfalso. apply Hnc. now split.
  - split; [exact Hd|]. now rewrite <- Hb.
Qed.

Lemma doubling_closed_form b ds n :
  b = backoff_delay n -> doubling b ds ->
  ds = map backoff_delay (seq n (List.length ds)).
Proof.
  revert b n. induction ds as [|d ds IH]; intros b n Hb H; [reflexivity|].
  destruct H as [-> H]. cbn. f_equal; [exact Hb|].
  apply (IH (next_backoff b)); [|exact H].
  subst b. rewrite <- !iter_next_backoff. reflexivity.
Qed.

(** ** C8: [connect] *)
Lemma settle_once a o o' w :
  settleAttempt a o' (settleAttempt a o w) = settleAttempt a o w.
Proof.
  destruct (nth_error (sockets w) a) as [[st [o0|]]|] eqn:E.
  - unfold settleAttempt at 2. rewrite E. unfold settleAttempt. now rewrite E.
  - destruct (@settleAttempt_pending_promise a o st w E) as [_ H].
    unfold settleAttempt at 1. now rewrite H.
  - unfold settleAttempt at 2. rewrite E. unfold settleAttempt. now rewrite E.
Qed.

(** The claim fails for a client that was connected when [close()] was
    called and whose socket has not yet reported ["close"]: [connect()]
    returns at once instead of failing. *)
Lemma connect_after_close_counterexample :
  ~ (forall w, reachable w -> closed (this w) = true ->
               exists msg, fst (connect w) = ConnectThrows msg).
Proof.
  intros H.
  assert (Hr : reachable (step connected_world CallClose)) by (repeat constructor).
  destruct (H _ Hr eq_refl) as [msg E]. discriminate E.
Qed.

(** C8 (amended).  [connect()] returns at once, changing nothing, whenever
    the [connected] flag is set, closed or not; it fails with ["client is
    closed"] whenever the client was closed and the flag is clear;
    otherwise the caller waits for the promise of one [doConnect]: the one
    in flight if there is one, else a new one, for which exactly one socket
    is made.  A caller that arrives while that attempt is in flight makes
    no socket and waits for the same promise, which settles once. *)
Theorem connect_guards_and_joins w :
  (connected (this w) = true -> connect w = (ConnectNoop, w)) /\
  (connected (this w) = false -> closed (this w) = true ->
   connect w = (ConnectThrows "client is closed", w)) /\
  (connected (this w) = false -> closed (this w) = false ->
   exists a w1,
     connect w = (ConnectAwaits a, w1) /\
     connectPromise (this w1) = Some a /\
     match connectPromise (this w) with
     | Some a0 => a = a0 /\ w1 = w
     | None => a = List.length (sockets w) /\
               sockets w1 = sockets w ++ [mkSocket CONNECTING None]
     end /\
     connect w1 = (ConnectAwaits a, w1) /\
     forall o o' w2, settleAttempt a o' (settleAttempt a o w2) = settleAttempt a o w2).
Proof.
  split; [|split].
  - intros H. unfold connect. now rewrite H.
  - intros H1 H2. unfold connect. now rewrite H1, H2.
  - intros H1 H2. unfold connect. rewrite H1, H2.
    destruct (connectPromise (this w)) as [a0|] eqn:E.
    + exists a0, w. rewrite H1, H2, E. repeat split; auto using settle_once.
    + eexists. eexists. split; [reflexivity|]. cbn. rewrite H1, H2.
      repeat split; auto using settle_once.
Qed.

Lemma connect_guards_and_joins_witness :
  connect connected_world = (ConnectNoop, connected_world) /\
  connect (step connected_world CallClose) = (ConnectNoop, step connected_world CallClose) /\
  fst (connect (step init CallClose)) = ConnectThrows "client is closed" /\
  fst (connect (step init CallConnect)) = ConnectAwaits 0 /\
  sockets (snd (connect (step init CallConnect))) = [mkSocket CONNECTING None].
Proof.
  destruct (connect_guards_and_joins connected_world) as (A & _ & _).
  destruct (connect_guards_and_joins (step connected_world CallClose)) as (B & _ & _).
  destruct (connect_guards_and_joins (step init CallClose)) as (_ & C & _).
  destruct (connect_guards_and_joins (step init CallConnect)) as (_ & _ & D).
  split; [exact (A eq_refl)|]. split; [exact (B eq_refl)|].
  split; [rewrite (C eq_refl eq_refl); reflexivity|].
  destruct (D eq_refl eq_refl) as (a & w1 & E & _ & (-> & ->) & _).
  rewrite E. split; reflexivity.
Defined.

(** ** C1, C2, C3: the stream orchestrator *)

Example scenario_prompt_consumer :
  let w := run streaming_world prompt_consumer in
  option_map phase (stream_of w) = Some Returned /\
  option_map yielded (stream_of w) = Some ["He"; "llo"; "!"] /\
  JsMap.get "s1" (sessionProgress (this w)) = None /\
  JsMap.get "r-1" (chatListeners (this w)) = None.
Proof. vm_compute. auto. Qed.

(** C3, at the failing input.  The stream ends without error after the
    final text ["Hello!"], but the increments it yielded are ["He"] and
    ["!"]: line 428 takes the length of the text as it is when the consumer
    comes back, not the length that was yielded, so ["llo"] is skipped. *)
Theorem increments_lose_text_arrived_during_yield :
  let w := run streaming_world busy_consumer in
  option_map phase (stream_of w) = Some Returned /\
  option_map error (stream_of w) = Some None /\
  option_map accumulated (stream_of w) = Some "Hello!" /\
  option_map yielded (stream_of w) = Some ["He"; "!"] /\
  option_map (fun g => String.eqb (String.concat "" (yielded g)) (accumulated g))
             (stream_of w) = Some false.
Proof. vm_compute. auto. Qed.

Example interrupted_prompt_consumer_degrades :
  let w := run streaming_world interrupted_prompt_consumer in
  option_map phase (stream_of w) = Some Returned /\
  option_map yielded (stream_of w) = Some ["Hello"; " wor"] /\
  option_map SessionProgress.accumulated (JsMap.get "s1" (sessionProgress (this w))) =
    Some "Hello wor".
Proof. vm_compute. auto. Qed.

(** C1, at the failing input.  The error event finds nine characters
    accumulated; the stream ends without error and the entry of the session
    stays in the cache, but the stream yielded ["Hello"] only: the suffix
    [" wor"] is never delivered (same defect as for C3). *)
Theorem degraded_stream_drops_undelivered_suffix :
  let w := run streaming_world interrupted_busy_consumer in
  option_map phase (stream_of w) = Some Returned /\
  option_map error (stream_of w) = Some None /\
  option_map disconnectedWithData (stream_of w) = Some true /\
  option_map accumulated (stream_of w) = Some "Hello wor" /\
  option_map yielded (stream_of w) = Some ["Hello"] /\
  option_map (fun g => String.eqb (String.concat "" (yielded g)) (accumulated g))
             (stream_of w) = Some false /\
  option_map SessionProgress.accumulated (JsMap.get "s1" (sessionProgress (this w))) =
    Some "Hello wor".
Proof. vm_compute. auto 8. Qed.

Example error_after_ack_fails :
  let w := run streaming_world error_after_ack in
  option_map phase (stream_of w) = Some (Threw "boom") /\
  option_map yielded (stream_of w) = Some [].
Proof. vm_compute. auto. Qed.

(** C2, at the failing input.  The listener records the error and sets
    [done]; when the request is answered the loop [while (!done)] is not
    entered, so the test of line 422 never runs: the stream ends normally,
    having yielded nothing and raised nothing. *)
Theorem error_before_ack_is_swallowed :
  let w := run streaming_world error_before_ack in
  delivered w = [errorEvent "r-1" "s1" 1 "boom"] /\
  option_map accumulated (stream_of w) = Some "" /\
  option_map error (stream_of w) = Some (Some "boom") /\
  option_map phase (stream_of w) = Some Returned /\
  option_map yielded (stream_of w) = Some [].
Proof. vm_compute. auto. Qed.

(** ** The stream orchestrator, frame by frame *)
Lemma listen_seq_frame evt gw : fst (listen_seq evt gw) = seq_frame evt (fst gw).
Proof. destruct gw. unfold listen_seq, seq_frame. cbn [fst]. now destruct (ChatEvent.seq evt). Qed.

Lemma listen_text_frame r evt now gw :
  fst (listen_text r evt now gw) = text_frame evt (fst gw).
Proof.
  destruct gw as [g w]. unfold listen_text, text_frame, accepts. cbn [fst].
  destruct (ChatState_eqb (ChatEvent.state evt) delta || ChatState_eqb (ChatEvent.state evt) final);
    cbn [andb]; [|reflexivity].
  now destruct (String.length (accumulated g) <? String.length (extractText evt))%nat.
Qed.

Lemma listen_terminal_frame evt gw :
  fst (listen_terminal evt gw) = terminal_frame evt (fst gw).
Proof. destruct gw. unfold listen_terminal, terminal_frame. cbn [fst]. split_match; reflexivity. Qed.

Lemma listen_error_frame evt gw : fst (listen_error evt gw) = error_frame evt (fst gw).
Proof. destruct gw. unfold listen_error, error_frame. cbn [fst]. split_match; reflexivity. Qed.

Lemma listen_wake_frame gw : fst (listen_wake gw) = wake_frame (fst gw).
Proof. destruct gw. unfold listen_wake, wake_frame. cbn [fst]. split_match; reflexivity. Qed.

(** The listener does to the frame of its run what [on_event] says. *)
Lemma listener_frame r evt now w g :
  JsMap.get r (frames w) = Some g ->
  JsMap.get r (frames (listener r evt now w)) = Some (on_event evt g).
Proof.
  intros Hg. unfold listener. rewrite Hg.
  pose proof (listen_wake_frame (listen_error evt (listen_terminal evt
                (listen_text r evt now (listen_seq evt (g, w)))))) as H.
  rewrite listen_error_frame, listen_terminal_frame, listen_text_frame, listen_seq_frame in H.
  destruct (listen_wake _) as [g' w']. cbn [fst] in H. subst g'.
  cbn. apply JsMapFacts.get_set_same.
Qed.

Lemma loop_head_frame_ok r g w :
  JsMap.get r (frames (loop_head r g w)) = Some (loop_head_frame g).
Proof.
  unfold loop_head, loop_head_frame, after_loop, after_loop_frame, yield_frame,
    stream_return, stream_finally, store.
  split_match; cbn; apply JsMapFacts.get_set_same.
Qed.

(** The generator, resumed after an [await], does to its frame what
    [on_resume] says. *)
Lemma resume_frame r w g :
  JsMap.get r (frames w) = Some g ->
  JsMap.get r (frames (chatStream_resume r w)) = Some (on_resume g).
Proof.
  intros Hg. unfold chatStream_resume, on_resume. rewrite Hg.
  destruct (phase g) as [[[|e]|]|[|]| | | |]; auto using loop_head_frame_ok.
  - unfold stream_throw, stream_finally, store. cbn. apply JsMapFacts.get_set_same.
  - unfold loop_body, loop_body_frame, yield_frame, stream_throw, stream_finally, store.
    split_match; cbn; auto using loop_head_frame_ok, JsMapFacts.get_set_same.
Qed.

(** The generator, asked for the next increment, does to its frame what
    [on_next] says. *)
Lemma next_frame r w g :
  JsMap.get r (frames w) = Some g ->
  JsMap.get r (frames (chatStream_next r w)) = Some (on_next g).
Proof.
  intros Hg. unfold chatStream_next, on_next. rewrite Hg.
  destruct (phase g); auto.
  - unfold after_yield. apply loop_head_frame_ok.
  - unfold stream_return, stream_finally, store. split_match; cbn;
      apply JsMapFacts.get_set_same.
Qed.

(** Settling the request of a stream does to its frame what [Settle] says. *)
Lemma settle_frame r o w g :
  JsMap.get r (frames w) = Some g ->
  JsMap.get r (frames (resume_waiter (AwaitChatSend r) o w)) = Some (act g (Settle o)).
Proof.
  intros Hg. unfold resume_waiter, act. rewrite Hg.
  destruct (phase g) as [[o'|]| | | | |]; auto.
  cbn. apply JsMapFacts.get_set_same.
Qed.

(** *** Strings *)
Lemma append_assoc (a b c : string) : ((a ++ b) ++ c)%string = (a ++ (b ++ c))%string.
Proof. induction a as [|x a IH]; cbn; [reflexivity|]. now rewrite IH. Qed.

Lemma concat_snoc (l : list string) (x : string) :
  String.concat "" (l ++ [x]) = (String.concat "" l ++ x)%string.
Proof.
  induction l as [|a l IH]; [reflexivity|].
  destruct l as [|b l].
  - reflexivity.
  - change (String.concat "" ((a :: b :: l) ++ [x]))
      with (a ++ String.concat "" ((b :: l) ++ [x]))%string.
    rewrite IH.
    change (String.concat "" (a :: b :: l)) with (a ++ String.concat "" (b :: l))%string.
    now rewrite append_assoc.
Qed.

Lemma take_all (s : string) : String.substring 0 (String.length s) s = s.
Proof. induction s as [|x s IH]; cbn; [reflexivity|]. now rewrite IH. Qed.

Lemma take_slice (n : nat) (s : string) :
  n <= String.length s ->
  (String.substring 0 n s ++ slice n s)%string = s.
Proof.
  unfold slice. revert n. induction s as [|x s IH]; intros n Hn; cbn in *.
  - assert (n = 0) by lia. subst. reflexivity.
  - destruct n as [|n]; cbn.
    + now rewrite take_all.
    + rewrite IH by lia. reflexivity.
Qed.

Lemma take_prefix (a b : string) (n : nat) :
  String.prefix a b = true -> n <= String.length a ->
  String.substring 0 n b = String.substring 0 n a.
Proof.
  revert b n. induction a as [|x a IH]; intros b n Hp Hn.
  - cbn in Hn. assert (n = 0) by lia. subst. now destruct b.
  - destruct b as [|y b]; cbn in Hp, Hn; [discriminate|].
    destruct (Ascii.ascii_dec x y) as [->|Hne]; [|discriminate].
    destruct n as [|n]; cbn; [reflexivity|].
    rewrite (IH b n) by (auto; lia). reflexivity.
Qed.

(** *** What was yielded and what is accumulated *)
Lemma consistent_yield ph g :
  lastYieldedLength g <= String.length (accumulated g) ->
  String.concat "" (yielded g) = String.substring 0 (lastYieldedLength g) (accumulated g) ->
  String.concat "" (yielded (yield_frame ph g)) = accumulated g.
Proof.
  intros Hle Hc. unfold yield_frame. cbn. rewrite concat_snoc, Hc. now apply take_slice.
Qed.

Lemma consistent_after_loop g :
  lastYieldedLength g <= String.length (accumulated g) ->
  String.concat "" (yielded g) = String.substring 0 (lastYieldedLength g) (accumulated g) ->
  consistent (after_loop_frame g).
Proof.
  intros Hle Hc. unfold after_loop_frame.
  destruct (Nat.ltb_spec (lastYieldedLength g) (String.length (accumulated g))) as [Hlt|Hge].
  - split; [exact Hle|].
    change (String.concat "" (yielded (yield_frame AtFinalYield g)) = accumulated g).
    now apply consistent_yield.
  - split; [exact Hle|]. cbn.
    assert (E : lastYieldedLength g = String.length (accumulated g)) by lia.
    rewrite Hc, E. apply take_all.
Qed.

Lemma consistent_loop_head g :
  lastYieldedLength g <= String.length (accumulated g) ->
  String.concat "" (yielded g) = String.substring 0 (lastYieldedLength g) (accumulated g) ->
  consistent (loop_head_frame g).
Proof.
  intros Hle Hc. unfold loop_head_frame.
  destruct (negb (done g)); [|now apply consistent_after_loop].
  destruct (done g || hasNewData g); split; cbn; auto.
Qed.

Lemma consistent_loop_body g :
  lastYieldedLength g <= String.length (accumulated g) ->
  String.concat "" (yielded g) = String.substring 0 (lastYieldedLength g) (accumulated g) ->
  consistent (loop_body_frame g).
Proof.
  intros Hle Hc. unfold loop_body_frame.
  assert (Y : consistent (yield_frame AtYield g)).
  { split; [exact Hle|].
    change (String.concat "" (yielded (yield_frame AtYield g)) = accumulated g).
    now apply consistent_yield. }
  destruct (error g) as [e|].
  - destruct (String.length (accumulated g) =? 0)%nat; [split; cbn; auto|].
    destruct (hasNewData g && _); [exact Y|now apply consistent_loop_head].
  - destruct (hasNewData g && _); [exact Y|now apply consistent_loop_head].
Qed.

Lemma consistent_on_event evt g :
  at_await g = true ->
  (accepts evt (seq_frame evt g) = true ->
   String.prefix (accumulated g) (extractText evt) = true) ->
  consistent g -> consistent (on_event evt g).
Proof.
  intros Hw Hp [Hle Hc].
  assert (Hc' : String.concat "" (yielded g) =
                String.substring 0 (lastYieldedLength g) (accumulated g)).
  { unfold at_await in Hw. destruct (phase g); try discriminate; exact Hc. }
  clear Hc.
  (* the text *)
  assert (T : let g1 := text_frame evt (seq_frame evt g) in
              at_await g1 = true /\
              lastYieldedLength g1 <= String.length (accumulated g1) /\
              String.concat "" (yielded g1) =
                String.substring 0 (lastYieldedLength g1) (accumulated g1)).
  { cbv zeta. unfold text_frame.
    assert (S : at_await (seq_frame evt g) = true /\
                accumulated (seq_frame evt g) = accumulated g /\
                lastYieldedLength (seq_frame evt g) = lastYieldedLength g /\
                yielded (seq_frame evt g) = yielded g).
    { unfold seq_frame. destruct (ChatEvent.seq evt); auto. }
    destruct S as (s1 & s2 & s3 & s4).
    destruct (accepts evt (seq_frame evt g)) eqn:A.
    - specialize (Hp eq_refl). unfold accepts in A. apply andb_prop in A as [_ A].
      apply Nat.ltb_lt in A. rewrite s2 in A.
      cbn. rewrite s3, s4. repeat split.
      + exact s1.
      + lia.
      + rewrite Hc'. symmetry. now apply take_prefix.
    - rewrite s2, s3, s4. auto. }
  cbv zeta in T. destruct T as (t1 & t2 & t3).
  unfold on_event.
  remember (text_frame evt (seq_frame evt g)) as g1 eqn:E1.
  assert (U : let g2 := error_frame evt (terminal_frame evt g1) in
              at_await g2 = true /\ lastYieldedLength g2 = lastYieldedLength g1 /\
              accumulated g2 = accumulated g1 /\ yielded g2 = yielded g1).
  { cbv zeta. unfold error_frame, terminal_frame. split_match; cbn; auto. }
  cbv zeta in U. destruct U as (u1 & u2 & u3 & u4).
  remember (error_frame evt (terminal_frame evt g1)) as g2 eqn:E2.
  assert (V : at_await (wake_frame g2) = true /\
              lastYieldedLength (wake_frame g2) = lastYieldedLength g2 /\
              accumulated (wake_frame g2) = accumulated g2 /\
              yielded (wake_frame g2) = yielded g2).
  { unfold wake_frame, wake. split_match; cbn; auto. }
  destruct V as (v1 & v2 & v3 & v4).
  split; [rewrite v2, v3, u2, u3; exact t2|].
  unfold at_await in v1.
  destruct (phase (wake_frame g2)); try discriminate;
    rewrite v2, v3, v4, u2, u3, u4; exact t3.
Qed.

Lemma consistent_act g a :
  match a with
  | Deliver evt =>
      at_await g = true /\
      (accepts evt (seq_frame evt g) = true ->
       String.prefix (accumulated g) (extractText evt) = true)
  | _ => True
  end ->
  consistent g -> consistent (act g a).
Proof.
  intros Ha Hc. destruct a as [evt|o| |]; cbn [act].
  - destruct Ha. now apply consistent_on_event.
  - destruct Hc as [Hle Hc]. destruct (phase g) as [[o'|]| | | | |] eqn:E;
      try (split; [exact Hle|]; rewrite E; exact Hc).
    split; [exact Hle|exact Hc].
  - destruct Hc as [Hle Hc]. unfold on_resume.
    destruct (phase g) as [[[|e]|]|[|]| | | |] eqn:E;
      try (split; [exact Hle|]; rewrite E; exact Hc).
    + now apply consistent_loop_head.
    + split; cbn; auto.
    + now apply consistent_loop_body.
  - destruct Hc as [Hle Hc]. unfold on_next.
    destruct (phase g) eqn:E;
      try (split; [exact Hle|]; rewrite E; exact Hc).
    + apply consistent_loop_head; cbn; [lia|]. rewrite Hc. symmetry. apply take_all.
    + split; cbn; auto.
Qed.

Lemma consistent_run acts : forall g,
  consistent g -> prompt_and_cumulative g acts -> consistent (fold_left act acts g).
Proof.
  induction acts as [|a acts IH]; intros g Hc Hp; [exact Hc|].
  destruct Hp as [Ha Hp]. cbn [fold_left]. apply IH; [|exact Hp].
  now apply consistent_act.
Qed.

Lemma consistent_fresh key : consistent (fresh_frame key).
Proof. split; cbn; [lia|reflexivity]. Qed.

Lemma prompt_and_cumulative_app acts : forall g more,
  prompt_and_cumulative g acts ->
  prompt_and_cumulative (fold_left act acts g) more ->
  prompt_and_cumulative g (acts ++ more).
Proof.
  induction acts as [|a acts IH]; intros g more H1 H2; [exact H2|].
  destruct H1 as [Ha H1]. split; [exact Ha|]. now apply IH.
Qed.

Lemma parked_act g a : parked g -> parked (act g a).
Proof.
  unfold parked. intros P.
  assert (LH : forall g, phase (loop_head_frame g) = AwaitData false ->
                         resolvers (loop_head_frame g) <> []).
  { intros g0. unfold loop_head_frame, after_loop_frame, yield_frame.
    split_match; cbn; try discriminate. intros _. now destruct (resolvers g0). }
  destruct a as [evt|o| |]; cbn [act].
  - unfold on_event, wake_frame, wake.
    assert (Q : forall g0, phase g0 = phase g -> resolvers g0 = resolvers g ->
                phase (error_frame evt (terminal_frame evt g0)) = phase g /\
                resolvers (error_frame evt (terminal_frame evt g0)) = resolvers g).
    { intros g0 q1 q2. unfold error_frame, terminal_frame. split_match; cbn; auto. }
    destruct (Q (text_frame evt (seq_frame evt g))) as [q1 q2].
    { unfold text_frame, seq_frame. split_match; reflexivity. }
    { unfold text_frame, seq_frame. split_match; reflexivity. }
    remember (error_frame evt (terminal_frame evt (text_frame evt (seq_frame evt g)))) as g2.
    destruct (resolvers g2) as [|u rest] eqn:R.
    + rewrite q1. intros Hph. apply P in Hph. congruence.
    + cbn [phase set_resolvers]. rewrite q1.
      destruct (phase g) as [o|[|]| | | |]; cbn; rewrite ?q1; discriminate.
  - destruct (phase g) as [[o'|]| | | | |] eqn:E; cbn; try discriminate; rewrite ?E; auto.
  - unfold on_resume.
    destruct (phase g) as [[[|e]|]|[|]| | | |] eqn:E; rewrite ?E; auto; try discriminate.
    unfold loop_body_frame, yield_frame. split_match; cbn; auto; discriminate.
  - unfold on_next. destruct (phase g) eqn:E; rewrite ?E; auto; cbn; discriminate.
Qed.

Lemma parked_run acts : forall g, parked g -> parked (fold_left act acts g).
Proof.
  induction acts as [|a acts IH]; intros g P; [exact P|].
  cbn [fold_left]. apply IH. now apply parked_act.
Qed.

Lemma parked_fresh key : parked (fresh_frame key).
Proof. unfold parked. cbn. discriminate. Qed.

(** X1.  No replay and no loss, for a consumer that keeps up with a peer that
    sends cumulative text: whatever the events, the answer to the request
    and the order of the steps, the increments yielded so far are the
    beginning of the accumulated text, and when the generator is at a
    [yield] or has returned they are the whole of it. *)
Theorem prompt_consumer_gets_accumulated_text key acts :
  prompt_and_cumulative (fresh_frame key) acts ->
  let g := fold_left act acts (fresh_frame key) in
  consistent g /\
  (phase g = Returned -> String.concat "" (yielded g) = accumulated g).
Proof.
  intros H. cbv zeta.
  assert (C : consistent (fold_left act acts (fresh_frame key)))
    by (apply consistent_run; [apply consistent_fresh|exact H]).
  split; [exact C|]. intros Hr. destruct C as [_ C]. now rewrite Hr in C.
Qed.

Lemma prompt_consumer_gets_accumulated_text_witness :
  let g := fold_left act keeping_up (fresh_frame "s1") in
  consistent g /\
  (phase g = Returned -> String.concat "" (yielded g) = accumulated g).
Proof.
  apply (prompt_consumer_gets_accumulated_text "s1" keeping_up).
  vm_compute. repeat split; auto.
Defined.

(** X2.  An error event that reaches a waiting stream with no text accumulated
    makes the generator throw the message of the event at its next
    resumption; nothing is yielded. *)
Theorem error_without_text_fails key acts evt msg :
  let g := fold_left act acts (fresh_frame key) in
  (exists b, phase g = AwaitData b) ->
  accumulated g = "" ->
  ChatEvent.state evt = error_state ->
  ChatEvent.errorMessage evt = Some msg ->
  let g' := act (act g (Deliver evt)) Resume in
  phase g' = Threw msg /\ yielded g' = yielded g.
Proof.
  intros g [b Hb] Hacc Hst Hmsg.
  assert (P : parked g) by (apply parked_run, parked_fresh).
  clearbody g. unfold parked in P.
  destruct g as [k acc lyl dn er dwd rs les hn ph ys].
  destruct evt as [rid sk sq st m em].
  cbn in Hb, Hacc, Hst, Hmsg, P. subst ph acc st em.
  cbv zeta. unfold act, on_event, seq_frame, text_frame, accepts, terminal_frame, error_frame.
  destruct sq; cbn;
    (destruct rs as [|u rest]; cbn;
     [destruct b; [|now destruct P]; cbn; auto
     |destruct b; cbn; auto]).
Qed.

Lemma error_without_text_fails_witness :
  let g := fold_left act waiting_without_text (fresh_frame "s1") in
  let g' := act (act g (Deliver (failure "boom"))) Resume in
  phase g' = Threw "boom" /\ yielded g' = yielded g.
Proof.
  apply (error_without_text_fails "s1" waiting_without_text (failure "boom") (msg := "boom")).
  - exists false. reflexivity.
  - reflexivity.
  - reflexivity.
  - reflexivity.
Defined.

(** An error event on a waiting stream that holds text: the stream is done
    and flagged as interrupted, no error is stored, the generator is woken. *)
Lemma error_event_on_text evt g b :
  phase g = AwaitData b -> parked g -> accumulated g <> "" ->
  ChatEvent.state evt = error_state ->
  phase (on_event evt g) = AwaitData true /\ done (on_event evt g) = true /\
  error (on_event evt g) = error g /\
  accumulated (on_event evt g) = accumulated g /\
  disconnectedWithData (on_event evt g) = true.
Proof.
  intros Hb P Hacc Hst. unfold parked in P.
  destruct g as [k acc lyl dn er dwd rs les hn ph ys].
  destruct evt as [rid sk sq st m em].
  cbn in Hb, Hacc, Hst, P. subst ph st.
  destruct acc as [|c acc]; [now destruct Hacc|].
  unfold on_event, seq_frame, text_frame, accepts, terminal_frame, error_frame.
  destruct sq; cbn;
    (destruct rs as [|u rest]; cbn;
     [destruct b; [|now destruct P]; cbn; auto
     |destruct b; cbn; auto]).
Qed.

Lemma loop_head_done g : done g = true -> loop_head_frame g = after_loop_frame g.
Proof. intros H. unfold loop_head_frame. now rewrite H. Qed.

(** A woken generator that finds the stream done and no error stored
    yields what is left, if anything, and returns at the consumer's next
    request. *)
Lemma returns_when_done g :
  phase g = AwaitData true -> done g = true -> error g = None ->
  phase (on_next (on_resume g)) = Returned /\
  error (on_next (on_resume g)) = None /\
  accumulated (on_next (on_resume g)) = accumulated g /\
  disconnectedWithData (on_next (on_resume g)) = disconnectedWithData g.
Proof.
  intros Hp Hd He. unfold on_resume. rewrite Hp. unfold loop_body_frame. rewrite He.
  destruct (hasNewData g && (lastYieldedLength g <? String.length (accumulated g))%nat).
  - unfold on_next. change (phase (yield_frame AtYield g)) with AtYield. cbv iota.
    rewrite loop_head_done by exact Hd.
    unfold after_loop_frame.
    change (lastYieldedLength (set_hasNewData false
              (set_lastYieldedLength (String.length (accumulated (yield_frame AtYield g)))
                 (yield_frame AtYield g))))
      with (String.length (accumulated g)).
    change (accumulated (set_hasNewData false
              (set_lastYieldedLength (String.length (accumulated (yield_frame AtYield g)))
                 (yield_frame AtYield g))))
      with (accumulated g).
    rewrite Nat.ltb_irrefl. cbn. auto.
  - rewrite loop_head_done by exact Hd. unfold after_loop_frame.
    destruct (lastYieldedLength g <? String.length (accumulated g))%nat.
    + unfold on_next. change (phase (yield_frame AtFinalYield g)) with AtFinalYield.
      cbn. auto.
    + unfold on_next. change (phase (set_phase Returned g)) with Returned. cbn. auto.
Qed.

(** X3.  An error event that reaches a waiting stream with text accumulated
    ends the stream without error: after the next resumption and one more
    request of the consumer the generator has returned, the accumulated
    text is unchanged and flagged as interrupted, and for a consumer that
    kept up the increments make up the accumulated text. *)
Theorem error_with_text_ends_normally key acts evt :
  let g := fold_left act acts (fresh_frame key) in
  (exists b, phase g = AwaitData b) ->
  accumulated g <> "" ->
  error g = None ->
  ChatEvent.state evt = error_state ->
  let g' := act (act (act g (Deliver evt)) Resume) Next in
  phase g' = Returned /\ error g' = None /\
  accumulated g' = accumulated g /\ disconnectedWithData g' = true /\
  (prompt_and_cumulative (fresh_frame key) acts ->
   String.concat "" (yielded g') = accumulated g).
Proof.
  intros g [b Hb] Hacc Her Hst.
  assert (P : parked g) by (apply parked_run, parked_fresh).
  cbv zeta.
  assert (A : phase (act (act (act g (Deliver evt)) Resume) Next) = Returned /\
              error (act (act (act g (Deliver evt)) Resume) Next) = None /\
              accumulated (act (act (act g (Deliver evt)) Resume) Next) = accumulated g /\
              disconnectedWithData (act (act (act g (Deliver evt)) Resume) Next) = true).
  { destruct (error_event_on_text evt Hb P Hacc Hst) as (e1 & e2 & e3 & e4 & e5).
    cbn [act].
    destruct (returns_when_done (on_event evt g)) as (r1 & r2 & r3 & r4); auto; [congruence|].
    split; [exact r1|]. split; [congruence|]. split; congruence. }
  destruct A as (a1 & a2 & a3 & a4). repeat split; auto.
  intros Hp.
  assert (C : consistent (fold_left act (acts ++ [Deliver evt; Resume; Next]) (fresh_frame key))).
  { apply consistent_run; [apply consistent_fresh|].
    apply prompt_and_cumulative_app; [exact Hp|].
    fold g. cbn. repeat split; auto.
    - unfold at_await. now rewrite Hb.
    - unfold accepts. rewrite Hst. cbn. discriminate. }
  rewrite fold_left_app in C. cbn [fold_left] in C. fold g in C.
  destruct C as [_ C]. rewrite a1 in C. now rewrite <- a3.
Qed.

Lemma error_with_text_ends_normally_witness :
  let g := fold_left act waiting_with_text (fresh_frame "s1") in
  let g' := act (act (act g (Deliver (failure "boom"))) Resume) Next in
  phase g' = Returned /\ error g' = None /\
  accumulated g' = accumulated g /\ disconnectedWithData g' = true /\
  (prompt_and_cumulative (fresh_frame "s1") waiting_with_text ->
   String.concat "" (yielded g') = accumulated g).
Proof.
  apply (error_with_text_ends_normally "s1" waiting_with_text (failure "boom")).
  - exists false. reflexivity.
  - discriminate.
  - reflexivity.
  - reflexivity.
Defined.

(** * More properties *)

(** ** Handlers that leave the streams alone *)

Lemma still_refl w : still w w.
Proof. split; reflexivity. Qed.

Lemma still_trans w1 w2 w3 : still w1 w2 -> still w2 w3 -> still w1 w3.
Proof. intros [a b] [c d]. split; congruence. Qed.

Lemma still_on_this w0 f w :
  (forall c, chatListeners (f c) = chatListeners c) ->
  still w0 w -> still w0 (on_this f w).
Proof. intros Hf [a b]. split; cbn; [exact a|]. now rewrite Hf. Qed.

Lemma still_eq w0 w w' :
  frames w' = frames w -> this w' = this w -> still w0 w -> still w0 w'.
Proof. intros Hf Ht [a b]. split; congruence. Qed.

Lemma still_logger w0 e w : still w0 w -> still w0 (logger e w).
Proof. now apply still_eq. Qed.

Lemma still_set_sockets w0 l w : still w0 w -> still w0 (set_sockets l w).
Proof. now apply still_eq. Qed.

Lemma still_set_timers w0 l w : still w0 w -> still w0 (set_timers l w).
Proof. now apply still_eq. Qed.

Lemma still_set_nextTimer w0 n w : still w0 w -> still w0 (set_nextTimer n w).
Proof. now apply still_eq. Qed.

Lemma still_set_sent w0 l w : still w0 w -> still w0 (set_sent l w).
Proof. now apply still_eq. Qed.

Lemma still_set_settled w0 l w : still w0 w -> still w0 (set_settled l w).
Proof. now apply still_eq. Qed.

Lemma still_set_delivered w0 l w : still w0 w -> still w0 (set_delivered l w).
Proof. now apply still_eq. Qed.

Lemma still_set_reconnectAwaits w0 l w : still w0 w -> still w0 (set_reconnectAwaits l w).
Proof. now apply still_eq. Qed.

Lemma still_clearTimeout w0 t w : still w0 w -> still w0 (clearTimeout t w).
Proof. now apply still_eq. Qed.

Lemma still_set_readyState w0 s st w : still w0 w -> still w0 (set_readyState s st w).
Proof. now apply still_eq. Qed.

Lemma still_fold (B : Type) (f : World -> B -> World) (l : list B) w0 :
  (forall w b, still w0 w -> still w0 (f w b)) ->
  forall w, still w0 w -> still w0 (fold_left f l w).
Proof. intros Hf. apply fold_left_invariant. exact Hf. Qed.

Create HintDb still.

#[export] Hint Resolve still_refl still_logger still_set_sockets still_set_timers
  still_set_nextTimer still_set_sent still_set_settled still_set_delivered
  still_set_reconnectAwaits still_clearTimeout still_set_readyState : still.

#[export] Hint Extern 2 (still _ (on_this _ _)) =>
  apply still_on_this; [intro; reflexivity | ] : still.

#[export] Hint Extern 2 (still _ (fold_left _ _ _)) =>
  apply still_fold; [intros; cbn beta | ] : still.

Ltac still :=
  intros; cbn [fst snd] in *; split_match; cbn [fst snd]; auto 12 with still.

Lemma still_settleAttempt w0 a o w : still w0 w -> still w0 (settleAttempt a o w).
Proof. unfold settleAttempt. still. Qed.

#[export] Hint Resolve still_settleAttempt : still.

Lemma still_setTimeout w0 cb ms w : still w0 w -> still w0 (snd (setTimeout cb ms w)).
Proof. unfold setTimeout. still. Qed.

#[export] Hint Resolve still_setTimeout : still.

Lemma still_request w0 method id wt w w' :
  request method id wt w = Normal w' -> still w0 w -> still w0 w'.
Proof.
  unfold request, setTimeout. destruct (negb (ws_open w)); [discriminate|].
  intros [= <-]. still.
Qed.

Lemma still_cleanupExpiredProgress w0 now w :
  still w0 w -> still w0 (cleanupExpiredProgress now w).
Proof.
  unfold cleanupExpiredProgress. apply still_fold. intros w1 b H1.
  destruct (expired now (snd b)); still.
Qed.

Lemma still_saveProgress w0 k r a s now w :
  still w0 w -> still w0 (saveProgress k r a s now w).
Proof. unfold saveProgress. still. Qed.

Lemma still_clearProgress w0 k w : still w0 w -> still w0 (clearProgress k w).
Proof. unfold clearProgress. still. Qed.

#[export] Hint Resolve still_cleanupExpiredProgress still_saveProgress still_clearProgress
  : still.

Lemma still_trackSeq w0 s w : still w0 w -> still w0 (trackSeq s w).
Proof. unfold trackSeq. still. Qed.

Lemma still_scheduleReconnect w0 w : still w0 w -> still w0 (scheduleReconnect w).
Proof. unfold scheduleReconnect, setTimeout. still. Qed.

Lemma still_connect w0 w : still w0 w -> still w0 (snd (connect w)).
Proof. unfold connect, doConnect. still. Qed.

Lemma still_socket_close w0 s w : still w0 w -> still w0 (socket_close s w).
Proof. unfold socket_close. still. Qed.

#[export] Hint Resolve still_trackSeq still_scheduleReconnect still_connect still_socket_close
  : still.

Lemma still_reconnect_callback w0 w : still w0 w -> still w0 (reconnect_callback w).
Proof.
  intros H. unfold reconnect_callback.
  assert (S : still w0 (snd (connect (on_this (set_reconnectTimer None) w)))) by still.
  destruct (connect _) as [[| e | a] w1]; cbn [snd] in S; still.
Qed.

Lemma still_onError w0 a e w : still w0 w -> still w0 (onError a e w).
Proof. unfold onError. still. Qed.

#[export] Hint Resolve still_reconnect_callback still_onError : still.

(** ** The frame of a stream under the four actions *)

Lemma length_append (a b : string) :
  String.length (a ++ b) = String.length a + String.length b.
Proof. induction a as [|c a IH]; cbn; [reflexivity|]. now rewrite IH. Qed.

Lemma length_take (n : nat) (s : string) :
  n <= String.length s -> String.length (String.substring 0 n s) = n.
Proof.
  revert n. induction s as [|c s IH]; intros [|n] H; cbn in *; try reflexivity; try lia.
  rewrite IH by lia. reflexivity.
Qed.

Lemma length_slice (n : nat) (s : string) :
  n <= String.length s -> String.length (slice n s) = String.length s - n.
Proof.
  intros H. pose proof (@take_slice n s H) as E.
  apply (f_equal String.length) in E. rewrite length_append, length_take in E by exact H.
  lia.
Qed.

Lemma length_nonempty (s : string) : 0 < String.length s -> s <> "".
Proof. destruct s; cbn; [lia|discriminate]. Qed.

Lemma kept_refl g : kept g g.
Proof. constructor; auto. Qed.

Lemma kept_trans g1 g2 g3 : kept g1 g2 -> kept g2 g3 -> kept g1 g3.
Proof.
  intros [a1 a2 a3 a4 a5 a6 a7] [b1 b2 b3 b4 b5 b6 b7].
  constructor; try congruence; [lia|auto].
Qed.

Lemma kept_seq_frame evt g : kept g (seq_frame evt g).
Proof. unfold seq_frame. destruct (ChatEvent.seq evt); constructor; auto. Qed.

Lemma kept_text_frame evt g : kept g (text_frame evt g).
Proof.
  unfold text_frame. destruct (accepts evt g) eqn:A; [|apply kept_refl].
  unfold accepts in A. apply andb_prop in A as [_ A]. apply Nat.ltb_lt in A.
  constructor; cbn; auto. lia.
Qed.

Lemma kept_terminal_frame evt g : kept g (terminal_frame evt g).
Proof. unfold terminal_frame. split_match; constructor; auto. Qed.

Lemma kept_error_frame evt g : kept g (error_frame evt g).
Proof. unfold error_frame. split_match; constructor; auto. Qed.

Lemma kept_before_wake evt g :
  kept g (error_frame evt (terminal_frame evt (text_frame evt (seq_frame evt g)))).
Proof.
  eapply kept_trans; [apply kept_seq_frame|].
  eapply kept_trans; [apply kept_text_frame|].
  eapply kept_trans; [apply kept_terminal_frame|apply kept_error_frame].
Qed.

(** [shift()] and the call of the resolver change the phase and the
    resolvers only. *)
Lemma wake_frame_fields g :
  accumulated (wake_frame g) = accumulated g /\
  lastYieldedLength (wake_frame g) = lastYieldedLength g /\
  yielded (wake_frame g) = yielded g /\
  sessionKeyParam (wake_frame g) = sessionKeyParam g /\
  done (wake_frame g) = done g /\
  error (wake_frame g) = error g.
Proof. unfold wake_frame, wake. split_match; cbn; auto 10. Qed.

Lemma wake_frame_resolver g :
  one_resolver g ->
  one_resolver (wake_frame g) /\
  phase (wake_frame g) = match phase g with AwaitData false => AwaitData true | p => p end.
Proof.
  unfold one_resolver, wake_frame, wake. intros H.
  destruct (phase g) as [o|[|]| | | |] eqn:P; rewrite H; cbn; rewrite ?P; cbn; auto.
Qed.

Lemma at_await_wake g :
  one_resolver g -> at_await (wake_frame g) = at_await g.
Proof.
  intros H. unfold at_await. destruct (wake_frame_resolver H) as [_ ->].
  now destruct (phase g) as [o|[|]| | | |].
Qed.

Lemma one_resolver_kept g g' : kept g g' -> one_resolver g -> one_resolver g'.
Proof. intros K. unfold one_resolver. now rewrite (ke_phase K), (ke_resolvers K). Qed.

Lemma sound_on_event evt g : sound g -> sound (on_event evt g).
Proof.
  intros [s1 s2 s3 s4 s5 s6 s7]. unfold on_event.
  pose proof (kept_before_wake evt g) as K.
  remember (error_frame evt (terminal_frame evt (text_frame evt (seq_frame evt g)))) as g1.
  pose proof (one_resolver_kept K s1) as R1.
  destruct (wake_frame_resolver R1) as [w1 w2].
  destruct (wake_frame_fields g1) as (f1 & f2 & f3 & f4 & f5 & f6).
  pose proof (ke_length K) as L.
  constructor.
  - exact w1.
  - rewrite f1, f2, (ke_lyl K). lia.
  - unfold yielded_length in *. rewrite f1, f3, (ke_yielded K). lia.
  - rewrite (at_await_wake R1). unfold at_await. rewrite (ke_phase K).
    unfold yielded_length in *. rewrite f2, f3, (ke_yielded K), (ke_lyl K). exact s4.
  - rewrite f3, (ke_yielded K). exact s5.
  - rewrite w2, f3, (ke_yielded K), (ke_phase K).
    destruct (phase g) as [o|[|]| | | |]; auto.
  - rewrite w2, (ke_phase K). destruct (phase g) as [o|[|]| | | |]; discriminate.
Qed.

Lemma yielded_length_snoc (l : list string) (x : string) :
  String.length (String.concat "" (l ++ [x])) =
  String.length (String.concat "" l) + String.length x.
Proof. now rewrite concat_snoc, length_append. Qed.

Lemma sound_yield ph g :
  ready g -> lastYieldedLength g < String.length (accumulated g) ->
  ph = AtYield \/ ph = AtFinalYield ->
  sound (yield_frame ph g).
Proof.
  intros [r1 r2 r3 r4] Hlt Hph. unfold yield_frame.
  assert (Y : yielded_length
                (set_phase ph
                   (set_yielded (yielded g ++ [slice (lastYieldedLength g) (accumulated g)]) g))
              = yielded_length g + (String.length (accumulated g) - lastYieldedLength g)).
  { unfold yielded_length. cbn. rewrite yielded_length_snoc, length_slice by lia.
    reflexivity. }
  constructor.
  - unfold one_resolver. cbn. rewrite r1. destruct Hph as [-> | ->]; reflexivity.
  - cbn. lia.
  - rewrite Y. cbn. lia.
  - unfold at_await. cbn. destruct Hph as [-> | ->]; discriminate.
  - cbn. apply Forall_app. split; [exact r4|]. constructor; [|constructor].
    apply length_nonempty. rewrite length_slice by lia. lia.
  - cbn. destruct Hph as [-> | ->]; exact I.
  - cbn. destruct Hph as [-> | ->]; discriminate.
Qed.

Lemma sound_returned g : ready g -> sound (set_phase Returned g).
Proof.
  intros [r1 r2 r3 r4]. constructor.
  - unfold one_resolver. cbn. exact r1.
  - exact r2.
  - unfold yielded_length in *. cbn. lia.
  - unfold at_await. cbn. discriminate.
  - exact r4.
  - exact I.
  - cbn. discriminate.
Qed.

Lemma sound_after_loop g : ready g -> sound (after_loop_frame g).
Proof.
  intros R. unfold after_loop_frame.
  destruct (Nat.ltb_spec (lastYieldedLength g) (String.length (accumulated g))).
  - apply sound_yield; auto.
  - now apply sound_returned.
Qed.

Lemma sound_loop_head g : ready g -> sound (loop_head_frame g).
Proof.
  intros R. unfold loop_head_frame.
  destruct (negb (done g)) eqn:D; [|now apply sound_after_loop].
  destruct R as [r1 r2 r3 r4].
  destruct (done g || hasNewData g) eqn:N; constructor;
    try (unfold one_resolver; cbn; now rewrite r1);
    try exact r2; try exact r4; try exact I;
    try (cbn; discriminate);
    try (cbn; intros _; apply orb_false_elim in N; exact N);
    try (intros _); unfold yielded_length in *; cbn; lia.
Qed.

Lemma sound_loop_body g : ready g -> sound (loop_body_frame g).
Proof.
  intros R. unfold loop_body_frame.
  assert (Y : hasNewData g && (lastYieldedLength g <? String.length (accumulated g))%nat = true ->
              sound (yield_frame AtYield g)).
  { intros H. apply andb_prop in H as [_ H]. apply Nat.ltb_lt in H. apply sound_yield; auto. }
  destruct (error g) as [e|].
  - destruct (String.length (accumulated g) =? 0)%nat eqn:Z.
    + apply Nat.eqb_eq in Z. destruct R as [r1 r2 r3 r4].
      assert (E : yielded g = []).
      { destruct (yielded g) as [|x l] eqn:Ey; [reflexivity|]. exfalso.
        inversion r4 as [|? ? Hx Hl]; subst.
        unfold yielded_length in r3. rewrite Ey in r3.
        change (String.concat "" (x :: l)) with (String.concat "" ([] ++ x :: l)) in r3.
        destruct x as [|c x]; [now apply Hx|].
        assert (0 < String.length (String.concat "" (String c x :: l))).
        { destruct l; cbn; lia. }
        cbn [app] in r3. lia. }
      constructor.
      * unfold one_resolver. cbn. exact r1.
      * exact r2.
      * unfold yielded_length in *. cbn. lia.
      * unfold at_await. cbn. discriminate.
      * exact r4.
      * exact E.
      * cbn. discriminate.
    + destruct (hasNewData g && _) eqn:H; [now apply Y|now apply sound_loop_head].
  - destruct (hasNewData g && _) eqn:H; [now apply Y|now apply sound_loop_head].
Qed.

Lemma ready_of_sound g :
  sound g -> at_await g = true -> phase g <> AwaitData false -> ready g.
Proof.
  intros [s1 s2 s3 s4 s5 s6 s7] A P. constructor; auto.
  unfold one_resolver in s1. rewrite s1.
  destruct (phase g) as [o|[|]| | | |]; auto. now destruct P.
Qed.

Lemma sound_act g a : sound g -> sound (act g a).
Proof.
  intros S. destruct a as [evt|o| |]; cbn [act].
  - now apply sound_on_event.
  - destruct (phase g) as [[o'|]| | | | |] eqn:P; auto.
    destruct S as [s1 s2 s3 s4 s5 s6 s7]. rewrite P in s6.
    constructor.
    + unfold one_resolver in *. cbn. now rewrite P in s1.
    + exact s2.
    + exact s3.
    + unfold at_await in *. cbn. intros _. apply s4. now rewrite P.
    + exact s5.
    + exact s6.
    + cbn. discriminate.
  - unfold on_resume.
    destruct (phase g) as [[[|e]|]|[|]| | | |] eqn:P; auto.
    + apply sound_loop_head, ready_of_sound; auto; unfold at_await; rewrite P;
        [reflexivity|discriminate].
    + destruct S as [s1 s2 s3 s4 s5 s6 s7]. rewrite P in s6.
      constructor.
      * unfold one_resolver in *. cbn. now rewrite P in s1.
      * exact s2.
      * exact s3.
      * unfold at_await. cbn. discriminate.
      * exact s5.
      * exact s6.
      * cbn. discriminate.
    + apply sound_loop_body, ready_of_sound; auto; unfold at_await; rewrite P;
        [reflexivity|discriminate].
  - unfold on_next. destruct (phase g) eqn:P; auto.
    + destruct S as [s1 s2 s3 s4 s5 s6 s7]. apply sound_loop_head.
      constructor.
      * unfold one_resolver in s1. now rewrite P in s1.
      * cbn. lia.
      * unfold yielded_length in *. cbn. exact s3.
      * exact s5.
    + destruct S as [s1 s2 s3 s4 s5 s6 s7].
      constructor.
      * unfold one_resolver in *. cbn. now rewrite P in s1.
      * exact s2.
      * exact s3.
      * unfold at_await. cbn. discriminate.
      * exact s5.
      * exact I.
      * cbn. discriminate.
Qed.

Lemma sound_fresh key : sound (fresh_frame key).
Proof.
  constructor.
  - reflexivity.
  - cbn. lia.
  - unfold yielded_length. cbn. lia.
  - intros _. unfold yielded_length. cbn. lia.
  - constructor.
  - reflexivity.
  - cbn. discriminate.
Qed.

Lemma sound_run acts : forall g, sound g -> sound (fold_left act acts g).
Proof.
  induction acts as [|a acts IH]; intros g S; [exact S|].
  cbn [fold_left]. apply IH. now apply sound_act.
Qed.

Lemma key_act g a : sessionKeyParam (act g a) = sessionKeyParam g.
Proof.
  destruct a as [evt|o| |]; cbn [act].
  - unfold on_event. destruct (wake_frame_fields
      (error_frame evt (terminal_frame evt (text_frame evt (seq_frame evt g)))))
      as (_ & _ & _ & -> & _). apply (ke_key (kept_before_wake evt g)).
  - now destruct (phase g) as [[o'|]| | | | |].
  - unfold on_resume, loop_body_frame, loop_head_frame, after_loop_frame, yield_frame.
    split_match; reflexivity.
  - unfold on_next, loop_head_frame, after_loop_frame, yield_frame.
    split_match; reflexivity.
Qed.

Lemma evolved_fresh key : evolved (fresh_frame key).
Proof. exists []. reflexivity. Qed.

Lemma evolved_act g a : evolved g -> evolved (act g a).
Proof.
  intros [acts E]. exists (acts ++ [a]).
  rewrite key_act, fold_left_app. cbn. now rewrite <- E.
Qed.

Lemma evolved_sound g : evolved g -> sound g.
Proof. intros [acts ->]. apply sound_run, sound_fresh. Qed.

(** ** The streams of a client under every handler *)

Lemma streams_ok_still w w' : still w w' -> streams_ok w -> streams_ok w'.
Proof.
  intros [a b] [e l]. constructor.
  - intros r g. rewrite a. apply e.
  - intros r. rewrite a, b. apply l.
Qed.

Lemma streams_ok_init : streams_ok init.
Proof. constructor; [intros r g; discriminate|intros r; reflexivity]. Qed.

Ltac map_cases r' r :=
  destruct (String.eqb_spec r' r) as [->|];
  [rewrite ?JsMapFacts.get_set_same, ?JsMapFacts.get_delete_same
  |rewrite ?JsMapFacts.get_set_other, ?JsMapFacts.get_delete_other by congruence].

(** One frame moves on; its listener goes when the generator ends. *)
Lemma streams_ok_move r g g' w w' :
  streams_ok w -> JsMap.get r (frames w) = Some g ->
  frames w' = JsMap.set r g' (frames w) ->
  chatListeners (this w') =
    (if ended g' && negb (ended g)
     then JsMap.delete r (chatListeners (this w)) else chatListeners (this w)) ->
  evolved g' -> (ended g = true -> ended g' = true) ->
  streams_ok w'.
Proof.
  intros [e l] Hg Hf Hl Ev Hm. constructor.
  - intros r' g1. rewrite Hf. map_cases r' r.
    + now intros [= <-].
    + apply e.
  - intros r'. rewrite Hf, Hl. specialize (l r').
    destruct (ended g) eqn:E1.
    + rewrite (Hm eq_refl). cbn [andb negb]. map_cases r' r.
      * rewrite l, Hg, E1. now rewrite (Hm eq_refl).
      * exact l.
    + destruct (ended g') eqn:E2; cbn [andb negb]; map_cases r' r; try exact l.
      * now rewrite E2.
      * rewrite l, Hg, E1, E2. reflexivity.
Qed.

Lemma still_listen_seq w0 evt gw : still w0 (snd gw) -> still w0 (snd (listen_seq evt gw)).
Proof. destruct gw. unfold listen_seq. still. Qed.

Lemma still_listen_text w0 r evt now gw :
  still w0 (snd gw) -> still w0 (snd (listen_text r evt now gw)).
Proof. destruct gw. unfold listen_text. still. Qed.

Lemma still_listen_terminal w0 evt gw :
  still w0 (snd gw) -> still w0 (snd (listen_terminal evt gw)).
Proof. destruct gw. unfold listen_terminal. still. Qed.

Lemma still_listen_error w0 evt gw :
  still w0 (snd gw) -> still w0 (snd (listen_error evt gw)).
Proof. destruct gw. unfold listen_error. still. Qed.

Lemma still_listen_wake w0 gw : still w0 (snd gw) -> still w0 (snd (listen_wake gw)).
Proof. destruct gw. unfold listen_wake. still. Qed.

(** What the listener does to the streams: the frame of its run takes the
    event, nothing else moves. *)
Lemma listener_streams r evt now w g :
  JsMap.get r (frames w) = Some g ->
  frames (listener r evt now w) = JsMap.set r (on_event evt g) (frames w) /\
  chatListeners (this (listener r evt now w)) = chatListeners (this w).
Proof.
  intros Hg. unfold listener. rewrite Hg.
  pose proof (listen_wake_frame (listen_error evt (listen_terminal evt
                (listen_text r evt now (listen_seq evt (g, w)))))) as H.
  rewrite listen_error_frame, listen_terminal_frame, listen_text_frame, listen_seq_frame in H.
  assert (S : still w (snd (listen_wake (listen_error evt (listen_terminal evt
                (listen_text r evt now (listen_seq evt (g, w)))))))).
  { apply still_listen_wake, still_listen_error, still_listen_terminal,
      still_listen_text, still_listen_seq, still_refl. }
  destruct (listen_wake _) as [g' w']. cbn [fst snd] in H, S. subst g'.
  destruct S as [s1 s2]. cbn. now rewrite s1, s2.
Qed.

Lemma ended_wake_frame g : ended (wake_frame g) = ended g.
Proof.
  destruct g as [k acc lyl dn er dwd rs les hn ph ys].
  unfold ended, wake_frame, wake. cbn.
  destruct rs; [reflexivity|]. cbn. destruct ph as [o|[|]| | | |]; reflexivity.
Qed.

Lemma ended_on_event evt g : ended (on_event evt g) = ended g.
Proof.
  unfold on_event. rewrite ended_wake_frame. unfold ended.
  now rewrite (ke_phase (kept_before_wake evt g)).
Qed.

Lemma streams_ok_listener r evt now w : streams_ok w -> streams_ok (listener r evt now w).
Proof.
  intros S. destruct (JsMap.get r (frames w)) as [g|] eqn:Hg.
  - destruct (@listener_streams r evt now w g Hg) as [f l].
    apply (@streams_ok_move r g (on_event evt g) w _ S Hg f).
    + rewrite l, ended_on_event. now destruct (ended g).
    + apply (@evolved_act g (Deliver evt)), (@st_evolved w S r g Hg).
    + now rewrite ended_on_event.
  - unfold listener. now rewrite Hg.
Qed.

Lemma streams_ok_resume_waiter wt o w : streams_ok w -> streams_ok (resume_waiter wt o w).
Proof.
  intros S. destruct wt as [a|r|].
  - apply (@streams_ok_still w); [|exact S]. unfold resume_waiter. destruct o; still.
  - unfold resume_waiter.
    destruct (JsMap.get r (frames w)) as [g|] eqn:Hg; [|exact S].
    destruct (phase g) as [[o'|]| | | | |] eqn:P; try exact S.
    apply (@streams_ok_move r g (set_phase (AwaitRequest (Some o)) g) w _ S Hg).
    + reflexivity.
    + reflexivity.
    + replace (set_phase (AwaitRequest (Some o)) g) with (act g (Settle o))
        by (cbn; now rewrite P).
      apply evolved_act, (@st_evolved w S r g Hg).
    + unfold ended. now rewrite P.
  - exact S.
Qed.

Lemma streams_ok_settle id wt o w : streams_ok w -> streams_ok (settle id wt o w).
Proof.
  intros S. unfold settle. apply streams_ok_resume_waiter.
  apply (@streams_ok_still w); [still|exact S].
Qed.

Lemma streams_ok_pending_reject id p e w :
  streams_ok w -> streams_ok (pending_reject id p e w).
Proof.
  intros S. unfold pending_reject. apply streams_ok_settle.
  apply (@streams_ok_still w); [still|exact S].
Qed.

Lemma streams_ok_pending_resolve id p w :
  streams_ok w -> streams_ok (pending_resolve id p w).
Proof.
  intros S. unfold pending_resolve. apply streams_ok_settle.
  apply (@streams_ok_still w); [still|exact S].
Qed.

Lemma streams_ok_flushPending e w : streams_ok w -> streams_ok (flushPending e w).
Proof.
  intros S. unfold flushPending.
  apply (@streams_ok_still
           (fold_left (fun w e0 => pending_reject (fst e0) (snd e0) e w) (pending (this w)) w));
    [still|].
  apply fold_left_invariant; [|exact S].
  intros w1 b. apply streams_ok_pending_reject.
Qed.

Lemma streams_ok_request_timeout id method wt w :
  streams_ok w -> streams_ok (request_timeout id method wt w).
Proof.
  intros S. unfold request_timeout. apply streams_ok_settle.
  apply (@streams_ok_still w); [still|exact S].
Qed.

Lemma streams_ok_dispatch evt now w : streams_ok w -> streams_ok (dispatch evt now w).
Proof.
  intros S. unfold dispatch. destruct (JsMap.get _ _); [|exact S].
  apply streams_ok_listener. apply (@streams_ok_still w); [still|exact S].
Qed.

Lemma streams_ok_handleMessage f now w : streams_ok w -> streams_ok (handleMessage f now w).
Proof.
  intros S. destruct f as [id ok err|ev sq payload| |]; cbn [handleMessage].
  - destruct (JsMap.get id (pending (this w))) as [p|]; [|exact S].
    destruct ok.
    + apply streams_ok_pending_resolve. apply (@streams_ok_still w); [still|exact S].
    + apply streams_ok_pending_reject. apply (@streams_ok_still w); [still|exact S].
  - assert (S1 : streams_ok (trackSeq sq w)) by (apply (@streams_ok_still w); [still|exact S]).
    destruct (String.eqb ev "chat"); [|exact S1].
    destruct payload as [evt|].
    + now apply streams_ok_dispatch.
    + apply (@streams_ok_still (trackSeq sq w)); [still|exact S1].
  - exact S.
  - apply (@streams_ok_still w); [still|exact S].
Qed.

Lemma streams_ok_notify_listeners now w :
  streams_ok w -> streams_ok (notify_listeners now w).
Proof.
  intros S. unfold notify_listeners. apply fold_left_invariant; [|exact S].
  intros w1 b S1. apply streams_ok_listener.
  apply (@streams_ok_still w1); [still|exact S1].
Qed.

Lemma streams_ok_handleClose now w : streams_ok w -> streams_ok (handleClose now w).
Proof.
  intros S. rewrite handleClose_eq. cbv zeta.
  assert (S1 : streams_ok (notify_listeners now
              (flushPending "connection closed"
                 (on_this (set_ws None) (on_this (set_disconnected true)
                    (on_this (set_connected false) w)))))).
  { apply streams_ok_notify_listeners, streams_ok_flushPending.
    apply (@streams_ok_still w); [still|exact S]. }
  destruct (negb _); [|exact S1].
  eapply streams_ok_still; [|exact S1]. still.
Qed.

Lemma streams_ok_close w : streams_ok w -> streams_ok (close w).
Proof.
  intros S. rewrite close_eq. cbv zeta. apply streams_ok_flushPending.
  apply (@streams_ok_still w); [|exact S]. unfold close_timer. still.
Qed.

(** The generator: the equations of its frame and of the listener table. *)
Lemma after_loop_streams r g w :
  frames (after_loop r g w) = JsMap.set r (after_loop_frame g) (frames w) /\
  chatListeners (this (after_loop r g w)) =
    (if ended (after_loop_frame g)
     then JsMap.delete r (chatListeners (this w)) else chatListeners (this w)).
Proof.
  unfold after_loop, after_loop_frame.
  destruct (lastYieldedLength g <? String.length (accumulated g))%nat.
  - unfold store, yield_frame, ended. cbn. auto.
  - unfold stream_return, stream_finally, store, ended.
    destruct (disconnectedWithData g); cbn; auto.
Qed.

Lemma loop_head_streams r g w :
  frames (loop_head r g w) = JsMap.set r (loop_head_frame g) (frames w) /\
  chatListeners (this (loop_head r g w)) =
    (if ended (loop_head_frame g)
     then JsMap.delete r (chatListeners (this w)) else chatListeners (this w)).
Proof.
  unfold loop_head, loop_head_frame.
  destruct (negb (done g)); [|apply after_loop_streams].
  unfold store, ended. destruct (done g || hasNewData g); cbn; auto.
Qed.

Lemma loop_body_streams r g w :
  frames (loop_body r g w) = JsMap.set r (loop_body_frame g) (frames w) /\
  chatListeners (this (loop_body r g w)) =
    (if ended (loop_body_frame g)
     then JsMap.delete r (chatListeners (this w)) else chatListeners (this w)).
Proof.
  unfold loop_body, loop_body_frame.
  destruct (error g) as [e|].
  - destruct (String.length (accumulated g) =? 0)%nat.
    + unfold stream_throw, stream_finally, store, ended. cbn. auto.
    + destruct (hasNewData g && _); [|apply loop_head_streams].
      unfold store, yield_frame, ended. cbn. auto.
  - destruct (hasNewData g && _); [|apply loop_head_streams].
    unfold store, yield_frame, ended. cbn. auto.
Qed.

Lemma ended_fixed g a : ended g = true -> act g a = g \/ ended (act g a) = true.
Proof.
  intros E. destruct a as [evt|o| |]; cbn [act].
  - right. now rewrite ended_on_event.
  - left. unfold ended in E. now destruct (phase g) as [[o'|]| | | | |].
  - left. unfold on_resume. unfold ended in E.
    now destruct (phase g) as [[[|e]|]|[|]| | | |].
  - left. unfold on_next. unfold ended in E. now destruct (phase g).
Qed.

Lemma streams_ok_chatStream_resume r w :
  streams_ok w -> streams_ok (chatStream_resume r w).
Proof.
  intros S. unfold chatStream_resume.
  destruct (JsMap.get r (frames w)) as [g|] eqn:Hg; [|exact S].
  assert (Ev : evolved (on_resume g)) by apply (@evolved_act g Resume), (@st_evolved w S r g Hg).
  unfold on_resume in Ev.
  destruct (phase g) as [[[|e]|]|[|]| | | |] eqn:P; try exact S;
    (assert (E0 : ended g = false) by (unfold ended; now rewrite P)).
  - destruct (loop_head_streams r g w) as [f l].
    apply (@streams_ok_move r g _ w _ S Hg f).
    + rewrite l, E0. cbn [negb]. now rewrite andb_true_r.
    + exact Ev.
    + now rewrite E0.
  - apply (@streams_ok_move r g (set_phase (Threw e) g) w _ S Hg).
    + reflexivity.
    + rewrite E0. reflexivity || (cbn; reflexivity).
    + exact Ev.
    + now rewrite E0.
  - destruct (loop_body_streams r g w) as [f l].
    apply (@streams_ok_move r g _ w _ S Hg f).
    + rewrite l, E0. cbn [negb]. now rewrite andb_true_r.
    + exact Ev.
    + now rewrite E0.
Qed.

Lemma streams_ok_chatStream_next r w :
  streams_ok w -> streams_ok (chatStream_next r w).
Proof.
  intros S. unfold chatStream_next.
  destruct (JsMap.get r (frames w)) as [g|] eqn:Hg; [|exact S].
  assert (Ev : evolved (on_next g)) by apply (@evolved_act g Next), (@st_evolved w S r g Hg).
  unfold on_next in Ev.
  destruct (phase g) eqn:P; try exact S;
    (assert (E0 : ended g = false) by (unfold ended; now rewrite P)).
  - unfold after_yield.
    destruct (loop_head_streams r
                (set_hasNewData false
                   (set_lastYieldedLength (String.length (accumulated g)) g)) w) as [f l].
    apply (@streams_ok_move r g _ w _ S Hg f).
    + rewrite l, E0. cbn [negb]. now rewrite andb_true_r.
    + exact Ev.
    + now rewrite E0.
  - apply (@streams_ok_move r g (set_phase Returned g) w _ S Hg).
    + unfold stream_return, stream_finally, store. split_match; reflexivity.
    + rewrite E0. unfold stream_return, stream_finally, store.
      destruct (disconnectedWithData g); reflexivity.
    + exact Ev.
    + now rewrite E0.
Qed.

Lemma streams_ok_chatStream_start r id key now w :
  streams_ok w -> streams_ok (chatStream_start r id key now w).
Proof.
  intros S. unfold chatStream_start.
  destruct (JsMap.get r (frames w)) eqn:Hg; [exact S|].
  unfold getProgress.
  set (w1 := match JsMap.get key (sessionProgress (this (cleanupExpiredProgress now w))) with
             | Some p => logger (LogFoundProgress key
                                   (String.length (SessionProgress.accumulated p))
                                   (SessionProgress.lastSeq p))
                           (cleanupExpiredProgress now w)
             | None => cleanupExpiredProgress now w
             end).
  assert (S1 : still w w1) by (unfold w1; still).
  destruct S1 as [f1 l1].
  set (g0 := mkStream key "" 0 false None false [] 0%Z false (AwaitRequest None) []).
  set (w2 := on_this (fun c => set_chatListeners (JsMap.set r r (chatListeners c)) c)
               (store r g0 w1)).
  assert (f2 : frames w2 = JsMap.set r g0 (frames w)) by (cbn; now rewrite f1).
  assert (l2 : chatListeners (this w2) = JsMap.set r r (chatListeners (this w)))
    by (cbn; now rewrite l1).
  destruct S as [e l].
  assert (S2 : streams_ok w2).
  { constructor.
    - intros r' g1. rewrite f2. map_cases r' r.
      + intros [= <-]. apply evolved_fresh.
      + apply e.
    - intros r'. rewrite f2, l2. map_cases r' r; [reflexivity|apply l]. }
  destruct (request "chat.send" id (AwaitChatSend r) w2) as [w3|err] eqn:R.
  - apply (@streams_ok_still w2); [|exact S2]. eapply still_request; [exact R|apply still_refl].
  - assert (Hg2 : JsMap.get r (frames w2) = Some g0)
      by (rewrite f2; apply JsMapFacts.get_set_same).
    apply (@streams_ok_move r g0 (set_phase (Threw err) g0) w2 _ S2 Hg2).
    + reflexivity.
    + reflexivity.
    + exists [Settle (Rejected err); Resume]. reflexivity.
    + discriminate.
Qed.

Lemma streams_ok_onOpen a id w : streams_ok w -> streams_ok (onOpen a id w).
Proof.
  intros S. unfold onOpen.
  destruct (request "connect" id (AwaitHandshake a) w) as [w1|e] eqn:R.
  - apply (@streams_ok_still w); [|exact S]. eapply still_request; [exact R|apply still_refl].
  - apply (@streams_ok_still w); [still|exact S].
Qed.

Lemma streams_ok_step w e : streams_ok w -> streams_ok (step w e).
Proof.
  intros S. destruct e; cbn [step].
  - apply (@streams_ok_still w); [still|exact S].
  - now apply streams_ok_close.
  - unfold abortChat. destruct (request _ _ _ _) as [w1|err] eqn:R; [|exact S].
    apply (@streams_ok_still w); [|exact S]. eapply still_request; [exact R|apply still_refl].
  - now apply streams_ok_chatStream_start.
  - now apply streams_ok_chatStream_resume.
  - now apply streams_ok_chatStream_next.
  - destruct (socketState s w) as [[| | |]|]; try exact S.
    apply streams_ok_onOpen. apply (@streams_ok_still w); [still|exact S].
  - destruct (socketState s w) as [[| | |]|]; try exact S;
      (apply (@streams_ok_still w); [still|exact S]).
  - destruct (socketState s w) as [[| | |]|]; try exact S;
      now apply streams_ok_handleMessage.
  - destruct (socketState s w) as [[| | |]|]; try exact S;
      (apply streams_ok_handleClose; apply (@streams_ok_still w); [still|exact S]).
  - destruct (find _ _) as [tm|]; [|exact S].
    destruct (callback tm).
    + apply streams_ok_request_timeout. apply (@streams_ok_still w); [still|exact S].
    + apply (@streams_ok_still w); [still|exact S].
Qed.

Lemma reachable_streams_ok w : reachable w -> streams_ok w.
Proof. induction 1; [apply streams_ok_init|now apply streams_ok_step]. Qed.

(** ** The streams of every reachable state *)

Lemma reachable_sound w r g :
  reachable w -> JsMap.get r (frames w) = Some g -> sound g.
Proof.
  intros Hr Hg. apply evolved_sound.
  exact (@st_evolved w (reachable_streams_ok Hr) r g Hg).
Qed.

(** X4.  In every reachable state and for every stream: no increment
    handed to the consumer is empty, the increments together are not
    longer than the accumulated text, and [lastYieldedLength] is within
    the accumulated text (so [slice] never starts past its end). *)
Theorem increments_nonempty_and_within_text w r g :
  reachable w -> JsMap.get r (frames w) = Some g ->
  Forall (fun s => s <> "") (yielded g) /\
  String.length (String.concat "" (yielded g)) <= String.length (accumulated g) /\
  lastYieldedLength g <= String.length (accumulated g).
Proof.
  intros Hr Hg. destruct (@reachable_sound w r g Hr Hg) as [s1 s2 s3 s4 s5 s6 s7].
  split; [exact s5|]. split; [exact s3|exact s2].
Qed.

Lemma increments_nonempty_and_within_text_witness :
  let g := mkStream "s1" "Hello!" 6 true None false [] 3%Z false Returned ["He"; "llo"; "!"] in
  JsMap.get "r-1" (frames (run streaming_world prompt_consumer)) = Some g /\
  Forall (fun s => s <> "") (yielded g) /\
  String.length (String.concat "" (yielded g)) <= String.length (accumulated g) /\
  lastYieldedLength g <= String.length (accumulated g).
Proof.
  intros g.
  assert (Hg : JsMap.get "r-1" (frames (run streaming_world prompt_consumer)) = Some g)
    by (vm_compute; reflexivity).
  split; [exact Hg|].
  apply (@increments_nonempty_and_within_text (run streaming_world prompt_consumer) "r-1" g);
    [apply reachable_run; repeat constructor|exact Hg].
Defined.

(** X5.  A stream never both hands out text and fails: in every reachable
    state, a generator that has thrown has yielded nothing. *)
Theorem failed_stream_yielded_nothing w r g e :
  reachable w -> JsMap.get r (frames w) = Some g -> phase g = Threw e ->
  yielded g = [].
Proof.
  intros Hr Hg P. destruct (@reachable_sound w r g Hr Hg) as [s1 s2 s3 s4 s5 s6 s7].
  now rewrite P in s6.
Qed.

Lemma failed_stream_yielded_nothing_witness :
  let g := mkStream "s1" "" 0 true (Some "boom") false [] 1%Z false (Threw "boom") [] in
  JsMap.get "r-1" (frames (run streaming_world error_after_ack)) = Some g /\
  yielded g = [].
Proof.
  intros g.
  assert (Hg : JsMap.get "r-1" (frames (run streaming_world error_after_ack)) = Some g)
    by (vm_compute; reflexivity).
  split; [exact Hg|].
  apply (@failed_stream_yielded_nothing (run streaming_world error_after_ack) "r-1" g "boom");
    [apply reachable_run; repeat constructor|exact Hg|reflexivity].
Defined.

(** X6.  In every reachable state the listener of a run is registered
    under the run's id exactly while the generator of that run has neither
    returned nor thrown: no listener is left behind by a stream that
    ended, none is missing for one that runs. *)
Theorem listener_registered_while_stream_runs w :
  reachable w ->
  forall r, JsMap.get r (chatListeners (this w)) =
            match JsMap.get r (frames w) with
            | Some g => if ended g then None else Some r
            | None => None
            end.
Proof. intros Hr. exact (st_listening (reachable_streams_ok Hr)). Qed.

Lemma listener_registered_while_stream_runs_witness :
  JsMap.get "r-1" (chatListeners (this streaming_world)) = Some "r-1" /\
  JsMap.get "r-1" (chatListeners (this (run streaming_world prompt_consumer))) = None.
Proof.
  split.
  - rewrite (@listener_registered_while_stream_runs streaming_world);
      [vm_compute; reflexivity|repeat constructor].
  - rewrite (@listener_registered_while_stream_runs (run streaming_world prompt_consumer));
      [vm_compute; reflexivity|apply reachable_run; repeat constructor].
Defined.

(** X7.  No wake-up is lost.  In every reachable state a generator that
    waits for data has nothing to deliver ([done] and [hasNewData] are
    clear), its resolver is the only one in [resolvers], and whatever
    event reaches its listener next makes it runnable. *)
Theorem waiting_generator_is_woken_by_any_event w r g :
  reachable w -> JsMap.get r (frames w) = Some g -> phase g = AwaitData false ->
  done g = false /\ hasNewData g = false /\ resolvers g = [tt] /\
  forall evt now,
    exists g', JsMap.get r (frames (listener r evt now w)) = Some g' /\
               phase g' = AwaitData true /\ resolvers g' = [].
Proof.
  intros Hr Hg P. destruct (@reachable_sound w r g Hr Hg) as [s1 s2 s3 s4 s5 s6 s7].
  destruct (s7 P) as [d h]. split; [exact d|]. split; [exact h|].
  split; [unfold one_resolver in s1; now rewrite P in s1|].
  intros evt now. exists (on_event evt g).
  split; [now apply listener_frame|].
  unfold on_event.
  pose proof (kept_before_wake evt g) as K.
  pose proof (one_resolver_kept K s1) as R1.
  destruct (wake_frame_resolver R1) as [w1 w2].
  rewrite (ke_phase K), P in w2. split; [exact w2|].
  unfold one_resolver in w1. now rewrite w2 in w1.
Qed.

Lemma waiting_generator_is_woken_by_any_event_witness :
  let w := run streaming_world [ack 11; StreamResume "r-1"] in
  let g := mkStream "s1" "" 0 false None false [tt] 0%Z false (AwaitData false) [] in
  JsMap.get "r-1" (frames w) = Some g /\
  done g = false /\ hasNewData g = false /\ resolvers g = [tt] /\
  forall evt now,
    exists g', JsMap.get "r-1" (frames (listener "r-1" evt now w)) = Some g' /\
               phase g' = AwaitData true /\ resolvers g' = [].
Proof.
  intros w g.
  assert (Hg : JsMap.get "r-1" (frames w) = Some g) by (vm_compute; reflexivity).
  split; [exact Hg|].
  apply (@waiting_generator_is_woken_by_any_event w "r-1" g);
    [apply reachable_run; repeat constructor|exact Hg|reflexivity].
Defined.

(** ** A stream started without an open socket *)

(** The sweep writes the cache and the log, nothing else. *)
Lemma cleanup_only_cache now w :
  exists m l, cleanupExpiredProgress now w = set_log l (on_this (set_sessionProgress m) w).
Proof.
  unfold cleanupExpiredProgress.
  apply (@fold_left_invariant World _
           (fun w' => exists m l, w' = set_log l (on_this (set_sessionProgress m) w))).
  - intros w' b (m & l & ->). destruct (expired now (snd b)); [|eauto].
    exists (JsMap.delete (fst b) m), (l ++ [LogCleanup (fst b)]). reflexivity.
  - exists (sessionProgress (this w)), (log w). now destruct w as [[]].
Qed.

Lemma delete_set_fresh (V : Type) (k : string) (v : V) (m : JsMap.t V) :
  JsMap.get k m = None -> JsMap.delete k (JsMap.set k v m) = m.
Proof.
  unfold JsMap.delete. induction m as [|[k' v'] m IH]; cbn.
  - intros _. now rewrite String.eqb_refl.
  - destruct (String.eqb k k') eqn:E; [discriminate|]. intros H. cbn. rewrite E. cbn.
    now rewrite IH.
Qed.

(** X8.  A stream started on a client that has no open socket fails at
    its first [next()] with the error "not connected" and yields nothing;
    the listener it had registered is removed again, no request is
    registered, timed or written.  The only trace it leaves is the sweep
    of the progress cache. *)
Theorem stream_without_socket_fails_cleanly w r id key now :
  reachable w -> ws_open w = false -> JsMap.get r (frames w) = None ->
  let w' := chatStream_start r id key now w in
  option_map phase (JsMap.get r (frames w')) = Some (Threw "not connected") /\
  option_map yielded (JsMap.get r (frames w')) = Some [] /\
  chatListeners (this w') = chatListeners (this w) /\
  pending (this w') = pending (this w) /\
  timers w' = timers w /\ sent w' = sent w /\ settled w' = settled w /\
  sessionProgress (this w') = sweep now (sessionProgress (this w)).
Proof.
  intros Hr Ho Hg. cbv zeta.
  pose proof (@listener_registered_while_stream_runs w Hr r) as Hl. rewrite Hg in Hl.
  pose proof (cleanup_sweep now w) as Hs.
  unfold chatStream_start. rewrite Hg. unfold getProgress.
  destruct (cleanup_only_cache now w) as (m & l & E). rewrite E in *. clear E.
  set (w0 := set_log l (on_this (set_sessionProgress m) w)) in *.
  set (w1 := match JsMap.get key (sessionProgress (this w0)) with
             | Some p => logger (LogFoundProgress key
                                   (String.length (SessionProgress.accumulated p))
                                   (SessionProgress.lastSeq p)) w0
             | None => w0
             end).
  assert (E1 : exists l1, w1 = set_log l1 w0).
  { unfold w1. destruct (JsMap.get key _); [eexists; reflexivity|].
    exists l. reflexivity. }
  destruct E1 as (l1 & E1). rewrite E1. clear E1 w1.
  unfold request.
  assert (O : ws_open (on_this (fun c => set_chatListeners (JsMap.set r r (chatListeners c)) c)
                         (store r (mkStream key "" 0 false None false [] 0%Z false
                                     (AwaitRequest None) []) (set_log l1 w0))) = false)
    by exact Ho.
  rewrite O. cbn [negb].
  unfold stream_throw, stream_finally, store. cbn.
  rewrite JsMapFacts.get_set_same. cbn.
  change (filter (fun e : string * string => negb (r =? fst e))
            (JsMap.set r r (chatListeners (this w))))
    with (JsMap.delete r (JsMap.set r r (chatListeners (this w)))).
  rewrite (@delete_set_fresh _ r r _ Hl).
  cbn in Hs. repeat split; auto.
Qed.

Lemma stream_without_socket_fails_cleanly_witness :
  let w' := chatStream_start "r-1" "q-1" "s1" 5 init in
  option_map phase (JsMap.get "r-1" (frames w')) = Some (Threw "not connected") /\
  option_map yielded (JsMap.get "r-1" (frames w')) = Some [] /\
  chatListeners (this w') = chatListeners (this init) /\
  pending (this w') = pending (this init) /\
  timers w' = timers init /\ sent w' = sent init /\ settled w' = settled init /\
  sessionProgress (this w') = sweep 5 (sessionProgress (this init)).
Proof.
  apply (@stream_without_socket_fails_cleanly init "r-1" "q-1" "s1" 5%Z);
    [constructor|reflexivity|reflexivity].
Defined.

(** ** A request and its answer *)

Lemma filter_fresh_timer (l : list Timer) (t : nat) :
  (forall x, In x l -> timer_id x < t) ->
  filter (fun x => negb (Nat.eqb (timer_id x) t)) l = l.
Proof.
  intros H. induction l as [|a l IH]; cbn; [reflexivity|].
  assert (timer_id a < t) by (apply H; now left).
  destruct (Nat.eqb_spec (timer_id a) t); [lia|]. cbn.
  rewrite IH; [reflexivity|]. intros x Hx. apply H. now right.
Qed.

Lemma find_fresh_timer (l : list Timer) (t : nat) :
  (forall x, In x l -> timer_id x < t) ->
  find (fun x => Nat.eqb (timer_id x) t) l = None.
Proof.
  intros H. induction l as [|a l IH]; cbn; [reflexivity|].
  assert (timer_id a < t) by (apply H; now left).
  destruct (Nat.eqb_spec (timer_id a) t); [lia|].
  apply IH. intros x Hx. apply H. now right.
Qed.

(** What the answer to a pending request does. *)
Lemma response_effect id (ok : bool) (err : option string) now p w :
  JsMap.get id (pending (this w)) = Some p ->
  let o := if ok then Resolved
           else Rejected (match err with Some m => m | None => "unknown error" end) in
  let w' := handleMessage (ResFrame id ok err) now w in
  w' = resume_waiter (waiter p) o
         (set_settled (settled w ++ [(id, o)])
            (clearTimeout (timeoutId p)
               (on_this (fun c => set_pending (JsMap.delete id (pending c)) c) w))) /\
  pending (this w') = JsMap.delete id (pending (this w)) /\
  settled w' = settled w ++ [(id, o)] /\
  timers w' = filter (fun x => negb (Nat.eqb (timer_id x) (timeoutId p))) (timers w).
Proof.
  intros Hp. cbv zeta. cbn [handleMessage]. rewrite Hp.
  assert (E : (if ok
               then pending_resolve id p
                      (on_this (fun c => set_pending (JsMap.delete id (pending c)) c) w)
               else pending_reject id p
                      match err with Some m => m | None => "unknown error" end
                      (on_this (fun c => set_pending (JsMap.delete id (pending c)) c) w)) =
              resume_waiter (waiter p)
                (if ok then Resolved
                 else Rejected (match err with Some m => m | None => "unknown error" end))
                (set_settled
                   (settled w ++
                    [(id, if ok then Resolved
                          else Rejected (match err with
                                         | Some m => m
                                         | None => "unknown error"
                                         end))])
                   (clearTimeout (timeoutId p)
                      (on_this (fun c => set_pending (JsMap.delete id (pending c)) c) w))))
    by (destruct ok; reflexivity).
  rewrite E. split; [reflexivity|].
  destruct (untouched_resume_waiter (waiter p)
              (if ok then Resolved
               else Rejected (match err with Some m => m | None => "unknown error" end))
              (set_settled
                 (settled w ++
                  [(id, if ok then Resolved
                        else Rejected (match err with
                                       | Some m => m
                                       | None => "unknown error"
                                       end))])
                 (clearTimeout (timeoutId p)
                    (on_this (fun c => set_pending (JsMap.delete id (pending c)) c) w))))
    as [u1 u2 u3 u4 u5 u6 u7 u8 u9 u10].
  rewrite u1, u6, u9. repeat split; reflexivity.
Qed.

(** X9.  A request and its answer, round trip.  After [request] has
    registered the entry, the response frame with its id settles the
    request with the outcome the frame carries (the payload's error
    message, or "unknown error" when it has none), removes the entry and
    cancels the timer, so the timers are those from before the request and
    the timeout cannot fire any more; the other pending requests are not
    touched, and a second response with the same id is dropped. *)
Theorem response_settles_request_once w method id wt w1 (ok : bool) (err : option string) now :
  reachable w -> request method id wt w = Normal w1 ->
  let o := if ok then Resolved
           else Rejected (match err with Some m => m | None => "unknown error" end) in
  let w2 := handleMessage (ResFrame id ok err) now w1 in
  settled w2 = settled w ++ [(id, o)] /\
  JsMap.get id (pending (this w2)) = None /\
  (forall id', id' <> id ->
               JsMap.get id' (pending (this w2)) = JsMap.get id' (pending (this w))) /\
  timers w2 = timers w /\
  (forall ok' err' now', handleMessage (ResFrame id ok' err') now' w2 = w2) /\
  step w2 (TimerFires (nextTimer w)) = w2.
Proof.
  intros Hr R. cbv zeta.
  destruct (request_this _ _ _ _ R) as (r1 & r2 & r3 & r4 & r5 & r6 & r7 & r8 & r9).
  assert (Hp : JsMap.get id (pending (this w1)) = Some (mkPending (nextTimer w) wt))
    by (rewrite r1; cbn; apply JsMapFacts.get_set_same).
  destruct (@response_effect id ok err now _ w1 Hp) as (_ & e2 & e3 & e4).
  pose proof (inv_fresh (reachable_invariant Hr)) as F.
  assert (T : timers (handleMessage (ResFrame id ok err) now w1) = timers w).
  { rewrite e4, r2. cbn [timeoutId]. rewrite filter_app. cbn.
    rewrite Nat.eqb_refl. cbn. rewrite app_nil_r. now apply filter_fresh_timer. }
  assert (G : JsMap.get id (pending (this (handleMessage (ResFrame id ok err) now w1))) = None)
    by (rewrite e2; apply JsMapFacts.get_delete_same).
  split; [now rewrite e3, r5|]. split; [exact G|]. split; [|split; [exact T|split]].
  - intros id' Hne. rewrite e2, r1. cbn [pending set_pending].
    rewrite JsMapFacts.get_delete_other, JsMapFacts.get_set_other by congruence.
    reflexivity.
  - intros ok' err' now'. now apply unmatched_response_dropped.
  - cbn [step]. rewrite T. now rewrite find_fresh_timer.
Qed.

Lemma response_settles_request_once_witness :
  exists w1,
    request "chat.abort" "a-1" AwaitAbort connected_world = Normal w1 /\
    let w2 := handleMessage (ResFrame "a-1" false (Some "no such run")) 3 w1 in
    settled w2 = settled connected_world ++ [("a-1", Rejected "no such run")] /\
    JsMap.get "a-1" (pending (this w2)) = None /\
    timers w2 = timers connected_world /\
    step w2 (TimerFires (nextTimer connected_world)) = w2.
Proof.
  assert (Hr : reachable connected_world) by (repeat constructor).
  destruct (request "chat.abort" "a-1" AwaitAbort connected_world) as [w1|e] eqn:R;
    [|vm_compute in R; discriminate].
  exists w1. split; [reflexivity|].
  destruct (@response_settles_request_once connected_world "chat.abort" "a-1" AwaitAbort w1
              false (Some "no such run") 3%Z Hr R) as (a & b & _ & c & _ & d).
  cbv zeta. split; [exact a|]. split; [exact b|]. split; [exact c|exact d].
Defined.

(** X10.  [abortChat] only asks.  Without an open socket it fails with
    "not connected"; otherwise it writes one "chat.abort" request, and
    neither the call nor the answer to it, whatever it is, touches a
    stream: the frames, the listeners and the progress cache stay as they
    are. *)
Theorem abortChat_leaves_streams_alone w id :
  (ws_open w = false -> abortChat id w = Throws "not connected") /\
  (forall w1, abortChat id w = Normal w1 ->
     sent w1 = sent w ++ [(id, "chat.abort")] /\
     frames w1 = frames w /\ chatListeners (this w1) = chatListeners (this w) /\
     forall ok err now,
       let w2 := handleMessage (ResFrame id ok err) now w1 in
       frames w2 = frames w /\ chatListeners (this w2) = chatListeners (this w) /\
       sessionProgress (this w2) = sessionProgress (this w)).
Proof.
  split.
  - intros Ho. unfold abortChat, request. now rewrite Ho.
  - intros w1 R. unfold abortChat in R.
    destruct (request_this _ _ _ _ R) as (r1 & r2 & r3 & r4 & r5 & r6 & r7 & r8 & r9).
    split; [exact r4|]. split; [exact r7|]. split; [now rewrite r1|].
    intros ok err now. cbv zeta.
    assert (Hp : JsMap.get id (pending (this w1)) = Some (mkPending (nextTimer w) AwaitAbort))
      by (rewrite r1; cbn; apply JsMapFacts.get_set_same).
    destruct (@response_effect id ok err now _ w1 Hp) as (E & _).
    cbv zeta in E. rewrite E. cbn. rewrite r7, r1. auto.
Qed.

Lemma abortChat_leaves_streams_alone_witness :
  abortChat "a-1" init = Throws "not connected" /\
  exists w1,
    abortChat "a-1" streaming_world = Normal w1 /\
    frames (handleMessage (ResFrame "a-1" true None) 12 w1) = frames streaming_world.
Proof.
  destruct (abortChat_leaves_streams_alone init "a-1") as [A _].
  destruct (abortChat_leaves_streams_alone streaming_world "a-1") as [_ B].
  split; [apply A; reflexivity|].
  destruct (abortChat "a-1" streaming_world) as [w1|e] eqn:R;
    [|vm_compute in R; discriminate].
  exists w1. split; [reflexivity|].
  destruct (B w1 eq_refl) as (_ & _ & _ & C).
  destruct (C true None 12%Z) as [F _]. exact F.
Defined.

(** ** The loss of the connection *)

Lemma patched_refl w : exists fr m l, w = patch fr m l w.
Proof. exists (frames w), (sessionProgress (this w)), (log w). now destruct w as [[]]. Qed.

Lemma patched_logger w0 e w :
  (exists fr m l, w = patch fr m l w0) -> exists fr m l, logger e w = patch fr m l w0.
Proof. intros (fr & m & l & ->). now exists fr, m, (l ++ [e]). Qed.

Lemma patched_saveProgress w0 k r a s now w :
  (exists fr m l, w = patch fr m l w0) ->
  exists fr m l, saveProgress k r a s now w = patch fr m l w0.
Proof.
  intros (fr & m & l & ->). unfold saveProgress.
  now exists fr, (JsMap.set k (SessionProgress.mk r k a s now) m),
    (l ++ [LogSaved k (String.length a) s]).
Qed.

Lemma patched_clearProgress w0 k w :
  (exists fr m l, w = patch fr m l w0) -> exists fr m l, clearProgress k w = patch fr m l w0.
Proof. intros (fr & m & l & ->). now exists fr, (JsMap.delete k m), l. Qed.

Lemma patched_set_frames w0 fr' w :
  (exists fr m l, w = patch fr m l w0) -> exists fr m l, set_frames fr' w = patch fr m l w0.
Proof. intros (fr & m & l & ->). now exists fr', m, l. Qed.

Lemma listener_patch r evt now w : exists fr m l, listener r evt now w = patch fr m l w.
Proof.
  unfold listener. destruct (JsMap.get r (frames w)) as [g|]; [|apply patched_refl].
  assert (H : exists fr m l,
             snd (listen_wake (listen_error evt (listen_terminal evt
                    (listen_text r evt now (listen_seq evt (g, w)))))) = patch fr m l w).
  { assert (H1 : exists fr m l, snd (listen_seq evt (g, w)) = patch fr m l w).
    { unfold listen_seq. destruct (ChatEvent.seq evt); apply patched_refl. }
    destruct (listen_seq evt (g, w)) as [g1 w1]. cbn [snd] in H1.
    assert (H2 : exists fr m l, snd (listen_text r evt now (g1, w1)) = patch fr m l w).
    { unfold listen_text. split_match; cbn [snd]; auto using patched_saveProgress. }
    destruct (listen_text r evt now (g1, w1)) as [g2 w2]. cbn [snd] in H2.
    assert (H3 : exists fr m l, snd (listen_terminal evt (g2, w2)) = patch fr m l w).
    { unfold listen_terminal. split_match; cbn [snd]; auto using patched_clearProgress. }
    destruct (listen_terminal evt (g2, w2)) as [g3 w3]. cbn [snd] in H3.
    assert (H4 : exists fr m l, snd (listen_error evt (g3, w3)) = patch fr m l w).
    { unfold listen_error. split_match; cbn [snd]; auto using patched_logger. }
    destruct (listen_error evt (g3, w3)) as [g4 w4]. cbn [snd] in H4.
    unfold listen_wake. split_match; cbn [snd]; auto. }
  destruct (listen_wake _) as [g' w']. cbn [snd] in H.
  now apply patched_set_frames.
Qed.

(** [handleClose] hands every listener its event, in the order of
    registration; the listeners write frames, cache and log. *)
Lemma notify_listeners_patch now : forall w,
  exists fr m l,
    notify_listeners now w =
    set_delivered (delivered w ++ map (fun e => closeEvent (fst e)) (chatListeners (this w)))
      (patch fr m l w).
Proof.
  intros w. unfold notify_listeners.
  generalize (chatListeners (this w)) as L. intros L. revert w.
  induction L as [|a L IH]; intros w; cbn [fold_left map].
  - exists (frames w), (sessionProgress (this w)), (log w).
    rewrite app_nil_r. now destruct w as [[]].
  - destruct (listener_patch (snd a) (closeEvent (fst a)) now
                (set_delivered (delivered (logger (LogNotifyListener (fst a)) w) ++
                                [closeEvent (fst a)])
                   (logger (LogNotifyListener (fst a)) w))) as (fr1 & m1 & l1 & E1).
    rewrite E1. destruct (IH (patch fr1 m1 l1
                 (set_delivered (delivered (logger (LogNotifyListener (fst a)) w) ++
                                 [closeEvent (fst a)])
                    (logger (LogNotifyListener (fst a)) w)))) as (fr & m & l & E).
    rewrite E. exists fr, m, l. cbn. now rewrite <- app_assoc.
Qed.

Lemma flushPending_keeps e w :
  delivered (flushPending e w) = delivered w /\
  chatListeners (this (flushPending e w)) = chatListeners (this w).
Proof.
  unfold flushPending. cbn.
  apply (@fold_left_invariant World _
           (fun w' => delivered w' = delivered w /\
                      chatListeners (this w') = chatListeners (this w)));
    [|split; reflexivity].
  intros w1 b [d l]. unfold pending_reject, settle.
  destruct (untouched_resume_waiter (waiter (snd b)) (Rejected e)
              (set_settled (settled (clearTimeout (timeoutId (snd b)) w1) ++
                            [(fst b, Rejected e)])
                 (clearTimeout (timeoutId (snd b)) w1)))
    as [u1 u2 u3 u4 u5 u6 u7 u8 u9 u10].
  rewrite u2, u7. split; [exact d|exact l].
Qed.

Lemma scheduleReconnect_fields w :
  let w' := scheduleReconnect w in
  reconnectTimer (this w') <> None /\
  connected (this w') = connected (this w) /\ ws (this w') = ws (this w) /\
  pending (this w') = pending (this w) /\ chatListeners (this w') = chatListeners (this w) /\
  settled w' = settled w /\ delivered w' = delivered w /\ sockets w' = sockets w.
Proof.
  unfold scheduleReconnect, setTimeout.
  destruct (reconnectTimer (this w)) eqn:E; cbn; rewrite ?E; repeat split; congruence.
Qed.

(** X11.  The loss of a connection.  When a socket that is not yet
    closed reports ["close"], whichever socket it is, the client clears
    [connected] and its reference to the current socket, rejects every
    pending request with "connection closed", hands every registered
    listener one error event, in the order of registration, and, unless it
    was closed, has a reconnect timer afterwards.  It does not close
    anything: every other socket is in the state it was in. *)
Theorem connection_loss_resets_client w s st now :
  socketState s w = Some st -> st <> CLOSED ->
  let w' := step w (SocketClose s now) in
  connected (this w') = false /\ ws (this w') = None /\ pending (this w') = [] /\
  settled w' =
    settled w ++ map (fun x => (fst x, Rejected "connection closed")) (pending (this w)) /\
  delivered w' =
    delivered w ++ map (fun e => closeEvent (fst e)) (chatListeners (this w)) /\
  chatListeners (this w') = chatListeners (this w) /\
  (forall s', s' <> s -> socketState s' w' = socketState s' w) /\
  (closed (this w) = false -> reconnectTimer (this w') <> None).
Proof.
  intros Hs Hst. cbv zeta.
  assert (E : step w (SocketClose s now) = handleClose now (set_readyState s CLOSED w)).
  { cbn [step]. rewrite Hs. destruct st; try reflexivity. now destruct Hst. }
  rewrite E. clear E. rewrite handleClose_eq. cbv zeta.
  pose proof (flushPending_effect "connection closed"
                (on_this (set_ws None) (on_this (set_disconnected true)
                   (on_this (set_connected false) (set_readyState s CLOSED w))))) as B.
  pose proof (flushPending_pending "connection closed"
                (on_this (set_ws None) (on_this (set_disconnected true)
                   (on_this (set_connected false) (set_readyState s CLOSED w))))) as b4.
  pose proof (flushPending_keeps "connection closed"
                (on_this (set_ws None) (on_this (set_disconnected true)
                   (on_this (set_connected false) (set_readyState s CLOSED w))))) as K.
  pose proof (frame_flushPending "connection closed"
                (frame_refl (on_this (set_ws None) (on_this (set_disconnected true)
                   (on_this (set_connected false) (set_readyState s CLOSED w)))))) as F.
  pose proof (fr_connected F) as b7. pose proof (fr_closed F) as b8. clear F.
  cbv zeta in B. destruct B as (b1 & b2 & b3). destruct K as (b5 & b6).
  remember (flushPending "connection closed"
              (on_this (set_ws None) (on_this (set_disconnected true)
                 (on_this (set_connected false) (set_readyState s CLOSED w))))) as wb eqn:Ewb.
  clear Ewb. cbn in b1, b2, b3, b5, b6, b7, b8.
  destruct (notify_listeners_patch now wb) as (fr & m & l & N).
  remember (notify_listeners now wb) as w1 eqn:Ew1. clear Ew1. subst w1.
  set (w1 := set_delivered
               (delivered wb ++ map (fun e => closeEvent (fst e)) (chatListeners (this wb)))
               (patch fr m l wb)).
  assert (c1 : connected (this w1) = false) by exact b7.
  assert (c2 : ws (this w1) = None) by exact b3.
  assert (c3 : pending (this w1) = []) by exact b4.
  assert (c4 : settled w1 = settled w ++
                 map (fun x => (fst x, Rejected "connection closed")) (pending (this w)))
    by exact b1.
  assert (c5 : delivered w1 = delivered w ++
                 map (fun e => closeEvent (fst e)) (chatListeners (this w)))
    by (unfold w1; cbn [delivered set_delivered]; rewrite b5, b6; reflexivity).
  assert (c6 : chatListeners (this w1) = chatListeners (this w)) by exact b6.
  assert (c7 : forall s', s' <> s -> socketState s' w1 = socketState s' w).
  { intros s' Hne.
    change (socketState s' w1) with (socketState s' wb).
    rewrite (@socketState_states s' (set_readyState s CLOSED w) wb b2).
    unfold socketState, set_readyState. cbn [sockets set_sockets]. rewrite nth_error_update_nth.
    destruct (Nat.eqb_spec s s'); [congruence|reflexivity]. }
  assert (c8 : closed (this w1) = closed (this w)) by exact b8.
  clearbody w1. rewrite c8.
  destruct (closed (this w)) eqn:C; cbn [negb].
  - repeat split; auto. discriminate.
  - destruct (scheduleReconnect_fields (logger LogClosedReconnect w1))
      as (d0 & d1 & d2 & d3 & d4 & d5 & d6 & d7).
    cbv zeta in *. rewrite d1, d2, d3, d4, d5, d6.
    repeat split; auto.
    intros s' Hne. unfold socketState. rewrite d7. now apply c7.
Qed.

(** The close event of a socket that the client has left behind: the
    client is connected through socket 1 when socket 0 closes. *)
Lemma connection_loss_resets_client_witness :
  reachable two_sockets /\
  ws (this two_sockets) = Some 1 /\ connected (this two_sockets) = true /\
  socketState 0 two_sockets = Some OPEN /\
  let w' := step two_sockets (SocketClose 0 3) in
  connected (this w') = false /\ ws (this w') = None /\
  socketState 1 w' = Some OPEN /\ reconnectTimer (this w') <> None.
Proof.
  assert (Hs : socketState 0 two_sockets = Some OPEN) by (vm_compute; reflexivity).
  destruct (@connection_loss_resets_client two_sockets 0 OPEN 3%Z Hs)
    as (a & b & _ & _ & _ & _ & c & d); [discriminate|].
  split; [apply reachable_run; constructor|].
  split; [vm_compute; reflexivity|]. split; [vm_compute; reflexivity|].
  split; [exact Hs|]. cbv zeta.
  split; [exact a|]. split; [exact b|]. split.
  - rewrite (c 1); [vm_compute; reflexivity|discriminate].
  - apply d. vm_compute. reflexivity.
Defined.

(** ** The progress cache, round trip *)

Lemma get_filter_None (V : Type) (f : string * V -> bool) (k : string) (m : JsMap.t V) :
  JsMap.get k m = None -> JsMap.get k (filter f m) = None.
Proof.
  induction m as [|[k' v'] m IH]; cbn; [reflexivity|].
  destruct (String.eqb k k') eqn:E; [discriminate|]. intros H.
  destruct (f (k', v')); cbn; rewrite ?E; auto.
Qed.

Lemma get_filter (V : Type) (f : string * V -> bool) (k : string) (m : JsMap.t V) :
  JsMap.wf m ->
  JsMap.get k (filter f m) =
  match JsMap.get k m with
  | Some v => if f (k, v) then Some v else None
  | None => None
  end.
Proof.
  unfold JsMap.wf. induction m as [|[k' v'] m IH]; cbn; [reflexivity|].
  intros Hnd. inversion Hnd as [|? ? Hni Hnd']; subst.
  destruct (String.eqb_spec k k') as [->|Hne].
  - destruct (f (k', v')) eqn:F; cbn.
    + now rewrite String.eqb_refl.
    + apply get_filter_None. now apply JsMapFacts.get_None_keys.
  - destruct (f (k', v')); cbn.
    + destruct (String.eqb_spec k k'); [congruence|]. now apply IH.
    + now apply IH.
Qed.

(** The cache after the listener took over the text of a [delta] event. *)
Lemma listener_saves r evt now w g :
  JsMap.get r (frames w) = Some g ->
  ChatEvent.state evt = delta ->
  String.length (accumulated g) < String.length (extractText evt) ->
  sessionProgress (this (listener r evt now w)) =
  JsMap.set (sessionKeyParam g)
    (SessionProgress.mk r (sessionKeyParam g) (extractText evt)
       (lastEventSeq (seq_frame evt g)) now)
    (sessionProgress (this w)).
Proof.
  intros Hg Hst Hlen. unfold listener. rewrite Hg.
  assert (E1 : listen_seq evt (g, w) = (seq_frame evt g, w)).
  { unfold listen_seq, seq_frame. now destruct (ChatEvent.seq evt). }
  rewrite E1.
  assert (A : accumulated (seq_frame evt g) = accumulated g /\
              sessionKeyParam (seq_frame evt g) = sessionKeyParam g).
  { unfold seq_frame. now destruct (ChatEvent.seq evt). }
  destruct A as [A1 A2].
  assert (E2 : listen_text r evt now (seq_frame evt g, w) =
               (set_hasNewData true (set_accumulated (extractText evt) (seq_frame evt g)),
                saveProgress (sessionKeyParam g) r (extractText evt)
                  (lastEventSeq (seq_frame evt g)) now w)).
  { unfold listen_text. rewrite Hst. cbn [ChatState_eqb orb]. rewrite A1.
    apply Nat.ltb_lt in Hlen. rewrite Hlen. cbn. now rewrite A2. }
  rewrite E2.
  assert (E3 : forall gw, listen_terminal evt gw = gw).
  { intros [g' w']. unfold listen_terminal. now rewrite Hst. }
  rewrite E3.
  assert (E4 : forall gw, listen_error evt gw = gw).
  { intros [g' w']. unfold listen_error. now rewrite Hst. }
  rewrite E4.
  pose proof (progress_listen_wake
                (set_hasNewData true (set_accumulated (extractText evt) (seq_frame evt g)),
                 saveProgress (sessionKeyParam g) r (extractText evt)
                   (lastEventSeq (seq_frame evt g)) now w)) as W.
  destruct (listen_wake _) as [g' w']. cbn [snd] in W. cbn. rewrite W. reflexivity.
Qed.

(** X12.  The progress cache, round trip.  When the listener of a run takes
    over the text of a [delta] event, the entry of the session holds that
    text, the run, the last sequence number and the time; a lookup finds
    exactly this entry as long as it is not older than 300000 ms, and
    nothing once it is.  A stream started for the same session in the
    meantime does not resume from it: its text starts empty, and the entry
    stays in the cache. *)
Theorem saved_progress_is_found_until_it_expires w r g evt now now' :
  reachable w -> JsMap.get r (frames w) = Some g ->
  ChatEvent.state evt = delta ->
  String.length (accumulated g) < String.length (extractText evt) ->
  let key := sessionKeyParam g in
  let w' := listener r evt now w in
  let entry := SessionProgress.mk r key (extractText evt) (lastEventSeq (seq_frame evt g)) now in
  JsMap.get key (sessionProgress (this w')) = Some entry /\
  ((now' - now <= 300000)%Z -> fst (getProgress key now' w') = Some entry) /\
  ((now' - now > 300000)%Z -> fst (getProgress key now' w') = None) /\
  (forall r2 id,
      (now' - now <= 300000)%Z -> JsMap.get r2 (frames w') = None ->
      let w2 := chatStream_start r2 id key now' w' in
      option_map accumulated (JsMap.get r2 (frames w2)) = Some "" /\
      JsMap.get key (sessionProgress (this w2)) = Some entry).
Proof.
  intros Hr Hg Hst Hlen. cbv zeta.
  pose proof (@listener_saves r evt now w g Hg Hst Hlen) as S.
  pose proof (fr_progress (frame_listener r evt now (frame_refl w))
                (inv_progress (reachable_invariant Hr))) as Wf.
  assert (G : JsMap.get (sessionKeyParam g) (sessionProgress (this (listener r evt now w))) =
              Some (SessionProgress.mk r (sessionKeyParam g) (extractText evt)
                      (lastEventSeq (seq_frame evt g)) now))
    by (rewrite S; apply JsMapFacts.get_set_same).
  assert (L : forall k,
             fst (getProgress k now' (listener r evt now w)) =
             match JsMap.get k (sessionProgress (this (listener r evt now w))) with
             | Some v => if negb (expired now' v) then Some v else None
             | None => None
             end).
  { intros k. unfold getProgress. cbn [fst]. rewrite cleanup_sweep, sweep_filter by exact Wf.
    now rewrite get_filter by exact Wf. }
  split; [exact G|]. split; [|split].
  - intros Hle. rewrite L, G. unfold expired, PROGRESS_TTL_MS. cbn [SessionProgress.updatedAt].
    destruct (Z.gtb_spec (now' - now) (5 * 60 * 1000)); [lia|reflexivity].
  - intros Hgt. rewrite L, G. unfold expired, PROGRESS_TTL_MS. cbn [SessionProgress.updatedAt].
    destruct (Z.gtb_spec (now' - now) (5 * 60 * 1000)); [reflexivity|lia].
  - intros r2 id Hle Hf.
    assert (Hk : fst (getProgress (sessionKeyParam g) now' (listener r evt now w)) =
                 Some (SessionProgress.mk r (sessionKeyParam g) (extractText evt)
                         (lastEventSeq (seq_frame evt g)) now)).
    { rewrite L, G. unfold expired, PROGRESS_TTL_MS. cbn [SessionProgress.updatedAt].
      destruct (Z.gtb_spec (now' - now) (5 * 60 * 1000)); [lia|reflexivity]. }
    remember (listener r evt now w) as w' eqn:Ew'. clear Ew' S G L Wf.
    unfold chatStream_start. rewrite Hf.
    unfold getProgress in *. cbn [fst] in Hk. rewrite Hk.
    unfold request, stream_throw, stream_finally, store, setTimeout.
    destruct (negb (ws_open _)); cbn; rewrite JsMapFacts.get_set_same; cbn;
      (split; [reflexivity|exact Hk]).
Qed.

Lemma saved_progress_is_found_until_it_expires_witness :
  let w := run streaming_world [ack 11; StreamResume "r-1"] in
  let g := mkStream "s1" "" 0 false None false [tt] 0%Z false (AwaitData false) [] in
  let evt := textEvent "r-1" "s1" 1 delta "Hello" in
  let entry := SessionProgress.mk "r-1" "s1" "Hello" 1 12 in
  JsMap.get "s1" (sessionProgress (this (listener "r-1" evt 12 w))) = Some entry /\
  fst (getProgress "s1" 300012 (listener "r-1" evt 12 w)) = Some entry /\
  fst (getProgress "s1" 300013 (listener "r-1" evt 12 w)) = None.
Proof.
  intros w g evt entry.
  assert (Hr : reachable w) by (apply reachable_run; repeat constructor).
  assert (Hg : JsMap.get "r-1" (frames w) = Some g) by (vm_compute; reflexivity).
  assert (Hl : String.length (accumulated g) < String.length (extractText evt))
    by (vm_compute; lia).
  destruct (@saved_progress_is_found_until_it_expires w "r-1" g evt 12%Z 300012%Z
              Hr Hg eq_refl Hl) as (A & B & _).
  destruct (@saved_progress_is_found_until_it_expires w "r-1" g evt 12%Z 300013%Z
              Hr Hg eq_refl Hl) as (_ & _ & C & _).
  split; [exact A|]. split; [apply B; lia|apply C; lia].
Defined.

(** ** Requests and their timers *)

Lemma reachable_fresh_reachable w : reachable_fresh w -> reachable w.
Proof. induction 1; now constructor. Qed.

Lemma no_new_request_refl w : no_new_request w w.
Proof. intros r g Hg P. eauto. Qed.

Lemma no_new_request_trans w1 w2 w3 :
  no_new_request w1 w2 -> no_new_request w2 w3 -> no_new_request w1 w3.
Proof. intros A B r g Hg P. destruct (B r g Hg P) as (g2 & H2 & P2). eauto. Qed.

Lemma no_new_request_eq w w' : frames w' = frames w -> no_new_request w w'.
Proof. intros E r g Hg P. rewrite E in Hg. eauto. Qed.

(** One frame is replaced by one that does not wait for its request
    unless the old one did. *)
Lemma no_new_request_set r g g' w w' :
  JsMap.get r (frames w) = Some g ->
  frames w' = JsMap.set r g' (frames w) ->
  (phase g' = AwaitRequest None -> phase g = AwaitRequest None) ->
  no_new_request w w'.
Proof.
  intros Hg Hf Hp r1 g1. rewrite Hf. map_cases r1 r.
  - intros [= <-] P. eauto.
  - intros H1 P. eauto.
Qed.

Lemma calm_refl w : calm w w.
Proof. constructor; auto using no_new_request_refl. Qed.

Lemma calm_trans w1 w2 w3 : calm w1 w2 -> calm w2 w3 -> calm w1 w3.
Proof.
  intros [a1 a2 a3 a4 a5] [b1 b2 b3 b4 b5].
  constructor; try congruence. eapply no_new_request_trans; eauto.
Qed.

Lemma calm_on_this w0 f w :
  (forall c, pending (f c) = pending c /\ reconnectTimer (f c) = reconnectTimer c) ->
  calm w0 w -> calm w0 (on_this f w).
Proof.
  intros Hf [a1 a2 a3 a4 a5]. destruct (Hf (this w)) as [p r].
  constructor; cbn; try congruence. exact a5.
Qed.

Lemma calm_eq w0 w w' :
  this w' = this w -> timers w' = timers w -> nextTimer w' = nextTimer w ->
  frames w' = frames w -> calm w0 w -> calm w0 w'.
Proof.
  intros Ht Hti Hn Hf C. eapply calm_trans; [exact C|].
  constructor; try congruence. now apply no_new_request_eq.
Qed.

Lemma calm_logger w0 e w : calm w0 w -> calm w0 (logger e w).
Proof. now apply calm_eq. Qed.

Lemma calm_set_sockets w0 l w : calm w0 w -> calm w0 (set_sockets l w).
Proof. now apply calm_eq. Qed.

Lemma calm_set_sent w0 l w : calm w0 w -> calm w0 (set_sent l w).
Proof. now apply calm_eq. Qed.

Lemma calm_set_settled w0 l w : calm w0 w -> calm w0 (set_settled l w).
Proof. now apply calm_eq. Qed.

Lemma calm_set_delivered w0 l w : calm w0 w -> calm w0 (set_delivered l w).
Proof. now apply calm_eq. Qed.

Lemma calm_set_reconnectAwaits w0 l w : calm w0 w -> calm w0 (set_reconnectAwaits l w).
Proof. now apply calm_eq. Qed.

Lemma calm_set_readyState w0 s st w : calm w0 w -> calm w0 (set_readyState s st w).
Proof. now apply calm_eq. Qed.

Lemma calm_fold (B : Type) (f : World -> B -> World) (l : list B) w0 :
  (forall w b, calm w0 w -> calm w0 (f w b)) ->
  forall w, calm w0 w -> calm w0 (fold_left f l w).
Proof. intros Hf. apply fold_left_invariant. exact Hf. Qed.

Create HintDb calm.

#[export] Hint Resolve calm_refl calm_logger calm_set_sockets calm_set_sent calm_set_settled
  calm_set_delivered calm_set_reconnectAwaits calm_set_readyState : calm.

#[export] Hint Extern 2 (calm _ (on_this _ _)) =>
  apply calm_on_this; [intro; split; reflexivity | ] : calm.

#[export] Hint Extern 2 (calm _ (fold_left _ _ _)) =>
  apply calm_fold; [intros; cbn beta | ] : calm.

Ltac calm :=
  intros; cbn [fst snd] in *; split_match; cbn [fst snd]; auto 12 with calm.

Lemma calm_settleAttempt w0 a o w : calm w0 w -> calm w0 (settleAttempt a o w).
Proof. unfold settleAttempt. calm. Qed.

#[export] Hint Resolve calm_settleAttempt : calm.

Lemma calm_cleanupExpiredProgress w0 now w :
  calm w0 w -> calm w0 (cleanupExpiredProgress now w).
Proof.
  unfold cleanupExpiredProgress. apply calm_fold. intros w1 b H1.
  destruct (expired now (snd b)); calm.
Qed.

Lemma calm_saveProgress w0 k r a s now w :
  calm w0 w -> calm w0 (saveProgress k r a s now w).
Proof. unfold saveProgress. calm. Qed.

Lemma calm_clearProgress w0 k w : calm w0 w -> calm w0 (clearProgress k w).
Proof. unfold clearProgress. calm. Qed.

Lemma calm_trackSeq w0 s w : calm w0 w -> calm w0 (trackSeq s w).
Proof. unfold trackSeq. calm. Qed.

Lemma calm_connect w0 w : calm w0 w -> calm w0 (snd (connect w)).
Proof. unfold connect, doConnect. calm. Qed.

Lemma calm_socket_close w0 s w : calm w0 w -> calm w0 (socket_close s w).
Proof. unfold socket_close. calm. Qed.

Lemma calm_onError w0 a e w : calm w0 w -> calm w0 (onError a e w).
Proof. unfold onError. calm. Qed.

#[export] Hint Resolve calm_cleanupExpiredProgress calm_saveProgress calm_clearProgress
  calm_trackSeq calm_connect calm_socket_close calm_onError : calm.

Lemma phase_wake_frame g :
  phase (wake_frame g) = AwaitRequest None -> phase g = AwaitRequest None.
Proof.
  destruct g as [k acc lyl dn er dwd rs les hn ph ys].
  unfold wake_frame, wake. cbn. destruct rs; cbn; [auto|].
  destruct ph as [o|[|]| | | |]; cbn; auto; discriminate.
Qed.

Lemma phase_on_event evt g :
  phase (on_event evt g) = AwaitRequest None -> phase g = AwaitRequest None.
Proof.
  unfold on_event. intros H. apply phase_wake_frame in H.
  now rewrite (ke_phase (kept_before_wake evt g)) in H.
Qed.

Lemma calm_listener w0 r evt now w : calm w0 w -> calm w0 (listener r evt now w).
Proof.
  intros C. eapply calm_trans; [exact C|].
  destruct (listener_patch r evt now w) as (fr & m & l & E).
  constructor; try (rewrite E; reflexivity).
  destruct (JsMap.get r (frames w)) as [g|] eqn:Hg.
  - destruct (@listener_streams r evt now w g Hg) as [f _].
    apply (@no_new_request_set r g (on_event evt g) w _ Hg f). apply phase_on_event.
  - unfold listener. rewrite Hg. apply no_new_request_refl.
Qed.

#[export] Hint Resolve calm_listener : calm.

Lemma calm_dispatch w0 evt now w : calm w0 w -> calm w0 (dispatch evt now w).
Proof. unfold dispatch. calm. Qed.

Lemma calm_notify_listeners w0 now w : calm w0 w -> calm w0 (notify_listeners now w).
Proof. unfold notify_listeners. calm. Qed.

(** Settling the promise of a request writes neither the table of
    requests nor the timers. *)
Lemma resume_waiter_timer wt o w :
  nextTimer (resume_waiter wt o w) = nextTimer w /\
  reconnectTimer (this (resume_waiter wt o w)) = reconnectTimer (this w).
Proof.
  destruct o as [|e].
  - destruct wt as [a|r|]; cbn [resume_waiter].
    + pose proof (frame_settleAttempt a Resolved
                    (frame_refl (logger LogConnected
                       (on_this (set_backoffMs 1000%Z) (on_this (set_connected true) w)))))
        as F.
      split; [exact (fr_next F)|exact (fr_timer F)].
    + split_match; split; reflexivity.
    + split; reflexivity.
  - pose proof (frame_resume_rejected wt e (frame_refl w)) as F.
    split; [exact (fr_next F)|exact (fr_timer F)].
Qed.

Lemma calm_resume_waiter w0 wt o w : calm w0 w -> calm w0 (resume_waiter wt o w).
Proof.
  intros C. eapply calm_trans; [exact C|].
  destruct (untouched_resume_waiter wt o w) as [u1 u2 u3 u4 u5 u6 u7 u8 u9 u10].
  destruct (resume_waiter_timer wt o w) as [n1 n2].
  constructor; auto.
  unfold resume_waiter. destruct wt as [a|r|].
  - apply no_new_request_eq.
    destruct o; [apply (@still_settleAttempt w)|apply (@still_settleAttempt w)]; still.
  - destruct (JsMap.get r (frames w)) as [g|] eqn:Hg; [|apply no_new_request_refl].
    destruct (phase g) as [[o'|]| | | | |] eqn:P; try apply no_new_request_refl.
    eapply (@no_new_request_set r g _ w _ Hg); [reflexivity|]. discriminate.
  - apply no_new_request_refl.
Qed.

#[export] Hint Resolve calm_dispatch calm_notify_listeners calm_resume_waiter : calm.

Lemma phase_act g a : phase (act g a) = AwaitRequest None -> phase g = AwaitRequest None.
Proof.
  destruct a as [evt|o| |]; cbn [act].
  - apply phase_on_event.
  - destruct (phase g) as [[o'|]| | | | |] eqn:P; cbn; rewrite ?P; auto; intros H; discriminate H.
  - unfold on_resume, loop_body_frame, loop_head_frame, after_loop_frame, yield_frame.
    destruct (phase g) as [[[|e]|]|[|]| | | |] eqn:P; try (now rewrite P);
      split_match; cbn; discriminate.
  - unfold on_next, loop_head_frame, after_loop_frame, yield_frame.
    destruct (phase g) eqn:P; try (now rewrite P); split_match; cbn; discriminate.
Qed.

(** The generator writes its frame and, when it ends, the listener table. *)
Lemma generator_fields r g w :
  (pending (this (loop_head r g w)) = pending (this w) /\
   timers (loop_head r g w) = timers w /\ nextTimer (loop_head r g w) = nextTimer w /\
   reconnectTimer (this (loop_head r g w)) = reconnectTimer (this w)) /\
  (pending (this (loop_body r g w)) = pending (this w) /\
   timers (loop_body r g w) = timers w /\ nextTimer (loop_body r g w) = nextTimer w /\
   reconnectTimer (this (loop_body r g w)) = reconnectTimer (this w)) /\
  (forall e, pending (this (stream_throw r g e w)) = pending (this w) /\
   timers (stream_throw r g e w) = timers w /\ nextTimer (stream_throw r g e w) = nextTimer w /\
   reconnectTimer (this (stream_throw r g e w)) = reconnectTimer (this w)) /\
  (pending (this (stream_return r g w)) = pending (this w) /\
   timers (stream_return r g w) = timers w /\ nextTimer (stream_return r g w) = nextTimer w /\
   reconnectTimer (this (stream_return r g w)) = reconnectTimer (this w)).
Proof.
  assert (R : pending (this (stream_return r g w)) = pending (this w) /\
              timers (stream_return r g w) = timers w /\
              nextTimer (stream_return r g w) = nextTimer w /\
              reconnectTimer (this (stream_return r g w)) = reconnectTimer (this w)).
  { unfold stream_return, stream_finally, store. destruct (disconnectedWithData g); cbn; auto. }
  assert (A : pending (this (after_loop r g w)) = pending (this w) /\
              timers (after_loop r g w) = timers w /\
              nextTimer (after_loop r g w) = nextTimer w /\
              reconnectTimer (this (after_loop r g w)) = reconnectTimer (this w)).
  { unfold after_loop. destruct (_ <? _)%nat; [cbn; auto|exact R]. }
  assert (H : pending (this (loop_head r g w)) = pending (this w) /\
              timers (loop_head r g w) = timers w /\
              nextTimer (loop_head r g w) = nextTimer w /\
              reconnectTimer (this (loop_head r g w)) = reconnectTimer (this w)).
  { unfold loop_head. destruct (negb (done g)); [|exact A].
    destruct (done g || hasNewData g); cbn; auto. }
  split; [exact H|]. split; [|split; [|exact R]].
  - unfold loop_body. destruct (error g).
    + destruct (_ =? _)%nat; [cbn; auto|]. destruct (hasNewData g && _); [cbn; auto|exact H].
    + destruct (hasNewData g && _); [cbn; auto|exact H].
  - intros e. cbn. auto.
Qed.

Lemma calm_chatStream_resume w0 r w : calm w0 w -> calm w0 (chatStream_resume r w).
Proof.
  intros C. eapply calm_trans; [exact C|].
  destruct (JsMap.get r (frames w)) as [g|] eqn:Hg;
    [|unfold chatStream_resume; rewrite Hg; apply calm_refl].
  pose proof (@resume_frame r w g Hg) as F.
  destruct (generator_fields r g w) as (H & B & T & _).
  assert (N : no_new_request w (chatStream_resume r w)).
  { unfold chatStream_resume in *. rewrite Hg in *.
    destruct (phase g) as [[[|e]|]|[|]| | | |] eqn:P; try apply no_new_request_refl.
    - destruct (loop_head_streams r g w) as [f _].
      apply (@no_new_request_set r g _ w _ Hg f).
      intros Q. apply (@phase_act g Resume). cbn. unfold on_resume. now rewrite P.
    - apply (@no_new_request_set r g (set_phase (Threw e) g) w _ Hg); [reflexivity|].
      discriminate.
    - destruct (loop_body_streams r g w) as [f _].
      apply (@no_new_request_set r g _ w _ Hg f).
      intros Q. apply (@phase_act g Resume). cbn. unfold on_resume. now rewrite P. }
  unfold chatStream_resume in *. rewrite Hg in *.
  destruct (phase g) as [[[|e]|]|[|]| | | |] eqn:P; try apply calm_refl.
  - destruct H as (h1 & h2 & h3 & h4). now constructor.
  - destruct (T e) as (h1 & h2 & h3 & h4). now constructor.
  - destruct B as (h1 & h2 & h3 & h4). now constructor.
Qed.

Lemma calm_chatStream_next w0 r w : calm w0 w -> calm w0 (chatStream_next r w).
Proof.
  intros C. eapply calm_trans; [exact C|].
  unfold chatStream_next.
  destruct (JsMap.get r (frames w)) as [g|] eqn:Hg; [|apply calm_refl].
  destruct (phase g) eqn:P; try apply calm_refl.
  - unfold after_yield.
    destruct (generator_fields r
                (set_hasNewData false
                   (set_lastYieldedLength (String.length (accumulated g)) g)) w)
      as ((h1 & h2 & h3 & h4) & _).
    destruct (loop_head_streams r
                (set_hasNewData false
                   (set_lastYieldedLength (String.length (accumulated g)) g)) w) as [f _].
    constructor; auto.
    apply (@no_new_request_set r g _ w _ Hg f).
    intros Q. apply (@phase_act g Next). cbn. unfold on_next. now rewrite P.
  - destruct (generator_fields r g w) as (_ & _ & _ & (h1 & h2 & h3 & h4)).
    constructor; auto.
    apply (@no_new_request_set r g (set_phase Returned g) w _ Hg).
    + unfold stream_return, stream_finally, store. destruct (disconnectedWithData g); reflexivity.
    + discriminate.
Qed.

#[export] Hint Resolve calm_chatStream_resume calm_chatStream_next : calm.

Lemma requests_ok_init : requests_ok init.
Proof.
  constructor.
  - intros id p H. discriminate H.
  - intros tm id m wt H. destruct H.
  - intros r g H. discriminate H.
  - constructor.
  - intros t H. discriminate H.
  - intros tm H. destruct H.
  - constructor.
Qed.

Lemma requests_ok_calm w w' : calm w w' -> requests_ok w -> requests_ok w'.
Proof.
  intros [c1 c2 c3 c4 c5] [q1 q2 q3 q4 q5 q6 q7].
  constructor; rewrite ?c1, ?c2, ?c3, ?c4; auto.
  intros r g' Hg P. destruct (c5 r g' Hg P) as (g & H & Pg). eauto.
Qed.

Lemma timer_id_inj (l : list Timer) (a b : Timer) :
  NoDup (map timer_id l) -> In a l -> In b l -> timer_id a = timer_id b -> a = b.
Proof.
  induction l as [|x l IH]; cbn; [tauto|].
  intros Hnd Ha Hb E. inversion Hnd as [|? ? Hni Hnd']; subst.
  destruct Ha as [->|Ha], Hb as [->|Hb]; auto.
  - exfalso. apply Hni. rewrite E. now apply in_map.
  - exfalso. apply Hni. rewrite <- E. now apply in_map.
Qed.

Lemma get_In (V : Type) (k : string) (v : V) (m : JsMap.t V) :
  JsMap.get k m = Some v -> In (k, v) m.
Proof.
  induction m as [|[k' v'] m IH]; cbn; [discriminate|].
  destruct (String.eqb_spec k k') as [->|Hne].
  - intros [= ->]. now left.
  - intros H. right. now apply IH.
Qed.

(** A request with a fresh id. *)
Lemma requests_ok_request method id wt w w' :
  requests_ok w -> JsMap.get id (pending (this w)) = None ->
  request method id wt w = Normal w' -> requests_ok w'.
Proof.
  intros [q1 q2 q3 q4 q5 q6 q7] Hid R.
  destruct (request_this _ _ _ _ R) as (r1 & r2 & r3 & r4 & r5 & r6 & r7 & r8 & r9).
  assert (P : pending (this w') =
              JsMap.set id (mkPending (nextTimer w) wt) (pending (this w)))
    by (rewrite r1; reflexivity).
  assert (T : reconnectTimer (this w') = reconnectTimer (this w))
    by (rewrite r1; reflexivity).
  constructor; rewrite ?P, ?r2, ?r3, ?r7, ?T.
  - intros id0 p. map_cases id0 id.
    + intros [= <-]. exists method. apply in_or_app. right. now left.
    + intros H. destruct (q1 id0 p H) as (m & Hm). exists m. apply in_or_app. now left.
  - intros tm id0 m wt0 Hin Hcb. apply in_app_or in Hin. destruct Hin as [Hin|[<-|[]]].
    + pose proof (q2 tm id0 m wt0 Hin Hcb) as H.
      rewrite JsMapFacts.get_set_other; [exact H|]. congruence.
    + cbn in Hcb. injection Hcb as <- <- <-. apply JsMapFacts.get_set_same.
  - intros r g Hg Pg. destruct (q3 r g Hg Pg) as (id0 & t & H).
    exists id0, t. rewrite JsMapFacts.get_set_other; [exact H|]. congruence.
  - now apply JsMapFacts.wf_set.
  - intros t Ht. destruct (q5 t Ht) as [a b]. split; [lia|].
    intros tm Hin E. apply in_app_or in Hin. destruct Hin as [Hin|[<-|[]]]; [now apply b|].
    cbn in E. lia.
  - intros tm Hin. apply in_app_or in Hin. destruct Hin as [Hin|[<-|[]]].
    + specialize (q6 tm Hin). lia.
    + cbn. lia.
  - apply NoDup_fresh_timer; [|exact q7]. intros x Hx. cbn. now apply q6.
Qed.

(** A pending request is settled: its entry and its timer go, the code
    that waited for it runs. *)
Lemma requests_ok_drop id p o w w1 :
  requests_ok w -> JsMap.get id (pending (this w)) = Some p ->
  pending (this w1) = JsMap.delete id (pending (this w)) ->
  timers w1 = filter (fun x => negb (Nat.eqb (timer_id x) (timeoutId p))) (timers w) ->
  nextTimer w1 = nextTimer w -> reconnectTimer (this w1) = reconnectTimer (this w) ->
  frames w1 = frames w ->
  requests_ok (resume_waiter (waiter p) o w1).
Proof.
  intros [q1 q2 q3 q4 q5 q6 q7] Hp P1 T1 N1 R1 F1.
  destruct (untouched_resume_waiter (waiter p) o w1) as [u1 u2 u3 u4 u5 u6 u7 u8 u9 u10].
  destruct (resume_waiter_timer (waiter p) o w1) as [n1 n2].
  pose proof (ca_frames (calm_resume_waiter (waiter p) o (calm_refl w1))) as NN.
  destruct (q1 id p Hp) as (m & Hm).
  constructor; rewrite ?u1, ?u9, ?n1, ?n2, ?P1, ?T1, ?N1, ?R1.
  - intros id0 p0 H0.
    destruct (String.eqb_spec id0 id) as [->|Hne];
      [now rewrite JsMapFacts.get_delete_same in H0|].
    rewrite JsMapFacts.get_delete_other in H0 by congruence.
    destruct (q1 id0 p0 H0) as (m0 & Hm0). exists m0.
    apply filter_In. split; [exact Hm0|]. cbn.
    destruct (Nat.eqb_spec (timeoutId p0) (timeoutId p)) as [E|]; [|reflexivity].
    exfalso. pose proof (@timer_id_inj (timers w) _ _ q7 Hm0 Hm E) as X.
    injection X as _ X _. congruence.
  - intros tm id0 m0 wt0 Hin Hcb. apply filter_In in Hin. destruct Hin as [Hin Hf].
    pose proof (q2 tm id0 m0 wt0 Hin Hcb) as H.
    destruct (String.eqb_spec id0 id) as [->|Hne].
    + exfalso. rewrite Hp in H. injection H as ->. cbn in Hf.
      now rewrite Nat.eqb_refl in Hf.
    + rewrite JsMapFacts.get_delete_other by congruence. exact H.
  - intros r g2 Hg2 Pg2. destruct (NN r g2 Hg2 Pg2) as (g1 & Hg1 & Pg1).
    rewrite F1 in Hg1. destruct (q3 r g1 Hg1 Pg1) as (id0 & t0 & H0).
    destruct (String.eqb_spec id0 id) as [->|Hne].
    + exfalso. rewrite Hp in H0. injection H0 as ->. cbn [waiter] in *.
      rewrite <- F1 in Hg1. pose proof (@settle_frame r o w1 g1 Hg1) as S.
      rewrite Hg2 in S. injection S as ->. unfold act in Pg2. rewrite Pg1 in Pg2.
      discriminate Pg2.
    + exists id0, t0. rewrite JsMapFacts.get_delete_other by congruence. exact H0.
  - now apply JsMapFacts.wf_delete.
  - intros t Ht. destruct (q5 t Ht) as [a b]. split; [exact a|].
    intros tm Hin. apply filter_In in Hin. destruct Hin as [Hin _]. now apply b.
  - intros tm Hin. apply filter_In in Hin. destruct Hin as [Hin _]. now apply q6.
  - now apply NoDup_ids_filter.
Qed.

(** [flushPending], entry by entry. *)
Lemma flush_fold e : forall l w0,
  let w' := fold_left (fun w x => pending_reject (fst x) (snd x) e w) l w0 in
  pending (this w') = pending (this w0) /\
  nextTimer w' = nextTimer w0 /\
  reconnectTimer (this w') = reconnectTimer (this w0) /\
  timers w' =
    filter (fun tm => negb (existsb (fun x => Nat.eqb (timer_id tm) (timeoutId (snd x))) l))
           (timers w0) /\
  no_new_request w0 w' /\
  (forall x r g', In x l -> waiter (snd x) = AwaitChatSend r ->
                  JsMap.get r (frames w') = Some g' -> phase g' <> AwaitRequest None).
Proof.
  induction l as [|a l IH]; intros w0; cbn [fold_left].
  - cbv zeta. split; [reflexivity|]. split; [reflexivity|]. split; [reflexivity|].
    split; [cbn; now rewrite filter_all|]. split; [apply no_new_request_refl|].
    intros x r g' [].
  - cbv zeta.
    set (w1 := pending_reject (fst a) (snd a) e w0).
    destruct (IH w1) as (i1 & i2 & i3 & i4 & i5 & i6). cbv zeta in *.
    assert (S : w1 = resume_waiter (waiter (snd a)) (Rejected e)
                       (set_settled (settled w0 ++ [(fst a, Rejected e)])
                          (clearTimeout (timeoutId (snd a)) w0))) by reflexivity.
    destruct (untouched_resume_waiter (waiter (snd a)) (Rejected e)
                (set_settled (settled w0 ++ [(fst a, Rejected e)])
                   (clearTimeout (timeoutId (snd a)) w0)))
      as [u1 u2 u3 u4 u5 u6 u7 u8 u9 u10].
    destruct (resume_waiter_timer (waiter (snd a)) (Rejected e)
                (set_settled (settled w0 ++ [(fst a, Rejected e)])
                   (clearTimeout (timeoutId (snd a)) w0))) as [n1 n2].
    pose proof (ca_frames (calm_resume_waiter (waiter (snd a)) (Rejected e)
                 (calm_refl (set_settled (settled w0 ++ [(fst a, Rejected e)])
                    (clearTimeout (timeoutId (snd a)) w0))))) as NN.
    rewrite <- S in u1, u9, n1, n2, NN. cbn in u1, u9, n1, n2.
    assert (N01 : no_new_request w0 w1).
    { intros r g' Hg P. destruct (NN r g' Hg P) as (g & H & Pg). eauto. }
    split; [congruence|]. split; [congruence|]. split; [congruence|]. split; [|split].
    + rewrite i4, u9. unfold clearTimeout. cbn [timers set_timers].
      rewrite filter_filter. apply filter_ext. intros tm. cbn [existsb].
      now rewrite negb_orb.
    + eapply no_new_request_trans; eauto.
    + intros x r g' [<-|Hin] Hw Hg.
      * intros P. destruct (i5 r g' Hg P) as (g1 & Hg1 & P1).
        rewrite S, Hw in Hg1.
        destruct (JsMap.get r (frames (set_settled (settled w0 ++ [(fst a, Rejected e)])
                    (clearTimeout (timeoutId (snd a)) w0)))) as [g0|] eqn:H0.
        -- rewrite (@settle_frame r (Rejected e) _ g0 H0) in Hg1. injection Hg1 as <-.
           unfold act in P1.
           destruct (phase g0) as [[o'|]| | | | |] eqn:Pg0; cbn in P1; rewrite ?Pg0 in P1;
             discriminate P1.
        -- cbn [resume_waiter] in Hg1. rewrite H0 in Hg1. congruence.
      * eapply i6; eauto.
Qed.

Lemma requests_ok_flushPending e w : requests_ok w -> requests_ok (flushPending e w).
Proof.
  intros [q1 q2 q3 q4 q5 q6 q7]. unfold flushPending.
  destruct (flush_fold e (pending (this w)) w) as (i1 & i2 & i3 & i4 & i5 & i6).
  cbv zeta in *.
  set (w' := fold_left (fun w x => pending_reject (fst x) (snd x) e w) (pending (this w)) w)
    in *.
  constructor; cbn; rewrite ?i2, ?i3, ?i4.
  - intros id p H. discriminate H.
  - intros tm id m wt Hin Hcb. exfalso. apply filter_In in Hin. destruct Hin as [Hin Hf].
    pose proof (@get_In _ _ _ _ (q2 tm id m wt Hin Hcb)) as HI.
    apply negb_true_iff in Hf.
    assert (X : existsb (fun x => Nat.eqb (timer_id tm) (timeoutId (snd x)))
                        (pending (this w)) = true).
    { apply existsb_exists. eexists. split; [exact HI|]. cbn. apply Nat.eqb_refl. }
    congruence.
  - intros r g' Hg P. exfalso.
    destruct (i5 r g' Hg P) as (g & H & Pg).
    destruct (q3 r g H Pg) as (id & t & Hid).
    exact (i6 _ r g' (@get_In _ _ _ _ Hid) eq_refl Hg P).
  - constructor.
  - intros t Ht. destruct (q5 t Ht) as [a b]. split; [exact a|].
    intros tm Hin. apply filter_In in Hin. destruct Hin as [Hin _]. now apply b.
  - intros tm Hin. apply filter_In in Hin. destruct Hin as [Hin _]. now apply q6.
  - now apply NoDup_ids_filter.
Qed.

Lemma requests_ok_scheduleReconnect w : requests_ok w -> requests_ok (scheduleReconnect w).
Proof.
  intros Q. unfold scheduleReconnect, setTimeout.
  destruct (reconnectTimer (this w)) eqn:E; [exact Q|].
  destruct Q as [q1 q2 q3 q4 q5 q6 q7].
  constructor; cbn.
  - intros id p H. destruct (q1 id p H) as (m & Hm). exists m. apply in_or_app. now left.
  - intros tm id m wt Hin Hcb. apply in_app_or in Hin. destruct Hin as [Hin|[<-|[]]].
    + eapply q2; eauto.
    + discriminate Hcb.
  - exact q3.
  - exact q4.
  - intros t [= <-]. split; [lia|].
    intros tm Hin Et. apply in_app_or in Hin. destruct Hin as [Hin|[<-|[]]]; [|reflexivity].
    specialize (q6 tm Hin). lia.
  - intros tm Hin. apply in_app_or in Hin. destruct Hin as [Hin|[<-|[]]].
    + specialize (q6 tm Hin). lia.
    + cbn. lia.
  - apply NoDup_fresh_timer; [|exact q7]. intros x Hx. cbn. now apply q6.
Qed.

(** A reconnect timer is cleared or fires. *)
Lemma requests_ok_clear t w w1 :
  requests_ok w ->
  (forall tm, In tm (timers w) -> timer_id tm = t -> is_reconnect tm = true) ->
  pending (this w1) = pending (this w) ->
  timers w1 = filter (fun x => negb (Nat.eqb (timer_id x) t)) (timers w) ->
  nextTimer w1 = nextTimer w -> reconnectTimer (this w1) = None ->
  frames w1 = frames w ->
  requests_ok w1.
Proof.
  intros [q1 q2 q3 q4 q5 q6 q7] Hr P1 T1 N1 R1 F1.
  constructor; rewrite ?P1, ?T1, ?N1, ?R1, ?F1; auto.
  - intros id p H. destruct (q1 id p H) as (m & Hm). exists m.
    apply filter_In. split; [exact Hm|]. cbn.
    destruct (Nat.eqb_spec (timeoutId p) t) as [Et|]; [|reflexivity].
    specialize (Hr _ Hm Et). discriminate Hr.
  - intros tm id m wt Hin Hcb. apply filter_In in Hin. destruct Hin as [Hin _]. eauto.
  - intros t0 H. discriminate H.
  - intros tm Hin. apply filter_In in Hin. destruct Hin as [Hin _]. now apply q6.
  - now apply NoDup_ids_filter.
Qed.

(** One frame is written, the requests and the timers are not. *)
Lemma requests_ok_frames r g w w' :
  requests_ok w ->
  pending (this w') = pending (this w) -> timers w' = timers w ->
  nextTimer w' = nextTimer w -> reconnectTimer (this w') = reconnectTimer (this w) ->
  (forall r', r' <> r -> JsMap.get r' (frames w') = JsMap.get r' (frames w)) ->
  JsMap.get r (frames w') = Some g ->
  (phase g = AwaitRequest None ->
   exists id t, JsMap.get id (pending (this w)) = Some (mkPending t (AwaitChatSend r))) ->
  requests_ok w'.
Proof.
  intros [q1 q2 q3 q4 q5 q6 q7] P T N R F Hg Hp.
  constructor; rewrite ?P, ?T, ?N, ?R; auto.
  intros r' g' Hg' Pg'. destruct (String.eqb_spec r' r) as [->|Hne].
  - rewrite Hg in Hg'. injection Hg' as <-. auto.
  - rewrite F in Hg' by exact Hne. eauto.
Qed.

Lemma set_set (V : Type) (k : string) (v v' : V) (m : JsMap.t V) :
  JsMap.set k v' (JsMap.set k v m) = JsMap.set k v' m.
Proof.
  induction m as [|[k' v0] m IH]; cbn.
  - now rewrite String.eqb_refl.
  - destruct (String.eqb k k') eqn:E; cbn.
    + now rewrite String.eqb_refl.
    + now rewrite E, IH.
Qed.

Lemma requests_ok_chatStream_start r id key now w :
  requests_ok w -> JsMap.get id (pending (this w)) = None ->
  requests_ok (chatStream_start r id key now w).
Proof.
  intros Q Hid. unfold chatStream_start.
  destruct (JsMap.get r (frames w)) eqn:Hg; [exact Q|].
  unfold getProgress.
  set (w1 := match JsMap.get key (sessionProgress (this (cleanupExpiredProgress now w))) with
             | Some p => logger (LogFoundProgress key
                                   (String.length (SessionProgress.accumulated p))
                                   (SessionProgress.lastSeq p))
                           (cleanupExpiredProgress now w)
             | None => cleanupExpiredProgress now w
             end).
  assert (C1 : calm w w1) by (unfold w1; calm).
  assert (S1 : still w w1) by (unfold w1; still).
  pose proof (@requests_ok_calm _ _ C1 Q) as Q1.
  destruct C1 as [c1 c2 c3 c4 _]. destruct S1 as [s1 _].
  set (g0 := mkStream key "" 0 false None false [] 0%Z false (AwaitRequest None) []).
  set (w2 := on_this (fun c => set_chatListeners (JsMap.set r r (chatListeners c)) c)
               (store r g0 w1)).
  destruct (request "chat.send" id (AwaitChatSend r) w2) as [w3|err] eqn:R.
  - destruct (request_this _ _ _ _ R) as (r1 & r2 & r3 & r4 & r5 & r6 & r7 & r8 & r9).
    (* the same request, issued before the frame is stored *)
    destruct (request "chat.send" id (AwaitChatSend r) w1) as [w1r|err] eqn:R1.
    + destruct (request_this _ _ _ _ R1) as (a1 & a2 & a3 & a4 & a5 & a6 & a7 & a8 & a9).
      assert (Hid1 : JsMap.get id (pending (this w1)) = None) by (rewrite c1; exact Hid).
      pose proof (@requests_ok_request _ _ _ _ _ Q1 Hid1 R1) as Q1r.
      apply (@requests_ok_frames r g0 w1r w3 Q1r).
      * rewrite r1, a1. reflexivity.
      * rewrite r2, a2. reflexivity.
      * rewrite r3, a3. reflexivity.
      * rewrite r1, a1. reflexivity.
      * intros r' Hne. rewrite r7, a7. cbn.
        rewrite JsMapFacts.get_set_other by congruence. reflexivity.
      * rewrite r7. cbn. apply JsMapFacts.get_set_same.
      * intros _. exists id, (nextTimer w1). rewrite a1. cbn. apply JsMapFacts.get_set_same.
    + exfalso. unfold request in R, R1.
      change (ws_open w2) with (ws_open w1) in R.
      destruct (negb (ws_open w1)); discriminate.
  - apply (@requests_ok_frames r (set_phase (Threw err) g0) w1 _ Q1); try reflexivity.
    + intros r' Hne. cbn. rewrite !JsMapFacts.get_set_other by congruence. reflexivity.
    + cbn. apply JsMapFacts.get_set_same.
    + discriminate.
Qed.

Lemma requests_ok_handleMessage f now w : requests_ok w -> requests_ok (handleMessage f now w).
Proof.
  intros Q. destruct f as [id ok err|ev sq payload| |].
  - destruct (JsMap.get id (pending (this w))) as [p|] eqn:Hp.
    + destruct (@response_effect id ok err now p w Hp) as (E & _). cbv zeta in E.
      rewrite E. now apply (@requests_ok_drop id p _ w).
    + cbn [handleMessage]. now rewrite Hp.
  - apply (@requests_ok_calm w); [|exact Q]. cbn [handleMessage]. calm.
  - exact Q.
  - apply (@requests_ok_calm w); [|exact Q]. cbn [handleMessage]. calm.
Qed.

Lemma requests_ok_handleClose now w : requests_ok w -> requests_ok (handleClose now w).
Proof.
  intros Q. rewrite handleClose_eq. cbv zeta.
  assert (Q1 : requests_ok (notify_listeners now
              (flushPending "connection closed"
                 (on_this (set_ws None) (on_this (set_disconnected true)
                    (on_this (set_connected false) w)))))).
  { eapply requests_ok_calm; [apply calm_notify_listeners, calm_refl|].
    apply requests_ok_flushPending.
    apply (@requests_ok_calm w); [calm|exact Q]. }
  destruct (negb _); [|exact Q1].
  apply requests_ok_scheduleReconnect.
  eapply requests_ok_calm; [|exact Q1]. calm.
Qed.

Lemma requests_ok_close w : requests_ok w -> requests_ok (close w).
Proof.
  intros Q. rewrite close_eq. cbv zeta. apply requests_ok_flushPending.
  assert (Q1 : requests_ok (close_timer w)).
  { unfold close_timer. cbn.
    destruct (reconnectTimer (this w)) as [t|] eqn:E.
    - destruct (@rq_reconnect w Q t E) as [_ Hr].
      now apply (@requests_ok_clear t w).
    - apply (@requests_ok_calm w); [calm|exact Q]. }
  eapply requests_ok_calm; [|exact Q1]. calm.
Qed.

Lemma requests_ok_reconnect_callback t tm w :
  requests_ok w -> In tm (timers w) -> timer_id tm = t -> callback tm = Reconnect ->
  requests_ok (reconnect_callback (clearTimeout t w)).
Proof.
  intros Q Hin Ht Hcb. unfold reconnect_callback.
  set (w1 := on_this (set_reconnectTimer None) (clearTimeout t w)).
  assert (Q1 : requests_ok w1).
  { apply (@requests_ok_clear t w); auto.
    intros tm' Hin' Ht'. rewrite <- Ht in Ht'.
    rewrite (@timer_id_inj (timers w) tm' tm (rq_nodup Q) Hin' Hin Ht').
    unfold is_reconnect. now rewrite Hcb. }
  assert (C : calm w1 (snd (connect w1))) by calm.
  destruct (connect w1) as [[| e | a] w2]; cbn [snd] in C.
  - eapply requests_ok_calm; eauto.
  - eapply requests_ok_calm; [|exact Q1]. calm.
  - eapply requests_ok_calm; [|exact Q1]. calm.
Qed.

Lemma requests_ok_step w e : requests_ok w -> fresh_id w e -> requests_ok (step w e).
Proof.
  intros Q Hf. destruct e; cbn [step]; unfold fresh_id in Hf; cbn [drawn_id] in Hf.
  - apply (@requests_ok_calm w); [calm|exact Q].
  - now apply requests_ok_close.
  - unfold abortChat. destruct (request _ _ _ _) as [w1|err] eqn:R; [|exact Q].
    exact (@requests_ok_request _ _ _ _ _ Q Hf R).
  - now apply requests_ok_chatStream_start.
  - apply (@requests_ok_calm w); [calm|exact Q].
  - apply (@requests_ok_calm w); [calm|exact Q].
  - destruct (socketState s w) as [[| | |]|]; try exact Q.
    assert (Q0 : requests_ok (set_readyState s OPEN w))
      by (apply (@requests_ok_calm w); [calm|exact Q]).
    unfold onOpen.
    destruct (request "connect" id (AwaitHandshake s) (set_readyState s OPEN w))
      as [w1|err] eqn:R.
    + exact (@requests_ok_request _ _ _ _ _ Q0 Hf R).
    + eapply requests_ok_calm; [|exact Q0]. calm.
  - destruct (socketState s w) as [[| | |]|]; try exact Q;
      (apply (@requests_ok_calm w); [calm|exact Q]).
  - destruct (socketState s w) as [[| | |]|]; try exact Q;
      now apply requests_ok_handleMessage.
  - destruct (socketState s w) as [[| | |]|]; try exact Q;
      (apply requests_ok_handleClose; apply (@requests_ok_calm w); [calm|exact Q]).
  - destruct (find _ _) as [tm|] eqn:Hfind; [|exact Q].
    destruct (@find_timer _ _ _ Hfind) as [Hin Ht].
    destruct (callback tm) as [id method wt|] eqn:Hcb.
    + pose proof (@rq_entry w Q tm id method wt Hin Hcb) as Hp. rewrite Ht in Hp.
      unfold request_timeout, settle.
      now apply (@requests_ok_drop id (mkPending t wt) _ w).
    + now apply (@requests_ok_reconnect_callback t tm).
Qed.

Lemma reachable_requests_ok w : reachable_fresh w -> requests_ok w.
Proof. induction 1; [apply requests_ok_init|now apply requests_ok_step]. Qed.

(** X13.  Requests and timers correspond.  As long as [randomUUID()]
    returns no id that is pending, in every reachable state each pending
    request has its 30000 ms timer scheduled and each scheduled request
    timer belongs to the pending request it was set for, so that a request
    that was settled leaves no timer behind and one that is pending cannot
    wait for ever; when no request is pending the only timer there can be
    is the reconnect timer; and a stream that waits for the answer to
    ["chat.send"] has that request pending. *)
Theorem pending_requests_and_timers_correspond w :
  reachable_fresh w ->
  (forall id p, JsMap.get id (pending (this w)) = Some p ->
     exists m, In (mkTimer (timeoutId p) 30000 (RequestTimeout id m (waiter p))) (timers w)) /\
  (forall tm id m wt, In tm (timers w) -> callback tm = RequestTimeout id m wt ->
     JsMap.get id (pending (this w)) = Some (mkPending (timer_id tm) wt)) /\
  (pending (this w) = [] -> forall tm, In tm (timers w) -> is_reconnect tm = true) /\
  (forall r g, JsMap.get r (frames w) = Some g -> phase g = AwaitRequest None ->
     exists id t, JsMap.get id (pending (this w)) = Some (mkPending t (AwaitChatSend r))).
Proof.
  intros Hr. destruct (reachable_requests_ok Hr) as [q1 q2 q3 q4 q5 q6 q7].
  split; [exact q1|]. split; [exact q2|]. split; [|exact q3].
  intros He tm Hin. unfold is_reconnect.
  destruct (callback tm) as [id m wt|] eqn:Hcb; [|reflexivity].
  pose proof (q2 tm id m wt Hin Hcb) as H. rewrite He in H. discriminate H.
Qed.

Lemma reachable_fresh_connected_world : reachable_fresh connected_world.
Proof.
  unfold connected_world, run. cbn [fold_left].
  repeat (apply fresh_step; [|first [exact I|reflexivity]]). apply fresh_init.
Qed.

Lemma pending_requests_and_timers_correspond_witness :
  let w := step connected_world (CallAbortChat "a-1") in
  (exists m, In (mkTimer 1 30000 (RequestTimeout "a-1" m AwaitAbort)) (timers w)) /\
  (forall tm, In tm (timers (step w CallClose)) -> is_reconnect tm = true).
Proof.
  intros w.
  assert (Hr : reachable_fresh w)
    by (apply fresh_step; [apply reachable_fresh_connected_world|reflexivity]).
  assert (Hc : reachable_fresh (step w CallClose)) by (apply fresh_step; [exact Hr|exact I]).
  destruct (pending_requests_and_timers_correspond Hr) as (A & _).
  destruct (pending_requests_and_timers_correspond Hc) as (_ & _ & B & _).
  split.
  - apply (A "a-1" (mkPending 1 AwaitAbort)). reflexivity.
  - apply B. reflexivity.
Defined.

(** ** No stream is left waiting by the loss of the connection *)

Lemma after_loop_ends g : ended (on_next (after_loop_frame g)) = true.
Proof.
  unfold after_loop_frame.
  destruct (lastYieldedLength g <? String.length (accumulated g))%nat; reflexivity.
Qed.

Lemma ended_on_next g : ended g = true -> ended (on_next g) = true.
Proof. intros E. destruct (@ended_fixed g Next E) as [H|H]; cbn [act] in H; congruence. Qed.

Lemma loop_head_ends g : done g = true -> ended (on_next (loop_head_frame g)) = true.
Proof. intros D. rewrite loop_head_done by exact D. apply after_loop_ends. Qed.

Lemma yield_ends g :
  done g = true -> ended (on_next (on_next (yield_frame AtYield g))) = true.
Proof.
  intros D. apply ended_on_next.
  change (on_next (yield_frame AtYield g))
    with (loop_head_frame
            (set_hasNewData false
               (set_lastYieldedLength (String.length (accumulated (yield_frame AtYield g)))
                  (yield_frame AtYield g)))).
  rewrite loop_head_done by exact D. unfold after_loop_frame.
  change (lastYieldedLength
            (set_hasNewData false
               (set_lastYieldedLength (String.length (accumulated (yield_frame AtYield g)))
                  (yield_frame AtYield g))))
    with (String.length (accumulated g)).
  change (accumulated
            (set_hasNewData false
               (set_lastYieldedLength (String.length (accumulated (yield_frame AtYield g)))
                  (yield_frame AtYield g))))
    with (accumulated g).
  rewrite Nat.ltb_irrefl. reflexivity.
Qed.

(** A stream that was told that it is over ends as soon as it is driven:
    one resumption and two requests of the consumer are enough. *)
Lemma winding_up_ends g :
  winding_up g -> phase g <> AwaitRequest None ->
  ended (fold_left act [Resume; Next; Next] g) = true.
Proof.
  intros [D A] R. cbn [fold_left act]. unfold on_resume.
  destruct (phase g) as [[[|e]|]|[|]| | | |] eqn:P; try congruence.
  - apply ended_on_next. now apply loop_head_ends.
  - reflexivity.
  - unfold loop_body_frame.
    destruct (error g) as [e|].
    + destruct (String.length (accumulated g) =? 0)%nat; [reflexivity|].
      destruct (hasNewData g && _); [now apply yield_ends|].
      apply ended_on_next. now apply loop_head_ends.
    + destruct (hasNewData g && _); [now apply yield_ends|].
      apply ended_on_next. now apply loop_head_ends.
  - apply ended_on_next. unfold on_next. rewrite P.
    rewrite loop_head_done by exact D. unfold after_loop_frame.
    change (lastYieldedLength
              (set_hasNewData false
                 (set_lastYieldedLength (String.length (accumulated g)) g)))
      with (String.length (accumulated g)).
    change (accumulated
              (set_hasNewData false
                 (set_lastYieldedLength (String.length (accumulated g)) g)))
      with (accumulated g).
    rewrite Nat.ltb_irrefl. reflexivity.
  - apply ended_on_next. unfold on_next. now rewrite P.
  - apply ended_on_next, ended_on_next. unfold ended. now rewrite P.
  - apply ended_on_next, ended_on_next. unfold ended. now rewrite P.
Qed.

Lemma winding_up_on_event evt g :
  one_resolver g ->
  (winding_up g \/ ChatEvent.state evt = error_state) -> winding_up (on_event evt g).
Proof.
  intros R H. unfold on_event.
  pose proof (kept_before_wake evt g) as K.
  pose proof (one_resolver_kept K R) as R1.
  assert (D1 : done (error_frame evt (terminal_frame evt (text_frame evt (seq_frame evt g))))
               = true).
  { destruct H as [[D _]|E].
    - exact (ke_done K D).
    - unfold error_frame at 1. rewrite E. cbn [ChatState_eqb].
      destruct (0 <? _)%nat; reflexivity. }
  remember (error_frame evt (terminal_frame evt (text_frame evt (seq_frame evt g)))) as g1.
  clear Heqg1 K.
  destruct (wake_frame_resolver R1) as [_ w2].
  destruct (wake_frame_fields g1) as (_ & _ & _ & _ & f5 & _).
  constructor.
  - now rewrite f5.
  - rewrite w2. destruct (phase g1) as [o|[|]| | | |]; discriminate.
Qed.

Lemma winding_up_listener r r' evt now w :
  streams_ok w ->
  (exists g, JsMap.get r (frames w) = Some g /\
             (winding_up g \/ (r' = r /\ ChatEvent.state evt = error_state))) ->
  exists g', JsMap.get r (frames (listener r' evt now w)) = Some g' /\ winding_up g'.
Proof.
  intros S (g & Hg & H).
  pose proof (so_resolver (evolved_sound (@st_evolved w S r g Hg))) as R.
  destruct (String.eqb_spec r' r) as [->|Hne].
  - exists (on_event evt g). split; [now apply listener_frame|].
    apply winding_up_on_event; [exact R|]. destruct H as [H|[_ H]]; auto.
  - destruct H as [H|[E _]]; [|congruence].
    exists g. split; [|exact H].
    destruct (JsMap.get r' (frames w)) as [g1|] eqn:H1.
    + destruct (@listener_streams r' evt now w g1 H1) as [f _]. rewrite f.
      rewrite JsMapFacts.get_set_other by congruence. exact Hg.
    + unfold listener. now rewrite H1.
Qed.

Lemma winding_up_notify r now : forall L w,
  streams_ok w ->
  (exists g, JsMap.get r (frames w) = Some g /\ (winding_up g \/ exists k, In (k, r) L)) ->
  exists g', JsMap.get r
               (frames (fold_left
                          (fun w e =>
                             let w := logger (LogNotifyListener (fst e)) w in
                             listener (snd e) (closeEvent (fst e)) now
                               (set_delivered (delivered w ++ [closeEvent (fst e)]) w))
                          L w)) = Some g' /\ winding_up g'.
Proof.
  induction L as [|a L IH]; intros w S (g & Hg & H); cbn [fold_left].
  - exists g. split; [exact Hg|]. destruct H as [H|(k & [])]. exact H.
  - set (w0 := set_delivered
                 (delivered (logger (LogNotifyListener (fst a)) w) ++ [closeEvent (fst a)])
                 (logger (LogNotifyListener (fst a)) w)).
    assert (S0 : streams_ok w0) by (apply (@streams_ok_still w); [unfold w0; still|exact S]).
    assert (Hg0 : JsMap.get r (frames w0) = Some g) by exact Hg.
    apply IH; [now apply streams_ok_listener|].
    destruct H as [H|(k & [->|Hin])].
    + destruct (@winding_up_listener r (snd a) (closeEvent (fst a)) now w0 S0) as (g' & G & W);
        [exists g; auto|]. exists g'. auto.
    + destruct (@winding_up_listener r r (closeEvent k) now w0 S0) as (g' & G & W);
        [exists g; split; [exact Hg0|right; split; reflexivity]|].
      exists g'. auto.
    + destruct (JsMap.get (snd a) (frames w0)) as [g1|] eqn:H1.
      * destruct (@listener_streams (snd a) (closeEvent (fst a)) now w0 g1 H1) as [f _].
        destruct (String.eqb_spec (snd a) r) as [E|Hne].
        -- rewrite E in *. rewrite Hg0 in H1. injection H1 as <-.
           exists (on_event (closeEvent (fst a)) g). split; [|right; eauto].
           rewrite f. apply JsMapFacts.get_set_same.
        -- exists g. split; [|right; eauto]. rewrite f.
           rewrite JsMapFacts.get_set_other by congruence. exact Hg0.
      * exists g. split; [|right; eauto]. unfold listener. now rewrite H1.
Qed.

Lemma handleClose_winds_up now w r :
  streams_ok w -> requests_ok w ->
  JsMap.get r (chatListeners (this w)) <> None ->
  exists g', JsMap.get r (frames (handleClose now w)) = Some g' /\
             winding_up g' /\ phase g' <> AwaitRequest None.
Proof.
  intros S Q Hl. rewrite handleClose_eq. cbv zeta.
  set (wa := on_this (set_ws None) (on_this (set_disconnected true)
               (on_this (set_connected false) w))).
  assert (Sa : streams_ok wa) by (apply (@streams_ok_still w); [unfold wa; still|exact S]).
  assert (Qa : requests_ok wa) by (apply (@requests_ok_calm w); [unfold wa; calm|exact Q]).
  assert (La : JsMap.get r (chatListeners (this wa)) <> None) by exact Hl.
  clearbody wa. clear S Q Hl w.
  (* the flush *)
  pose proof (streams_ok_flushPending "connection closed" Sa) as Sb.
  destruct (flushPending_keeps "connection closed" wa) as (_ & Lb).
  destruct (flush_fold "connection closed" (pending (this wa)) wa)
    as (_ & _ & _ & _ & i5 & i6).
  cbv zeta in i5, i6.
  assert (Fb : frames (flushPending "connection closed" wa) =
               frames (fold_left
                         (fun w x => pending_reject (fst x) (snd x) "connection closed" w)
                         (pending (this wa)) wa)) by reflexivity.
  rewrite <- Fb in i6.
  assert (Nb : no_new_request wa (flushPending "connection closed" wa)).
  { intros r0 g0 H0 P0. rewrite Fb in H0. exact (i5 r0 g0 H0 P0). }
  clear i5 Fb.
  remember (flushPending "connection closed" wa) as wb eqn:Ewb. clear Ewb.
  pose proof (st_listening Sb r) as Ll. rewrite Lb in Ll.
  destruct (JsMap.get r (frames wb)) as [gb|] eqn:Hgb; [|congruence].
  destruct (ended gb) eqn:Eb; [congruence|].
  assert (Pb : phase gb <> AwaitRequest None).
  { intros P. destruct (Nb r gb Hgb P) as (ga & Hga & Pa).
    destruct (rq_stream Qa r Hga Pa) as (id & t & Hid).
    exact (i6 _ r gb (@get_In _ _ _ _ Hid) eq_refl Hgb P). }
  (* the listeners *)
  assert (Hin : In (r, r) (chatListeners (this wb))).
  { apply get_In. rewrite Lb. exact Ll. }
  destruct (@winding_up_notify r now (chatListeners (this wb)) wb Sb) as (gc & Hgc & Wc).
  { exists gb. split; [exact Hgb|]. right. eauto. }
  fold (notify_listeners now wb) in Hgc.
  pose proof (ca_frames (calm_notify_listeners now (calm_refl wb))) as Nc.
  assert (Pc : phase gc <> AwaitRequest None).
  { intros P. destruct (Nc r gc Hgc P) as (g0 & H0 & P0). congruence. }
  exists gc. split; [|split; [exact Wc|exact Pc]].
  destruct (negb _); [|exact Hgc].
  assert (St : still (notify_listeners now wb)
                 (scheduleReconnect (logger LogClosedReconnect (notify_listeners now wb))))
    by still.
  destruct St as [f _]. now rewrite f.
Qed.

(** X14.  The loss of the connection leaves no stream waiting.  As long
    as the ids are fresh: when a socket that is not yet closed reports
    ["close"], every stream that has a listener is marked done, and its
    generator is neither waiting for data nor for the answer to its
    request; driven by its consumer (one resumption, two requests for the
    next increment) it has returned or thrown, and its listener is gone. *)
Theorem connection_loss_ends_every_stream w s st now r :
  reachable_fresh w -> socketState s w = Some st -> st <> CLOSED ->
  JsMap.get r (chatListeners (this w)) <> None ->
  let w' := step w (SocketClose s now) in
  (exists g', JsMap.get r (frames w') = Some g' /\ done g' = true /\
              phase g' <> AwaitData false /\ phase g' <> AwaitRequest None) /\
  let w'' := run w' [StreamResume r; StreamNext r; StreamNext r] in
  exists g'', JsMap.get r (frames w'') = Some g'' /\ ended g'' = true /\
              JsMap.get r (chatListeners (this w'')) = None.
Proof.
  intros Hf Hs Hst Hl. cbv zeta.
  pose proof (reachable_fresh_reachable Hf) as Hr.
  assert (Hr' : reachable (run (step w (SocketClose s now))
                             [StreamResume r; StreamNext r; StreamNext r]))
    by (apply reachable_run; now constructor).
  assert (E : step w (SocketClose s now) = handleClose now (set_readyState s CLOSED w)).
  { cbn [step]. rewrite Hs. destruct st; try reflexivity. now destruct Hst. }
  assert (S0 : streams_ok (set_readyState s CLOSED w))
    by (apply (@streams_ok_still w); [still|apply (reachable_streams_ok Hr)]).
  assert (Q0 : requests_ok (set_readyState s CLOSED w))
    by (apply (@requests_ok_calm w); [calm|apply (reachable_requests_ok Hf)]).
  destruct (@handleClose_winds_up now (set_readyState s CLOSED w) r S0 Q0 Hl)
    as (g' & Hg' & [D A] & P).
  rewrite <- E in Hg'.
  split; [exists g'; auto|].
  pose proof (@resume_frame r _ g' Hg') as F1.
  pose proof (@next_frame r _ _ F1) as F2.
  pose proof (@next_frame r _ _ F2) as F3.
  exists (on_next (on_next (on_resume g'))).
  assert (En : ended (on_next (on_next (on_resume g'))) = true)
    by (apply (@winding_up_ends g'); [now constructor|exact P]).
  split; [exact F3|]. split; [exact En|].
  rewrite (@listener_registered_while_stream_runs _ Hr' r).
  change (JsMap.get r (frames (run (step w (SocketClose s now))
                                 [StreamResume r; StreamNext r; StreamNext r])))
    with (JsMap.get r (frames (chatStream_next r (chatStream_next r
            (chatStream_resume r (step w (SocketClose s now))))))).
  rewrite F3. now rewrite En.
Qed.

Lemma reachable_fresh_two_streams : reachable_fresh two_streams.
Proof.
  unfold two_streams, streaming_world, ack, run. cbn [fold_left].
  repeat (apply fresh_step; [|first [exact I|reflexivity]]).
  apply fresh_init.
Qed.

Lemma connection_loss_ends_every_stream_witness :
  let w' := step two_streams (SocketClose 0 13) in
  (exists g1, JsMap.get "r-1" (frames (run w' [StreamResume "r-1"; StreamNext "r-1";
                                                  StreamNext "r-1"])) = Some g1 /\
              ended g1 = true) /\
  (exists g2, JsMap.get "r-2" (frames (run w' [StreamResume "r-2"; StreamNext "r-2";
                                                  StreamNext "r-2"])) = Some g2 /\
              ended g2 = true).
Proof.
  assert (Hs : socketState 0 two_streams = Some OPEN) by (vm_compute; reflexivity).
  assert (H1 : JsMap.get "r-1" (chatListeners (this two_streams)) <> None)
    by (vm_compute; discriminate).
  assert (H2 : JsMap.get "r-2" (chatListeners (this two_streams)) <> None)
    by (vm_compute; discriminate).
  assert (Ho : OPEN <> CLOSED) by discriminate.
  destruct (@connection_loss_ends_every_stream two_streams 0 OPEN 13%Z "r-1"
              reachable_fresh_two_streams Hs Ho H1) as (_ & g1 & a1 & a2 & _).
  destruct (@connection_loss_ends_every_stream two_streams 0 OPEN 13%Z "r-2"
              reachable_fresh_two_streams Hs Ho H2) as (_ & g2 & b1 & b2 & _).
  cbv zeta. split; [exists g1|exists g2]; auto.
Defined.

(** ** What a client without a socket does *)
Lemma quiet_refl w : quiet w w.
Proof. now constructor. Qed.

Lemma quiet_trans w1 w2 w3 : quiet w1 w2 -> quiet w2 w3 -> quiet w1 w3.
Proof. intros [a1 a2 a3] [b1 b2 b3]. constructor; congruence. Qed.

Lemma quiet_on_this w0 f w :
  (forall c, ws (f c) = ws c) -> quiet w0 w -> quiet w0 (on_this f w).
Proof. intros Hf [a1 a2 a3]. constructor; cbn; congruence. Qed.

Lemma quiet_eq w0 w w' :
  ws (this w') = ws (this w) -> List.length (sockets w') = List.length (sockets w) ->
  sent w' = sent w -> quiet w0 w -> quiet w0 w'.
Proof. intros H1 H2 H3 [a1 a2 a3]. constructor; congruence. Qed.

Lemma quiet_logger w0 e w : quiet w0 w -> quiet w0 (logger e w).
Proof. now apply quiet_eq. Qed.

Lemma quiet_set_timers w0 l w : quiet w0 w -> quiet w0 (set_timers l w).
Proof. now apply quiet_eq. Qed.

Lemma quiet_set_frames w0 l w : quiet w0 w -> quiet w0 (set_frames l w).
Proof. now apply quiet_eq. Qed.

Lemma quiet_set_settled w0 l w : quiet w0 w -> quiet w0 (set_settled l w).
Proof. now apply quiet_eq. Qed.

Lemma quiet_set_delivered w0 l w : quiet w0 w -> quiet w0 (set_delivered l w).
Proof. now apply quiet_eq. Qed.

Lemma quiet_set_reconnectAwaits w0 l w : quiet w0 w -> quiet w0 (set_reconnectAwaits l w).
Proof. now apply quiet_eq. Qed.

Lemma quiet_set_nextTimer w0 n w : quiet w0 w -> quiet w0 (set_nextTimer n w).
Proof. now apply quiet_eq. Qed.

Lemma length_update_nth (A : Type) (f : A -> A) (l : list A) :
  forall n, List.length (update_nth n f l) = List.length l.
Proof. induction l as [|x l IH]; intros [|n]; cbn; auto. Qed.

Lemma quiet_update w0 s f w :
  quiet w0 w -> quiet w0 (set_sockets (update_nth s f (sockets w)) w).
Proof. apply quiet_eq; cbn; auto using length_update_nth. Qed.

Lemma quiet_set_readyState w0 s st w : quiet w0 w -> quiet w0 (set_readyState s st w).
Proof. apply quiet_update. Qed.

Lemma quiet_fold (B : Type) (f : World -> B -> World) (l : list B) w0 :
  (forall w b, quiet w0 w -> quiet w0 (f w b)) ->
  forall w, quiet w0 w -> quiet w0 (fold_left f l w).
Proof. intros Hf. apply fold_left_invariant. exact Hf. Qed.

Lemma quiet_patch w0 fr m l w : quiet w0 w -> quiet w0 (patch fr m l w).
Proof. now apply quiet_eq. Qed.

Lemma quiet_listener w0 r evt now w : quiet w0 w -> quiet w0 (listener r evt now w).
Proof.
  destruct (listener_patch r evt now w) as (fr & m & l & ->). apply quiet_patch.
Qed.

Create HintDb quiet.

#[export] Hint Resolve quiet_refl quiet_logger quiet_set_timers quiet_set_frames quiet_set_settled
  quiet_set_delivered quiet_set_reconnectAwaits quiet_set_nextTimer quiet_update
  quiet_set_readyState quiet_listener : quiet.

#[export] Hint Extern 2 (quiet _ (on_this _ _)) =>
  apply quiet_on_this; [intro; reflexivity | ] : quiet.

#[export] Hint Extern 2 (quiet _ (fold_left _ _ _)) =>
  apply quiet_fold; [intros; cbn beta | ] : quiet.

Ltac quiet :=
  intros; cbn [fst snd] in *; split_match; cbn [fst snd]; auto 12 with quiet.

Lemma quiet_settleAttempt w0 a o w : quiet w0 w -> quiet w0 (settleAttempt a o w).
Proof. unfold settleAttempt. quiet. Qed.

Lemma quiet_clearTimeout w0 t w : quiet w0 w -> quiet w0 (clearTimeout t w).
Proof. unfold clearTimeout. quiet. Qed.

Lemma quiet_setTimeout w0 cb ms w : quiet w0 w -> quiet w0 (snd (setTimeout cb ms w)).
Proof. unfold setTimeout. quiet. Qed.

#[export] Hint Resolve quiet_settleAttempt quiet_clearTimeout quiet_setTimeout : quiet.

Lemma quiet_resume_waiter w0 wt o w : quiet w0 w -> quiet w0 (resume_waiter wt o w).
Proof. unfold resume_waiter. quiet. Qed.

#[export] Hint Resolve quiet_resume_waiter : quiet.

Lemma quiet_settle w0 id wt o w : quiet w0 w -> quiet w0 (settle id wt o w).
Proof. unfold settle. quiet. Qed.

#[export] Hint Resolve quiet_settle : quiet.

Lemma quiet_pending_resolve w0 id p w : quiet w0 w -> quiet w0 (pending_resolve id p w).
Proof. unfold pending_resolve. quiet. Qed.

Lemma quiet_pending_reject w0 id p e w : quiet w0 w -> quiet w0 (pending_reject id p e w).
Proof. unfold pending_reject. quiet. Qed.

Lemma quiet_request_timeout w0 id m wt w : quiet w0 w -> quiet w0 (request_timeout id m wt w).
Proof. unfold request_timeout. quiet. Qed.

#[export] Hint Resolve quiet_pending_resolve quiet_pending_reject quiet_request_timeout : quiet.

Lemma quiet_flushPending w0 e w : quiet w0 w -> quiet w0 (flushPending e w).
Proof. unfold flushPending. quiet. Qed.

Lemma quiet_cleanupExpiredProgress w0 now w :
  quiet w0 w -> quiet w0 (cleanupExpiredProgress now w).
Proof.
  unfold cleanupExpiredProgress. apply quiet_fold. intros w1 b H1.
  destruct (expired now (snd b)); quiet.
Qed.

Lemma quiet_trackSeq w0 s w : quiet w0 w -> quiet w0 (trackSeq s w).
Proof. unfold trackSeq. quiet. Qed.

Lemma quiet_dispatch w0 evt now w : quiet w0 w -> quiet w0 (dispatch evt now w).
Proof. unfold dispatch. quiet. Qed.

#[export] Hint Resolve quiet_flushPending quiet_cleanupExpiredProgress quiet_trackSeq
  quiet_dispatch : quiet.

Lemma quiet_handleMessage w0 f now w : quiet w0 w -> quiet w0 (handleMessage f now w).
Proof. unfold handleMessage. quiet. Qed.

Lemma quiet_scheduleReconnect w0 w : quiet w0 w -> quiet w0 (scheduleReconnect w).
Proof. unfold scheduleReconnect, setTimeout. quiet. Qed.

Lemma quiet_onError w0 a e w : quiet w0 w -> quiet w0 (onError a e w).
Proof. unfold onError. quiet. Qed.

Lemma quiet_socket_close w0 s w : quiet w0 w -> quiet w0 (socket_close s w).
Proof. unfold socket_close. quiet. Qed.

Lemma quiet_generator w0 r g w :
  quiet w0 w ->
  quiet w0 (loop_head r g w) /\ quiet w0 (loop_body r g w) /\
  quiet w0 (stream_return r g w) /\ forall e, quiet w0 (stream_throw r g e w).
Proof.
  intros Q.
  assert (T : forall g e, quiet w0 (stream_throw r g e w)).
  { intros. unfold stream_throw, stream_finally, store. quiet. }
  assert (R : forall g, quiet w0 (stream_return r g w)).
  { intros. unfold stream_return, stream_finally, store. quiet. }
  assert (H : forall g, quiet w0 (loop_head r g w)).
  { intros g1. unfold loop_head, after_loop, store.
    destruct (negb (done g1)); [quiet|]. destruct (_ <? _)%nat; [quiet|apply R]. }
  split; [apply H|]. split; [|split; [apply R|apply T]].
  unfold loop_body, store.
  destruct (error g) as [e|].
  - destruct (String.length (accumulated g) =? 0)%nat; [apply T|].
    destruct (hasNewData g && _); [quiet|apply H].
  - destruct (hasNewData g && _); [quiet|apply H].
Qed.

Lemma quiet_chatStream_resume w0 r w : quiet w0 w -> quiet w0 (chatStream_resume r w).
Proof.
  intros Q. unfold chatStream_resume.
  destruct (JsMap.get r (frames w)) as [g|]; [|exact Q].
  destruct (quiet_generator r g Q) as (H & B & R & T).
  destruct (phase g) as [[[|e]|]|[|]| | | |]; auto.
Qed.

Lemma quiet_chatStream_next w0 r w : quiet w0 w -> quiet w0 (chatStream_next r w).
Proof.
  intros Q. unfold chatStream_next.
  destruct (JsMap.get r (frames w)) as [g|]; [|exact Q].
  destruct (quiet_generator r g Q) as (H & B & R & T).
  destruct (phase g); auto.
  unfold after_yield. apply (quiet_generator r _ Q).
Qed.

#[export] Hint Resolve quiet_handleMessage quiet_scheduleReconnect quiet_onError
  quiet_socket_close quiet_chatStream_resume quiet_chatStream_next : quiet.

(** Without a socket, [request] throws before it writes anything. *)
Lemma request_without_socket m id wt w :
  ws (this w) = None -> request m id wt w = Throws "not connected".
Proof. intros H. unfold request, ws_open. now rewrite H. Qed.

Lemma quiet_chatStream_start r id key now w :
  ws (this w) = None -> quiet w (chatStream_start r id key now w).
Proof.
  intros Hw. unfold chatStream_start.
  destruct (JsMap.get r (frames w)); [apply quiet_refl|].
  unfold getProgress.
  set (w1 := cleanupExpiredProgress now w).
  assert (Q1 : quiet w w1) by (apply quiet_cleanupExpiredProgress, quiet_refl).
  set (w2 := match JsMap.get key (sessionProgress (this w1)) with
             | Some p => _ | None => w1 end).
  assert (Q2 : quiet w w2) by (subst w2; quiet).
  set (g := mkStream _ _ _ _ _ _ _ _ _ _ _).
  set (w3 := on_this _ (store r g w2)).
  assert (Q3 : quiet w w3) by (subst w3; unfold store; quiet).
  rewrite request_without_socket.
  - unfold stream_throw, stream_finally, store. quiet.
  - rewrite (qu_ws Q3). exact Hw.
Qed.

Lemma quiet_connect w : closed (this w) = true -> snd (connect w) = w.
Proof. intros H. unfold connect. rewrite H. now destruct (connected (this w)). Qed.

Lemma quiet_reconnect_callback w :
  closed (this w) = true -> quiet w (reconnect_callback w).
Proof.
  intros H. unfold reconnect_callback.
  assert (Q : quiet w (on_this (set_reconnectTimer None) w)) by quiet.
  assert (C : closed (this (on_this (set_reconnectTimer None) w)) = true) by exact H.
  revert Q C. generalize (on_this (set_reconnectTimer None) w). intros w1 Q C.
  unfold connect. rewrite C. destruct (connected (this w1)); quiet.
Qed.

Lemma quiet_forget_socket w0 w :
  ws (this w0) = None -> quiet w0 w -> quiet w0 (on_this (set_ws None) w).
Proof. intros H [a1 a2 a3]. constructor; cbn; congruence. Qed.

Lemma quiet_handleClose now w : ws (this w) = None -> quiet w (handleClose now w).
Proof.
  intros Hw. unfold handleClose.
  assert (Q0 : quiet w (on_this (set_ws None) (on_this (set_disconnected true)
                                   (on_this (set_connected false) w)))).
  { apply quiet_forget_socket; [exact Hw|quiet]. }
  revert Q0. generalize (on_this (set_ws None) (on_this (set_disconnected true)
                                   (on_this (set_connected false) w))).
  intros w1 Q1. quiet.
Qed.

Lemma quiet_close w : ws (this w) = None -> quiet w (close w).
Proof.
  intros Hw. unfold close.
  apply quiet_flushPending, quiet_forget_socket; [exact Hw|]. quiet.
Qed.

Lemma dead_step w e :
  dead w ->
  dead (step w e) /\ List.length (sockets (step w e)) = List.length (sockets w) /\
  sent (step w e) = sent w.
Proof.
  intros [Hc Hw].
  assert (Q : quiet w (step w e)).
  { destruct e as [| |id|r id key now|r|r|s id|s err|s f now|s now|t]; cbn [step].
    - rewrite quiet_connect by exact Hc. apply quiet_refl.
    - now apply quiet_close.
    - unfold abortChat. rewrite request_without_socket by exact Hw. apply quiet_refl.
    - now apply quiet_chatStream_start.
    - quiet.
    - quiet.
    - destruct (socketState s w) as [[| | |]|]; try apply quiet_refl.
      unfold onOpen. rewrite request_without_socket by exact Hw. quiet.
    - destruct (socketState s w) as [[| | |]|]; quiet.
    - destruct (socketState s w) as [[| | |]|]; quiet.
    - destruct (socketState s w) as [[| | |]|]; try apply quiet_refl;
        (eapply quiet_trans; [apply quiet_set_readyState, quiet_refl|];
         apply quiet_handleClose; exact Hw).
    - destruct (find _ (timers w)) as [tm|]; [|apply quiet_refl].
      destruct (callback tm); [quiet|].
      eapply quiet_trans; [apply quiet_clearTimeout, quiet_refl|].
      apply quiet_reconnect_callback. exact Hc. }
  split; [split|split].
  - now apply closed_step.
  - rewrite (qu_ws Q). exact Hw.
  - apply Q.
  - apply Q.
Qed.

Lemma dead_run es : forall w,
  dead w ->
  dead (run w es) /\ List.length (sockets (run w es)) = List.length (sockets w) /\
  sent (run w es) = sent w.
Proof.
  induction es as [|e es IH]; intros w D.
  - split; [exact D|split; reflexivity].
  - destruct (dead_step e D) as (D1 & S1 & T1).
    destruct (IH _ D1) as (D2 & S2 & T2).
    change (run w (e :: es)) with (run (step w e) es).
    split; [exact D2|split; congruence].
Qed.

Lemma dead_close w : dead (close w).
Proof.
  split; [apply closed_close|].
  unfold close.
  match goal with |- ws (this (flushPending ?e ?a)) = None =>
    rewrite (qu_ws (quiet_flushPending e (quiet_refl a))) end.
  reflexivity.
Qed.

(** ** A client after [close] *)

(** X15.  [close()] is final.  Whatever happens to the client afterwards -
    calls, socket events, timers - it stays closed and without a socket,
    it opens no socket and writes no request frame; every request fails
    with "not connected", and [connect()] throws "client is closed" unless
    the flag [connected] is still set, in which case it does nothing. *)
Theorem closed_client_stays_offline w es :
  let w' := run (close w) es in
  closed (this w') = true /\ ws (this w') = None /\
  List.length (sockets w') = List.length (sockets w) /\
  sent w' = sent w /\
  (forall m id wt, request m id wt w' = Throws "not connected") /\
  connect w' = (if connected (this w') then ConnectNoop else ConnectThrows "client is closed", w').
Proof.
  cbv zeta.
  destruct (@dead_run es (close w) (dead_close w)) as ([C W] & S & T).
  assert (Q : List.length (sockets (close w)) = List.length (sockets w) /\
              sent (close w) = sent w).
  { unfold close.
    match goal with |- context [flushPending ?e (on_this (set_ws None) ?a)] =>
      assert (Qa : quiet w a) by quiet;
      pose proof (quiet_flushPending e (quiet_refl (on_this (set_ws None) a))) as Qf
    end.
    split.
    - rewrite (qu_sockets Qf). exact (qu_sockets Qa).
    - rewrite (qu_sent Qf). exact (qu_sent Qa). }
  destruct Q as [Qs Qt].
  split; [exact C|]. split; [exact W|]. split; [congruence|]. split; [congruence|]. split.
  - intros m id wt. now apply request_without_socket.
  - unfold connect. rewrite C. now destruct (connected (this (run (close w) es))).
Qed.

(** ** The sockets the client has let go of *)
Lemma steady_refl w : steady w w.
Proof. now constructor. Qed.

Lemma steady_trans w1 w2 w3 : steady w1 w2 -> steady w2 w3 -> steady w1 w3.
Proof. intros [a1 a2] [b1 b2]. constructor; congruence. Qed.

Lemma steady_on_this w0 f w :
  (forall c, ws (f c) = ws c) -> steady w0 w -> steady w0 (on_this f w).
Proof. intros Hf [a1 a2]. constructor; [exact a1|]. cbn. congruence. Qed.

Lemma steady_eq w0 w w' :
  ws (this w') = ws (this w) -> sockets w' = sockets w -> steady w0 w -> steady w0 w'.
Proof. intros H1 H2 [a1 a2]. constructor; unfold states in *; congruence. Qed.

Lemma steady_logger w0 e w : steady w0 w -> steady w0 (logger e w).
Proof. now apply steady_eq. Qed.

Lemma steady_set_timers w0 l w : steady w0 w -> steady w0 (set_timers l w).
Proof. now apply steady_eq. Qed.

Lemma steady_set_frames w0 l w : steady w0 w -> steady w0 (set_frames l w).
Proof. now apply steady_eq. Qed.

Lemma steady_set_settled w0 l w : steady w0 w -> steady w0 (set_settled l w).
Proof. now apply steady_eq. Qed.

Lemma steady_set_sent w0 l w : steady w0 w -> steady w0 (set_sent l w).
Proof. now apply steady_eq. Qed.

Lemma steady_set_delivered w0 l w : steady w0 w -> steady w0 (set_delivered l w).
Proof. now apply steady_eq. Qed.

Lemma steady_set_reconnectAwaits w0 l w : steady w0 w -> steady w0 (set_reconnectAwaits l w).
Proof. now apply steady_eq. Qed.

Lemma steady_set_nextTimer w0 n w : steady w0 w -> steady w0 (set_nextTimer n w).
Proof. now apply steady_eq. Qed.

Lemma steady_promise w0 a o w :
  steady w0 w ->
  steady w0 (set_sockets (update_nth a (fun s => mkSocket (readyState s) (Some o)) (sockets w)) w).
Proof.
  intros [a1 a2]. constructor; [|exact a2].
  unfold states in *. cbn. now rewrite readyState_update_promise.
Qed.

Lemma steady_fold (B : Type) (f : World -> B -> World) (l : list B) w0 :
  (forall w b, steady w0 w -> steady w0 (f w b)) ->
  forall w, steady w0 w -> steady w0 (fold_left f l w).
Proof. intros Hf. apply fold_left_invariant. exact Hf. Qed.

Lemma steady_listener w0 r evt now w : steady w0 w -> steady w0 (listener r evt now w).
Proof.
  destruct (listener_patch r evt now w) as (fr & m & l & ->). now apply steady_eq.
Qed.

Create HintDb steady.

#[export] Hint Resolve steady_refl steady_logger steady_set_timers steady_set_frames
  steady_set_settled steady_set_sent steady_set_delivered steady_set_reconnectAwaits
  steady_set_nextTimer steady_promise steady_listener : steady.

#[export] Hint Extern 2 (steady _ (on_this _ _)) =>
  apply steady_on_this; [intro; reflexivity | ] : steady.

#[export] Hint Extern 2 (steady _ (fold_left _ _ _)) =>
  apply steady_fold; [intros; cbn beta | ] : steady.

Ltac steady :=
  intros; cbn [fst snd] in *; split_match; cbn [fst snd]; auto 12 with steady.

Lemma steady_settleAttempt w0 a o w : steady w0 w -> steady w0 (settleAttempt a o w).
Proof. unfold settleAttempt. steady. Qed.

Lemma steady_clearTimeout w0 t w : steady w0 w -> steady w0 (clearTimeout t w).
Proof. unfold clearTimeout. steady. Qed.

Lemma steady_setTimeout w0 cb ms w : steady w0 w -> steady w0 (snd (setTimeout cb ms w)).
Proof. unfold setTimeout. steady. Qed.

#[export] Hint Resolve steady_settleAttempt steady_clearTimeout steady_setTimeout : steady.

Lemma steady_resume_waiter w0 wt o w : steady w0 w -> steady w0 (resume_waiter wt o w).
Proof. unfold resume_waiter. steady. Qed.

#[export] Hint Resolve steady_resume_waiter : steady.

Lemma steady_settle w0 id wt o w : steady w0 w -> steady w0 (settle id wt o w).
Proof. unfold settle. steady. Qed.

#[export] Hint Resolve steady_settle : steady.

Lemma steady_pending_resolve w0 id p w : steady w0 w -> steady w0 (pending_resolve id p w).
Proof. unfold pending_resolve. steady. Qed.

Lemma steady_pending_reject w0 id p e w : steady w0 w -> steady w0 (pending_reject id p e w).
Proof. unfold pending_reject. steady. Qed.

Lemma steady_request_timeout w0 id m wt w : steady w0 w -> steady w0 (request_timeout id m wt w).
Proof. unfold request_timeout. steady. Qed.

#[export] Hint Resolve steady_pending_resolve steady_pending_reject steady_request_timeout
  : steady.

Lemma steady_flushPending w0 e w : steady w0 w -> steady w0 (flushPending e w).
Proof. unfold flushPending. steady. Qed.

Lemma steady_cleanupExpiredProgress w0 now w :
  steady w0 w -> steady w0 (cleanupExpiredProgress now w).
Proof.
  unfold cleanupExpiredProgress. apply steady_fold. intros w1 b H1.
  destruct (expired now (snd b)); steady.
Qed.

Lemma steady_trackSeq w0 s w : steady w0 w -> steady w0 (trackSeq s w).
Proof. unfold trackSeq. steady. Qed.

Lemma steady_dispatch w0 evt now w : steady w0 w -> steady w0 (dispatch evt now w).
Proof. unfold dispatch. steady. Qed.

#[export] Hint Resolve steady_flushPending steady_cleanupExpiredProgress steady_trackSeq
  steady_dispatch : steady.

Lemma steady_handleMessage w0 f now w : steady w0 w -> steady w0 (handleMessage f now w).
Proof. unfold handleMessage. steady. Qed.

Lemma steady_scheduleReconnect w0 w : steady w0 w -> steady w0 (scheduleReconnect w).
Proof. unfold scheduleReconnect, setTimeout. steady. Qed.

Lemma steady_onError w0 a e w : steady w0 w -> steady w0 (onError a e w).
Proof. unfold onError. steady. Qed.

Lemma steady_request w0 m id wt w w1 :
  request m id wt w = Normal w1 -> steady w0 w -> steady w0 w1.
Proof.
  unfold request, setTimeout. destruct (negb (ws_open w)); [discriminate|].
  intros [= <-]. steady.
Qed.

Lemma steady_generator w0 r g w :
  steady w0 w ->
  steady w0 (loop_head r g w) /\ steady w0 (loop_body r g w) /\
  steady w0 (stream_return r g w) /\ forall e, steady w0 (stream_throw r g e w).
Proof.
  intros Q.
  assert (T : forall g e, steady w0 (stream_throw r g e w)).
  { intros. unfold stream_throw, stream_finally, store. steady. }
  assert (R : forall g, steady w0 (stream_return r g w)).
  { intros. unfold stream_return, stream_finally, store. steady. }
  assert (H : forall g, steady w0 (loop_head r g w)).
  { intros g1. unfold loop_head, after_loop, store.
    destruct (negb (done g1)); [steady|]. destruct (_ <? _)%nat; [steady|apply R]. }
  split; [apply H|]. split; [|split; [apply R|apply T]].
  unfold loop_body, store.
  destruct (error g) as [e|].
  - destruct (String.length (accumulated g) =? 0)%nat; [apply T|].
    destruct (hasNewData g && _); [steady|apply H].
  - destruct (hasNewData g && _); [steady|apply H].
Qed.

Lemma steady_chatStream_resume w0 r w : steady w0 w -> steady w0 (chatStream_resume r w).
Proof.
  intros Q. unfold chatStream_resume.
  destruct (JsMap.get r (frames w)) as [g|]; [|exact Q].
  destruct (steady_generator r g Q) as (H & B & R & T).
  destruct (phase g) as [[[|e]|]|[|]| | | |]; auto.
Qed.

Lemma steady_chatStream_next w0 r w : steady w0 w -> steady w0 (chatStream_next r w).
Proof.
  intros Q. unfold chatStream_next.
  destruct (JsMap.get r (frames w)) as [g|]; [|exact Q].
  destruct (steady_generator r g Q) as (H & B & R & T).
  destruct (phase g); auto.
  unfold after_yield. apply (steady_generator r _ Q).
Qed.

#[export] Hint Resolve steady_handleMessage steady_scheduleReconnect steady_onError
  steady_chatStream_resume steady_chatStream_next : steady.

Lemma steady_chatStream_start r id key now w : steady w (chatStream_start r id key now w).
Proof.
  unfold chatStream_start.
  destruct (JsMap.get r (frames w)); [apply steady_refl|].
  unfold getProgress.
  set (w1 := cleanupExpiredProgress now w).
  assert (Q1 : steady w w1) by (apply steady_cleanupExpiredProgress, steady_refl).
  set (w2 := match JsMap.get key (sessionProgress (this w1)) with
             | Some p => _ | None => w1 end).
  assert (Q2 : steady w w2) by (subst w2; steady).
  set (g := mkStream _ _ _ _ _ _ _ _ _ _ _).
  set (w3 := on_this _ (store r g w2)).
  assert (Q3 : steady w w3) by (subst w3; unfold store; steady).
  destruct (request "chat.send" id (AwaitChatSend r) w3) as [w4|e] eqn:R.
  - exact (@steady_request _ _ _ _ _ _ R Q3).
  - unfold stream_throw, stream_finally, store. steady.
Qed.

Lemma steady_onOpen a id w : steady w (onOpen a id w).
Proof.
  unfold onOpen.
  destruct (request "connect" id (AwaitHandshake a) w) as [w1|e] eqn:R.
  - exact (@steady_request _ _ _ _ _ _ R (steady_refl w)).
  - steady.
Qed.

Lemma steady_abortChat id w :
  steady w (match abortChat id w with Normal w1 => w1 | Throws _ => w end).
Proof.
  unfold abortChat.
  destruct (request "chat.abort" id AwaitAbort w) as [w1|e] eqn:R; [|apply steady_refl].
  exact (@steady_request _ _ _ _ _ _ R (steady_refl w)).
Qed.

Lemma orphan_steady s w w' : steady w w' -> orphan s w -> orphan s w'.
Proof.
  intros [a1 a2] [L N]. split.
  - unfold states in a1. apply (f_equal (@List.length _)) in a1.
    rewrite !length_map in a1. lia.
  - now rewrite a2.
Qed.

Lemma socketState_steady s w w' : steady w w' -> socketState s w' = socketState s w.
Proof. intros [a1 _]. now apply socketState_states. Qed.

(** A handler that runs after the client has dropped its socket
    reference. *)
Lemma orphan_forget s w0 w w' :
  orphan s w0 -> socketState s w = socketState s w0 ->
  List.length (sockets w) = List.length (sockets w0) ->
  steady (on_this (set_ws None) w) w' ->
  orphan s w' /\ socketState s w' = socketState s w0.
Proof.
  intros [L N] E Len Q. split.
  - apply (orphan_steady Q). split; [cbn; lia|cbn; discriminate].
  - rewrite (socketState_steady s Q). exact E.
Qed.

Lemma socketState_other s s' st w :
  s <> s' -> socketState s (set_readyState s' st w) = socketState s w.
Proof.
  intros N. unfold socketState, set_readyState. cbn.
  rewrite nth_error_update_nth. destruct (Nat.eqb_spec s' s); [congruence|reflexivity].
Qed.

Lemma length_set_readyState s st w :
  List.length (sockets (set_readyState s st w)) = List.length (sockets w).
Proof. unfold set_readyState. cbn. apply length_update_nth. Qed.

Lemma orphan_connect s w :
  orphan s w ->
  orphan s (snd (connect w)) /\ socketState s (snd (connect w)) = socketState s w.
Proof.
  intros [L N]. unfold connect.
  destruct (connected (this w)); [now repeat split|].
  destruct (closed (this w)); [now repeat split|].
  destruct (connectPromise (this w)); [now repeat split|].
  unfold orphan, doConnect, socketState. cbn.
  rewrite length_app, nth_error_app1 by exact L. cbn.
  repeat split; [lia|]. intros [= F]. lia.
Qed.

Lemma orphan_close s w :
  orphan s w -> orphan s (close w) /\ socketState s (close w) = socketState s w.
Proof.
  intros [L N]. unfold close.
  set (w1 := match reconnectTimer (this (on_this (set_closed true) w)) with
             | Some t => _ | None => _ end).
  assert (Q1 : steady w w1) by (subst w1; steady).
  set (w2 := match ws (this w1) with Some s0 => socket_close s0 w1 | None => w1 end).
  assert (E : socketState s w2 = socketState s w1 /\
              List.length (sockets w2) = List.length (sockets w1)).
  { subst w2. destruct (ws (this w1)) as [s0|] eqn:W; [|now split].
    assert (s <> s0) by (rewrite (sd_ws Q1) in W; congruence).
    unfold socket_close.
    destruct (socketState s0 w1) as [[| | |]|];
      try (now split); split;
        (now apply socketState_other) || apply length_set_readyState. }
  destruct E as [E Len].
  pose proof (orphan_steady Q1 (conj L N)) as [L1 _].
  apply (@orphan_forget s w w2 _ (conj L N)).
  - rewrite E. now apply socketState_steady.
  - rewrite Len. pose proof (sd_states Q1) as S1. unfold states in S1.
    apply (f_equal (@List.length _)) in S1. now rewrite !length_map in S1.
  - steady.
Qed.

Lemma orphan_handleClose s now w :
  orphan s w ->
  orphan s (handleClose now w) /\ socketState s (handleClose now w) = socketState s w.
Proof.
  intros O. unfold handleClose.
  apply (@orphan_forget s w (on_this (set_disconnected true) (on_this (set_connected false) w))
           _ O); [reflexivity|reflexivity|].
  generalize (on_this (set_ws None) (on_this (set_disconnected true)
                                       (on_this (set_connected false) w))).
  intros w1. steady.
Qed.

Lemma orphan_set_readyState s s' st w :
  s <> s' -> orphan s w ->
  orphan s (set_readyState s' st w) /\
  socketState s (set_readyState s' st w) = socketState s w.
Proof.
  intros N [L M]. split; [split|].
  - now rewrite length_set_readyState.
  - exact M.
  - now apply socketState_other.
Qed.

Lemma orphan_step s w e :
  orphan s w -> state_event s e = false ->
  orphan s (step w e) /\ socketState s (step w e) = socketState s w.
Proof.
  intros O Hev.
  assert (St : forall w', steady w w' -> orphan s w' /\ socketState s w' = socketState s w).
  { intros w' Q. split; [now apply (orphan_steady Q)|now apply socketState_steady]. }
  destruct e as [| |id|r id key now|r|r|s' id|s' err|s' f now|s' now|t]; cbn [step].
  - now apply orphan_connect.
  - now apply orphan_close.
  - apply St, steady_abortChat.
  - apply St, steady_chatStream_start.
  - apply St. steady.
  - apply St. steady.
  - cbn in Hev. apply Nat.eqb_neq in Hev.
    destruct (socketState s' w) as [[| | |]|]; try (now split).
    destruct (@orphan_set_readyState s s' OPEN w Hev O) as [O1 E1].
    split; [apply (orphan_steady (steady_onOpen s' id _) O1)|].
    now rewrite (socketState_steady s (steady_onOpen s' id _)).
  - cbn in Hev. apply Nat.eqb_neq in Hev.
    destruct (socketState s' w) as [[| | |]|]; try (now split);
      destruct (@orphan_set_readyState s s' CLOSING w Hev O) as [O1 E1];
      (split; [apply (@orphan_steady s (set_readyState s' CLOSING w)); [steady|exact O1]|
               rewrite <- E1; apply socketState_steady; steady]).
  - destruct (socketState s' w) as [[| | |]|]; try (now split); apply St; steady.
  - cbn in Hev. apply Nat.eqb_neq in Hev.
    destruct (socketState s' w) as [[| | |]|]; try (now split);
      destruct (@orphan_set_readyState s s' CLOSED w Hev O) as [O1 E1];
      destruct (@orphan_handleClose s now _ O1) as [O2 E2];
      (split; [exact O2|congruence]).
  - destruct (find _ (timers w)) as [tm|]; [|now split].
    destruct (callback tm).
    + apply St. steady.
    + unfold reconnect_callback.
      assert (Q : steady w (on_this (set_reconnectTimer None) (clearTimeout t w))) by steady.
      destruct (St _ Q) as [O1 E1].
      destruct (orphan_connect O1) as [O2 E2].
      destruct (connect (on_this (set_reconnectTimer None) (clearTimeout t w))) as [[|e|a] w1];
        cbn [snd] in *.
      * split; [exact O2|congruence].
      * split; [apply (@orphan_steady s w1); [steady|exact O2]|].
        rewrite <- E1, <- E2. apply socketState_steady. steady.
      * destruct (option_map promise (nth_error (sockets w1) a)) as [[[|e]|]|].
        -- split; [exact O2|congruence].
        -- split; [apply (@orphan_steady s w1); [steady|exact O2]|].
           rewrite <- E1, <- E2. apply socketState_steady. steady.
        -- split; [apply (@orphan_steady s w1); [steady|exact O2]|].
           rewrite <- E1, <- E2. apply socketState_steady. steady.
        -- split; [apply (@orphan_steady s w1); [steady|exact O2]|].
           rewrite <- E1, <- E2. apply socketState_steady. steady.
Qed.

(** X16.  The client closes a socket only while it is its current one.
    A socket it has let go of - replaced by a new attempt after a failed
    handshake, or dropped when another socket closed - is never the
    client's socket again and, whatever the client is asked to do, keeps
    its state until the runtime reports its own ["open"], ["error"] or
    ["close"]: [close()] does not reach it. *)
Theorem dropped_socket_is_never_closed_by_the_client s es : forall w,
  s < List.length (sockets w) -> ws (this w) <> Some s ->
  forallb (fun e => negb (state_event s e)) es = true ->
  socketState s (run w es) = socketState s w /\ ws (this (run w es)) <> Some s.
Proof.
  induction es as [|e es IH]; intros w L N Hes.
  - now split.
  - cbn [forallb] in Hes. apply andb_true_iff in Hes as [He Hes].
    apply negb_true_iff in He.
    destruct (@orphan_step s w e (conj L N) He) as [[L1 N1] E1].
    destruct (IH (step w e) L1 N1 Hes) as [E2 N2].
    change (run w (e :: es)) with (run (step w e) es).
    split; [congruence|exact N2].
Qed.

Lemma dropped_socket_is_never_closed_by_the_client_witness :
  socketState 0 two_sockets = Some OPEN /\
  socketState 0 (run two_sockets [CallAbortChat "a-1"; CallClose; SocketClose 1 5; CallConnect])
  = socketState 0 two_sockets /\
  ws (this (run two_sockets [CallAbortChat "a-1"; CallClose; SocketClose 1 5; CallConnect]))
  <> Some 0.
Proof.
  split; [vm_compute; reflexivity|].
  apply (@dropped_socket_is_never_closed_by_the_client 0
           [CallAbortChat "a-1"; CallClose; SocketClose 1 5; CallConnect] two_sockets).
  - vm_compute. lia.
  - vm_compute. discriminate.
  - reflexivity.
Defined.

(** ** The key of a configuration *)
Lemma unquote_char (c : ascii) (t : string) :
  unquote_body (quote_char c ++ t)%string = cons_char c (unquote_body t).
Proof. destruct c as [[] [] [] [] [] [] [] []]; reflexivity. Qed.

Lemma unquote_quote (s rest : string) :
  unquote_body (quote_body s ++ String dquote rest)%string = Some (s, rest).
Proof.
  induction s as [|c s IH]; [reflexivity|].
  cbn [quote_body]. rewrite append_assoc, unquote_char, IH. reflexivity.
Qed.

Lemma strip_prefix_app (p s : string) : strip_prefix p (p ++ s)%string = Some s.
Proof.
  induction p as [|a p IH]; [reflexivity|].
  cbn. now rewrite Ascii.eqb_refl.
Qed.

Lemma read_member_present (first : bool) (k v rest : string) :
  read_member first k
    (((if first then "" else ",") ++ quoteJSONString k ++ ":")
       ++ quoteJSONString v ++ rest)%string = Some (Some v, rest).
Proof.
  unfold read_member. rewrite strip_prefix_app.
  unfold quoteJSONString at 1. cbn [append].
  rewrite append_assoc. cbn [append].
  rewrite unquote_quote. reflexivity.
Qed.

Lemma configKey_fields (c : GatewayWsConfig) :
  configKey c =
  ("{" ++ field true "url" (url c)
            (field (is_none (url c)) "token" (token c)
               (field (is_none (url c) && is_none (token c)) "password" (password c) "}")))%string.
Proof.
  destruct c as [[u|] [t|] [p|]]; unfold configKey, field, member;
    cbn [url token password is_none andb app String.concat];
    rewrite ?append_assoc; reflexivity.
Qed.

Lemma read_field (first : bool) (k : string) (v : option string) (rest : string) :
  (v = None ->
   strip_prefix ((if first then "" else ",") ++ quoteJSONString k ++ ":")%string rest = None) ->
  read_member first k (field first k v rest) = Some (v, rest).
Proof.
  destruct v as [s|]; intros H.
  - apply read_member_present.
  - unfold read_member, field. now rewrite H.
Qed.

Lemma parse_key_configKey (c : GatewayWsConfig) : parse_key (configKey c) = Some c.
Proof.
  rewrite configKey_fields. unfold parse_key. rewrite strip_prefix_app.
  destruct c as [u t p]. cbn [url token password].
  rewrite read_field.
  2:{ intros ->. destruct t, p; reflexivity. }
  rewrite read_field.
  2:{ intros ->. destruct u, p; reflexivity. }
  rewrite read_field.
  2:{ intros ->. destruct u, t; reflexivity. }
  reflexivity.
Qed.

Lemma configKey_inj (a b : GatewayWsConfig) : configKey a = configKey b -> a = b.
Proof.
  intros E. apply (f_equal parse_key) in E.
  rewrite !parse_key_configKey in E. now injection E.
Qed.

(** ** The registry *)
Lemma client_on_client c f R c' :
  client c' (on_client c f R) =
  if Nat.eqb c c' then option_map f (client c' R) else client c' R.
Proof.
  unfold client, on_client. cbn [clients]. rewrite nth_error_update_nth.
  destruct (Nat.eqb c c'); [|reflexivity]. now destruct (nth_error (clients R) c').
Qed.

Lemma client_config_on_client c f R c' :
  client_config c' (on_client c f R) = client_config c' R.
Proof.
  unfold client_config, on_client. cbn [clients]. rewrite nth_error_update_nth.
  destruct (Nat.eqb c c'); [|reflexivity]. now destruct (nth_error (clients R) c').
Qed.

Lemma client_bound c R w : client c R = Some w -> c < List.length (clients R).
Proof.
  unfold client. intros H. apply nth_error_Some. intros E. now rewrite E in H.
Qed.

Lemma reachable_close w : reachable w -> reachable (close w).
Proof. intros H. exact (reach_step CallClose H). Qed.

Lemma registry_ok_on_client c f R :
  (forall w, reachable w -> reachable (f w)) -> (forall w, dead w -> dead (f w)) ->
  registry_ok R -> registry_ok (on_client c f R).
Proof.
  intros Hr Hd [G O Re]. constructor.
  - intros c0 H0. rewrite client_config_on_client. apply (G c0 H0).
  - intros c0 w. rewrite client_on_client. intros H N.
    destruct (Nat.eqb c c0); [|now apply (O c0)].
    destruct (client c0 R) as [w0|] eqn:E; [|discriminate].
    injection H as <-. apply Hd. now apply (O c0).
  - intros c0 w. rewrite client_on_client. intros H.
    destruct (Nat.eqb c c0); [|now apply (Re c0)].
    destruct (client c0 R) as [w0|] eqn:E; [|discriminate].
    injection H as <-. apply Hr. now apply (Re c0).
Qed.

(** [globalClient?.close(); globalClient = null] *)
Lemma registry_ok_retire R k n :
  registry_ok R ->
  registry_ok
    (mkRegistry (clients (match globalClient R with
                          | Some c => on_client c close R
                          | None => R
                          end)) None k n).
Proof.
  intros [G O Re]. constructor.
  - intros c [=].
  - intros c w H _. unfold client in H. cbn [clients] in H.
    destruct (globalClient R) as [c0|] eqn:E.
    + fold (client c (on_client c0 close R)) in H. rewrite client_on_client in H.
      destruct (Nat.eqb_spec c0 c) as [->|N].
      * destruct (client c R); [|discriminate]. injection H as <-. apply dead_close.
      * apply (O c w H). congruence.
    + apply (O c w H). discriminate.
  - intros c w H. unfold client in H. cbn [clients] in H.
    destruct (globalClient R) as [c0|] eqn:E; [|now apply (Re c)].
    fold (client c (on_client c0 close R)) in H. rewrite client_on_client in H.
    destruct (Nat.eqb c0 c); [|now apply (Re c)].
    destruct (client c R) as [w0|] eqn:E0; [|discriminate].
    injection H as <-. apply reachable_close. now apply (Re c).
Qed.

(** [globalClient = new GatewayWsClient(config, logger); globalClientConfig = configKey] *)
Lemma registry_ok_create R cfg :
  registry_ok R -> globalClient R = None ->
  registry_ok (mkRegistry (clients R ++ [mkInstance cfg init])
                          (Some (List.length (clients R))) (Some (configKey cfg))
                          (recreations R)).
Proof.
  intros [G O Re] N. constructor.
  - intros c [= <-]. exists cfg. split; [|reflexivity].
    unfold client_config. cbn [clients]. now rewrite nth_error_app2, Nat.sub_diag by lia.
  - intros c w H Hn. cbn [globalClient] in Hn.
    unfold client in H. cbn [clients] in H.
    destruct (Nat.lt_ge_cases c (List.length (clients R))) as [L|L].
    + rewrite nth_error_app1 in H by exact L. apply (O c w H). congruence.
    + rewrite nth_error_app2 in H by exact L.
      destruct (c - List.length (clients R)) as [|d] eqn:D.
      * exfalso. apply Hn. f_equal. lia.
      * now destruct d.
  - intros c w H. unfold client in H. cbn [clients] in H.
    destruct (Nat.lt_ge_cases c (List.length (clients R))) as [L|L].
    + rewrite nth_error_app1 in H by exact L. now apply (Re c).
    + rewrite nth_error_app2 in H by exact L.
      destruct (c - List.length (clients R)) as [|d]; [|now destruct d].
      injection H as <-. apply reach_init.
Qed.

Lemma registry_ok_get cfg R : registry_ok R -> registry_ok (snd (getGatewayWsClient cfg R)).
Proof.
  intros H. unfold getGatewayWsClient.
  destruct (globalClient R) as [c|] eqn:E.
  - destruct (differs (globalClientConfig R) (configKey cfg)).
    + cbn [globalClient snd].
      pose proof (@registry_ok_retire R (globalClientConfig R) (S (recreations R)) H) as H1.
      rewrite E in H1.
      apply (@registry_ok_create _ cfg H1). reflexivity.
    + rewrite E. exact H.
  - rewrite E. cbn [snd]. now apply registry_ok_create.
Qed.

Lemma registry_ok_close R : registry_ok R -> registry_ok (closeGatewayWsClient R).
Proof.
  intros H. unfold closeGatewayWsClient.
  pose proof (@registry_ok_retire R (globalClientConfig R) (recreations R) H) as H1.
  destruct (globalClient R); exact H1.
Qed.

Lemma registry_ok_step R op : registry_ok R -> registry_ok (registry_step R op).
Proof.
  intros H. destruct op as [cfg| |c e]; cbn [registry_step].
  - now apply registry_ok_get.
  - now apply registry_ok_close.
  - apply registry_ok_on_client; [| |exact H].
    + intros w Hw. now apply reach_step.
    + intros w Hw. now apply dead_step.
Qed.

Lemma registry_ok_init : registry_ok no_registry.
Proof.
  constructor.
  - intros c [=].
  - intros [|c] w [=].
  - intros [|c] w [=].
Qed.

Lemma reachable_registry_ok R : registry_reachable R -> registry_ok R.
Proof.
  induction 1 as [|R op _ IH]; [apply registry_ok_init|now apply registry_ok_step].
Qed.

Lemma registry_reachable_run ops : forall R,
  registry_reachable R -> registry_reachable (registry_run R ops).
Proof.
  induction ops as [|op ops IH]; intros R H; [exact H|].
  apply (IH (registry_step R op)). now constructor.
Qed.

Lemma differs_same k : differs (Some k) k = false.
Proof. cbn. now rewrite String.eqb_refl. Qed.

Lemma differs_other k k' : k <> k' -> differs (Some k) k' = true.
Proof. intros N. cbn. destruct (String.eqb_spec k k'); [contradiction|reflexivity]. Qed.

Lemma get_without_client cfg R :
  globalClient R = None ->
  getGatewayWsClient cfg R =
  (List.length (clients R),
   mkRegistry (clients R ++ [mkInstance cfg init]) (Some (List.length (clients R)))
              (Some (configKey cfg)) (recreations R)).
Proof.
  intros H. unfold getGatewayWsClient.
  destruct (globalClient R) eqn:E; [discriminate|]. now rewrite E.
Qed.

(** A client that is not the current one never becomes it again. *)
Lemma retired_step R op c w :
  registry_ok R -> client c R = Some w -> globalClient R <> Some c ->
  exists w', client c (registry_step R op) = Some w' /\
             globalClient (registry_step R op) <> Some c /\
             dead w' /\
             List.length (sockets w') = List.length (sockets w) /\ sent w' = sent w.
Proof.
  intros Hok Hc Hn.
  pose proof (@rg_others R Hok c w Hc Hn) as D.
  pose proof (@client_bound c R w Hc) as L.
  assert (New : forall R1 cfg k n,
            clients R1 = clients R ->
            client c (mkRegistry (clients R1 ++ [mkInstance cfg init])
                                 (Some (List.length (clients R1))) k n) = Some w /\
            Some (List.length (clients R1)) <> Some c).
  { intros R1 cfg k n E. split.
    - unfold client. cbn [clients]. rewrite E, nth_error_app1 by exact L. exact Hc.
    - rewrite E. intros [= F]. lia. }
  destruct op as [cfg| |c1 e]; cbn [registry_step].
  - exists w. unfold getGatewayWsClient.
    destruct (globalClient R) as [c0|] eqn:E.
    + destruct (differs (globalClientConfig R) (configKey cfg)).
      * cbn [globalClient snd clients on_client].
        assert (Hc0 : nth_error (update_nth c0 (fun i => mkInstance (config i) (close (world i)))
                                   (clients R)) c = nth_error (clients R) c).
        { rewrite nth_error_update_nth. destruct (Nat.eqb_spec c0 c) as [->|]; [|reflexivity].
          now contradiction Hn. }
        split; [|split; [|auto]].
        -- unfold client. cbn [clients].
           rewrite nth_error_app1 by (now rewrite length_update_nth). rewrite Hc0. exact Hc.
        -- rewrite length_update_nth. intros [= F]. lia.
      * rewrite E. cbn [snd]. rewrite E. auto.
    + rewrite E. cbn [snd]. destruct (@New R cfg (Some (configKey cfg)) (recreations R) eq_refl).
      auto.
  - exists w. unfold closeGatewayWsClient. cbn [globalClient].
    split; [|split; [discriminate|auto]].
    unfold client. cbn [clients].
    destruct (globalClient R) as [c0|] eqn:E; [|exact Hc].
    fold (client c (on_client c0 close R)). rewrite client_on_client.
    destruct (Nat.eqb_spec c0 c) as [->|]; [now contradiction Hn|exact Hc].
  - rewrite client_on_client. cbn [globalClient on_client].
    destruct (Nat.eqb c1 c).
    + exists (step w e). rewrite Hc. destruct (dead_step e D) as (D1 & S1 & T1). auto.
    + exists w. auto.
Qed.

(** ** What the registry hands out *)

(** X17.  The key under which the registry remembers a configuration
    determines the configuration: two configurations have the same key
    exactly when their [url], [token] and [password] agree, an absent
    member being different from every string, also from the empty one. *)
Theorem config_key_identifies_configuration (a b : GatewayWsConfig) :
  configKey a = configKey b <-> a = b.
Proof.
  split; [apply configKey_inj|]. now intros ->.
Qed.

(** X18.  While the registry has a client, [getGatewayWsClient] returns
    that client and changes nothing when it is called with the
    configuration the client was made with; with any other configuration
    it closes the client, logs the change once, and returns a new client
    that is remembered under the new configuration. *)
Theorem registry_reuses_client_of_same_configuration R c cfg0 cfg :
  registry_reachable R -> globalClient R = Some c -> client_config c R = Some cfg0 ->
  (cfg = cfg0 -> getGatewayWsClient cfg R = (c, R)) /\
  (cfg <> cfg0 ->
   let c' := List.length (clients R) in
   let R' := snd (getGatewayWsClient cfg R) in
   fst (getGatewayWsClient cfg R) = c' /\ globalClient R' = Some c' /\
   client c' R' = Some init /\ client_config c' R' = Some cfg /\
   globalClientConfig R' = Some (configKey cfg) /\
   client c R' = option_map close (client c R) /\
   recreations R' = S (recreations R)).
Proof.
  intros Hr Hg Hc.
  pose proof (reachable_registry_ok Hr) as Hok.
  destruct (@rg_global R Hok c Hg) as (cfg1 & H1 & K).
  rewrite Hc in H1. injection H1 as <-.
  assert (L : c < List.length (clients R)).
  { unfold client_config in Hc. apply nth_error_Some. intros E. now rewrite E in Hc. }
  split.
  - intros ->. unfold getGatewayWsClient. rewrite Hg, K, differs_same, Hg. reflexivity.
  - intros N. cbv zeta. unfold getGatewayWsClient. rewrite Hg, K.
    rewrite differs_other by (intros E; apply N; symmetry; now apply configKey_inj).
    cbn [globalClient fst snd clients on_client recreations globalClientConfig].
    rewrite length_update_nth.
    split; [reflexivity|]. split; [reflexivity|].
    unfold client, client_config. cbn [clients].
    rewrite !nth_error_app2 by (rewrite length_update_nth; lia).
    rewrite length_update_nth, Nat.sub_diag.
    split; [reflexivity|]. split; [reflexivity|]. split; [reflexivity|]. split; [|reflexivity].
    rewrite nth_error_app1 by (now rewrite length_update_nth).
    rewrite nth_error_update_nth, Nat.eqb_refl.
    now destruct (nth_error (clients R) c).
Qed.

Lemma registry_reachable_one_client : registry_reachable one_client.
Proof. apply registry_reachable_run. constructor. Qed.

Lemma registry_reuses_client_of_same_configuration_witness :
  getGatewayWsClient gateway_a one_client = (0, one_client) /\
  fst (getGatewayWsClient gateway_b one_client) = 1 /\
  client 0 (snd (getGatewayWsClient gateway_b one_client)) = Some (close connected_world).
Proof.
  assert (G : globalClient one_client = Some 0) by (vm_compute; reflexivity).
  assert (K : client_config 0 one_client = Some gateway_a) by (vm_compute; reflexivity).
  destruct (@registry_reuses_client_of_same_configuration one_client 0 gateway_a gateway_a
              registry_reachable_one_client G K) as [A _].
  destruct (@registry_reuses_client_of_same_configuration one_client 0 gateway_a gateway_b
              registry_reachable_one_client G K) as [_ B].
  split; [apply A; reflexivity|].
  destruct B as (b1 & _ & _ & _ & _ & b2 & _); [discriminate|].
  split; [exact b1|]. rewrite b2. vm_compute. reflexivity.
Defined.

(** X19.  A client the registry has replaced or closed is out of use for
    good: whatever is asked of the registry and whatever happens to the
    clients afterwards, it is never the registry's client again, it stays
    closed and without a socket, opens no socket and writes no request
    frame. *)
Theorem replaced_client_stays_offline R c w ops :
  registry_reachable R -> client c R = Some w -> globalClient R <> Some c ->
  exists w', client c (registry_run R ops) = Some w' /\
             globalClient (registry_run R ops) <> Some c /\
             closed (this w') = true /\ ws (this w') = None /\
             List.length (sockets w') = List.length (sockets w) /\ sent w' = sent w.
Proof.
  intros Hr. pose proof (reachable_registry_ok Hr) as Hok. clear Hr.
  revert R w Hok. induction ops as [|op ops IH]; intros R w Hok Hc Hn.
  - exists w. destruct (@rg_others R Hok c w Hc Hn) as [C W].
    split; [exact Hc|]. split; [exact Hn|]. auto.
  - destruct (@retired_step R op c w Hok Hc Hn) as (w1 & H1 & N1 & _ & S1 & T1).
    destruct (IH (registry_step R op) w1 (registry_ok_step op Hok) H1 N1)
      as (w2 & H2 & N2 & C2 & W2 & S2 & T2).
    exists w2. change (registry_run R (op :: ops)) with (registry_run (registry_step R op) ops).
    repeat split; try assumption; congruence.
Qed.

Lemma replaced_client_stays_offline_witness :
  exists w',
    client 0 (registry_run replaced_client
                [ClientTask 0 CallConnect; GetClient gateway_a; ClientTask 0 (SocketClose 0 9)])
    = Some w' /\
    globalClient (registry_run replaced_client
                    [ClientTask 0 CallConnect; GetClient gateway_a; ClientTask 0 (SocketClose 0 9)])
    <> Some 0 /\
    closed (this w') = true /\ ws (this w') = None /\
    List.length (sockets w') = List.length (sockets (close connected_world)) /\
    sent w' = sent (close connected_world).
Proof.
  apply (@replaced_client_stays_offline replaced_client 0 (close connected_world)).
  - unfold replaced_client. constructor. exact registry_reachable_one_client.
  - vm_compute. reflexivity.
  - vm_compute. discriminate.
Defined.

(** X20.  The registry does not notice a client that its holder closed with
    [close()]: called with the same configuration it returns that client
    again, although the client is closed and will never open a socket. *)
Theorem registry_returns_client_closed_by_holder R c cfg :
  registry_reachable R -> globalClient R = Some c -> client_config c R = Some cfg ->
  let R' := registry_step R (ClientTask c CallClose) in
  getGatewayWsClient cfg R' = (c, R') /\
  exists w, client c R' = Some w /\ closed (this w) = true /\
            forall es, closed (this (run w es)) = true /\
                       List.length (sockets (run w es)) = List.length (sockets w).
Proof.
  intros Hr Hg Hc. cbv zeta. cbn [registry_step step].
  pose proof (reachable_registry_ok Hr) as Hok.
  destruct (@rg_global R Hok c Hg) as (cfg1 & H1 & K).
  rewrite Hc in H1. injection H1 as <-.
  split.
  - unfold getGatewayWsClient, on_client. cbn [globalClient globalClientConfig].
    rewrite Hg, K, differs_same. reflexivity.
  - rewrite client_on_client, Nat.eqb_refl.
    unfold client, client_config in *.
    destruct (nth_error (clients R) c) as [i|]; [|discriminate].
    exists (close (world i)). split; [reflexivity|].
    split; [apply closed_close|]. intros es.
    destruct (@dead_run es (close (world i)) (dead_close (world i))) as ([C _] & S & _).
    auto.
Qed.

Lemma registry_returns_client_closed_by_holder_witness :
  getGatewayWsClient gateway_a (registry_step one_client (ClientTask 0 CallClose)) =
  (0, registry_step one_client (ClientTask 0 CallClose)) /\
  exists w, client 0 (registry_step one_client (ClientTask 0 CallClose)) = Some w /\
            closed (this w) = true /\
            forall es, closed (this (run w es)) = true /\
                       List.length (sockets (run w es)) = List.length (sockets w).
Proof.
  apply (@registry_returns_client_closed_by_holder one_client 0 gateway_a).
  - exact registry_reachable_one_client.
  - vm_compute. reflexivity.
  - vm_compute. reflexivity.
Defined.

(** X21.  [closeGatewayWsClient] leaves no client in use: the client the
    registry had is closed, every client the registry ever made is closed
    and without a socket, and the next [getGatewayWsClient] makes a new
    client, also when it is called with the configuration of the old
    one. *)
Theorem closeGatewayWsClient_retires_every_client R cfg :
  registry_reachable R ->
  let R1 := closeGatewayWsClient R in
  globalClient R1 = None /\
  (forall c, globalClient R = Some c -> client c R1 = option_map close (client c R)) /\
  (forall c w, client c R1 = Some w -> closed (this w) = true /\ ws (this w) = None) /\
  fst (getGatewayWsClient cfg R1) = List.length (clients R) /\
  client (List.length (clients R)) (snd (getGatewayWsClient cfg R1)) = Some init.
Proof.
  intros Hr. cbv zeta.
  pose proof (reachable_registry_ok Hr) as Hok.
  pose proof (registry_ok_close Hok) as Hok1.
  assert (Len : List.length (clients (closeGatewayWsClient R)) = List.length (clients R)).
  { unfold closeGatewayWsClient. cbn [clients].
    destruct (globalClient R); [|reflexivity]. apply length_update_nth. }
  split; [reflexivity|]. split; [|split; [|split]].
  - intros c Hg. unfold closeGatewayWsClient. rewrite Hg.
    unfold client at 1. cbn [clients]. fold (client c (on_client c close R)).
    now rewrite client_on_client, Nat.eqb_refl.
  - intros c w Hc. apply (@rg_others _ Hok1 c w Hc). discriminate.
  - rewrite get_without_client by reflexivity. exact Len.
  - rewrite get_without_client by reflexivity. cbn [snd].
    unfold client. cbn [clients]. rewrite <- Len.
    now rewrite nth_error_app2, Nat.sub_diag by lia.
Qed.

Lemma closeGatewayWsClient_retires_every_client_witness :
  globalClient (closeGatewayWsClient one_client) = None /\
  client 0 (closeGatewayWsClient one_client) = Some (close connected_world) /\
  fst (getGatewayWsClient gateway_a (closeGatewayWsClient one_client)) = 1.
Proof.
  destruct (@closeGatewayWsClient_retires_every_client one_client gateway_a
              registry_reachable_one_client) as (a & b & _ & d & _).
  split; [exact a|]. split; [|exact d].
  rewrite (b 0 eq_refl). vm_compute. reflexivity.
Defined.

(** * The router and the back-off *)

(** ** Naturals below 2^53 as doubles *)
Section NumberFacts.
Local Open Scope Z_scope.

Lemma iter_pos_nat (A : Type) (f : A -> A) (p : positive) :
  forall x, iter_pos f p x = Nat.iter (Pos.to_nat p) f x.
Proof.
  induction p as [p IH|p IH|]; intros x; cbn [iter_pos].
  - rewrite !IH, Pos2Nat.inj_xI, Nat.iter_succ_r.
    replace (2 * Pos.to_nat p)%nat with (Pos.to_nat p + Pos.to_nat p)%nat by lia.
    now rewrite Nat.iter_add.
  - rewrite !IH, Pos2Nat.inj_xO.
    replace (2 * Pos.to_nat p)%nat with (Pos.to_nat p + Pos.to_nat p)%nat by lia.
    now rewrite Nat.iter_add.
  - reflexivity.
Qed.

Lemma pos_iter_shiftn (p q : positive) : Pos.iter xO p q = shiftn (Pos.to_nat q) p.
Proof. unfold shiftn. now rewrite Pos2Nat.inj_iter. Qed.

Lemma shiftn_shiftn n m p : shiftn n (shiftn m p) = shiftn (n + m) p.
Proof. unfold shiftn. now rewrite Nat.iter_add. Qed.

Lemma digits_shiftn n p :
  Zpos (digits2_pos (shiftn n p)) = Zpos (digits2_pos p) + Z.of_nat n.
Proof.
  induction n as [|n IH]; [cbn; lia|].
  change (shiftn (S n) p) with (xO (shiftn n p)). cbn [digits2_pos]. lia.
Qed.

Lemma Zpos_shiftn n p : Zpos (shiftn n p) = Zpos p * 2 ^ Z.of_nat n.
Proof.
  induction n as [|n IH]; [cbn; lia|].
  change (shiftn (S n) p) with (xO (shiftn n p)).
  change (Zpos (shiftn n p)~0) with (2 * Zpos (shiftn n p)).
  rewrite IH, Nat2Z.inj_succ, Z.pow_succ_r by lia. ring.
Qed.

Lemma shr_shiftn n j p :
  Nat.iter n shr_1 (Build_shr_record (Zpos (shiftn (n + j) p)) false false) =
  Build_shr_record (Zpos (shiftn j p)) false false.
Proof.
  revert j. induction n as [|n IH]; intros j; [reflexivity|].
  rewrite Nat.iter_succ. replace (S n + j)%nat with (n + S j)%nat by lia.
  rewrite IH. reflexivity.
Qed.

Lemma digits_bounds p :
  2 ^ (Zpos (digits2_pos p) - 1) <= Zpos p < 2 ^ Zpos (digits2_pos p).
Proof.
  induction p as [p IH|p IH|]; cbn [digits2_pos]; [| |cbn; lia].
  - rewrite Pos2Z.inj_succ. change (Zpos p~1) with (2 * Zpos p + 1).
    replace (Z.succ (Zpos (digits2_pos p)) - 1) with (Z.succ (Zpos (digits2_pos p) - 1)) by lia.
    rewrite !Z.pow_succ_r by lia.
    revert IH. generalize (2 ^ (Zpos (digits2_pos p) - 1)) (2 ^ Zpos (digits2_pos p)). lia.
  - rewrite Pos2Z.inj_succ. change (Zpos p~0) with (2 * Zpos p).
    replace (Z.succ (Zpos (digits2_pos p)) - 1) with (Z.succ (Zpos (digits2_pos p) - 1)) by lia.
    rewrite !Z.pow_succ_r by lia.
    revert IH. generalize (2 ^ (Zpos (digits2_pos p) - 1)) (2 ^ Zpos (digits2_pos p)). lia.
Qed.

Lemma digits_small p : Zpos p < 2 ^ 53 -> Zpos (digits2_pos p) <= 53.
Proof.
  intros H. destruct (Z.le_gt_cases (Zpos (digits2_pos p)) 53) as [L|G]; [exact L|].
  pose proof (digits_bounds p) as [B _].
  assert (2 ^ 53 <= 2 ^ (Zpos (digits2_pos p) - 1)) by (apply Z.pow_le_mono_r; lia).
  lia.
Qed.

Lemma digits_lt a b : Zpos (digits2_pos a) < Zpos (digits2_pos b) -> (a < b)%positive.
Proof.
  intros H. pose proof (digits_bounds a) as [_ A]. pose proof (digits_bounds b) as [B _].
  assert (2 ^ Zpos (digits2_pos a) <= 2 ^ (Zpos (digits2_pos b) - 1))
    by (apply Z.pow_le_mono_r; lia).
  lia.
Qed.

Lemma fexp_small e : -1021 <= e -> fexp 53 1024 e = e - 53.
Proof. intros H. unfold fexp, emin. lia. Qed.

(** Rounding a mantissa that carries [n] zero bits more than the
    canonical one changes nothing. *)
Lemma round_aux_exact p n :
  Zpos (digits2_pos p) <= 53 ->
  binary_round_aux 53 1024 false
    (Zpos (shiftn (n + (53 - Pos.to_nat (digits2_pos p))) p))
    (Zpos (digits2_pos p) - 53 - Z.of_nat n) loc_Exact = canon p.
Proof.
  intros Hd. set (d := digits2_pos p) in *.
  assert (Hn : Z.of_nat (53 - Pos.to_nat d) = 53 - Zpos d) by lia.
  unfold binary_round_aux, shr_fexp. cbn [Zdigits2 shr_record_of_loc].
  rewrite digits_shiftn. fold d.
  rewrite fexp_small by lia.
  replace (Zpos d + Z.of_nat (n + (53 - Pos.to_nat d)) + (Zpos d - 53 - Z.of_nat n) - 53 -
           (Zpos d - 53 - Z.of_nat n)) with (Z.of_nat n) by lia.
  assert (E : shr {| shr_m := Zpos (shiftn (n + (53 - Pos.to_nat d)) p);
                     shr_r := false; shr_s := false |}
                  (Zpos d - 53 - Z.of_nat n) (Z.of_nat n) =
              ({| shr_m := Zpos (shiftn (53 - Pos.to_nat d) p);
                  shr_r := false; shr_s := false |}, Zpos d - 53)).
  { destruct n as [|n].
    - cbn [Z.of_nat shr Nat.add]. f_equal. lia.
    - cbn [Z.of_nat]. unfold shr.
      rewrite iter_pos_nat, SuccNat2Pos.id_succ, shr_shiftn.
      f_equal. lia. }
  rewrite E. cbn [shr_m loc_of_shr_record round_nearest_even Zdigits2 shr_record_of_loc].
  rewrite digits_shiftn. fold d. rewrite fexp_small by lia.
  replace (Zpos d + Z.of_nat (53 - Pos.to_nat d) + (Zpos d - 53) - 53 - (Zpos d - 53))
    with 0 by lia.
  cbn [shr shr_m].
  replace (Zpos d - 53 <=? 1024 - 53) with true by (symmetry; apply Z.leb_le; lia).
  reflexivity.
Qed.

Lemma round_shift p j :
  Zpos (digits2_pos p) <= 53 ->
  binary_round 53 1024 false (shiftn j p) (- Z.of_nat j) = canon p.
Proof.
  intros Hd. set (d := digits2_pos p) in *.
  unfold binary_round. rewrite digits_shiftn. fold d.
  rewrite fexp_small by lia. unfold shl_align.
  replace (Zpos d + Z.of_nat j + - Z.of_nat j - 53 - - Z.of_nat j)
    with (Z.of_nat j - (53 - Zpos d)) by lia.
  destruct (Z.of_nat j - (53 - Zpos d)) as [|q|q] eqn:T.
  - replace (- Z.of_nat j) with (Zpos d - 53 - Z.of_nat 0) by lia.
    replace j with (0 + (53 - Pos.to_nat d))%nat at 1 by lia.
    now apply round_aux_exact.
  - replace (- Z.of_nat j) with (Zpos d - 53 - Z.of_nat (Pos.to_nat q)) by lia.
    replace j with (Pos.to_nat q + (53 - Pos.to_nat d))%nat at 1 by lia.
    now apply round_aux_exact.
  - rewrite pos_iter_shiftn, shiftn_shiftn.
    replace (Zpos d + Z.of_nat j + - Z.of_nat j - 53) with (Zpos d - 53 - Z.of_nat 0) by lia.
    replace (Pos.to_nat q + j)%nat with (0 + (53 - Pos.to_nat d))%nat by lia.
    now apply round_aux_exact.
Qed.

Lemma number_pos p : Zpos p < 2 ^ 53 -> number (Zpos p) = canon p.
Proof.
  intros H. apply digits_small in H.
  exact (@round_shift p 0 H).
Qed.

(** Two canonical mantissas brought to the smaller of their exponents. *)
Lemma align_canon a b :
  Zpos (digits2_pos a) <= 53 -> Zpos (digits2_pos b) <= 53 ->
  fst (shl_align (shiftn (53 - Pos.to_nat (digits2_pos a)) a) (Zpos (digits2_pos a) - 53)
         (Z.min (Zpos (digits2_pos a) - 53) (Zpos (digits2_pos b) - 53))) =
  shiftn (53 - Nat.min (Pos.to_nat (digits2_pos a)) (Pos.to_nat (digits2_pos b))) a.
Proof.
  intros Ha Hb. unfold shl_align.
  destruct (Z.min (Zpos (digits2_pos a) - 53) (Zpos (digits2_pos b) - 53) -
            (Zpos (digits2_pos a) - 53)) as [|q|q] eqn:T; cbn [fst].
  - f_equal. lia.
  - lia.
  - rewrite pos_iter_shiftn, shiftn_shiftn. f_equal. lia.
Qed.

Lemma align_canon_r a b :
  Zpos (digits2_pos a) <= 53 -> Zpos (digits2_pos b) <= 53 ->
  fst (shl_align (shiftn (53 - Pos.to_nat (digits2_pos b)) b) (Zpos (digits2_pos b) - 53)
         (Z.min (Zpos (digits2_pos a) - 53) (Zpos (digits2_pos b) - 53))) =
  shiftn (53 - Nat.min (Pos.to_nat (digits2_pos a)) (Pos.to_nat (digits2_pos b))) b.
Proof.
  intros Ha Hb. rewrite Z.min_comm, Nat.min_comm. now apply align_canon.
Qed.

Lemma min_exponent a b :
  Zpos (digits2_pos a) <= 53 -> Zpos (digits2_pos b) <= 53 ->
  Z.min (Zpos (digits2_pos a) - 53) (Zpos (digits2_pos b) - 53) =
  - Z.of_nat (53 - Nat.min (Pos.to_nat (digits2_pos a)) (Pos.to_nat (digits2_pos b))).
Proof. lia. Qed.

Lemma canon_add a b :
  Zpos a + Zpos b < 2 ^ 53 -> js_add (canon a) (canon b) = canon (a + b).
Proof.
  intros H.
  assert (Ha : Zpos (digits2_pos a) <= 53) by (apply digits_small; lia).
  assert (Hb : Zpos (digits2_pos b) <= 53) by (apply digits_small; lia).
  assert (Hc : Zpos (digits2_pos (a + b)) <= 53) by (apply digits_small; lia).
  unfold js_add, canon, SFadd. cbv zeta.
  rewrite (@align_canon a b Ha Hb), (@align_canon_r a b Ha Hb), (@min_exponent a b Ha Hb).
  set (J := (53 - Nat.min _ _)%nat).
  unfold cond_Zopp.
  replace (Zpos (shiftn J a) + Zpos (shiftn J b)) with (Zpos (shiftn J (a + b)))
    by (rewrite !Zpos_shiftn, Pos2Z.inj_add; ring).
  cbn [binary_normalize]. now apply round_shift.
Qed.

Lemma canon_sub a b :
  (b < a)%positive -> Zpos a < 2 ^ 53 -> js_sub (canon a) (canon b) = canon (a - b).
Proof.
  intros L H.
  assert (Ha : Zpos (digits2_pos a) <= 53) by (apply digits_small; lia).
  assert (Hb : Zpos (digits2_pos b) <= 53) by (apply digits_small; lia).
  assert (Hc : Zpos (digits2_pos (a - b)) <= 53) by (apply digits_small; lia).
  unfold js_sub, canon, SFsub. cbv zeta.
  rewrite (@align_canon a b Ha Hb), (@align_canon_r a b Ha Hb), (@min_exponent a b Ha Hb).
  set (J := (53 - Nat.min _ _)%nat).
  unfold cond_Zopp.
  replace (Zpos (shiftn J a) - Zpos (shiftn J b)) with (Zpos (shiftn J (a - b)))
    by (rewrite !Zpos_shiftn, Pos2Z.inj_sub by exact L; ring).
  cbn [binary_normalize]. now apply round_shift.
Qed.

Lemma canon_sub_diag a : Zpos a < 2 ^ 53 -> js_sub (canon a) (canon a) = S754_zero false.
Proof.
  intros H.
  assert (Ha : Zpos (digits2_pos a) <= 53) by (apply digits_small; lia).
  unfold js_sub, canon, SFsub. cbv zeta.
  rewrite (@align_canon a a Ha Ha), Z.sub_diag. reflexivity.
Qed.

Lemma compare_shiftn n a b : Pos.compare (shiftn n a) (shiftn n b) = Pos.compare a b.
Proof. induction n as [|n IH]; [reflexivity|exact IH]. Qed.

Lemma canon_compare a b :
  Zpos a < 2 ^ 53 -> Zpos b < 2 ^ 53 ->
  SFcompare (canon a) (canon b) = Some (Pos.compare a b).
Proof.
  intros Ha Hb. unfold canon, SFcompare. f_equal.
  destruct (Z.compare_spec (Zpos (digits2_pos a) - 53) (Zpos (digits2_pos b) - 53)) as [E|L|G].
  - assert (E' : digits2_pos a = digits2_pos b) by lia. rewrite E'.
    change (Pos.compare_cont Eq) with Pos.compare. apply compare_shiftn.
  - symmetry. apply Pos.compare_lt_iff, digits_lt. lia.
  - symmetry. apply Pos.compare_gt_iff, digits_lt. lia.
Qed.

(** Below [2^53] the arithmetic of doubles on naturals is the exact one. *)
Lemma number_add a b :
  0 <= a -> 0 <= b -> a + b < 2 ^ 53 -> js_add (number a) (number b) = number (a + b).
Proof.
  intros Ha Hb H. destruct a as [|a|a]; [|destruct b as [|b|b]|]; try lia.
  - destruct b as [|b|b]; try lia; [reflexivity|].
    rewrite Z.add_0_l, number_pos by lia. reflexivity.
  - rewrite Z.add_0_r, number_pos by lia. reflexivity.
  - change (Zpos a + Zpos b) with (Zpos (a + b)).
    rewrite !number_pos by lia. apply canon_add. lia.
Qed.

Lemma number_sub a b :
  0 <= b -> b <= a -> a < 2 ^ 53 -> js_sub (number a) (number b) = number (a - b).
Proof.
  intros Hb L H. destruct b as [|b|b]; try lia.
  - rewrite Z.sub_0_r. destruct a as [|a|a]; try lia; [reflexivity|].
    rewrite number_pos by lia. reflexivity.
  - destruct a as [|a|a]; try lia.
    rewrite !number_pos by lia.
    destruct (Pos.compare_spec b a) as [->|Lt|Gt]; [| |lia].
    + rewrite Z.sub_diag. apply canon_sub_diag. lia.
    + rewrite <- Pos2Z.inj_sub by exact Lt. rewrite number_pos by lia.
      now apply canon_sub.
Qed.

Lemma number_gt a b :
  0 <= a < 2 ^ 53 -> 0 <= b < 2 ^ 53 -> js_gt (number a) (number b) = (a >? b).
Proof.
  intros Ha Hb. unfold js_gt, SFltb.
  destruct a as [|a|a]; [|destruct b as [|b|b]|]; try lia.
  - destruct b as [|b|b]; try lia; [reflexivity|].
    rewrite number_pos by lia. reflexivity.
  - rewrite number_pos by lia. reflexivity.
  - rewrite !number_pos, canon_compare by lia.
    unfold Z.gtb. cbn [Z.compare]. rewrite (Pos.compare_antisym b a).
    now destruct (Pos.compare b a).
Qed.
End NumberFacts.

(** ** C6: gaps and delivery *)

Lemma trackSeq_frames seq w :
  frames (trackSeq seq w) = frames w /\
  chatListeners (this (trackSeq seq w)) = chatListeners (this w).
Proof.
  unfold trackSeq. destruct seq as [s|]; [|now split].
  destruct (lastSeq (this w)) as [c|]; [destruct (js_gt s (js_add c (number 1)))|];
    now split.
Qed.

(** A ["chat"] frame whose run has a listener: the listener runs on the
    payload, whatever the sequence number of the frame and the cursor. *)
Lemma handleMessage_delivers seq evt now w r g :
  JsMap.get (ChatEvent.runId evt) (chatListeners (this w)) = Some r ->
  JsMap.get r (frames w) = Some g ->
  let w' := handleMessage (EventFrame "chat" seq (Some evt)) now w in
  JsMap.get r (frames w') = Some (on_event evt g) /\
  chatListeners (this w') = chatListeners (this w).
Proof.
  intros Hl Hg. cbv zeta. unfold handleMessage.
  change (String.eqb "chat" "chat") with true. cbv iota. unfold dispatch.
  destruct (trackSeq_frames seq w) as [F L]. rewrite L, Hl.
  split.
  - apply listener_frame. cbn. now rewrite F.
  - match goal with |- context [listener ?r ?e ?n ?x] =>
      destruct (routed_listener r e n x) as [_ _ u _] end.
    rewrite u. cbn. exact L.
Qed.

Lemma gap_on_naturals c s :
  (0 <= c)%Z -> (0 <= s)%Z -> (c + 1 < 2 ^ 53)%Z -> (s < 2 ^ 53)%Z ->
  (if js_gt (number s) (js_add (number c) (number 1))
   then [LogGap (js_add (number c) (number 1)) (number s)
                (js_sub (js_sub (number s) (number c)) (number 1))]
   else []) =
  (if (s >? c + 1)%Z
   then [LogGap (number (c + 1)) (number s) (number (s - c - 1))]
   else []).
Proof.
  intros Hc Hs Lc Ls.
  rewrite number_add, number_gt by lia.
  destruct (s >? c + 1)%Z eqn:G; [|reflexivity].
  apply Z.gtb_lt in G.
  rewrite (@number_sub s c), (@number_sub (s - c) 1) by lia. reflexivity.
Qed.

(** C6.  For an event frame that carries the number [s]: the cursor becomes
    [s] whatever it was, and a gap is logged exactly when there was a cursor
    [c] and [s > c + 1] as the program computes it, on doubles; for
    naturals below [2^53] that is the exact comparison, and the entry names
    [c + 1], [s] and [s - c - 1].  Whatever the number of the frame and the
    cursor, a ["chat"] frame whose run has a listener runs that listener on
    its payload: the frame of the stream becomes [on_event evt g].  Three
    ["chat"] frames numbered 1, 2, 5 for a run with a listener, on a
    connection whose cursor is unset or a natural, run the listener on the
    three payloads in that order and log one gap, the one between 2 and 5. *)
Theorem gap_is_logged_and_event_delivered :
  (forall w ev s payload now,
      let w' := handleMessage (EventFrame ev (Some s) payload) now w in
      lastSeq (this w') = Some s /\
      gaps w' = gaps w ++
                match lastSeq (this w) with
                | Some c =>
                    if js_gt s (js_add c (number 1))
                    then [LogGap (js_add c (number 1)) s (js_sub (js_sub s c) (number 1))]
                    else []
                | None => []
                end /\
      delivered w' = delivered w ++ deliveries ev payload w) /\
  (forall w ev c s payload now,
      (0 <= c)%Z -> (0 <= s)%Z -> (c + 1 < 2 ^ 53)%Z -> (s < 2 ^ 53)%Z ->
      lastSeq (this w) = Some (number c) ->
      gaps (handleMessage (EventFrame ev (Some (number s)) payload) now w) =
      gaps w ++ (if (s >? c + 1)%Z
                 then [LogGap (number (c + 1)) (number s) (number (s - c - 1))]
                 else [])) /\
  (forall w seq evt now r g,
      JsMap.get (ChatEvent.runId evt) (chatListeners (this w)) = Some r ->
      JsMap.get r (frames w) = Some g ->
      let w' := handleMessage (EventFrame "chat" seq (Some evt)) now w in
      JsMap.get r (frames w') = Some (on_event evt g) /\
      chatListeners (this w') = chatListeners (this w)) /\
  (forall w e1 e2 e5 t1 t2 t5 r g,
      (lastSeq (this w) = None \/
       exists c, (0 <= c)%Z /\ (c + 1 < 2 ^ 53)%Z /\ lastSeq (this w) = Some (number c)) ->
      JsMap.get (ChatEvent.runId e1) (chatListeners (this w)) = Some r ->
      JsMap.get (ChatEvent.runId e2) (chatListeners (this w)) = Some r ->
      JsMap.get (ChatEvent.runId e5) (chatListeners (this w)) = Some r ->
      JsMap.get r (frames w) = Some g ->
      let w' := handleMessage (EventFrame "chat" (Some (number 5)) (Some e5)) t5
                  (handleMessage (EventFrame "chat" (Some (number 2)) (Some e2)) t2
                     (handleMessage (EventFrame "chat" (Some (number 1)) (Some e1)) t1 w)) in
      JsMap.get r (frames w') = Some (on_event e5 (on_event e2 (on_event e1 g))) /\
      delivered w' = delivered w ++ [e1; e2; e5] /\
      gaps w' = gaps w ++ [LogGap (number 3) (number 5) (number 2)]).
Proof.
  split; [|split; [|split]].
  - intros w ev s payload now.
    destruct (handleMessage_event ev s payload now w) as (a & _ & c & d). auto.
  - intros w ev c s payload now Hc Hs Lc Ls Hw.
    destruct (handleMessage_event ev (number s) payload now w) as (_ & _ & G & _).
    rewrite G, Hw. f_equal. now apply gap_on_naturals.
  - intros w seq evt now r g. apply handleMessage_delivers.
  - intros w e1 e2 e5 t1 t2 t5 r g Hc H1 H2 H5 Hg. cbv zeta.
    destruct (handleMessage_event "chat" (number 1) (Some e1) t1 w) as (a1 & b1 & c1 & d1).
    destruct (@handleMessage_delivers (Some (number 1)) e1 t1 w r g H1 Hg) as [f1 _].
    remember (handleMessage (EventFrame "chat" (Some (number 1)) (Some e1)) t1 w) as w1.
    rewrite <- b1 in H2, H5.
    destruct (handleMessage_event "chat" (number 2) (Some e2) t2 w1) as (a2 & b2 & c2 & d2).
    destruct (@handleMessage_delivers (Some (number 2)) e2 t2 w1 r _ H2 f1) as [f2 _].
    remember (handleMessage (EventFrame "chat" (Some (number 2)) (Some e2)) t2 w1) as w2.
    rewrite <- b2 in H5.
    destruct (handleMessage_event "chat" (number 5) (Some e5) t5 w2) as (a5 & b5 & c5 & d5).
    destruct (@handleMessage_delivers (Some (number 5)) e5 t5 w2 r _ H5 f2) as [f5 _].
    split; [exact f5|]. split.
    + rewrite d5, d2, d1. unfold deliveries.
      change (String.eqb "chat" "chat") with true. cbv iota.
      rewrite H5, H2, H1. now rewrite <- !app_assoc.
    + rewrite c5, c2, c1, a2, a1.
      assert (G2 : (if js_gt (number 2) (js_add (number 1) (number 1))
                    then [LogGap (js_add (number 1) (number 1)) (number 2)
                                 (js_sub (js_sub (number 2) (number 1)) (number 1))]
                    else []) = []) by (vm_compute; reflexivity).
      assert (G5 : (if js_gt (number 5) (js_add (number 2) (number 1))
                    then [LogGap (js_add (number 2) (number 1)) (number 5)
                                 (js_sub (js_sub (number 5) (number 2)) (number 1))]
                    else []) = [LogGap (number 3) (number 5) (number 2)])
        by (vm_compute; reflexivity).
      rewrite G2, G5, app_nil_r.
      destruct Hc as [->|(c & Hc & Lc & ->)]; [now rewrite app_nil_r|].
      rewrite gap_on_naturals by lia.
      destruct (1 >? c + 1)%Z eqn:E; [lia|]. now rewrite app_nil_r.
Qed.

Lemma gap_is_logged_and_event_delivered_witness :
  let e1 := textEvent "r-1" "s1" 1 delta "He" in
  let e2 := textEvent "r-1" "s1" 2 delta "Hello" in
  let e5 := textEvent "r-1" "s1" 5 delta "Hello, world" in
  let w' := handleMessage (EventFrame "chat" (Some (number 5)) (Some e5)) 13
              (handleMessage (EventFrame "chat" (Some (number 2)) (Some e2)) 12
                 (handleMessage (EventFrame "chat" (Some (number 1)) (Some e1)) 11
                    streaming_world)) in
  option_map accumulated (JsMap.get "r-1" (frames w')) = Some "Hello, world" /\
  option_map lastEventSeq (JsMap.get "r-1" (frames w')) = Some 5%Z /\
  delivered w' = [e1; e2; e5] /\
  gaps w' = [LogGap (number 3) (number 5) (number 2)] /\
  gaps (handleMessage (EventFrame "tick" (Some (number 9)) None) 14 w') =
  [LogGap (number 3) (number 5) (number 2); LogGap (number 6) (number 9) (number 3)].
Proof.
  intros e1 e2 e5.
  destruct gap_is_logged_and_event_delivered as (_ & N & _ & B).
  assert (Hg : JsMap.get "r-1" (frames streaming_world) =
               Some (mkStream "s1" "" 0 false None false [] 0 false (AwaitRequest None) []))
    by (vm_compute; reflexivity).
  destruct (B streaming_world e1 e2 e5 11%Z 12%Z 13%Z "r-1" _ (or_introl eq_refl)
              eq_refl eq_refl eq_refl Hg) as (F & D & G).
  cbv zeta. rewrite F. split; [vm_compute; reflexivity|]. split; [vm_compute; reflexivity|].
  split; [exact D|]. split; [exact G|].
  rewrite (N _ "tick" 5%Z 9%Z None 14%Z); [| lia | lia | lia | lia |].
  - rewrite G. reflexivity.
  - destruct gap_is_logged_and_event_delivered as (A & _).
    destruct (A (handleMessage (EventFrame "chat" (Some (number 2)) (Some e2)) 12
                  (handleMessage (EventFrame "chat" (Some (number 1)) (Some e1)) 11
                     streaming_world)) "chat" (number 5) (Some e5) 13%Z) as (L & _).
    exact L.
Defined.

(** The claim as it is worded fails beyond [2^53]: with the cursor at
    9007199254740994 a frame numbered 9007199254740996 exceeds the cursor
    plus 1, and no gap is logged, because [lastSeq + 1] is rounded to
    9007199254740996. *)
Lemma gap_beyond_2_53_is_not_logged :
  let c := 9007199254740994%Z in
  let s := 9007199254740996%Z in
  let e1 := textEvent "r-1" "s1" 1 delta "He" in
  let e2 := textEvent "r-1" "s1" 2 delta "Hello" in
  let w := handleMessage (EventFrame "chat" (Some (number c)) (Some e1)) 11 streaming_world in
  let w' := handleMessage (EventFrame "chat" (Some (number s)) (Some e2)) 12 w in
  integer (number c) = Some c /\ integer (number s) = Some s /\ (s > c + 1)%Z /\
  lastSeq (this w) = Some (number c) /\ lastSeq (this w') = Some (number s) /\
  delivered w' = [e1; e2] /\ gaps w' = [].
Proof.
  vm_compute. repeat split.
Qed.

(** ** C4: the reconnect back-off *)

Lemma tame_refl w : tame w w.
Proof. now constructor. Qed.

Lemma tame_trans w1 w2 w3 : tame w1 w2 -> tame w2 w3 -> tame w1 w3.
Proof. intros [a1 a2 a3] [b1 b2 b3]. constructor; [auto|congruence|congruence]. Qed.

Lemma calm_tame w w' : calm w w' -> tame w w'.
Proof.
  intros [c1 c2 c3 c4 _]. constructor; [|exact c4|exact c3].
  intros x. now rewrite c1.
Qed.

Lemma tame_clearTimeout t w : tame w (clearTimeout t w).
Proof. now constructor. Qed.

Lemma tame_delete id w :
  tame w (on_this (fun c => set_pending (JsMap.delete id (pending c)) c) w).
Proof.
  constructor; [|reflexivity|reflexivity].
  intros x. cbn. unfold JsMap.delete. rewrite filter_In. tauto.
Qed.

Lemma tame_settle id wt o w : tame w (settle id wt o w).
Proof.
  unfold settle. apply calm_tame, calm_resume_waiter.
  now apply calm_eq with (w := w); try apply calm_refl.
Qed.

Lemma tame_pending_reject id p e w : tame w (pending_reject id p e w).
Proof.
  unfold pending_reject.
  eapply tame_trans; [apply (tame_clearTimeout (timeoutId p))|apply tame_settle].
Qed.

Lemma tame_pending_resolve id p w : tame w (pending_resolve id p w).
Proof.
  unfold pending_resolve.
  eapply tame_trans; [apply (tame_clearTimeout (timeoutId p))|apply tame_settle].
Qed.

Lemma tame_flushPending e w :
  tame w (flushPending e w) /\ pending (this (flushPending e w)) = [].
Proof.
  split; [|reflexivity].
  unfold flushPending.
  assert (F : tame w (fold_left (fun w0 x => pending_reject (fst x) (snd x) e w0)
                                (pending (this w)) w)).
  { apply (@fold_left_invariant World _ (tame w)); [|apply tame_refl].
    intros w1 b T. eapply tame_trans; [exact T|apply tame_pending_reject]. }
  destruct F as [f1 f2 f3]. constructor; [intros x []|exact f2|exact f3].
Qed.

Lemma tame_request_timeout id m wt w : tame w (request_timeout id m wt w).
Proof.
  unfold request_timeout.
  eapply tame_trans; [apply (tame_delete id)|apply tame_settle].
Qed.

Lemma tame_handleMessage f now w : tame w (handleMessage f now w).
Proof.
  unfold handleMessage. destruct f as [id ok err|ev sq payload| |].
  - destruct (JsMap.get id (pending (this w))) as [p|]; [|apply tame_refl].
    eapply tame_trans; [apply (tame_delete id)|].
    destruct ok; [apply tame_pending_resolve|apply tame_pending_reject].
  - apply calm_tame.
    assert (C : calm w (trackSeq sq w)) by (apply calm_trackSeq, calm_refl).
    destruct (String.eqb ev "chat"); [|exact C].
    destruct payload; [now apply calm_dispatch|now apply calm_logger].
  - apply tame_refl.
  - apply calm_tame, calm_logger, calm_refl.
Qed.

Lemma timers_apart_tame w w' : tame w w' -> timers_apart w -> timers_apart w'.
Proof.
  intros [t1 t2 t3] [P T]. constructor.
  - intros id p H. rewrite t2, t3. apply (P id p), t1, H.
  - intros t. rewrite t2, t3. apply T.
Qed.

Lemma In_set (V : Type) (k : string) (v : V) (m : JsMap.t V) x :
  In x (JsMap.set k v m) -> x = (k, v) \/ In x m.
Proof.
  induction m as [|[k' v'] r IH]; cbn.
  - intros [<-|[]]. now left.
  - destruct (String.eqb k k'); cbn; intros [<-|H]; auto.
    destruct (IH H); auto.
Qed.

Lemma timers_apart_request m id wt w w' :
  request m id wt w = Normal w' -> timers_apart w -> timers_apart w'.
Proof.
  intros R [P T]. destruct (@request_this _ _ _ _ _ R) as (r1 & _ & r3 & _).
  constructor.
  - intros id' p H. rewrite r1 in H |- *. rewrite r3. cbn in H |- *.
    apply In_set in H as [[= _ ->]|H].
    + cbn. split; [lia|]. intros E. apply T in E. lia.
    + destruct (P id' p H). split; [lia|assumption].
  - intros t. rewrite r1, r3. cbn. intros E. apply T in E. lia.
Qed.

(** After a handler that leaves no request pending. *)
Lemma timers_apart_flushed w :
  pending (this w) = [] ->
  (forall t, reconnectTimer (this w) = Some t -> t < nextTimer w) -> timers_apart w.
Proof.
  intros E T. constructor; [|exact T]. intros id p. rewrite E. intros [].
Qed.

Lemma timers_apart_scheduleReconnect w :
  pending (this w) = [] ->
  (forall t, reconnectTimer (this w) = Some t -> t < nextTimer w) ->
  timers_apart (scheduleReconnect w).
Proof.
  intros E T. unfold scheduleReconnect, setTimeout.
  destruct (reconnectTimer (this w)) as [t|] eqn:R.
  - apply timers_apart_flushed; [exact E|]. now rewrite R.
  - apply timers_apart_flushed; [exact E|]. cbn. intros t [= <-]. lia.
Qed.

Lemma timers_apart_handleClose now w : timers_apart w -> timers_apart (handleClose now w).
Proof.
  intros [P T]. rewrite handleClose_eq. cbv zeta.
  set (w0 := flushPending "connection closed" _).
  assert (T0 : tame w w0).
  { subst w0. eapply tame_trans; [|apply tame_flushPending].
    constructor; auto. }
  assert (E0 : pending (this w0) = []) by apply tame_flushPending.
  assert (C1 : calm w0 (notify_listeners now w0)) by (apply calm_notify_listeners, calm_refl).
  set (w1 := notify_listeners now w0) in *.
  assert (E1 : pending (this w1) = []) by (rewrite (ca_pending C1); exact E0).
  assert (T1 : forall t, reconnectTimer (this w1) = Some t -> t < nextTimer w1).
  { intros t. rewrite (ca_timer C1), (ca_next C1), (tm_timer T0), (tm_next T0). apply T. }
  destruct (negb (closed (this w1))).
  - apply timers_apart_scheduleReconnect; [exact E1|exact T1].
  - now apply timers_apart_flushed.
Qed.

Lemma timers_apart_close w : invariant w -> timers_apart (close w).
Proof.
  intros Hinv. apply timers_apart_flushed.
  - unfold close. apply tame_flushPending.
  - intros t E. pose proof (inv_closed (invariant_close Hinv) (closed_close w)) as N.
    congruence.
Qed.

Lemma tame_chatStream_start r id key now w :
  timers_apart w -> timers_apart (chatStream_start r id key now w).
Proof.
  intros P. unfold chatStream_start.
  destruct (JsMap.get r (frames w)); [exact P|].
  unfold getProgress.
  set (w1 := cleanupExpiredProgress now w).
  assert (Q1 : calm w w1) by (apply calm_cleanupExpiredProgress, calm_refl).
  set (w2 := match JsMap.get key (sessionProgress (this w1)) with
             | Some p => _ | None => w1 end).
  assert (Q2 : calm w w2) by (subst w2; calm).
  set (g := mkStream _ _ _ _ _ _ _ _ _ _ _).
  set (w3 := on_this _ (store r g w2)).
  assert (Q3 : tame w w3).
  { apply (tame_trans (calm_tame Q2)). subst w3. unfold store. constructor; cbn; auto. }
  pose proof (timers_apart_tame Q3 P) as P3.
  destruct (request "chat.send" id (AwaitChatSend r) w3) as [w4|e] eqn:R.
  - exact (@timers_apart_request _ _ _ _ _ R P3).
  - revert P3. apply timers_apart_tame.
    unfold stream_throw, stream_finally, store. constructor; cbn; auto.
Qed.

Lemma timers_apart_step w e : invariant w -> timers_apart w -> timers_apart (step w e).
Proof.
  intros Hinv P.
  destruct e as [| |id|r id key now|r|r|s id|s err|s f now|s now|t]; cbn [step].
  - revert P. apply timers_apart_tame, calm_tame, calm_connect, calm_refl.
  - now apply timers_apart_close.
  - unfold abortChat.
    destruct (request "chat.abort" id AwaitAbort w) as [w1|e] eqn:R; [|exact P].
    exact (@timers_apart_request _ _ _ _ _ R P).
  - now apply tame_chatStream_start.
  - revert P. apply timers_apart_tame, calm_tame, calm_chatStream_resume, calm_refl.
  - revert P. apply timers_apart_tame, calm_tame, calm_chatStream_next, calm_refl.
  - destruct (socketState s w) as [[| | |]|]; try exact P.
    assert (P1 : timers_apart (set_readyState s OPEN w)).
    { revert P. apply timers_apart_tame. now constructor. }
    unfold onOpen.
    destruct (request "connect" id (AwaitHandshake s) (set_readyState s OPEN w)) as [w1|e] eqn:R.
    + exact (@timers_apart_request _ _ _ _ _ R P1).
    + revert P1. apply timers_apart_tame, calm_tame, calm_settleAttempt, calm_refl.
  - destruct (socketState s w) as [[| | |]|]; try exact P;
      (revert P; apply timers_apart_tame, calm_tame, calm_onError, calm_set_readyState, calm_refl).
  - destruct (socketState s w) as [[| | |]|]; try exact P;
      (revert P; apply timers_apart_tame, tame_handleMessage).
  - destruct (socketState s w) as [[| | |]|]; try exact P;
      (apply timers_apart_handleClose; revert P; apply timers_apart_tame; now constructor).
  - destruct (find _ (timers w)) as [tm|]; [|exact P].
    destruct (callback tm) as [id m wt|].
    + revert P. apply timers_apart_tame.
      eapply tame_trans; [apply (tame_clearTimeout t)|apply tame_request_timeout].
    + unfold reconnect_callback.
      assert (C : calm (on_this (set_reconnectTimer None) (clearTimeout t w))
                       (snd (connect (on_this (set_reconnectTimer None) (clearTimeout t w)))))
        by (apply calm_connect, calm_refl).
      set (w1 := on_this (set_reconnectTimer None) (clearTimeout t w)) in *.
      assert (P1 : timers_apart w1).
      { destruct P as [Pp Pt]. constructor.
        - intros id p H. destruct (Pp id p H). split; [assumption|discriminate].
        - intros t0 [=]. }
      pose proof (timers_apart_tame (calm_tame C) P1) as P2.
      destruct (connect w1) as [[|e|a] w2]; cbn [snd] in *.
      * exact P2.
      * revert P2. apply timers_apart_tame. now constructor.
      * destruct (option_map promise (nth_error (sockets w2) a)) as [[[|e]|]|];
          try exact P2; (revert P2; apply timers_apart_tame; now constructor).
Qed.

Lemma reachable_timers_apart w : reachable w -> timers_apart w.
Proof.
  induction 1 as [|w e Hr IH].
  - constructor; [intros id p []|intros t [=]].
  - apply timers_apart_step; [now apply reachable_invariant|exact IH].
Qed.

Lemma one_timer_delay t d w :
  invariant w -> In (mkTimer t d Reconnect) (timers w) -> scheduled_delay w = Some d.
Proof.
  intros Hinv Hin.
  pose proof (invariant_one_timer Hinv) as Hone.
  assert (Hf : In (mkTimer t d Reconnect) (reconnect_timers w))
    by (apply filter_In; split; [exact Hin|reflexivity]).
  unfold scheduled_delay.
  destruct (reconnect_timers w) as [|a [|b l]]; cbn in *; try tauto; try lia.
  destruct Hf as [->|[]]. reflexivity.
Qed.

Lemma filter_implied (A : Type) (p g : A -> bool) (l : list A) :
  (forall x, In x l -> p x = true -> g x = true) -> filter p (filter g l) = filter p l.
Proof.
  induction l as [|x l IH]; intros H; [reflexivity|]. cbn.
  assert (IH' : filter p (filter g l) = filter p l) by (apply IH; intros y Hy; apply H; now right).
  destruct (p x) eqn:Px.
  - rewrite (H x (or_introl eq_refl) Px). cbn. now rewrite Px, IH'.
  - destruct (g x); cbn; now rewrite ?Px, IH'.
Qed.

(** What [handleClose] does about the reconnect timer when the client is
    not closed: it sets one with the current back-off if none is pending,
    and otherwise leaves the pending one where it is. *)
Lemma handleClose_timer now w :
  invariant w -> timers_apart w -> closed (this w) = false ->
  let w' := handleClose now w in
  match reconnectTimer (this w) with
  | None =>
      scheduled_delay w' = Some (backoffMs (this w)) /\
      exists tm, scheduled_by w w' = [tm] /\ delay tm = backoffMs (this w)
  | Some t =>
      scheduled_by w w' = [] /\ reconnectTimer (this w') = Some t /\
      reconnect_timers w' = reconnect_timers w /\
      backoffMs (this w') = backoffMs (this w)
  end.
Proof.
  intros Hinv P Hc. cbv zeta.
  pose proof (invariant_handleClose now Hinv) as Hinv'.
  rewrite handleClose_eq in *. cbv zeta in *.
  set (w00 := on_this (set_ws None) (on_this (set_disconnected true)
                (on_this (set_connected false) w))) in *.
  set (w0 := flushPending "connection closed" w00) in *.
  remember (notify_listeners now w0) as w1 eqn:E1.
  assert (F : frame (on_this (set_connected false) w) w1) by (subst w1 w0 w00; frames).
  destruct F as [f1 f2 f3 f4 f5 f6 [f Hf] _]. cbn in f1, f2, f3, f4, f5, Hf.
  rewrite f3, Hc in *. cbn [negb] in *.
  unfold scheduleReconnect in *.
  change (reconnectTimer (this (logger LogClosedReconnect w1)))
    with (reconnectTimer (this w1)) in *.
  rewrite f2 in *.
  assert (Hold : filter (fun tm => is_reconnect tm && (nextTimer w <=? timer_id tm)%nat)
                        (timers w1) = []).
  { rewrite Hf. now apply old_timers_not_scheduled. }
  destruct (reconnectTimer (this w)) as [t|] eqn:Hrt.
  - split; [exact Hold|]. split; [exact f2|]. split; [|exact f5].
    assert (C : calm w0 w1) by (subst w1; apply calm_notify_listeners, calm_refl).
    destruct (flush_fold "connection closed" (pending (this w00)) w00)
      as (_ & _ & _ & T & _). cbv zeta in T.
    unfold reconnect_timers.
    change (timers (logger LogClosedReconnect w1)) with (timers w1).
    rewrite (ca_timers C). subst w0. unfold flushPending.
    change (timers (on_this (set_pending JsMap.empty) ?x)) with (timers x).
    rewrite T. change (timers w00) with (timers w). change (pending (this w00)) with (pending (this w)).
    apply filter_implied. intros tm Hin Hr.
    apply negb_true_iff. apply not_true_iff_false. intros E.
    apply existsb_exists in E as ([id p] & Hp & Ht). cbn in Ht.
    apply Nat.eqb_eq in Ht.
    destruct (ta_pending P id p Hp) as [_ N]. apply N.
    pose proof (inv_reconnect Hinv tm Hin Hr) as R. congruence.
  - cbn in Hinv' |- *. split.
    + apply (@one_timer_delay (nextTimer w1) _ _ Hinv').
      cbn. apply in_or_app. right. left. now rewrite f5.
    + exists (mkTimer (nextTimer w1) (backoffMs (this w1)) Reconnect).
      unfold scheduled_by. cbn. rewrite filter_app, Hold. cbn.
      replace (nextTimer w <=? nextTimer w1)%nat with true
        by (symmetry; apply Nat.leb_le; lia).
      split; [reflexivity|exact f5].
Qed.

Lemma scheduled_by_frame w w0 w' :
  frame w w0 -> scheduled_by w w' = scheduled_by w0 w'.
Proof. intros F. unfold scheduled_by. now rewrite (fr_next F). Qed.

(** The loss of the connection of a connected client. *)
Lemma disconnect_timer s st now w :
  reachable w -> connected (this w) = true -> closed (this w) = false ->
  socketState s w = Some st -> st <> CLOSED ->
  let w1 := step w (SocketClose s now) in
  match reconnectTimer (this w) with
  | None =>
      scheduled_delay w1 = Some 1000%Z /\ map delay (scheduled_by w w1) = [1000%Z]
  | Some t =>
      scheduled_by w w1 = [] /\ reconnectTimer (this w1) = Some t /\
      reconnect_timers w1 = reconnect_timers w /\ backoffMs (this w1) = 1000%Z
  end.
Proof.
  intros Hr Hn Hc Hs Hst. cbv zeta.
  pose proof (reachable_invariant Hr) as Hinv.
  pose proof (reachable_timers_apart Hr) as P.
  pose proof (inv_backoff Hinv Hn) as B.
  assert (E : step w (SocketClose s now) = handleClose now (set_readyState s CLOSED w)).
  { cbn [step]. rewrite Hs. now destruct st. }
  rewrite E.
  assert (F0 : frame w (set_readyState s CLOSED w)) by frames.
  pose proof (invariant_frame F0 Hinv) as Hinv0.
  assert (P0 : timers_apart (set_readyState s CLOSED w)).
  { revert P. apply timers_apart_tame. now constructor. }
  pose proof (@handleClose_timer now _ Hinv0 P0 Hc) as H. cbv zeta in H.
  rewrite (scheduled_by_frame _ F0).
  change (reconnectTimer (this (set_readyState s CLOSED w))) with (reconnectTimer (this w)) in H.
  change (backoffMs (this (set_readyState s CLOSED w))) with (backoffMs (this w)) in H.
  change (reconnect_timers (set_readyState s CLOSED w)) with (reconnect_timers w) in H.
  rewrite B in H.
  destruct (reconnectTimer (this w)) as [t|].
  - exact H.
  - destruct H as (H1 & tm & H2 & H3). split; [exact H1|]. rewrite H2. cbn. now rewrite H3.
Qed.

(** C4.  Along every run that starts with an established connection and in
    which no connect succeeds, the delays of the reconnect timers that are
    set are 1000, 2000, 4000, 8000, 16000, 30000, 30000, ... ms, the [n]-th
    one being [min (1000 * 2^n) 30000], whatever makes the attempts fail.
    A connect that succeeds sets the back-off to 1000 ms.  When the
    connection is then lost, a timer is set only if none is pending: it
    has the delay 1000 ms; if a reconnect timer from before the connect is
    still pending, nothing is set, the back-off is not doubled, and that
    timer stays, with the delay it was set with.  After the disconnect and
    [n] attempts that fail because the new socket reports an error and
    closes, the timer that is scheduled has the delay
    [min (1000 * 2^n) 30000], and after an attempt that succeeds the next
    disconnect schedules 1000 ms.  In every reachable state at most one
    reconnect timer is scheduled. *)
Theorem backoff_doubles_is_capped_and_resets :
  (forall w es,
      reachable w -> connected (this w) = true -> no_connect w es ->
      scheduled_delays w es =
        map backoff_delay (seq 0 (List.length (scheduled_delays w es)))) /\
  (forall w s st now,
      reachable w -> connected (this w) = true -> closed (this w) = false ->
      socketState s w = Some st -> st <> CLOSED ->
      let w1 := step w (SocketClose s now) in
      match reconnectTimer (this w) with
      | None =>
          scheduled_delay w1 = Some 1000%Z /\ map delay (scheduled_by w w1) = [1000%Z]
      | Some t =>
          scheduled_by w w1 = [] /\ reconnectTimer (this w1) = Some t /\
          reconnect_timers w1 = reconnect_timers w /\ backoffMs (this w1) = 1000%Z
      end) /\
  (forall w s now fs,
      reachable w ->
      connected (this w) = true -> closed (this w) = false ->
      reconnectTimer (this w) = None -> connectPromise (this w) = None ->
      socketState s w = Some OPEN ->
      let w1 := failed_attempts fs (step w (SocketClose s now)) in
      scheduled_delay w1 = Some (backoff_delay (List.length fs)) /\
      forall id now' now'',
        let w2 := successful_attempt id now' w1 in
        connected (this w2) = true /\ backoffMs (this w2) = 1000%Z /\
        scheduled_delay (step w2 (SocketClose (List.length (sockets w1)) now'')) = Some 1000%Z) /\
  map backoff_delay (seq 0 7) = [1000; 2000; 4000; 8000; 16000; 30000; 30000]%Z /\
  (forall n, (5 <= n)%nat -> backoff_delay n = 30000%Z) /\
  (forall w e, reachable w -> connects w e -> backoffMs (this (step w e)) = 1000%Z) /\
  (forall w, reachable w -> (List.length (reconnect_timers w) <= 1)%nat).
Proof.
  split; [|split; [|split; [|split; [reflexivity|split; [|split]]]]].
  - intros w es Hr Hc Hno.
    pose proof (reachable_invariant Hr) as Hinv.
    apply (@doubling_closed_form (backoffMs (this w))).
    + now rewrite (inv_backoff Hinv Hc).
    + now apply doubling_run.
  - intros w s st now. apply disconnect_timer.
  - intros w s now fs Hr Hn Hc Ht Hp Hs w1.
    pose proof (reachable_invariant Hr) as Hinv.
    pose proof (@disconnect_awaiting s now w Hinv Hn Hc Ht Hp Hs) as A0.
    pose proof (@failed_attempts_awaiting fs _ _ A0) as A1.
    rewrite iter_next_backoff in A1. fold w1 in A1.
    split; [now apply awaiting_delay|].
    intros id now' now'' w2.
    destruct (@successful_attempt_connects _ id now' _ A1) as (i & c1 & c2 & c3 & c4 & c5 & c6).
    fold w2 in i, c1, c2, c3, c4, c5, c6.
    split; [exact c1|]. split; [exact c5|].
    apply awaiting_delay. now apply disconnect_awaiting.
  - intros n Hn. unfold backoff_delay.
    assert (2 ^ 5 <= 2 ^ Z.of_nat n)%Z by (apply Z.pow_le_mono_r; lia).
    change (2 ^ 5)%Z with 32%Z in H. lia.
  - intros w e Hr [_ Hc].
    apply (inv_backoff (invariant_step e (reachable_invariant Hr)) Hc).
  - intros w Hr. apply invariant_one_timer. now apply reachable_invariant.
Qed.

Lemma reachable_failed_attempts fs : forall w,
  reachable w -> reachable (failed_attempts fs w).
Proof.
  induction fs as [|f fs IH]; intros w H; [exact H|].
  apply (IH (failed_attempt (fst f) (snd f) w)). unfold failed_attempt.
  destruct (reconnectTimer (this w)); [now apply reachable_run|exact H].
Qed.

Lemma reachable_connected_while_waiting : reachable connected_while_waiting.
Proof.
  apply reachable_run, reachable_failed_attempts. repeat constructor.
Qed.

Lemma backoff_doubles_is_capped_and_resets_witness :
  let fs := [("ECONNREFUSED", 2); ("ECONNREFUSED", 3); ("ECONNREFUSED", 4)]%Z in
  let w1 := failed_attempts fs (step connected_world (SocketClose 0 1)) in
  reachable connected_world /\
  scheduled_delays connected_world two_failures = [1000; 2000; 4000]%Z /\
  scheduled_delay (step connected_world (SocketClose 0 1)) = Some 1000%Z /\
  scheduled_by connected_while_waiting (step connected_while_waiting (SocketClose 6 8)) = [] /\
  reconnect_timers (step connected_while_waiting (SocketClose 6 8)) =
    reconnect_timers connected_while_waiting /\
  scheduled_delay w1 = Some 8000%Z /\
  backoffMs (this (successful_attempt "c-2" 5 w1)) = 1000%Z /\
  scheduled_delay
    (step (successful_attempt "c-2" 5 w1) (SocketClose (List.length (sockets w1)) 6)) =
    Some 1000%Z /\
  (List.length (reconnect_timers (step connected_world (SocketClose 0 1))) <= 1)%nat.
Proof.
  intros fs w1.
  destruct backoff_doubles_is_capped_and_resets as (G & T & A & _ & _ & _ & D).
  assert (Hr : reachable connected_world) by (repeat constructor).
  assert (Hno : no_connect connected_world two_failures).
  { cbn [no_connect two_failures].
    repeat (split; [intros [H1 H2]; vm_compute in H1, H2; discriminate|]).
    exact I. }
  pose proof (G connected_world two_failures Hr eq_refl Hno) as H0.
  destruct (A connected_world 0%nat 1%Z fs Hr eq_refl eq_refl eq_refl eq_refl eq_refl)
    as (H1 & H2).
  destruct (H2 "c-2" 5%Z 6%Z) as (_ & H3 & H4).
  assert (S0 : socketState 0 connected_world = Some OPEN) by (vm_compute; reflexivity).
  assert (NC : OPEN <> CLOSED) by discriminate.
  pose proof (T connected_world 0%nat OPEN 1%Z Hr eq_refl eq_refl S0 NC) as T0.
  cbv zeta in T0.
  assert (R0 : reconnectTimer (this connected_world) = None) by (vm_compute; reflexivity).
  rewrite R0 in T0. destruct T0 as [T0 _].
  assert (S6 : socketState 6 connected_while_waiting = Some OPEN) by (vm_compute; reflexivity).
  assert (C6 : connected (this connected_while_waiting) = true) by (vm_compute; reflexivity).
  assert (K6 : closed (this connected_while_waiting) = false) by (vm_compute; reflexivity).
  pose proof (T connected_while_waiting 6%nat OPEN 8%Z reachable_connected_while_waiting
                C6 K6 S6 NC) as T6.
  cbv zeta in T6.
  assert (R6 : reconnectTimer (this connected_while_waiting) = Some 6%nat)
    by (vm_compute; reflexivity).
  rewrite R6 in T6. destruct T6 as (T6a & _ & T6b & _).
  split; [exact Hr|]. split; [rewrite H0; vm_compute; reflexivity|].
  split; [exact T0|]. split; [exact T6a|]. split; [exact T6b|].
  split; [unfold w1; rewrite H1; reflexivity|].
  split; [exact H3|]. split; [exact H4|].
  apply D. apply reach_step. exact Hr.
Defined.

(** The claim as it is worded fails when a reconnect timer is still
    pending at the moment a connect succeeds: five attempts have failed and
    the client waits for a timer of 30000 ms; a caller of [connect()] gets a
    connection, which resets the back-off to 1000 ms; that connection is
    lost, and no timer is set: the next attempt waits for the timer of
    30000 ms. *)
Lemma pending_timer_outlives_successful_connect :
  let w := connected_while_waiting in
  let w' := step w (SocketClose 6 8) in
  scheduled_delay five_failures = Some 30000%Z /\
  connected (this w) = true /\ backoffMs (this w) = 1000%Z /\
  connected (this w') = false /\ scheduled_by w w' = [] /\
  scheduled_delay w' = Some 30000%Z.
Proof.
  vm_compute. repeat split.
Qed.
